(** * MFEM slice: subdomain DOF maps, tensor-product kernels, FCT blending

    A shallow embedding of the functions of
    - [examples/maxwell-solver/ParDST/DofMapsDST.cpp]
    - [fem/quadinterpolator_byvdim_eval.cpp]
    - [examples/ex9.cpp]
    together with the properties stated about them.

    Conventions.  C++ [int] values are [Z] (or [nat] where the code uses them
    only as in-range array positions), [double] values are real numbers [R]
    (exact arithmetic), arrays are lists read with [nth] or, for raw pointers
    into device memory, total functions from addresses to values. *)

From Stdlib Require Import ZArith List Lia Bool Arith.
From Stdlib Require Import Reals Lra Psatz.
Import ListNotations.

(* ================================================================== *)
(** * Global index resolver ([get_rank], DofMapsDST.cpp:10-17) *)
(* ================================================================== *)

Module Rank.

Local Open Scope Z_scope.

(** [std::upper_bound] over a random-access range: the halving loop of the
    standard library.  [first] and [len] are the loop variables, [fuel] bounds
    the number of iterations (the loop halves [len], so [len] iterations are
    more than enough). *)
Fixpoint upper_bound_loop (fuel : nat) (v : list Z) (first len : nat)
  (val : Z) : nat :=
  match fuel with
  | O => first
  | S fuel' =>
      if Nat.eqb len 0 then first
      else
        let half := Nat.div2 len in
        let middle := (first + half)%nat in
        if val <? nth middle v 0
        then upper_bound_loop fuel' v first half val
        else upper_bound_loop fuel' v (middle + 1)%nat (len - half - 1)%nat val
  end.

Definition upper_bound (v : list Z) (val : Z) : nat :=
  upper_bound_loop (length v) v 0%nat (length v) val.

(** [int get_rank(int tdof, std::vector<int> & tdof_offsets)] *)
Definition get_rank (tdof : Z) (tdof_offsets : list Z) : Z :=
  let size := length tdof_offsets in
  if Nat.eqb size 1 then 0
  else Z.of_nat (upper_bound tdof_offsets tdof) - 1.

(** The offset table is sorted (non-decreasing). *)
Definition nondecreasing (T : list Z) : Prop :=
  forall i j, (i <= j < length T)%nat -> nth i T 0 <= nth j T 0.

(** The words of the specification: the index of the first offset strictly
    greater than [d] (the length of the table when there is none), found by a
    left-to-right scan. *)
Fixpoint first_greater (T : list Z) (d : Z) : nat :=
  match T with
  | [] => 0%nat
  | t :: T' => if d <? t then 0%nat else S (first_greater T' d)
  end.

(** The words of the specification: [p] is the largest index with
    [T[p] <= d]. *)
Definition largest_le (T : list Z) (d : Z) (p : Z) : Prop :=
  0 <= p < Z.of_nat (length T) /\
  nth (Z.to_nat p) T 0 <= d /\
  forall q, (Z.to_nat p < q < length T)%nat -> d < nth q T 0.

(** What a position [u] must satisfy to be the upper bound of [d] in [T]. *)
Definition is_upper (T : list Z) (d : Z) (u : nat) : Prop :=
  (u <= length T)%nat /\
  (forall i, (i < u)%nat -> nth i T 0 <= d) /\
  (forall i, (u <= i < length T)%nat -> d < nth i T 0).

Lemma div2_lt (n : nat) : (n <> 0 -> Nat.div2 n < n)%nat.
Proof.
  intros Hn. apply Nat.lt_div2. lia.
Qed.

Lemma is_upper_unique (T : list Z) (d : Z) (u u' : nat) :
  is_upper T d u -> is_upper T d u' -> u = u'.
Proof.
  intros (Hu & Hlo & Hhi) (Hu' & Hlo' & Hhi').
  destruct (Nat.lt_trichotomy u u') as [Hlt | [Heq | Hgt]]; [ | exact Heq | ].
  - assert (d < nth u T 0) by (apply Hhi; lia).
    assert (nth u T 0 <= d) by (apply Hlo'; lia). lia.
  - assert (d < nth u' T 0) by (apply Hhi'; lia).
    assert (nth u' T 0 <= d) by (apply Hlo; lia). lia.
Qed.

Lemma upper_bound_loop_spec (T : list Z) (d : Z) :
  nondecreasing T ->
  forall fuel first len,
    (len <= fuel)%nat ->
    (first + len <= length T)%nat ->
    (forall i, (i < first)%nat -> nth i T 0 <= d) ->
    (forall i, (first + len <= i < length T)%nat -> d < nth i T 0) ->
    is_upper T d (upper_bound_loop fuel T first len d).
Proof.
  intros Hs. induction fuel as [| fuel IH]; intros first len Hf Hb Hlo Hhi.
  - assert (len = 0%nat) by lia. subst. simpl.
    repeat split; [lia | exact Hlo | intros i Hi; apply Hhi; lia].
  - simpl. destruct (Nat.eqb_spec len 0) as [-> | Hne].
    + repeat split; [lia | exact Hlo | intros i Hi; apply Hhi; lia].
    + pose proof (div2_lt len Hne) as Hh.
      set (half := Nat.div2 len) in *. clearbody half.
      destruct (Z.ltb_spec d (nth (first + half) T 0)) as [Hlt | Hge].
      * apply IH; [lia | lia | exact Hlo | ].
        intros i Hi.
        destruct (Nat.lt_ge_cases i (first + len)) as [Hin | Hout].
        -- assert (nth (first + half) T 0 <= nth i T 0)
             by (apply Hs; lia). lia.
        -- apply Hhi; lia.
      * apply IH; [lia | lia | | ].
        -- intros i Hi.
           destruct (Nat.lt_ge_cases i first) as [Hin | Hout].
           ++ apply Hlo; exact Hin.
           ++ assert (nth i T 0 <= nth (first + half) T 0)
                by (apply Hs; lia). lia.
        -- intros i Hi. apply Hhi. lia.
Qed.

Lemma upper_bound_is_upper (T : list Z) (d : Z) :
  nondecreasing T -> is_upper T d (upper_bound T d).
Proof.
  intros Hs. unfold upper_bound.
  apply upper_bound_loop_spec; try assumption; try lia.
Qed.

Lemma nondecreasing_tail (t : Z) (T : list Z) :
  nondecreasing (t :: T) -> nondecreasing T.
Proof.
  intros Hs i j Hij. apply (Hs (S i) (S j)). simpl. lia.
Qed.

Lemma first_greater_is_upper (T : list Z) (d : Z) :
  nondecreasing T -> is_upper T d (first_greater T d).
Proof.
  induction T as [| t T IH]; intros Hs.
  - simpl. repeat split; [lia | intros i Hi; lia | intros i Hi; simpl in Hi; lia].
  - simpl. destruct (Z.ltb_spec d t) as [Hlt | Hge].
    + repeat split; [lia | intros i Hi; lia | ].
      intros i Hi. assert (nth 0 (t :: T) 0 <= nth i (t :: T) 0)
        by (apply Hs; simpl in *; lia).
      simpl nth at 1 in H. lia.
    + destruct (IH (nondecreasing_tail _ _ Hs)) as (Hu & Hlo & Hhi).
      repeat split.
      * simpl. lia.
      * intros [| i] Hi; simpl; [lia | apply Hlo; lia].
      * intros [| i] Hi; [lia | ]. simpl. apply Hhi. simpl in Hi. lia.
Qed.

Lemma upper_bound_first_greater (T : list Z) (d : Z) :
  nondecreasing T -> upper_bound T d = first_greater T d.
Proof.
  intros Hs. apply (is_upper_unique T d).
  - apply upper_bound_is_upper; exact Hs.
  - apply first_greater_is_upper; exact Hs.
Qed.

(** With [T[0] <= d] the upper bound is at least one and the position before
    it is the largest one holding an offset [<= d]. *)
Lemma is_upper_largest_le (T : list Z) (d : Z) (u : nat) :
  is_upper T d u -> (0 < length T)%nat -> nth 0 T 0 <= d ->
  largest_le T d (Z.of_nat u - 1).
Proof.
  intros (Hu & Hlo & Hhi) Hlen H0.
  assert (Hpos : (0 < u)%nat).
  { destruct u; [ | lia].
    assert (d < nth 0 T 0) by (apply Hhi; lia). lia. }
  unfold largest_le. replace (Z.to_nat (Z.of_nat u - 1)) with (u - 1)%nat by lia.
  repeat split; try lia.
  - apply Hlo. lia.
  - intros q Hq. apply Hhi. lia.
Qed.

(** C4, as amended: on a sorted table, a table of one entry gives rank 0
    whatever the index is; any other table gives the index of the first offset
    strictly greater than [d], minus one; and whenever the first offset is not
    above [d], the rank is the largest index [p] with [T[p] <= d] and equals
    the position before the first strictly greater offset (also for the
    one-entry table). *)
Theorem get_rank_sorted (T : list Z) (d : Z) :
  nondecreasing T ->
  (length T = 1%nat -> get_rank d T = 0) /\
  (length T <> 1%nat -> get_rank d T = Z.of_nat (first_greater T d) - 1) /\
  ((0 < length T)%nat -> nth 0 T 0 <= d ->
   largest_le T d (get_rank d T) /\
   get_rank d T = Z.of_nat (first_greater T d) - 1).
Proof.
  intros Hs. unfold get_rank.
  rewrite (upper_bound_first_greater T d Hs).
  pose proof (first_greater_is_upper T d Hs) as Hup.
  split; [ | split].
  - intros ->. reflexivity.
  - intros Hne. destruct (Nat.eqb_spec (length T) 1); [contradiction | reflexivity].
  - intros Hlen H0.
    destruct (Nat.eqb_spec (length T) 1) as [H1 | Hne].
    + destruct T as [| t [| t' T]]; simpl in H1; try discriminate.
      simpl in H0. split.
      * unfold largest_le. simpl. repeat split; try lia.
      * simpl. destruct (Z.ltb_spec d t); lia.
    + split; [ | reflexivity].
      apply is_upper_largest_le; assumption.
Qed.

Lemma get_rank_sorted_witness :
  nondecreasing [0; 4; 9] /\
  largest_le [0; 4; 9] 5 (get_rank 5 [0; 4; 9]) /\
  get_rank 5 [0; 4; 9] = 1.
Proof.
  assert (Hs : nondecreasing [0; 4; 9]).
  { intros i j Hij. simpl in Hij.
    destruct i as [| [| [| i]]]; destruct j as [| [| [| j]]]; simpl; lia. }
  split; [exact Hs | ].
  destruct (get_rank_sorted [0; 4; 9] 5 Hs) as (_ & _ & H3).
  split; [ | reflexivity].
  apply H3; simpl; lia.
Defined.

(** C4 as stated fails below the first offset: on the sorted table [5; 10]
    the index 3 gets rank -1, and no index [p] has [T[p] <= 3]. *)
Lemma get_rank_below_first_offset :
  nondecreasing [5; 10] /\
  get_rank 3 [5; 10] = -1 /\
  ~ largest_le [5; 10] 3 (get_rank 3 [5; 10]) /\
  ~ exists p, largest_le [5; 10] 3 p.
Proof.
  split.
  { intros i j Hij. simpl in Hij.
    destruct i as [| [| i]]; destruct j as [| [| j]]; simpl; lia. }
  split; [reflexivity | ].
  split.
  - intros (H & _). vm_compute in H. destruct H as [H _]. apply H. reflexivity.
  - intros (p & (Hp & Hle & _)). simpl in Hp.
    assert (Hc : p = 0 \/ p = 1) by lia.
    destruct Hc as [-> | ->]; simpl in Hle; lia.
Qed.

End Rank.

(* ================================================================== *)
(** * Host-side arrays and loops shared by the numerical kernels *)
(* ================================================================== *)

Module Arrays.

Local Open Scope R_scope.

(** Device memory behind a raw [double*]: one real per address.  Nothing is
    bounds-checked in the source, so neither is it here. *)
Definition mem := nat -> R.

Definition upd (m : mem) (a : nat) (v : R) : mem :=
  fun a' => if Nat.eqb a' a then v else m a'.

(** [for (int i = 0; i < n; i++) body(i)] over a state [St].  On the host
    [MFEM_FOREACH_THREAD(i,k,n)] and [MFEM_FORALL_2D/3D(e,NE,...)] are exactly
    this loop, [MFEM_THREAD_ID(z)] is 0 and [MFEM_SYNC_THREAD] does nothing. *)
Fixpoint forloop {St : Type} (n : nat) (body : nat -> St -> St) (s : St) : St :=
  match n with
  | O => s
  | S n' => body n' (forloop n' body s)
  end.

(** [a > b] and [a < b] on doubles, as booleans. *)
Definition Rgtb (a b : R) : bool := if Rlt_dec b a then true else false.
Definition Rltb (a b : R) : bool := if Rlt_dec a b then true else false.

(** [double u = 0.0; for (i < n) u += f(i);] *)
Definition sum_n (n : nat) (f : nat -> R) : R :=
  forloop n (fun i u => u + f i) 0.

(** ** Finite sums *)

Lemma sum_n_S (n : nat) (f : nat -> R) : sum_n (S n) f = sum_n n f + f n.
Proof. reflexivity. Qed.

Lemma sum_n_ext (n : nat) (f g : nat -> R) :
  (forall i, (i < n)%nat -> f i = g i) -> sum_n n f = sum_n n g.
Proof.
  induction n as [| n IH]; intros H; [reflexivity | ].
  rewrite !sum_n_S, IH, (H n) by auto with arith. reflexivity.
Qed.

Lemma sum_n_zero (n : nat) : sum_n n (fun _ => 0) = 0.
Proof.
  induction n as [| n IH]; [reflexivity | ].
  rewrite sum_n_S, IH. lra.
Qed.

Lemma sum_n_plus (n : nat) (f g : nat -> R) :
  sum_n n (fun i => f i + g i) = sum_n n f + sum_n n g.
Proof.
  induction n as [| n IH]; [unfold sum_n; simpl; lra | ].
  rewrite !sum_n_S, IH. lra.
Qed.

Lemma sum_n_scal_r (n : nat) (f : nat -> R) (c : R) :
  sum_n n f * c = sum_n n (fun i => f i * c).
Proof.
  induction n as [| n IH]; [unfold sum_n; simpl; lra | ].
  rewrite !sum_n_S, <- IH. lra.
Qed.

Lemma sum_n_swap (n m : nat) (f : nat -> nat -> R) :
  sum_n n (fun i => sum_n m (fun j => f i j)) =
  sum_n m (fun j => sum_n n (fun i => f i j)).
Proof.
  induction n as [| n IH].
  - unfold sum_n at 1. simpl. symmetry. apply sum_n_zero.
  - rewrite sum_n_S, IH, <- sum_n_plus. reflexivity.
Qed.

(** ** Loops that fill an array *)

(** [F] sets the addresses described by [W] (address, value) in the array
    [proj s] of its state and leaves every other address of it alone. *)
Definition writes_on {St : Type} (proj : St -> mem) (F : St -> St)
  (W : nat -> R -> Prop) : Prop :=
  forall s a,
    (forall v, W a v -> proj (F s) a = v) /\
    ((forall v, ~ W a v) -> proj (F s) a = proj s a).

Lemma upd_same (m : mem) (a : nat) (v : R) : upd m a v a = v.
Proof. unfold upd. rewrite Nat.eqb_refl. reflexivity. Qed.

Lemma upd_other (m : mem) (a a' : nat) (v : R) : a' <> a -> upd m a v a' = m a'.
Proof.
  intros H. unfold upd. destruct (Nat.eqb_spec a' a); [contradiction | reflexivity].
Qed.

Lemma upd_writes (a0 : nat) (v0 : R) :
  writes_on (fun m : mem => m) (fun m => upd m a0 v0)
            (fun a v => a = a0 /\ v = v0).
Proof.
  intros m a. split.
  - intros v [-> ->]. apply upd_same.
  - intros H. apply upd_other. intros ->. apply (H v0). split; reflexivity.
Qed.

Lemma forloop_writes_on {St : Type} (proj : St -> mem) (n : nat)
  (body : nat -> St -> St) (W : nat -> nat -> R -> Prop) :
  (forall i, (i < n)%nat -> writes_on proj (body i) (W i)) ->
  (forall i j a v w, (i < n)%nat -> (j < n)%nat ->
                     W i a v -> W j a w -> i = j) ->
  writes_on proj (forloop n body)
            (fun a v => exists i, (i < n)%nat /\ W i a v).
Proof.
  induction n as [| n IH]; intros Hb Hd s a.
  - split.
    + intros v (i & Hi & _). lia.
    + intros _. reflexivity.
  - assert (IH' : writes_on proj (forloop n body)
                    (fun a v => exists i, (i < n)%nat /\ W i a v)).
    { apply IH.
      - intros i Hi. apply Hb. lia.
      - intros i j a' v w Hi Hj. apply Hd; lia. }
    simpl. split.
    + intros v (i & Hi & Hw).
      destruct (Nat.eq_dec i n) as [-> | Hne].
      * apply (Hb n); [lia | exact Hw].
      * destruct (Hb n (Nat.lt_succ_diag_r n) (forloop n body s) a) as [_ Hfr].
        rewrite Hfr.
        -- apply IH'. exists i. split; [lia | exact Hw].
        -- intros w Hw'. apply Hne. apply (Hd i n a v w); [lia | lia | exact Hw | exact Hw'].
    + intros Hno.
      destruct (Hb n (Nat.lt_succ_diag_r n) (forloop n body s) a) as [_ Hfr].
      rewrite Hfr.
      * apply IH'. intros v (i & Hi & Hw). apply (Hno v). exists i. split; [lia | exact Hw].
      * intros w Hw. apply (Hno w). exists n. split; [lia | exact Hw].
Qed.

End Arrays.

(* ================================================================== *)
(** * Tensor-product evaluation kernels
      (quadinterpolator_byvdim_eval.cpp) *)
(* ================================================================== *)

Module Kernels.

Import Arrays.

Local Open Scope R_scope.

(** [T ? T : d]: a template parameter, or the run-time argument when the
    template parameter is 0. *)
Definition tparam (T d : nat) : nat := if Nat.eqb T 0 then d else T.

(** [Reshape] / [DeviceTensor]: the first index runs fastest. *)
Definition idx2 (n0 i0 i1 : nat) : nat := (i0 + n0 * i1)%nat.
Definition idx3 (n0 n1 i0 i1 i2 : nat) : nat := idx2 n0 i0 (idx2 n1 i1 i2).
Definition idx4 (n0 n1 n2 i0 i1 i2 i3 : nat) : nat :=
  idx2 n0 i0 (idx3 n1 n2 i1 i2 i3).
Definition idx5 (n0 n1 n2 n3 i0 i1 i2 i3 i4 : nat) : nat :=
  idx2 n0 i0 (idx4 n1 n2 n3 i1 i2 i3 i4).

(** The [MFEM_SHARED] buffers of the 2D kernel (slice [tidz = 0] of [s_DD]
    and [s_DQ]); they start with whatever the memory holds. *)
Record shared2D : Type := mkShared2D { s_B : mem; s_DD : mem; s_DQ : mem }.

(** The [MFEM_SHARED] buffers of the 3D kernel: [DDD] and [DQQ] are two views
    of [sm0], [DDQ] is a view of [sm1]. *)
Record shared3D : Type := mkShared3D { s_B3 : mem; sm0 : mem; sm1 : mem }.

Lemma idx2_inj (n i j i' j' : nat) :
  (i < n)%nat -> (i' < n)%nat -> idx2 n i j = idx2 n i' j' -> i = i' /\ j = j'.
Proof.
  unfold idx2. intros Hi Hi' H.
  assert (j = j') by nia. subst. split; [lia | reflexivity].
Qed.

Lemma idx3_inj (n0 n1 i j k i' j' k' : nat) :
  (i < n0)%nat -> (i' < n0)%nat -> (j < n1)%nat -> (j' < n1)%nat ->
  idx3 n0 n1 i j k = idx3 n0 n1 i' j' k' -> i = i' /\ j = j' /\ k = k'.
Proof.
  intros Hi Hi' Hj Hj' H. unfold idx3 in H.
  apply idx2_inj in H; try assumption. destruct H as [-> H].
  apply idx2_inj in H; try assumption. destruct H as [-> ->].
  repeat split.
Qed.

(** Two nested loops storing [val i j] at [addr i j]. *)
Lemma fill2_writes (n m : nat) (addr : nat -> nat -> nat)
  (val : nat -> nat -> R) :
  (forall i j i' j', (i < n)%nat -> (j < m)%nat -> (i' < n)%nat -> (j' < m)%nat ->
                     addr i j = addr i' j' -> i = i' /\ j = j') ->
  writes_on (fun A : mem => A)
    (forloop n (fun i A => forloop m (fun j A => upd A (addr i j) (val i j)) A))
    (fun a v => exists i, (i < n)%nat /\
                exists j, (j < m)%nat /\ a = addr i j /\ v = val i j).
Proof.
  intros Hinj. apply forloop_writes_on.
  - intros i Hi. apply (forloop_writes_on (fun A : mem => A) m).
    + intros j Hj. apply upd_writes.
    + intros j j' a v w Hj Hj' [Ha _] [Ha' _].
      apply (Hinj i j i j'); try assumption. congruence.
  - intros i i' a v w Hi Hi' (j & Hj & Ha & _) (j' & Hj' & Ha' & _).
    apply (Hinj i j i' j'); try assumption. congruence.
Qed.

(** Three nested loops storing [val i j k] at [addr i j k]. *)
Lemma fill3_writes (n m l : nat) (addr : nat -> nat -> nat -> nat)
  (val : nat -> nat -> nat -> R) :
  (forall i j k i' j' k',
      (i < n)%nat -> (j < m)%nat -> (k < l)%nat ->
      (i' < n)%nat -> (j' < m)%nat -> (k' < l)%nat ->
      addr i j k = addr i' j' k' -> i = i' /\ j = j' /\ k = k') ->
  writes_on (fun A : mem => A)
    (forloop n (fun i A =>
       forloop m (fun j A =>
         forloop l (fun k A => upd A (addr i j k) (val i j k)) A) A))
    (fun a v => exists i, (i < n)%nat /\
                exists j, (j < m)%nat /\
                exists k, (k < l)%nat /\ a = addr i j k /\ v = val i j k).
Proof.
  intros Hinj. apply forloop_writes_on.
  - intros i Hi. apply (fill2_writes m l (addr i) (val i)).
    intros j k j' k' Hj Hk Hj' Hk' He.
    destruct (Hinj i j k i j' k') as (_ & ? & ?); auto.
  - intros i i' a v w Hi Hi' (j & Hj & k & Hk & Ha & _) (j' & Hj' & k' & Hk' & Ha' & _).
    destruct (Hinj i j k i' j' k') as (? & _); auto. congruence.
Qed.

Lemma fill2_get (n m : nat) (addr : nat -> nat -> nat) (val : nat -> nat -> R)
  (A : mem) (i j : nat) :
  (forall i j i' j', (i < n)%nat -> (j < m)%nat -> (i' < n)%nat -> (j' < m)%nat ->
                     addr i j = addr i' j' -> i = i' /\ j = j') ->
  (i < n)%nat -> (j < m)%nat ->
  forloop n (fun i A => forloop m (fun j A => upd A (addr i j) (val i j)) A) A
    (addr i j) = val i j.
Proof.
  intros Hinj Hi Hj.
  apply (fill2_writes n m addr val Hinj A (addr i j)).
  exists i. split; [exact Hi | ]. exists j. auto.
Qed.

Lemma fill3_get (n m l : nat) (addr : nat -> nat -> nat -> nat)
  (val : nat -> nat -> nat -> R) (A : mem) (i j k : nat) :
  (forall i j k i' j' k',
      (i < n)%nat -> (j < m)%nat -> (k < l)%nat ->
      (i' < n)%nat -> (j' < m)%nat -> (k' < l)%nat ->
      addr i j k = addr i' j' k' -> i = i' /\ j = j' /\ k = k') ->
  (i < n)%nat -> (j < m)%nat -> (k < l)%nat ->
  forloop n (fun i A =>
    forloop m (fun j A =>
      forloop l (fun k A => upd A (addr i j k) (val i j k)) A) A) A
    (addr i j k) = val i j k.
Proof.
  intros Hinj Hi Hj Hk.
  apply (fill3_writes n m l addr val Hinj A (addr i j k)).
  exists i. split; [exact Hi | ]. exists j. split; [exact Hj | ]. exists k. auto.
Qed.

(** ** The 2D kernel body, over the kernel's local constants *)

Section Body2D.

Variables D1D Q1D VDIM MD1 : nat.
Variables b_ x_ : mem.

(** [b = Reshape(b_, Q1D, D1D)], [x = Reshape(x_, D1D, D1D, VDIM, NE)],
    [y = Reshape(y_, VDIM, Q1D, Q1D, NE)]. *)
Definition b2 (q d : nat) : R := b_ (idx2 Q1D q d).
Definition x2 (dx dy c e : nat) : R := x_ (idx4 D1D D1D VDIM dx dy c e).
Definition y2 (c qx qy e : nat) : nat := idx4 VDIM Q1D Q1D c qx qy e.

(** [B(q,d) = b(q,d)] for all [d], [q]. *)
Definition load_B2 (B : mem) : mem :=
  forloop D1D (fun d B =>
    forloop Q1D (fun q B => upd B (idx2 Q1D q d) (b2 q d)) B) B.

(** [DD(dx,dy) = x(dx,dy,c,e)]. *)
Definition load_DD (c e : nat) (DD : mem) : mem :=
  forloop D1D (fun dx DD =>
    forloop D1D (fun dy DD => upd DD (idx2 MD1 dx dy) (x2 dx dy c e)) DD) DD.

(** [DQ(dy,qx) = sum_dx B(qx,dx) * DD(dx,dy)]. *)
Definition contract_x2 (B DD : mem) (DQ : mem) : mem :=
  forloop D1D (fun dy DQ =>
    forloop Q1D (fun qx DQ =>
      let u := forloop D1D (fun dx u =>
                 u + B (idx2 Q1D qx dx) * DD (idx2 MD1 dx dy)) 0 in
      upd DQ (idx2 MD1 dy qx) u) DQ) DQ.

(** [y(c,qx,qy,e) = sum_dy DQ(dy,qx) * B(qy,dy)]. *)
Definition contract_y2 (B DQ : mem) (c e : nat) (y : mem) : mem :=
  forloop Q1D (fun qy y =>
    forloop Q1D (fun qx y =>
      let u := forloop D1D (fun dy u =>
                 u + DQ (idx2 MD1 dy qx) * B (idx2 Q1D qy dy)) 0 in
      upd y (y2 c qx qy e) u) y) y.

(** One pass of [for (int c = 0; c < VDIM; c++)]; the state is
    [(DD, DQ, y)]. *)
Definition component2D (B : mem) (e c : nat) (st : mem * mem * mem)
  : mem * mem * mem :=
  let '(DD, DQ, y) := st in
  let DD := load_DD c e DD in
  let DQ := contract_x2 B DD DQ in
  let y := contract_y2 B DQ c e y in
  (DD, DQ, y).

(** The body of [MFEM_FORALL_2D] for element [e]. *)
Definition element2D (sh : shared2D) (e : nat) (y : mem) : mem :=
  let B := load_B2 (s_B sh) in
  snd (forloop VDIM (component2D B e) (s_DD sh, s_DQ sh, y)).

(** The words of the specification: the dense tensor-product interpolation
    [sum over dx, dy of b(qx,dx) * b(qy,dy) * x(dx,dy,c,e)]. *)
Definition dense2D (c qx qy e : nat) : R :=
  sum_n D1D (fun dx =>
    sum_n D1D (fun dy => b2 qx dx * b2 qy dy * x2 dx dy c e)).

(** The scratch tensors are declared with extent [MD1]; the kernel is only
    instantiated with [D1D <= MD1]. *)
Hypothesis HD : (D1D <= MD1)%nat.

Lemma y2_inj (c qx qy e c' qx' qy' e' : nat) :
  (c < VDIM)%nat -> (qx < Q1D)%nat -> (qy < Q1D)%nat ->
  (c' < VDIM)%nat -> (qx' < Q1D)%nat -> (qy' < Q1D)%nat ->
  y2 c qx qy e = y2 c' qx' qy' e' ->
  c = c' /\ qx = qx' /\ qy = qy' /\ e = e'.
Proof.
  intros Hc Hx Hy Hc' Hx' Hy' H. unfold y2, idx4, idx3 in H.
  apply idx2_inj in H; try assumption. destruct H as [-> H].
  apply idx2_inj in H; try assumption. destruct H as [-> H].
  apply idx2_inj in H; try assumption. destruct H as [-> ->].
  repeat split.
Qed.

Lemma load_B2_get (B0 : mem) (q d : nat) :
  (q < Q1D)%nat -> (d < D1D)%nat -> load_B2 B0 (idx2 Q1D q d) = b2 q d.
Proof.
  intros Hq Hd. unfold load_B2.
  apply (fill2_get D1D Q1D (fun d q => idx2 Q1D q d) (fun d q => b2 q d));
    try assumption.
  intros i j i' j' _ Hj _ Hj' He.
  apply idx2_inj in He; try assumption. tauto.
Qed.

Lemma load_DD_get (c e : nat) (DD : mem) (dx dy : nat) :
  (dx < D1D)%nat -> (dy < D1D)%nat ->
  load_DD c e DD (idx2 MD1 dx dy) = x2 dx dy c e.
Proof.
  intros Hx Hy. unfold load_DD.
  apply (fill2_get D1D D1D (fun dx dy => idx2 MD1 dx dy)
           (fun dx dy => x2 dx dy c e)); try assumption.
  intros i j i' j' Hi _ Hi' _ He.
  apply idx2_inj in He; lia.
Qed.

Lemma contract_x2_get (B DD DQ : mem) (dy qx : nat) :
  (dy < D1D)%nat -> (qx < Q1D)%nat ->
  contract_x2 B DD DQ (idx2 MD1 dy qx) =
  sum_n D1D (fun dx => B (idx2 Q1D qx dx) * DD (idx2 MD1 dx dy)).
Proof.
  intros Hy Hx. unfold contract_x2.
  apply (fill2_get D1D Q1D (fun dy qx => idx2 MD1 dy qx)
           (fun dy qx =>
              sum_n D1D (fun dx => B (idx2 Q1D qx dx) * DD (idx2 MD1 dx dy))));
    try assumption.
  intros i j i' j' Hi _ Hi' _ He.
  apply idx2_inj in He; lia.
Qed.

Lemma contract_y2_writes (B DQ : mem) (c e : nat) :
  (c < VDIM)%nat ->
  writes_on (fun y : mem => y) (contract_y2 B DQ c e)
    (fun a v => exists qy, (qy < Q1D)%nat /\
                exists qx, (qx < Q1D)%nat /\ a = y2 c qx qy e /\
                  v = sum_n D1D (fun dy =>
                        DQ (idx2 MD1 dy qx) * B (idx2 Q1D qy dy))).
Proof.
  intros Hc. unfold contract_y2.
  apply (fill2_writes Q1D Q1D (fun qy qx => y2 c qx qy e)
           (fun qy qx =>
              sum_n D1D (fun dy => DQ (idx2 MD1 dy qx) * B (idx2 Q1D qy dy)))).
  intros i j i' j' Hi Hj Hi' Hj' He.
  apply y2_inj in He; try assumption. tauto.
Qed.

(** Distributing the second contraction over the first gives the dense
    double sum. *)
Lemma factor2D (c qx qy e : nat) :
  sum_n D1D (fun dy =>
    sum_n D1D (fun dx => b2 qx dx * x2 dx dy c e) * b2 qy dy) =
  dense2D c qx qy e.
Proof.
  unfold dense2D. rewrite sum_n_swap.
  apply sum_n_ext. intros dy _.
  rewrite sum_n_scal_r. apply sum_n_ext. intros dx _. ring.
Qed.

Lemma component2D_writes (B0 : mem) (e c : nat) :
  (c < VDIM)%nat ->
  writes_on (fun st : mem * mem * mem => snd st)
    (component2D (load_B2 B0) e c)
    (fun a v => exists qy, (qy < Q1D)%nat /\
                exists qx, (qx < Q1D)%nat /\ a = y2 c qx qy e /\
                  v = dense2D c qx qy e).
Proof.
  intros Hc [[DD DQ] y] a. unfold component2D. simpl snd.
  set (DD1 := load_DD c e DD).
  set (DQ1 := contract_x2 (load_B2 B0) DD1 DQ).
  destruct (contract_y2_writes (load_B2 B0) DQ1 c e Hc y a) as [Hset Hkeep].
  assert (Hval : forall qx qy, (qx < Q1D)%nat -> (qy < Q1D)%nat ->
            sum_n D1D (fun dy =>
              DQ1 (idx2 MD1 dy qx) * load_B2 B0 (idx2 Q1D qy dy)) =
            dense2D c qx qy e).
  { intros qx qy Hx Hy. rewrite <- factor2D.
    apply sum_n_ext. intros dy Hdy.
    unfold DQ1. rewrite contract_x2_get, load_B2_get by assumption.
    f_equal. apply sum_n_ext. intros dx Hdx.
    unfold DD1. rewrite load_B2_get, load_DD_get by assumption.
    reflexivity. }
  split.
  - intros v (qy & Hy & qx & Hx & Ha & Hv).
    apply Hset. exists qy. split; [exact Hy | ]. exists qx.
    split; [exact Hx | ]. split; [exact Ha | ].
    rewrite Hval by assumption. exact Hv.
  - intros Hno. apply Hkeep.
    intros v (qy & Hy & qx & Hx & Ha & Hv).
    apply (Hno (dense2D c qx qy e)).
    exists qy. split; [exact Hy | ]. exists qx. auto.
Qed.

Lemma element2D_writes (sh : shared2D) (e : nat) :
  writes_on (fun y : mem => y) (element2D sh e)
    (fun a v => exists c, (c < VDIM)%nat /\
                exists qy, (qy < Q1D)%nat /\
                exists qx, (qx < Q1D)%nat /\ a = y2 c qx qy e /\
                  v = dense2D c qx qy e).
Proof.
  intros y a. unfold element2D.
  assert (H : writes_on (fun st : mem * mem * mem => snd st)
                (forloop VDIM (component2D (load_B2 (s_B sh)) e))
                (fun a v => exists c, (c < VDIM)%nat /\
                   exists qy, (qy < Q1D)%nat /\
                   exists qx, (qx < Q1D)%nat /\ a = y2 c qx qy e /\
                     v = dense2D c qx qy e)).
  { apply forloop_writes_on.
    - intros c Hc. apply component2D_writes. exact Hc.
    - intros c c' a' v w Hc Hc' (qy & Hy & qx & Hx & Ha & _)
        (qy' & Hy' & qx' & Hx' & Ha' & _).
      subst a'. apply y2_inj in Ha'; try assumption. tauto. }
  exact (H (s_DD sh, s_DQ sh, y) a).
Qed.

Lemma kernel2D_writes (NE : nat) (sh : shared2D) :
  writes_on (fun y : mem => y) (forloop NE (element2D sh))
    (fun a v => exists e, (e < NE)%nat /\
                exists c, (c < VDIM)%nat /\
                exists qy, (qy < Q1D)%nat /\
                exists qx, (qx < Q1D)%nat /\ a = y2 c qx qy e /\
                  v = dense2D c qx qy e).
Proof.
  apply forloop_writes_on.
  - intros e _. apply element2D_writes.
  - intros e e' a v w _ _ (c & Hc & qy & Hy & qx & Hx & Ha & _)
      (c' & Hc' & qy' & Hy' & qx' & Hx' & Ha' & _).
    subst a. apply y2_inj in Ha'; try assumption. tauto.
Qed.

End Body2D.

(** [template<int T_VDIM, int T_D1D, int T_Q1D, int T_NBZ, int MAX_D1D,
    int MAX_Q1D> static void EvalByVDim2D(NE, b_, x_, y_, vdim, d1d, q1d)];
    the result is the memory behind [y_]. *)
Definition EvalByVDim2D (T_VDIM T_D1D T_Q1D T_NBZ MAX_D1D MAX_Q1D : nat)
  (NE : nat) (b_ x_ y_ : mem) (vdim d1d q1d : nat) (sh : shared2D) : mem :=
  let D1D := tparam T_D1D d1d in
  let Q1D := tparam T_Q1D q1d in
  let VDIM := tparam T_VDIM vdim in
  let MD1 := tparam T_D1D MAX_D1D in
  forloop NE (element2D D1D Q1D VDIM MD1 b_ x_ sh) y_.

(** ** The 3D kernel body *)

Section Body3D.

Variables D1D Q1D VDIM MD1 MQ1 : nat.
Variables b_ x_ : mem.

Definition b3 (q d : nat) : R := b_ (idx2 Q1D q d).
Definition x3 (dx dy dz c e : nat) : R :=
  x_ (idx5 D1D D1D D1D VDIM dx dy dz c e).
Definition y3 (c qx qy qz e : nat) : nat :=
  idx5 VDIM Q1D Q1D Q1D c qx qy qz e.

Definition load_B3 (B : mem) : mem :=
  forloop D1D (fun d B =>
    forloop Q1D (fun q B => upd B (idx2 Q1D q d) (b3 q d)) B) B.

(** [DDD(dx,dy,dz) = x(dx,dy,dz,c,e)], into [sm0]. *)
Definition load_DDD (c e : nat) (m0 : mem) : mem :=
  forloop D1D (fun dz m0 =>
    forloop D1D (fun dy m0 =>
      forloop D1D (fun dx m0 =>
        upd m0 (idx3 MD1 MD1 dx dy dz) (x3 dx dy dz c e)) m0) m0) m0.

(** [DDQ(dz,dy,qx) = sum_dx B(qx,dx) * DDD(dx,dy,dz)], from [sm0] into
    [sm1]. *)
Definition contract_x3 (B m0 : mem) (m1 : mem) : mem :=
  forloop D1D (fun dz m1 =>
    forloop D1D (fun dy m1 =>
      forloop Q1D (fun qx m1 =>
        let u := forloop D1D (fun dx u =>
                   u + B (idx2 Q1D qx dx) * m0 (idx3 MD1 MD1 dx dy dz)) 0 in
        upd m1 (idx3 MD1 MD1 dz dy qx) u) m1) m1) m1.

(** [DQQ(dz,qy,qx) = sum_dy DDQ(dz,dy,qx) * B(qy,dy)], from [sm1] into
    [sm0]. *)
Definition contract_y3 (B m1 : mem) (m0 : mem) : mem :=
  forloop D1D (fun dz m0 =>
    forloop Q1D (fun qy m0 =>
      forloop Q1D (fun qx m0 =>
        let u := forloop D1D (fun dy u =>
                   u + m1 (idx3 MD1 MD1 dz dy qx) * B (idx2 Q1D qy dy)) 0 in
        upd m0 (idx3 MD1 MQ1 dz qy qx) u) m0) m0) m0.

(** [y(c,qx,qy,qz,e) = sum_dz DQQ(dz,qy,qx) * B(qz,dz)], from [sm0]. *)
Definition contract_z3 (B m0 : mem) (c e : nat) (y : mem) : mem :=
  forloop Q1D (fun qz y =>
    forloop Q1D (fun qy y =>
      forloop Q1D (fun qx y =>
        let u := forloop D1D (fun dz u =>
                   u + m0 (idx3 MD1 MQ1 dz qy qx) * B (idx2 Q1D qz dz)) 0 in
        upd y (y3 c qx qy qz e) u) y) y) y.

(** One pass of the component loop; the state is [(sm0, sm1, y)]. *)
Definition component3D (B : mem) (e c : nat) (st : mem * mem * mem)
  : mem * mem * mem :=
  let '(m0, m1, y) := st in
  let m0 := load_DDD c e m0 in
  let m1 := contract_x3 B m0 m1 in
  let m0 := contract_y3 B m1 m0 in
  let y := contract_z3 B m0 c e y in
  (m0, m1, y).

Definition element3D (sh : shared3D) (e : nat) (y : mem) : mem :=
  let B := load_B3 (s_B3 sh) in
  snd (forloop VDIM (component3D B e) (sm0 sh, sm1 sh, y)).

(** The words of the specification: the dense tensor-product interpolation
    [sum over dx, dy, dz of b(qx,dx) * b(qy,dy) * b(qz,dz) * x(dx,dy,dz,c,e)]. *)
Definition dense3D (c qx qy qz e : nat) : R :=
  sum_n D1D (fun dx =>
    sum_n D1D (fun dy =>
      sum_n D1D (fun dz =>
        b3 qx dx * b3 qy dy * b3 qz dz * x3 dx dy dz c e))).

(** The scratch tensors are declared with extents [MD1] and [MQ1]; the kernel
    is only instantiated with [D1D <= MD1] and [Q1D <= MQ1]. *)
Hypothesis HD : (D1D <= MD1)%nat.
Hypothesis HQ : (Q1D <= MQ1)%nat.

Lemma y3_inj (c qx qy qz e c' qx' qy' qz' e' : nat) :
  (c < VDIM)%nat -> (qx < Q1D)%nat -> (qy < Q1D)%nat -> (qz < Q1D)%nat ->
  (c' < VDIM)%nat -> (qx' < Q1D)%nat -> (qy' < Q1D)%nat -> (qz' < Q1D)%nat ->
  y3 c qx qy qz e = y3 c' qx' qy' qz' e' ->
  c = c' /\ qx = qx' /\ qy = qy' /\ qz = qz' /\ e = e'.
Proof.
  intros Hc Hx Hy Hz Hc' Hx' Hy' Hz' H. unfold y3, idx5, idx4, idx3 in H.
  apply idx2_inj in H; try assumption. destruct H as [-> H].
  apply idx2_inj in H; try assumption. destruct H as [-> H].
  apply idx2_inj in H; try assumption. destruct H as [-> H].
  apply idx2_inj in H; try assumption. destruct H as [-> ->].
  repeat split.
Qed.

Lemma load_B3_get (B0 : mem) (q d : nat) :
  (q < Q1D)%nat -> (d < D1D)%nat -> load_B3 B0 (idx2 Q1D q d) = b3 q d.
Proof.
  intros Hq Hd. unfold load_B3.
  apply (fill2_get D1D Q1D (fun d q => idx2 Q1D q d) (fun d q => b3 q d));
    try assumption.
  intros i j i' j' _ Hj _ Hj' He.
  apply idx2_inj in He; try assumption. tauto.
Qed.

Lemma load_DDD_get (c e : nat) (m0 : mem) (dx dy dz : nat) :
  (dx < D1D)%nat -> (dy < D1D)%nat -> (dz < D1D)%nat ->
  load_DDD c e m0 (idx3 MD1 MD1 dx dy dz) = x3 dx dy dz c e.
Proof.
  intros Hx Hy Hz. unfold load_DDD.
  apply (fill3_get D1D D1D D1D (fun dz dy dx => idx3 MD1 MD1 dx dy dz)
           (fun dz dy dx => x3 dx dy dz c e)); try assumption.
  intros i j k i' j' k' Hi Hj Hk Hi' Hj' Hk' He.
  apply idx3_inj in He; lia.
Qed.

Lemma contract_x3_get (B m0 m1 : mem) (dz dy qx : nat) :
  (dz < D1D)%nat -> (dy < D1D)%nat -> (qx < Q1D)%nat ->
  contract_x3 B m0 m1 (idx3 MD1 MD1 dz dy qx) =
  sum_n D1D (fun dx => B (idx2 Q1D qx dx) * m0 (idx3 MD1 MD1 dx dy dz)).
Proof.
  intros Hz Hy Hx. unfold contract_x3.
  apply (fill3_get D1D D1D Q1D (fun dz dy qx => idx3 MD1 MD1 dz dy qx)
           (fun dz dy qx =>
              sum_n D1D (fun dx =>
                B (idx2 Q1D qx dx) * m0 (idx3 MD1 MD1 dx dy dz))));
    try assumption.
  intros i j k i' j' k' Hi Hj Hk Hi' Hj' Hk' He.
  apply idx3_inj in He; lia.
Qed.

Lemma contract_y3_get (B m1 m0 : mem) (dz qy qx : nat) :
  (dz < D1D)%nat -> (qy < Q1D)%nat -> (qx < Q1D)%nat ->
  contract_y3 B m1 m0 (idx3 MD1 MQ1 dz qy qx) =
  sum_n D1D (fun dy => m1 (idx3 MD1 MD1 dz dy qx) * B (idx2 Q1D qy dy)).
Proof.
  intros Hz Hy Hx. unfold contract_y3.
  apply (fill3_get D1D Q1D Q1D (fun dz qy qx => idx3 MD1 MQ1 dz qy qx)
           (fun dz qy qx =>
              sum_n D1D (fun dy =>
                m1 (idx3 MD1 MD1 dz dy qx) * B (idx2 Q1D qy dy))));
    try assumption.
  intros i j k i' j' k' Hi Hj Hk Hi' Hj' Hk' He.
  apply idx3_inj in He; lia.
Qed.

Lemma contract_z3_writes (B m0 : mem) (c e : nat) :
  (c < VDIM)%nat ->
  writes_on (fun y : mem => y) (contract_z3 B m0 c e)
    (fun a v => exists qz, (qz < Q1D)%nat /\
                exists qy, (qy < Q1D)%nat /\
                exists qx, (qx < Q1D)%nat /\ a = y3 c qx qy qz e /\
                  v = sum_n D1D (fun dz =>
                        m0 (idx3 MD1 MQ1 dz qy qx) * B (idx2 Q1D qz dz))).
Proof.
  intros Hc. unfold contract_z3.
  apply (fill3_writes Q1D Q1D Q1D (fun qz qy qx => y3 c qx qy qz e)
           (fun qz qy qx =>
              sum_n D1D (fun dz =>
                m0 (idx3 MD1 MQ1 dz qy qx) * B (idx2 Q1D qz dz)))).
  intros i j k i' j' k' Hi Hj Hk Hi' Hj' Hk' He.
  apply y3_inj in He; try assumption. tauto.
Qed.

(** Distributing the later contractions over the earlier ones and reordering
    the three sums gives the dense triple sum. *)
Lemma factor3D (c qx qy qz e : nat) :
  sum_n D1D (fun dz =>
    sum_n D1D (fun dy =>
      sum_n D1D (fun dx => b3 qx dx * x3 dx dy dz c e) * b3 qy dy)
    * b3 qz dz) =
  dense3D c qx qy qz e.
Proof.
  unfold dense3D.
  set (F := fun dx dy dz => b3 qx dx * b3 qy dy * b3 qz dz * x3 dx dy dz c e).
  transitivity
    (sum_n D1D (fun dz => sum_n D1D (fun dy => sum_n D1D (fun dx => F dx dy dz)))).
  { apply sum_n_ext. intros dz _. rewrite sum_n_scal_r.
    apply sum_n_ext. intros dy _. rewrite !sum_n_scal_r.
    apply sum_n_ext. intros dx _. unfold F. ring. }
  rewrite (sum_n_swap D1D D1D
             (fun dz dy => sum_n D1D (fun dx => F dx dy dz))).
  transitivity
    (sum_n D1D (fun dy => sum_n D1D (fun dx => sum_n D1D (fun dz => F dx dy dz)))).
  { apply sum_n_ext. intros dy _.
    apply (sum_n_swap D1D D1D (fun dz dx => F dx dy dz)). }
  apply (sum_n_swap D1D D1D (fun dy dx => sum_n D1D (fun dz => F dx dy dz))).
Qed.

Lemma component3D_writes (B0 : mem) (e c : nat) :
  (c < VDIM)%nat ->
  writes_on (fun st : mem * mem * mem => snd st)
    (component3D (load_B3 B0) e c)
    (fun a v => exists qz, (qz < Q1D)%nat /\
                exists qy, (qy < Q1D)%nat /\
                exists qx, (qx < Q1D)%nat /\ a = y3 c qx qy qz e /\
                  v = dense3D c qx qy qz e).
Proof.
  intros Hc [[m0 m1] y] a. unfold component3D. simpl snd.
  set (B := load_B3 B0).
  set (m0a := load_DDD c e m0).
  set (m1a := contract_x3 B m0a m1).
  set (m0b := contract_y3 B m1a m0a).
  destruct (contract_z3_writes B m0b c e Hc y a) as [Hset Hkeep].
  assert (Hval : forall qx qy qz,
            (qx < Q1D)%nat -> (qy < Q1D)%nat -> (qz < Q1D)%nat ->
            sum_n D1D (fun dz =>
              m0b (idx3 MD1 MQ1 dz qy qx) * B (idx2 Q1D qz dz)) =
            dense3D c qx qy qz e).
  { intros qx qy qz Hx Hy Hz. rewrite <- factor3D.
    apply sum_n_ext. intros dz Hdz.
    unfold m0b. rewrite contract_y3_get by assumption.
    unfold B at 2. rewrite load_B3_get by assumption.
    f_equal. apply sum_n_ext. intros dy Hdy.
    unfold m1a. rewrite contract_x3_get by assumption.
    unfold B at 2. rewrite load_B3_get by assumption.
    f_equal. apply sum_n_ext. intros dx Hdx.
    unfold m0a, B. rewrite load_B3_get, load_DDD_get by assumption.
    reflexivity. }
  split.
  - intros v (qz & Hz & qy & Hy & qx & Hx & Ha & Hv).
    apply Hset. exists qz. split; [exact Hz | ]. exists qy.
    split; [exact Hy | ]. exists qx. split; [exact Hx | ].
    split; [exact Ha | ]. rewrite Hval by assumption. exact Hv.
  - intros Hno. apply Hkeep.
    intros v (qz & Hz & qy & Hy & qx & Hx & Ha & Hv).
    apply (Hno (dense3D c qx qy qz e)).
    exists qz. split; [exact Hz | ]. exists qy. split; [exact Hy | ].
    exists qx. auto.
Qed.

Lemma element3D_writes (sh : shared3D) (e : nat) :
  writes_on (fun y : mem => y) (element3D sh e)
    (fun a v => exists c, (c < VDIM)%nat /\
                exists qz, (qz < Q1D)%nat /\
                exists qy, (qy < Q1D)%nat /\
                exists qx, (qx < Q1D)%nat /\ a = y3 c qx qy qz e /\
                  v = dense3D c qx qy qz e).
Proof.
  intros y a. unfold element3D.
  assert (H : writes_on (fun st : mem * mem * mem => snd st)
                (forloop VDIM (component3D (load_B3 (s_B3 sh)) e))
                (fun a v => exists c, (c < VDIM)%nat /\
                   exists qz, (qz < Q1D)%nat /\
                   exists qy, (qy < Q1D)%nat /\
                   exists qx, (qx < Q1D)%nat /\ a = y3 c qx qy qz e /\
                     v = dense3D c qx qy qz e)).
  { apply forloop_writes_on.
    - intros c Hc. apply component3D_writes. exact Hc.
    - intros c c' a' v w Hc Hc' (qz & Hz & qy & Hy & qx & Hx & Ha & _)
        (qz' & Hz' & qy' & Hy' & qx' & Hx' & Ha' & _).
      subst a'. apply y3_inj in Ha'; try assumption. tauto. }
  exact (H (sm0 sh, sm1 sh, y) a).
Qed.

Lemma kernel3D_writes (NE : nat) (sh : shared3D) :
  writes_on (fun y : mem => y) (forloop NE (element3D sh))
    (fun a v => exists e, (e < NE)%nat /\
                exists c, (c < VDIM)%nat /\
                exists qz, (qz < Q1D)%nat /\
                exists qy, (qy < Q1D)%nat /\
                exists qx, (qx < Q1D)%nat /\ a = y3 c qx qy qz e /\
                  v = dense3D c qx qy qz e).
Proof.
  apply forloop_writes_on.
  - intros e _. apply element3D_writes.
  - intros e e' a v w _ _ (c & Hc & qz & Hz & qy & Hy & qx & Hx & Ha & _)
      (c' & Hc' & qz' & Hz' & qy' & Hy' & qx' & Hx' & Ha' & _).
    subst a. apply y3_inj in Ha'; try assumption. tauto.
Qed.

End Body3D.

(** [template<int T_VDIM, int T_D1D, int T_Q1D, int MAX_D1D, int MAX_Q1D>
    static void EvalByVDim3D(NE, b_, x_, y_, vdim, d1d, q1d)]. *)
Definition EvalByVDim3D (T_VDIM T_D1D T_Q1D MAX_D1D MAX_Q1D : nat)
  (NE : nat) (b_ x_ y_ : mem) (vdim d1d q1d : nat) (sh : shared3D) : mem :=
  let D1D := tparam T_D1D d1d in
  let Q1D := tparam T_Q1D q1d in
  let VDIM := tparam T_VDIM vdim in
  let MQ1 := tparam T_Q1D MAX_Q1D in
  let MD1 := tparam T_D1D MAX_D1D in
  forloop NE (element3D D1D Q1D VDIM MD1 MQ1 b_ x_ sh) y_.

(** ** [QuadratureInterpolator::Values<QVectorLayout::byVDIM>] *)

(** How a call ends: it returns with the output memory, or the run is
    aborted by [MFEM_VERIFY]. *)
Inductive outcome : Type :=
| Returned (y : mem)
| Aborted.

(** [const int id = (dim<<12) | (vdim<<8) | (D1D<<4) | Q1D;] *)
Definition kernel_id (dim vdim D1D Q1D : nat) : Z :=
  Z.lor (Z.lor (Z.lor (Z.shiftl (Z.of_nat dim) 12) (Z.shiftl (Z.of_nat vdim) 8))
               (Z.shiftl (Z.of_nat D1D) 4))
        (Z.of_nat Q1D).

(** The thirteen [case] labels of the [switch]: the kernels instantiated at
    compile time. *)
Definition fast_path (id : Z) (NE : nat) (B X Y : mem)
  (sh2 : shared2D) (sh3 : shared3D) : option mem :=
  match id with
  | 0x2124 => Some (EvalByVDim2D 1 2 4 8 0 0 NE B X Y 0 0 0 sh2)
  | 0x2136 => Some (EvalByVDim2D 1 3 6 4 0 0 NE B X Y 0 0 0 sh2)
  | 0x2148 => Some (EvalByVDim2D 1 4 8 2 0 0 NE B X Y 0 0 0 sh2)
  | 0x2224 => Some (EvalByVDim2D 2 2 4 8 0 0 NE B X Y 0 0 0 sh2)
  | 0x2234 => Some (EvalByVDim2D 2 3 4 8 0 0 NE B X Y 0 0 0 sh2)
  | 0x2236 => Some (EvalByVDim2D 2 3 6 4 0 0 NE B X Y 0 0 0 sh2)
  | 0x2248 => Some (EvalByVDim2D 2 4 8 2 0 0 NE B X Y 0 0 0 sh2)
  | 0x3124 => Some (EvalByVDim3D 1 2 4 0 0 NE B X Y 0 0 0 sh3)
  | 0x3136 => Some (EvalByVDim3D 1 3 6 0 0 NE B X Y 0 0 0 sh3)
  | 0x3148 => Some (EvalByVDim3D 1 4 8 0 0 NE B X Y 0 0 0 sh3)
  | 0x3324 => Some (EvalByVDim3D 3 2 4 0 0 NE B X Y 0 0 0 sh3)
  | 0x3336 => Some (EvalByVDim3D 3 3 6 0 0 NE B X Y 0 0 0 sh3)
  | 0x3348 => Some (EvalByVDim3D 3 4 8 0 0 NE B X Y 0 0 0 sh3)
  | _ => None
  end%Z.

(** The [default:] label: [MD1 = 8], [MQ1 = 8], the two [MFEM_VERIFY]s, then
    the kernels with all template sizes 0. *)
Definition generic_path (dim vdim D1D Q1D NE : nat) (B X Y : mem)
  (sh2 : shared2D) (sh3 : shared3D) : outcome :=
  let MD1 := 8%nat in
  let MQ1 := 8%nat in
  if negb (Nat.leb D1D MD1) then Aborted
  else if negb (Nat.leb Q1D MQ1) then Aborted
  else
    let Y1 := if Nat.eqb dim 2
              then EvalByVDim2D 0 0 0 0 MD1 MQ1 NE B X Y vdim D1D Q1D sh2
              else Y in
    let Y2 := if Nat.eqb dim 3
              then EvalByVDim3D 0 0 0 MD1 MQ1 NE B X Y1 vdim D1D Q1D sh3
              else Y1 in
    Returned Y2.

(** [Values]: [NE], [vdim], [dim] come from the space, [D1D = maps.ndof],
    [Q1D = maps.nqpt], [B], [X], [Y] are the three arrays. *)
Definition Values (NE vdim dim D1D Q1D : nat) (B X Y : mem)
  (sh2 : shared2D) (sh3 : shared3D) : outcome :=
  if Nat.eqb NE 0 then Returned Y
  else
    let id := kernel_id dim vdim D1D Q1D in
    match fast_path id NE B X Y sh2 sh3 with
    | Some Y' => Returned Y'
    | None => generic_path dim vdim D1D Q1D NE B X Y sh2 sh3
    end.

(** The [case] labels, as a list. *)
Definition fast_ids : list Z :=
  [0x2124; 0x2136; 0x2148; 0x2224; 0x2234; 0x2236; 0x2248;
   0x3124; 0x3136; 0x3148; 0x3324; 0x3336; 0x3348]%Z.

(** ** The kernels compute the dense contraction *)

Lemma EvalByVDim2D_dense
  (T_VDIM T_D1D T_Q1D T_NBZ MAX_D1D MAX_Q1D NE : nat) (b_ x_ y_ : mem)
  (vdim d1d q1d : nat) (sh : shared2D) (e c qx qy : nat) :
  (tparam T_D1D d1d <= tparam T_D1D MAX_D1D)%nat ->
  (e < NE)%nat -> (c < tparam T_VDIM vdim)%nat ->
  (qx < tparam T_Q1D q1d)%nat -> (qy < tparam T_Q1D q1d)%nat ->
  EvalByVDim2D T_VDIM T_D1D T_Q1D T_NBZ MAX_D1D MAX_Q1D NE b_ x_ y_
    vdim d1d q1d sh
    (y2 (tparam T_Q1D q1d) (tparam T_VDIM vdim) c qx qy e) =
  dense2D (tparam T_D1D d1d) (tparam T_Q1D q1d) (tparam T_VDIM vdim) b_ x_
    c qx qy e.
Proof.
  intros HD He Hc Hx Hy. unfold EvalByVDim2D.
  apply (kernel2D_writes _ _ _ _ b_ x_ HD NE sh y_).
  exists e. split; [exact He | ]. exists c. split; [exact Hc | ].
  exists qy. split; [exact Hy | ]. exists qx. auto.
Qed.

Lemma EvalByVDim3D_dense
  (T_VDIM T_D1D T_Q1D MAX_D1D MAX_Q1D NE : nat) (b_ x_ y_ : mem)
  (vdim d1d q1d : nat) (sh : shared3D) (e c qx qy qz : nat) :
  (tparam T_D1D d1d <= tparam T_D1D MAX_D1D)%nat ->
  (tparam T_Q1D q1d <= tparam T_Q1D MAX_Q1D)%nat ->
  (e < NE)%nat -> (c < tparam T_VDIM vdim)%nat ->
  (qx < tparam T_Q1D q1d)%nat -> (qy < tparam T_Q1D q1d)%nat ->
  (qz < tparam T_Q1D q1d)%nat ->
  EvalByVDim3D T_VDIM T_D1D T_Q1D MAX_D1D MAX_Q1D NE b_ x_ y_
    vdim d1d q1d sh
    (y3 (tparam T_Q1D q1d) (tparam T_VDIM vdim) c qx qy qz e) =
  dense3D (tparam T_D1D d1d) (tparam T_Q1D q1d) (tparam T_VDIM vdim) b_ x_
    c qx qy qz e.
Proof.
  intros HD HQ He Hc Hx Hy Hz. unfold EvalByVDim3D.
  apply (kernel3D_writes _ _ _ _ _ b_ x_ HD HQ NE sh y_).
  exists e. split; [exact He | ]. exists c. split; [exact Hc | ].
  exists qz. split; [exact Hz | ]. exists qy. split; [exact Hy | ].
  exists qx. auto.
Qed.

(** C7: for every element [e], component [c] and quadrature point, the 2D
    kernel leaves in [y(c,qx,qy,e)] the dense double sum of
    [b(qx,dx) * b(qy,dy) * x(dx,dy,c,e)], and the 3D kernel leaves in
    [y(c,qx,qy,qz,e)] the dense triple sum of
    [b(qx,dx) * b(qy,dy) * b(qz,dz) * x(dx,dy,dz,c,e)], whatever the output
    and the scratch buffers held before; the extents of the scratch tensors
    cover the run-time sizes, as in every instantiation made by [Values]. *)
Theorem sum_factorization_is_dense
  (T_VDIM T_D1D T_Q1D T_NBZ MAX_D1D MAX_Q1D NE : nat) (b_ x_ y_ : mem)
  (vdim d1d q1d : nat) (sh2 : shared2D) (sh3 : shared3D) :
  (tparam T_D1D d1d <= tparam T_D1D MAX_D1D)%nat ->
  (tparam T_Q1D q1d <= tparam T_Q1D MAX_Q1D)%nat ->
  let D1D := tparam T_D1D d1d in
  let Q1D := tparam T_Q1D q1d in
  let VDIM := tparam T_VDIM vdim in
  (forall e c qx qy,
      (e < NE)%nat -> (c < VDIM)%nat -> (qx < Q1D)%nat -> (qy < Q1D)%nat ->
      EvalByVDim2D T_VDIM T_D1D T_Q1D T_NBZ MAX_D1D MAX_Q1D NE b_ x_ y_
        vdim d1d q1d sh2 (y2 Q1D VDIM c qx qy e) =
      dense2D D1D Q1D VDIM b_ x_ c qx qy e) /\
  (forall e c qx qy qz,
      (e < NE)%nat -> (c < VDIM)%nat ->
      (qx < Q1D)%nat -> (qy < Q1D)%nat -> (qz < Q1D)%nat ->
      EvalByVDim3D T_VDIM T_D1D T_Q1D MAX_D1D MAX_Q1D NE b_ x_ y_
        vdim d1d q1d sh3 (y3 Q1D VDIM c qx qy qz e) =
      dense3D D1D Q1D VDIM b_ x_ c qx qy qz e).
Proof.
  intros HD HQ D1D Q1D VDIM. split.
  - intros e c qx qy He Hc Hx Hy.
    apply EvalByVDim2D_dense; assumption.
  - intros e c qx qy qz He Hc Hx Hy Hz.
    apply EvalByVDim3D_dense; assumption.
Qed.

(** The instantiation [EvalByVDim2D<1,2,4,8>] / [EvalByVDim3D<1,2,4>] on one
    element. *)
Lemma sum_factorization_is_dense_witness :
  let b_ : mem := fun a => INR a in
  let x_ : mem := fun a => INR (a + 1) in
  let y_ : mem := fun _ => 0 in
  let sh2 := mkShared2D (fun _ => 0) (fun _ => 0) (fun _ => 0) in
  let sh3 := mkShared3D (fun _ => 0) (fun _ => 0) (fun _ => 0) in
  EvalByVDim2D 1 2 4 8 0 0 1 b_ x_ y_ 0 0 0 sh2 (y2 4 1 0 3 2 0) =
  dense2D 2 4 1 b_ x_ 0 3 2 0 /\
  EvalByVDim3D 1 2 4 0 0 1 b_ x_ y_ 0 0 0 sh3 (y3 4 1 0 3 2 1 0) =
  dense3D 2 4 1 b_ x_ 0 3 2 1 0.
Proof.
  intros b_ x_ y_ sh2 sh3.
  assert (H1 : (tparam 2 0 <= tparam 2 0)%nat) by (simpl; lia).
  assert (H2 : (tparam 4 0 <= tparam 4 0)%nat) by (simpl; lia).
  destruct (sum_factorization_is_dense 1 2 4 8 0 0 1 b_ x_ y_ 0 0 0 sh2 sh3
              H1 H2) as [A2 A3].
  split.
  - apply (A2 0%nat 0%nat 3%nat 2%nat); unfold tparam; simpl; lia.
  - apply (A3 0%nat 0%nat 3%nat 2%nat 1%nat); unfold tparam; simpl; lia.
Defined.

(** ** Dispatch *)

Lemma fast_path_none (id : Z) (NE : nat) (B X Y : mem)
  (sh2 : shared2D) (sh3 : shared3D) :
  ~ In id fast_ids -> fast_path id NE B X Y sh2 sh3 = None.
Proof.
  intros Hn.
  assert (H : fast_path id NE B X Y sh2 sh3 = None \/ In id fast_ids).
  { destruct id as [| p | p]; [left; reflexivity | | left; reflexivity].
    repeat (match goal with
            | q : positive |- _ =>
                destruct q as [q | q | ]; try (left; reflexivity)
            end);
      right; simpl; tauto. }
  destruct H as [H | H]; [exact H | contradiction].
Qed.

(** C8, as amended: a combination that is no [case] label of the switch goes
    to the [default:] label.  There the run is aborted when [D1D] or [Q1D]
    exceeds 8; otherwise the call returns, after the generic 2D kernel when
    [dim] is 2, after the generic 3D kernel when [dim] is 3, and with the
    output untouched for any other [dim]. *)
Theorem Values_generic_fallback (NE vdim dim D1D Q1D : nat) (B X Y : mem)
  (sh2 : shared2D) (sh3 : shared3D) :
  NE <> 0%nat ->
  ~ In (kernel_id dim vdim D1D Q1D) fast_ids ->
  ((D1D <= 8)%nat -> (Q1D <= 8)%nat ->
   (dim = 2%nat ->
    Values NE vdim dim D1D Q1D B X Y sh2 sh3 =
    Returned (EvalByVDim2D 0 0 0 0 8 8 NE B X Y vdim D1D Q1D sh2)) /\
   (dim = 3%nat ->
    Values NE vdim dim D1D Q1D B X Y sh2 sh3 =
    Returned (EvalByVDim3D 0 0 0 8 8 NE B X Y vdim D1D Q1D sh3)) /\
   (dim <> 2%nat -> dim <> 3%nat ->
    Values NE vdim dim D1D Q1D B X Y sh2 sh3 = Returned Y)) /\
  ((8 < D1D)%nat \/ (8 < Q1D)%nat ->
   Values NE vdim dim D1D Q1D B X Y sh2 sh3 = Aborted).
Proof.
  intros HNE Hid. unfold Values.
  destruct (Nat.eqb_spec NE 0) as [? | _]; [contradiction | ].
  cbv zeta. rewrite (fast_path_none _ NE B X Y sh2 sh3 Hid).
  unfold generic_path. cbv zeta. split.
  - intros HD HQ.
    destruct (Nat.leb_spec D1D 8) as [_ | ?]; [ | lia].
    destruct (Nat.leb_spec Q1D 8) as [_ | ?]; [ | lia].
    simpl negb. cbv iota. split; [ | split].
    + intros ->. reflexivity.
    + intros ->. reflexivity.
    + intros H2 H3.
      destruct (Nat.eqb_spec dim 2) as [? | _]; [contradiction | ].
      destruct (Nat.eqb_spec dim 3) as [? | _]; [contradiction | ].
      reflexivity.
  - intros [H | H].
    + destruct (Nat.leb_spec D1D 8) as [? | _]; [lia | ]. reflexivity.
    + destruct (Nat.leb_spec D1D 8) as [_ | _]; [ | reflexivity].
      destruct (Nat.leb_spec Q1D 8) as [? | _]; [lia | ]. reflexivity.
Qed.

(** Degree 5 with 7 points per direction in 2D, one component. *)
Lemma Values_generic_fallback_witness :
  let z : mem := fun _ => 0 in
  let sh2 := mkShared2D z z z in
  let sh3 := mkShared3D z z z in
  Values 3 1 2 6 7 z z z sh2 sh3 =
  Returned (EvalByVDim2D 0 0 0 0 8 8 3 z z z 1 6 7 sh2).
Proof.
  intros z sh2 sh3.
  assert (HNE : 3%nat <> 0%nat) by discriminate.
  assert (Hid : ~ In (kernel_id 2 1 6 7) fast_ids).
  { vm_compute. intros H.
    repeat (destruct H as [H | H]; [discriminate H | ]). exact H. }
  destruct (Values_generic_fallback 3 1 2 6 7 z z z sh2 sh3 HNE Hid)
    as [Hok _].
  assert (HD : (6 <= 8)%nat) by lia.
  assert (HQ : (7 <= 8)%nat) by lia.
  destruct (Hok HD HQ) as (H2 & _ & _).
  apply H2. reflexivity.
Defined.

(** C8 as stated fails: degree 8 with 9 points per direction is no [case]
    label, and the [default:] label aborts the run on it. *)
Lemma Values_aborts_above_8 :
  let z : mem := fun _ => 0 in
  ~ In (kernel_id 2 1 9 9) fast_ids /\
  Values 1 1 2 9 9 z z z (mkShared2D z z z) (mkShared3D z z z) = Aborted.
Proof.
  intros z. split.
  - vm_compute. intros H.
    repeat (destruct H as [H | H]; [discriminate H | ]). exact H.
  - reflexivity.
Qed.

End Kernels.


(* ================================================================== *)
(** * Flux-corrected transport: [FE_Evolution::ComputeFCTSolution]
      (ex9.cpp:1914-1965) *)
(* ================================================================== *)

Module FCT.

Import Arrays.

Local Open Scope R_scope.

(** [double eps = 1.E-15;] *)
Definition eps : R := 1e-15.

Section ComputeFCTSolution.

(** [dt], [fct.bnds.x_min], [fct.bnds.x_max], [fct.lumpedM] are members; [NE]
    is [fes->GetMesh()->GetNE()] and [nd] is [el.GetDof()]; [x], [yH], [yL]
    are the arguments. *)
Variable dt : R.
Variables x_min x_max lumpedM : mem.
Variables NE nd : nat.
Variables x yH yL : mem.

(** The body of the first [for (j = 0; j < nd; j++)] of element [k]; the
    state is [(uClipped, fClipped, sumPos, sumNeg)]. *)
Definition clip_step (k j : nat) (st : mem * mem * R * R) : mem * mem * R * R :=
  let '(uClipped, fClipped, sumPos, sumNeg) := st in
  let dofInd := (k * nd + j)%nat in
  let uClipped :=
    upd uClipped j
      (Rmin (x_max dofInd) (Rmax (x dofInd + dt * yH dofInd) (x_min dofInd))) in
  let fClipped :=
    upd fClipped j
      (lumpedM dofInd * (uClipped j - (x dofInd + dt * yL dofInd))) in
  (uClipped, fClipped,
   sumPos + Rmax (fClipped j) 0, sumNeg + Rmin (fClipped j) 0).

(** The body of the second [for (j = 0; j < nd; j++)] of element [k]; the
    state is [(fClipped, y)]. *)
Definition rescale_step (k : nat) (sumPos sumNeg : R) (j : nat)
  (st : mem * mem) : mem * mem :=
  let '(fClipped, y) := st in
  let fClipped :=
    if Rgtb (sumPos + sumNeg) eps && Rgtb (fClipped j) eps
    then upd fClipped j (fClipped j * (- sumNeg / sumPos))
    else fClipped in
  let fClipped :=
    if Rltb (sumPos + sumNeg) (- eps) && Rltb (fClipped j) (- eps)
    then upd fClipped j (fClipped j * (- sumPos / sumNeg))
    else fClipped in
  let dofInd := (k * nd + j)%nat in
  (fClipped,
   upd y dofInd (yL dofInd + fClipped j / (dt * lumpedM dofInd))).

(** One pass of [for (k = 0; k < NE; k++)]: [uClipped] and [fClipped] are
    resized and zeroed, the sums are zeroed, then the two loops run. *)
Definition element (k : nat) (y : mem) : mem :=
  let '(uClipped, fClipped, sumPos, sumNeg) :=
    forloop nd (clip_step k) (fun _ => 0, fun _ => 0, 0, 0) in
  snd (forloop nd (rescale_step k sumPos sumNeg) (fClipped, y)).

(** [void FE_Evolution::ComputeFCTSolution(x, yH, yL, y)]; the result is the
    vector [y]. *)
Definition ComputeFCTSolution (y : mem) : mem := forloop NE element y.

(** ** What the loops compute, node by node *)

(** The low-order forward Euler value [x + dt * yL]. *)
Definition lowOrder (d : nat) : R := x d + dt * yL d.

(** [uClipped]: the high-order forward Euler value clipped to the bounds. *)
Definition clipped (d : nat) : R :=
  Rmin (x_max d) (Rmax (x d + dt * yH d) (x_min d)).

(** [fClipped] after the first loop. *)
Definition flux (d : nat) : R := lumpedM d * (clipped d - lowOrder d).

(** [sumPos] and [sumNeg] of element [k] after the first loop. *)
Definition sumPos_of (k : nat) : R :=
  sum_n nd (fun j => Rmax (flux (k * nd + j)) 0).
Definition sumNeg_of (k : nat) : R :=
  sum_n nd (fun j => Rmin (flux (k * nd + j)) 0).

(** The two [if]s of the second loop applied to one flux [f]. *)
Definition rescaled (sumPos sumNeg f : R) : R :=
  let f1 := if Rgtb (sumPos + sumNeg) eps && Rgtb f eps
            then f * (- sumNeg / sumPos) else f in
  if Rltb (sumPos + sumNeg) (- eps) && Rltb f1 (- eps)
  then f1 * (- sumPos / sumNeg) else f1.

(** [fClipped(j)] of element [k] after the second loop. *)
Definition fluxOut (k j : nat) : R :=
  rescaled (sumPos_of k) (sumNeg_of k) (flux (k * nd + j)).

(** The value stored in [y(k*nd+j)]. *)
Definition yOut (k j : nat) : R :=
  let d := (k * nd + j)%nat in
  yL d + fluxOut k j / (dt * lumpedM d).

Lemma clip_pass_spec (k n : nat) :
  let '(_, fClipped, sumPos, sumNeg) :=
    forloop n (clip_step k) (fun _ => 0, fun _ => 0, 0, 0) in
  (forall j, (j < n)%nat -> fClipped j = flux (k * nd + j)) /\
  sumPos = sum_n n (fun j => Rmax (flux (k * nd + j)) 0) /\
  sumNeg = sum_n n (fun j => Rmin (flux (k * nd + j)) 0).
Proof.
  induction n as [| n IH].
  - simpl. repeat split. intros j Hj. lia.
  - simpl forloop.
    destruct (forloop n (clip_step k) (fun _ => 0, fun _ => 0, 0, 0))
      as [[[uC fC] sP] sN].
    destruct IH as (Hf & HP & HN).
    unfold clip_step. rewrite !upd_same.
    fold (clipped (k * nd + n)). fold (lowOrder (k * nd + n)).
    fold (flux (k * nd + n)).
    repeat split.
    + intros j Hj. destruct (Nat.eq_dec j n) as [-> | Hne].
      * apply upd_same.
      * rewrite upd_other by exact Hne. apply Hf. lia.
    + rewrite sum_n_S, HP. reflexivity.
    + rewrite sum_n_S, HN. reflexivity.
Qed.

Lemma rescale_step_fst (k : nat) (sP sN : R) (j : nat) (fC y : mem) :
  fst (rescale_step k sP sN j (fC, y)) j = rescaled sP sN (fC j) /\
  forall i, i <> j -> fst (rescale_step k sP sN j (fC, y)) i = fC i.
Proof.
  unfold rescale_step, rescaled. simpl fst.
  destruct (Rgtb (sP + sN) eps && Rgtb (fC j) eps);
    rewrite ?upd_same;
    match goal with
    | |- context [Rltb (sP + sN) (- eps) && Rltb ?f (- eps)] =>
        destruct (Rltb (sP + sN) (- eps) && Rltb f (- eps))
    end;
    rewrite ?upd_same; (split; [reflexivity | ]);
    intros i Hi; rewrite ?upd_other by exact Hi; reflexivity.
Qed.

Lemma rescale_step_snd (k : nat) (sP sN : R) (j : nat) (fC y : mem) :
  snd (rescale_step k sP sN j (fC, y)) =
  upd y (k * nd + j)
    (yL (k * nd + j)%nat +
     rescaled sP sN (fC j) / (dt * lumpedM (k * nd + j)%nat)).
Proof.
  pose proof (rescale_step_fst k sP sN j fC y) as [H _].
  unfold rescale_step in *. simpl fst in H. simpl snd.
  rewrite H. reflexivity.
Qed.

Lemma rescale_pass_spec (k : nat) (sP sN : R) (fC0 y0 : mem) (n : nat) :
  let st := forloop n (rescale_step k sP sN) (fC0, y0) in
  (forall j, (n <= j)%nat -> fst st j = fC0 j) /\
  (forall j, (j < n)%nat -> fst st j = rescaled sP sN (fC0 j)) /\
  (forall j, (j < n)%nat ->
     snd st (k * nd + j)%nat =
     yL (k * nd + j)%nat +
     rescaled sP sN (fC0 j) / (dt * lumpedM (k * nd + j)%nat)) /\
  (forall a, (forall j, (j < n)%nat -> a <> (k * nd + j)%nat) ->
     snd st a = y0 a).
Proof.
  induction n as [| n IH]; cbv zeta.
  - simpl. repeat split; intros; try reflexivity; lia.
  - simpl forloop. cbv zeta in IH.
    destruct (forloop n (rescale_step k sP sN) (fC0, y0)) as [fC y].
    simpl fst in IH. simpl snd in IH.
    destruct IH as (Hrest & Hdone & Hy & Hframe).
    pose proof (rescale_step_fst k sP sN n fC y) as [Hn Hoth].
    rewrite rescale_step_snd.
    repeat split.
    + intros j Hj. rewrite Hoth by lia. apply Hrest. lia.
    + intros j Hj. destruct (Nat.eq_dec j n) as [-> | Hne].
      * rewrite Hn, Hrest by lia. reflexivity.
      * rewrite Hoth by exact Hne. apply Hdone. lia.
    + intros j Hj. destruct (Nat.eq_dec j n) as [-> | Hne].
      * rewrite upd_same, Hrest by lia. reflexivity.
      * rewrite upd_other by lia. apply Hy. lia.
    + intros a Ha. rewrite upd_other by (apply Ha; lia).
      apply Hframe. intros j Hj. apply Ha. lia.
Qed.

Lemma element_writes (k : nat) :
  writes_on (fun y : mem => y) (element k)
    (fun a v => exists j, (j < nd)%nat /\ a = (k * nd + j)%nat /\ v = yOut k j).
Proof.
  intros y a. unfold element.
  pose proof (clip_pass_spec k nd) as Hc.
  destruct (forloop nd (clip_step k) (fun _ => 0, fun _ => 0, 0, 0))
    as [[[uC fC] sP] sN].
  destruct Hc as (Hf & HP & HN).
  destruct (rescale_pass_spec k sP sN fC y nd) as (_ & _ & Hy & Hframe).
  split.
  - intros v (j & Hj & -> & ->). rewrite Hy by exact Hj.
    unfold yOut, fluxOut, sumPos_of, sumNeg_of.
    rewrite Hf, HP, HN by exact Hj. reflexivity.
  - intros Hno. apply Hframe. intros j Hj ->.
    apply (Hno (yOut k j)). exists j. auto.
Qed.

Lemma dofInd_inj (k j k' j' : nat) :
  (j < nd)%nat -> (j' < nd)%nat ->
  (k * nd + j = k' * nd + j')%nat -> k = k' /\ j = j'.
Proof.
  intros Hj Hj' H. assert (k = k') by nia. subst. split; [reflexivity | lia].
Qed.

Lemma ComputeFCTSolution_writes :
  writes_on (fun y : mem => y) ComputeFCTSolution
    (fun a v => exists k, (k < NE)%nat /\
                exists j, (j < nd)%nat /\ a = (k * nd + j)%nat /\ v = yOut k j).
Proof.
  unfold ComputeFCTSolution. apply forloop_writes_on.
  - intros k _. apply element_writes.
  - intros k k' a v w _ _ (j & Hj & Ha & _) (j' & Hj' & Ha' & _).
    subst a. apply dofInd_inj in Ha'; tauto.
Qed.

(** Every nodal entry of [y] holds [yL + fClipped / (dt * lumpedM)] with the
    rescaled flux, whatever [y] held before. *)
Lemma ComputeFCTSolution_at (y : mem) (k j : nat) :
  (k < NE)%nat -> (j < nd)%nat ->
  ComputeFCTSolution y (k * nd + j)%nat = yOut k j.
Proof.
  intros Hk Hj. apply (ComputeFCTSolution_writes y (k * nd + j)%nat).
  exists k. split; [exact Hk | ]. exists j. auto.
Qed.

End ComputeFCTSolution.

(** ** Real-number facts used below *)

Lemma eps_pos : 0 < eps.
Proof. unfold eps. lra. Qed.

Lemma ratio_unit (a b : R) : 0 <= a -> a <= b -> 0 < b -> 0 <= a / b <= 1.
Proof.
  intros Ha Hab Hb. unfold Rdiv.
  assert (Hi : 0 < / b) by (apply Rinv_0_lt_compat; exact Hb).
  assert (Hbb : b * / b = 1) by (apply Rinv_r; lra).
  split; nra.
Qed.

Lemma sum_n_nonneg (n : nat) (f : nat -> R) :
  (forall j, (j < n)%nat -> 0 <= f j) -> 0 <= sum_n n f.
Proof.
  induction n as [| n IH]; intros H.
  - unfold sum_n. simpl. lra.
  - rewrite sum_n_S. assert (0 <= sum_n n f) by (apply IH; auto with arith).
    assert (0 <= f n) by (apply H; lia). lra.
Qed.

Lemma sum_n_le (n : nat) (f g : nat -> R) :
  (forall j, (j < n)%nat -> f j <= g j) -> sum_n n f <= sum_n n g.
Proof.
  induction n as [| n IH]; intros H.
  - unfold sum_n. simpl. lra.
  - rewrite !sum_n_S. assert (sum_n n f <= sum_n n g) by (apply IH; auto with arith).
    assert (f n <= g n) by (apply H; lia). lra.
Qed.

Lemma sum_n_const (n : nat) (c : R) : sum_n n (fun _ => c) = INR n * c.
Proof.
  induction n as [| n IH].
  - unfold sum_n. simpl. lra.
  - rewrite sum_n_S, IH, S_INR. lra.
Qed.

Lemma sum_n_scal_l (n : nat) (f : nat -> R) (c : R) :
  c * sum_n n f = sum_n n (fun i => c * f i).
Proof.
  rewrite Rmult_comm, sum_n_scal_r. apply sum_n_ext. intros i _. ring.
Qed.

Lemma Rmax_0_nonneg (f : R) : 0 <= Rmax f 0.
Proof. apply Rmax_r. Qed.

Lemma Rmin_0_nonpos (f : R) : Rmin f 0 <= 0.
Proof. apply Rmin_r. Qed.

(** Case analysis on the comparisons of doubles. *)
Ltac rcases :=
  unfold Rgtb, Rltb, Rmax, Rmin in *;
  repeat match goal with
         | |- context [Rlt_dec ?a ?b] => destruct (Rlt_dec a b)
         | |- context [Rle_dec ?a ?b] => destruct (Rle_dec a b)
         | H : context [Rlt_dec ?a ?b] |- _ => destruct (Rlt_dec a b)
         | H : context [Rle_dec ?a ?b] |- _ => destruct (Rle_dec a b)
         end;
  simpl andb in *; cbv iota in *.

(** As [rcases], closing the impossible branches as they appear. *)
Ltac rcases_prune :=
  unfold Rgtb, Rltb, Rmax, Rmin in *;
  repeat match goal with
         | |- context [Rlt_dec ?a ?b] =>
             destruct (Rlt_dec a b); try (exfalso; lra)
         | |- context [Rle_dec ?a ?b] =>
             destruct (Rle_dec a b); try (exfalso; lra)
         | H : context [Rlt_dec ?a ?b] |- _ =>
             destruct (Rlt_dec a b); try (exfalso; lra)
         | H : context [Rle_dec ?a ?b] |- _ =>
             destruct (Rle_dec a b); try (exfalso; lra)
         end;
  simpl andb in *; cbv iota in *.

(** The rescaling multiplies a flux by a factor between 0 and 1. *)
Lemma rescaled_factor (sP sN f : R) :
  0 <= sP -> sN <= 0 ->
  exists s, 0 <= s <= 1 /\ rescaled sP sN f = s * f.
Proof.
  intros HP HN. pose proof eps_pos as He. unfold rescaled.
  destruct (Rlt_dec eps (sP + sN)) as [Hbig | Hnbig].
  - (* net positive: the second test is false *)
    assert (Hr : 0 <= - sN / sP <= 1) by (apply ratio_unit; lra).
    destruct (Rlt_dec eps f) as [Hf | Hf].
    + exists (- sN / sP). split; [exact Hr | ].
      rcases; try lra; ring.
    + exists 1. split; [lra | ]. rcases; try lra.
  - destruct (Rlt_dec (sP + sN) (- eps)) as [Hsmall | Hnsmall].
    + assert (Hr : 0 <= sP / - sN <= 1) by (apply ratio_unit; lra).
      assert (Hq : - sP / sN = sP / - sN) by (field; lra).
      destruct (Rlt_dec f (- eps)) as [Hf | Hf].
      * exists (- sP / sN). split; [rewrite Hq; exact Hr | ].
        rcases; try lra; ring.
      * exists 1. split; [lra | ]. rcases; try lra.
    + exists 1. split; [lra | ]. rcases; try lra.
Qed.

Section Properties.

Variable dt : R.
Variables x_min x_max lumpedM : mem.
Variables NE nd : nat.
Variables x yH yL : mem.

Local Abbreviation flux' := (flux dt x_min x_max lumpedM x yH yL).
Local Abbreviation clipped' := (clipped dt x_min x_max x yH).
Local Abbreviation lowOrder' := (lowOrder dt x yL).
Local Abbreviation sumPos' := (sumPos_of dt x_min x_max lumpedM nd x yH yL).
Local Abbreviation sumNeg' := (sumNeg_of dt x_min x_max lumpedM nd x yH yL).
Local Abbreviation fluxOut' := (fluxOut dt x_min x_max lumpedM nd x yH yL).
Local Abbreviation yOut' := (yOut dt x_min x_max lumpedM nd x yH yL).
Local Abbreviation FCT' :=
  (ComputeFCTSolution dt x_min x_max lumpedM NE nd x yH yL).

Lemma sumPos_nonneg (k : nat) : 0 <= sumPos' k.
Proof.
  apply sum_n_nonneg. intros j _. apply Rmax_0_nonneg.
Qed.

Lemma sumNeg_nonpos (k : nat) : sumNeg' k <= 0.
Proof.
  unfold sumNeg_of.
  assert (H : 0 <= sum_n nd (fun j => - Rmin (flux' (k * nd + j)) 0)).
  { apply sum_n_nonneg. intros j _.
    pose proof (Rmin_0_nonpos (flux' (k * nd + j))). lra. }
  assert (E : sum_n nd (fun j => - Rmin (flux' (k * nd + j)) 0) =
              -1 * sum_n nd (fun j => Rmin (flux' (k * nd + j)) 0)).
  { rewrite sum_n_scal_l. apply sum_n_ext. intros j _. ring. }
  lra.
Qed.

Lemma clipped_within (d : nat) :
  x_min d <= x_max d -> x_min d <= clipped' d <= x_max d.
Proof.
  intros H. unfold clipped. rcases; lra.
Qed.

(** C1, as amended: at a node where the low-order forward Euler value
    [x + dt * yL] lies within the bounds (and [dt] and the lumped mass are not
    zero), the forward Euler value [x + dt * y] of the blended update lies
    within [[x_min, x_max]], exactly. *)
Theorem FCT_update_within_bounds (y : mem) (k j : nat) :
  (k < NE)%nat -> (j < nd)%nat ->
  dt <> 0 -> lumpedM (k * nd + j)%nat <> 0 ->
  x_min (k * nd + j)%nat <= x (k * nd + j)%nat + dt * yL (k * nd + j)%nat
    <= x_max (k * nd + j)%nat ->
  x_min (k * nd + j)%nat
    <= x (k * nd + j)%nat + dt * FCT' y (k * nd + j)%nat
    <= x_max (k * nd + j)%nat.
Proof.
  intros Hk Hj Hdt Hm Hlow.
  rewrite ComputeFCTSolution_at by assumption.
  unfold yOut, fluxOut.
  destruct (rescaled_factor (sumPos' k) (sumNeg' k) (flux' (k * nd + j)%nat))
    as (s & Hs & ->); [apply sumPos_nonneg | apply sumNeg_nonpos | ].
  unfold flux, lowOrder.
  set (d := (k * nd + j)%nat) in *.
  assert (Hc : x_min d <= clipped' d <= x_max d) by (apply clipped_within; lra).
  set (c := clipped' d) in *.
  replace (x d + dt * (yL d + s * (lumpedM d * (c - (x d + dt * yL d)))
                                / (dt * lumpedM d)))
    with ((1 - s) * (x d + dt * yL d) + s * c) by (field; split; assumption).
  split; nra.
Qed.

End Properties.

(** One element with one node, unit time step and unit lumped mass,
    [x = 0.5], bounds [[0, 1]], [yH = 2] and [yL = 0.25]. *)
Lemma FCT_update_within_bounds_witness :
  let x_min : mem := fun _ => 0 in
  let x_max : mem := fun _ => 1 in
  let one : mem := fun _ => 1 in
  let x : mem := fun _ => 1 / 2 in
  let yH : mem := fun _ => 2 in
  let yL : mem := fun _ => 1 / 4 in
  x_min 0%nat
    <= x 0%nat + 1 * ComputeFCTSolution 1 x_min x_max one 1 1 x yH yL one 0%nat
    <= x_max 0%nat.
Proof.
  intros x_min x_max one x yH yL.
  apply (FCT_update_within_bounds 1 x_min x_max one 1 1 x yH yL one 0 0).
  - lia.
  - lia.
  - lra.
  - unfold one. lra.
  - unfold x_min, x_max, x, yL. simpl. lra.
Defined.

(** C1 as stated fails when the low-order update itself leaves the bounds: one
    element with one node, [dt = 1], lumped mass 1, [x = 0] within the bounds
    [[0, 1]], [yH = 0], [yL = 5].  The only flux is negative, there is no
    positive flux to balance it, so it is scaled to zero and [y = yL = 5]:
    the forward Euler value is 5, outside [[0, 1]] by far more than 1e-10. *)
Lemma FCT_low_order_out_of_bounds :
  let x_min : mem := fun _ => 0 in
  let x_max : mem := fun _ => 1 in
  let one : mem := fun _ => 1 in
  let x : mem := fun _ => 0 in
  let yH : mem := fun _ => 0 in
  let yL : mem := fun _ => 5 in
  let y := ComputeFCTSolution 1 x_min x_max one 1 1 x yH yL one in
  x_min 0%nat <= x 0%nat <= x_max 0%nat /\
  y 0%nat = 5 /\
  ~ (x_min 0%nat - 1e-10 <= x 0%nat + 1 * y 0%nat <= x_max 0%nat + 1e-10).
Proof.
  intros x_min x_max one x yH yL y.
  assert (Hy : y 0%nat = 5).
  { unfold y.
    assert (E := ComputeFCTSolution_at 1 x_min x_max one 1 1 x yH yL one 0 0
                   Nat.lt_0_1 Nat.lt_0_1).
    change (0 * 1 + 0)%nat with 0%nat in E. rewrite E.
    unfold yOut, fluxOut, sumPos_of, sumNeg_of, sum_n, flux, clipped,
      lowOrder, rescaled, eps, x_min, x_max, one, x, yH, yL.
    simpl forloop. rcases_prune; lra. }
  split; [unfold x_min, x_max, x; lra | ].
  split; [exact Hy | ].
  rewrite Hy. unfold x_min, x_max, x. lra.
Qed.

(** ** Element-local conservation of the rescaled fluxes *)

(** The part of a flux that the tests [fClipped(j) > eps] and
    [fClipped(j) < -eps] leave out of the rescaling. *)
Definition posSmall (f : R) : R :=
  if Rgtb f 0 && negb (Rgtb f eps) then f else 0.
Definition negSmall (f : R) : R :=
  if Rltb f 0 && negb (Rltb f (- eps)) then f else 0.

(** The words of the claim: the sum over the nodes of element [k] of
    [lumpedM(dofInd) * dt * (y(dofInd) - yL(dofInd))]. *)
Definition nodalFluxSum (dt : R) (lumpedM : mem) (nd : nat) (yL y : mem)
  (k : nat) : R :=
  sum_n nd (fun j =>
    lumpedM (k * nd + j)%nat * dt *
    (y (k * nd + j)%nat - yL (k * nd + j)%nat)).

Lemma posSmall_bounds (f : R) : 0 <= posSmall f <= eps.
Proof.
  pose proof eps_pos. unfold posSmall. rcases; simpl negb; cbv iota; lra.
Qed.

Lemma negSmall_bounds (f : R) : - eps <= negSmall f <= 0.
Proof.
  pose proof eps_pos. unfold negSmall. rcases; simpl negb; cbv iota; lra.
Qed.

Lemma posSmall_zero (f : R) : (0 < f -> eps < f) -> posSmall f = 0.
Proof.
  intros H. unfold posSmall. rcases; simpl negb; cbv iota; lra.
Qed.

Lemma negSmall_zero (f : R) : (f < 0 -> f < - eps) -> negSmall f = 0.
Proof.
  intros H. unfold negSmall. rcases; simpl negb; cbv iota; lra.
Qed.

Lemma rescaled_net_pos (sP sN f : R) :
  eps < sP + sN ->
  rescaled sP sN f =
  (- sN / sP) * Rmax f 0 + Rmin f 0 + (1 - (- sN / sP)) * posSmall f.
Proof.
  intros HS. pose proof eps_pos. unfold rescaled, posSmall.
  rcases; simpl negb; cbv iota; try lra; ring.
Qed.

Lemma rescaled_net_neg (sP sN f : R) :
  sP + sN < - eps ->
  rescaled sP sN f =
  Rmax f 0 + (- sP / sN) * Rmin f 0 + (1 - (- sP / sN)) * negSmall f.
Proof.
  intros HS. pose proof eps_pos. unfold rescaled, negSmall.
  rcases; simpl negb; cbv iota; try lra; try ring.
  assert (Hz : f = 0) by lra. rewrite Hz. ring.
Qed.

Lemma rescaled_balanced (sP sN f : R) :
  - eps <= sP + sN <= eps -> rescaled sP sN f = f.
Proof.
  intros HS. pose proof eps_pos. unfold rescaled.
  rcases; try lra.
Qed.

Section Conservation.

Variable dt : R.
Variables x_min x_max lumpedM : mem.
Variables NE nd : nat.
Variables x yH yL : mem.

Local Abbreviation flux' := (flux dt x_min x_max lumpedM x yH yL).
Local Abbreviation sumPos' := (sumPos_of dt x_min x_max lumpedM nd x yH yL).
Local Abbreviation sumNeg' := (sumNeg_of dt x_min x_max lumpedM nd x yH yL).
Local Abbreviation fluxOut' := (fluxOut dt x_min x_max lumpedM nd x yH yL).
Local Abbreviation FCT' :=
  (ComputeFCTSolution dt x_min x_max lumpedM NE nd x yH yL).

Lemma nodalFluxSum_fluxOut (y : mem) (k : nat) :
  (k < NE)%nat -> dt <> 0 ->
  (forall j, (j < nd)%nat -> lumpedM (k * nd + j)%nat <> 0) ->
  nodalFluxSum dt lumpedM nd yL (FCT' y) k = sum_n nd (fluxOut' k).
Proof.
  intros Hk Hdt Hm. unfold nodalFluxSum. apply sum_n_ext. intros j Hj.
  rewrite ComputeFCTSolution_at by assumption. unfold yOut.
  field. split; [apply Hm; exact Hj | exact Hdt].
Qed.

Lemma fluxOut_sum_net_pos (k : nat) :
  eps < sumPos' k + sumNeg' k ->
  sum_n nd (fluxOut' k) =
  (1 - (- sumNeg' k / sumPos' k)) *
  sum_n nd (fun j => posSmall (flux' (k * nd + j)%nat)).
Proof.
  intros HS. pose proof eps_pos as He.
  pose proof (sumPos_nonneg dt x_min x_max lumpedM nd x yH yL k) as HP.
  pose proof (sumNeg_nonpos dt x_min x_max lumpedM nd x yH yL k) as HN.
  set (s := - sumNeg' k / sumPos' k).
  rewrite (sum_n_ext nd (fluxOut' k)
             (fun j => s * Rmax (flux' (k * nd + j)%nat) 0
                       + Rmin (flux' (k * nd + j)%nat) 0
                       + (1 - s) * posSmall (flux' (k * nd + j)%nat)))
    by (intros j _; unfold fluxOut; apply rescaled_net_pos; exact HS).
  rewrite !sum_n_plus, <- !sum_n_scal_l.
  fold (sumPos' k). fold (sumNeg' k).
  assert (E : s * sumPos' k = - sumNeg' k) by (unfold s; field; lra).
  lra.
Qed.

Lemma fluxOut_sum_net_neg (k : nat) :
  sumPos' k + sumNeg' k < - eps ->
  sum_n nd (fluxOut' k) =
  (1 - (- sumPos' k / sumNeg' k)) *
  sum_n nd (fun j => negSmall (flux' (k * nd + j)%nat)).
Proof.
  intros HS. pose proof eps_pos as He.
  pose proof (sumPos_nonneg dt x_min x_max lumpedM nd x yH yL k) as HP.
  pose proof (sumNeg_nonpos dt x_min x_max lumpedM nd x yH yL k) as HN.
  set (s := - sumPos' k / sumNeg' k).
  rewrite (sum_n_ext nd (fluxOut' k)
             (fun j => Rmax (flux' (k * nd + j)%nat) 0
                       + s * Rmin (flux' (k * nd + j)%nat) 0
                       + (1 - s) * negSmall (flux' (k * nd + j)%nat)))
    by (intros j _; unfold fluxOut; apply rescaled_net_neg; exact HS).
  rewrite !sum_n_plus, <- !sum_n_scal_l.
  fold (sumPos' k). fold (sumNeg' k).
  assert (E : s * sumNeg' k = - sumPos' k) by (unfold s; field; lra).
  lra.
Qed.

Lemma fluxOut_sum_balanced (k : nat) :
  - eps <= sumPos' k + sumNeg' k <= eps ->
  sum_n nd (fluxOut' k) = sumPos' k + sumNeg' k.
Proof.
  intros HS. unfold sumPos_of, sumNeg_of. rewrite <- sum_n_plus.
  apply sum_n_ext. intros j _. unfold fluxOut.
  rewrite rescaled_balanced by exact HS.
  unfold Rmax, Rmin. destruct (Rle_dec (flux' (k * nd + j)%nat) 0); lra.
Qed.

(** C9, as amended: with [dt] and the lumped masses of the element not zero,
    the sum over the nodes of [lumpedM * dt * (y - yL)] is
    - zero when [sumPos + sumNeg > eps] and no positive flux is at or below
      [eps] (every positive flux is rescaled),
    - zero when [sumPos + sumNeg < -eps] and no negative flux is at or above
      [-eps],
    - equal to [sumPos + sumNeg], hence within [eps] of zero, when
      [|sumPos + sumNeg| <= eps],
    - and in every case within [nd * eps] of zero. *)
Theorem FCT_flux_sum (y : mem) (k : nat) :
  (k < NE)%nat -> dt <> 0 ->
  (forall j, (j < nd)%nat -> lumpedM (k * nd + j)%nat <> 0) ->
  let F := nodalFluxSum dt lumpedM nd yL (FCT' y) k in
  let S := sumPos' k + sumNeg' k in
  (eps < S ->
   (forall j, (j < nd)%nat ->
      0 < flux' (k * nd + j)%nat -> eps < flux' (k * nd + j)%nat) ->
   F = 0) /\
  (S < - eps ->
   (forall j, (j < nd)%nat ->
      flux' (k * nd + j)%nat < 0 -> flux' (k * nd + j)%nat < - eps) ->
   F = 0) /\
  (- eps <= S <= eps -> F = S /\ - eps <= F <= eps) /\
  - (INR nd * eps) <= F <= INR nd * eps.
Proof.
  intros Hk Hdt Hm F S. unfold F.
  rewrite nodalFluxSum_fluxOut by assumption.
  pose proof eps_pos as He.
  pose proof (sumPos_nonneg dt x_min x_max lumpedM nd x yH yL k) as HP.
  pose proof (sumNeg_nonpos dt x_min x_max lumpedM nd x yH yL k) as HN.
  assert (HsmallP : 0 <= sum_n nd (fun j => posSmall (flux' (k * nd + j)%nat))
                    <= INR nd * eps).
  { split.
    - apply sum_n_nonneg. intros j _. apply posSmall_bounds.
    - rewrite <- sum_n_const. apply sum_n_le. intros j _.
      apply posSmall_bounds. }
  assert (HsmallN : - (INR nd * eps)
                    <= sum_n nd (fun j => negSmall (flux' (k * nd + j)%nat))
                    <= 0).
  { split.
    - replace (- (INR nd * eps)) with (INR nd * - eps) by ring.
      rewrite <- sum_n_const. apply sum_n_le. intros j _.
      apply negSmall_bounds.
    - assert (H : 0 <= sum_n nd
                        (fun j => - negSmall (flux' (k * nd + j)%nat))).
      { apply sum_n_nonneg. intros j _.
        pose proof (negSmall_bounds (flux' (k * nd + j)%nat)). lra. }
      assert (E : sum_n nd (fun j => - negSmall (flux' (k * nd + j)%nat)) =
                  -1 * sum_n nd (fun j => negSmall (flux' (k * nd + j)%nat))).
      { rewrite sum_n_scal_l. apply sum_n_ext. intros j _. ring. }
      lra. }
  split; [ | split; [ | split]].
  - intros HS Hno. rewrite fluxOut_sum_net_pos by exact HS.
    rewrite (sum_n_ext nd _ (fun _ => 0)).
    + rewrite sum_n_zero. ring.
    + intros j Hj. apply posSmall_zero. apply Hno. exact Hj.
  - intros HS Hno. rewrite fluxOut_sum_net_neg by exact HS.
    rewrite (sum_n_ext nd _ (fun _ => 0)).
    + rewrite sum_n_zero. ring.
    + intros j Hj. apply negSmall_zero. apply Hno. exact Hj.
  - intros HS. rewrite fluxOut_sum_balanced by exact HS.
    split; [reflexivity | exact HS].
  - destruct (Rlt_dec eps S) as [Hbig | Hnbig].
    + rewrite fluxOut_sum_net_pos by exact Hbig.
      assert (Hr : 0 <= - sumNeg' k / sumPos' k <= 1)
        by (apply ratio_unit; unfold S in Hbig; lra).
      split; nra.
    + destruct (Rlt_dec S (- eps)) as [Hsmall | Hnsmall].
      * rewrite fluxOut_sum_net_neg by exact Hsmall.
        assert (Hr : 0 <= sumPos' k / - sumNeg' k <= 1)
          by (apply ratio_unit; unfold S in Hsmall; lra).
        assert (Hq : - sumPos' k / sumNeg' k = sumPos' k / - sumNeg' k)
          by (field; unfold S in Hsmall; lra).
        rewrite Hq. split; nra.
      * rewrite fluxOut_sum_balanced by (unfold S in *; lra).
        fold S.
        destruct nd as [| n].
        -- unfold S, sumPos_of, sumNeg_of, sum_n. simpl. lra.
        -- rewrite S_INR. pose proof (pos_INR n). split; nra.
Qed.

End Conservation.

(** One element with two nodes, unit time step and lumped masses, [x = 0],
    [yL = 0], bounds [[-10, 10]], high-order rates 1 and -1/2. *)
Lemma FCT_flux_sum_witness :
  let x_min : mem := fun _ => -10 in
  let x_max : mem := fun _ => 10 in
  let one : mem := fun _ => 1 in
  let zero : mem := fun _ => 0 in
  let yH : mem := fun d => match d with O => 1 | _ => -1 / 2 end in
  let F := nodalFluxSum 1 one 2 zero
             (ComputeFCTSolution 1 x_min x_max one 1 2 zero yH zero zero) 0 in
  - (INR 2 * eps) <= F <= INR 2 * eps.
Proof.
  intros x_min x_max one zero yH F.
  assert (Hk : (0 < 1)%nat) by lia.
  assert (Hdt : 1 <> 0) by lra.
  assert (Hm : forall j, (j < 2)%nat -> one (0 * 2 + j)%nat <> 0)
    by (intros j _; unfold one; lra).
  exact (proj2 (proj2 (proj2
           (FCT_flux_sum 1 x_min x_max one 1 2 zero yH zero zero 0
              Hk Hdt Hm)))).
Defined.

(** C9 as stated fails: one element with two nodes, unit time step and lumped
    masses, [x = 0], [yL = 0], bounds [[-10, 10]], high-order rates 1 and
    5e-16.  The fluxes are 1 and 5e-16, so [sumPos + sumNeg = 1 + 5e-16 > eps];
    the first flux is scaled by [-sumNeg / sumPos = 0], the second is not
    above [eps] and stays: the sum after rescaling is 5e-16, not zero. *)
Lemma FCT_small_flux_not_rescaled :
  let x_min : mem := fun _ => -10 in
  let x_max : mem := fun _ => 10 in
  let one : mem := fun _ => 1 in
  let zero : mem := fun _ => 0 in
  let yH : mem := fun d => match d with O => 1 | _ => 5e-16 end in
  let y := ComputeFCTSolution 1 x_min x_max one 1 2 zero yH zero zero in
  eps < sumPos_of 1 x_min x_max one 2 zero yH zero 0
        + sumNeg_of 1 x_min x_max one 2 zero yH zero 0 /\
  nodalFluxSum 1 one 2 zero y 0 = 5e-16 /\
  nodalFluxSum 1 one 2 zero y 0 <> 0.
Proof.
  intros x_min x_max one zero yH y.
  assert (Hf0 : flux 1 x_min x_max one zero yH zero 0 = 1).
  { unfold flux, clipped, lowOrder, x_min, x_max, one, zero, yH.
    rcases_prune; lra. }
  assert (Hf1 : flux 1 x_min x_max one zero yH zero 1 = 5e-16).
  { unfold flux, clipped, lowOrder, x_min, x_max, one, zero, yH.
    rcases_prune; lra. }
  assert (HP : sumPos_of 1 x_min x_max one 2 zero yH zero 0 = 1 + 5e-16).
  { unfold sumPos_of, sum_n. simpl forloop. simpl Nat.add.
    rewrite Hf0, Hf1. rcases_prune; lra. }
  assert (HN : sumNeg_of 1 x_min x_max one 2 zero yH zero 0 = 0).
  { unfold sumNeg_of, sum_n. simpl forloop. simpl Nat.add.
    rewrite Hf0, Hf1. rcases_prune; lra. }
  assert (HF : nodalFluxSum 1 one 2 zero y 0 = 5e-16).
  { unfold y. rewrite nodalFluxSum_fluxOut.
    - unfold sum_n. simpl forloop. unfold fluxOut. simpl Nat.add.
      rewrite HP, HN, Hf0, Hf1. unfold rescaled, eps.
      rcases_prune; lra.
    - lia.
    - lra.
    - intros j _. unfold one. lra. }
  split; [rewrite HP, HN; unfold eps; lra | ].
  split; [exact HF | rewrite HF; lra].
Qed.

End FCT.


(* ================================================================== *)
(** * Discrete upwinding: [SparseMatrix_Build_smap] and
      [ComputeDiscreteUpwindingMatrix] (ex9.cpp:573-629) *)
(* ================================================================== *)

Module Upwind.

Import Arrays.

Local Open Scope R_scope.

(** A finalized sparse matrix is read through its raw arrays: [I] (row
    offsets) and [J] (column of each stored entry) behind [int*], the values
    behind [double*]. *)
Definition index := nat -> nat.

(** The scan [for (_j = I[col], _end = I[col+1]; true; _j++)]: the first
    offset in [[_j, _end)] whose column is [row], or [None] when [_j] reaches
    [_end] ([mfem_error]).  [fuel] is one more than the length of the range. *)
Fixpoint find_entry (fuel : nat) (J : index) (row _j _end : nat) : option nat :=
  match fuel with
  | O => None
  | S fuel' =>
      if Nat.eqb _j _end then None
      else if Nat.eqb (J _j) row then Some _j
      else find_entry fuel' J row (_j + 1)%nat _end
  end.

(** The offset of entry [(i, j)] in a matrix with pattern [I], [J]. *)
Definition offset_of (I J : index) (i j : nat) : option nat :=
  find_entry (S (I (i + 1)%nat - I i)) J j (I i) (I (i + 1)%nat).

(** [Array<int> SparseMatrix_Build_smap(const SparseMatrix &A)]: the state of
    the outer loop is [(j, smap)]; [None] is the error exit. *)
Definition Build_smap (n : nat) (I J : index) : option index :=
  snd (forloop n
         (fun row (st : nat * option index) =>
            let '(j, smap) := st in
            let end_ := I (row + 1)%nat in
            (Nat.max j end_,
             forloop (end_ - j)
               (fun t smap =>
                  let j := (j + t)%nat in
                  match smap with
                  | None => None
                  | Some sm =>
                      let col := J j in
                      match offset_of I J col row with
                      | None => None
                      | Some _j => Some (fun q => if Nat.eqb q j then _j else sm q)
                      end
                  end) smap))
         (0%nat, Some (fun _ => 0%nat))).

(** Modelled from the spec: the sparse matrix is consumed through its
    compressed-sparse-row arrays (sections 1 and 9), and [D(i,j) = v] is the
    element access of that abstraction, which is not part of the sources at
    hand: it stores [v] in the entry of row [i] whose column is [j] and fails
    when the row stores no such entry. *)
Definition set_entry (I J : index) (A : mem) (i j : nat) (v : R) : option mem :=
  match offset_of I J i j with
  | Some q => Some (upd A q v)
  | None => None
  end.

(** The body of [for (int end = Ip[i+1]; k < end; k++)] in row [i]; the state
    is [(Dp, rowsum)]. *)
Definition upwind_entry (Jp : index) (Kp : mem) (smap : index) (i k : nat)
  (st : mem * R) : mem * R :=
  let '(Dp, rowsum) := st in
  let j := Jp k in
  let kij := Kp k in
  let kji := Kp (smap k) in
  let dij := Rmax (Rmax 0 (- kij)) (- kji) in
  let Dp := upd Dp k dij in
  let Dp := upd Dp (smap k) dij in
  (Dp, if Nat.eqb i j then rowsum else rowsum + Dp k).

(** One pass of [for (int i = 0, k = 0; i < s1; i++)]; the state is
    [(k, Dp)], with [None] once an element access has failed.  [DI], [DJ] are
    the pattern of [D]. *)
Definition upwind_row (Ip Jp : index) (Kp : mem) (smap : index)
  (DI DJ : index) (i : nat) (st : nat * option mem) : nat * option mem :=
  let '(k, oDp) := st in
  let end_ := Ip (i + 1)%nat in
  (Nat.max k end_,
   match oDp with
   | None => None
   | Some Dp =>
       let '(Dp, rowsum) :=
         forloop (end_ - k)
           (fun t st => upwind_entry Jp Kp smap i (k + t)%nat st) (Dp, 0) in
       set_entry DI DJ Dp i i (- rowsum)
   end).

(** [void ComputeDiscreteUpwindingMatrix(const SparseMatrix& K,
    SparseMatrix& D)]: [s1 = K.Size()], [Ip], [Jp], [Kp] are the arrays of
    [K]; [DI], [DJ], [Dp] those of [D].  The result is the value array of [D],
    or [None] when the run is aborted. *)
Definition ComputeDiscreteUpwindingMatrix (s1 : nat) (Ip Jp : index) (Kp : mem)
  (DI DJ : index) (Dp : mem) : option mem :=
  match Build_smap s1 Ip Jp with
  | None => None
  | Some smap =>
      snd (forloop s1 (upwind_row Ip Jp Kp smap DI DJ) (0%nat, Some Dp))
  end.

(** ** Well-formed patterns *)

(** Offset [q] belongs to row [r]. *)
Definition inrow (I : index) (r q : nat) : Prop :=
  (I r <= q < I (r + 1))%nat.

(** A finalized matrix of size [n]: the row offsets start at 0 and do not
    decrease, columns are below [n], and a row stores a column at most
    once. *)
Record finalized (n : nat) (I J : index) : Prop := mkFinalized {
  fin_I0 : I 0%nat = 0%nat;
  fin_mono : forall i, (i < n)%nat -> (I i <= I (i + 1))%nat;
  fin_col : forall i q, (i < n)%nat -> inrow I i q -> (J q < n)%nat;
  fin_nodup : forall i q q',
      (i < n)%nat -> inrow I i q -> inrow I i q' -> J q = J q' -> q = q'
}.

(** The sparsity pattern is structurally symmetric: with [(i,j)] the pattern
    stores [(j,i)]. *)
Definition structurally_symmetric (n : nat) (I J : index) : Prop :=
  forall i q, (i < n)%nat -> inrow I i q ->
              exists q', inrow I (J q) q' /\ J q' = i.

(** Every row stores its diagonal entry. *)
Definition diagonal_stored (n : nat) (I J : index) : Prop :=
  forall i, (i < n)%nat -> exists q, inrow I i q /\ J q = i.

(** The sum of the stored entries of row [i], and of those off the
    diagonal. *)
Definition row_sum (I : index) (A : mem) (i : nat) : R :=
  sum_n (I (i + 1)%nat - I i) (fun t => A (I i + t)%nat).

Definition offdiag_sum (I J : index) (A : mem) (i : nat) : R :=
  sum_n (I (i + 1)%nat - I i)
        (fun t => if Nat.eqb i (J (I i + t)%nat) then 0 else A (I i + t)%nat).

(** [sm] is a symmetry map: the offset of [(J q, i)] for every entry [q] of
    every row [i]. *)
Definition is_smap (n : nat) (I J : index) (sm : index) : Prop :=
  forall i q, (i < n)%nat -> inrow I i q ->
              inrow I (J q) (sm q) /\ J (sm q) = i.

(** ** Loop invariants *)

Lemma forloop_ind {St : Type} (P : nat -> St -> Prop) (n : nat)
  (body : nat -> St -> St) (s : St) :
  P 0%nat s ->
  (forall i s, (i < n)%nat -> P i s -> P (S i) (body i s)) ->
  P n (forloop n body s).
Proof.
  intros H0 Hs. induction n as [| n IH]; simpl; [exact H0 | ].
  apply Hs; [lia | ]. apply IH. intros i s' Hi. apply Hs. lia.
Qed.

Lemma find_entry_first (J : index) (target hi q : nat) :
  forall fuel lo,
    (hi - lo < fuel)%nat -> (lo <= q < hi)%nat -> J q = target ->
    (forall q', (lo <= q' < q)%nat -> J q' <> target) ->
    find_entry fuel J target lo hi = Some q.
Proof.
  induction fuel as [| fuel IH]; intros lo Hf Hq Hj Hmin; [lia | ].
  simpl. destruct (Nat.eqb_spec lo hi) as [-> | Hne]; [lia | ].
  destruct (Nat.eqb_spec (J lo) target) as [Hlo | Hlo].
  - destruct (Nat.eq_dec lo q) as [-> | Hd]; [reflexivity | ].
    exfalso. apply (Hmin lo); [lia | exact Hlo].
  - assert (lo <> q) by congruence.
    apply IH; [lia | lia | exact Hj | ].
    intros q' Hq'. apply Hmin. lia.
Qed.

Section Pattern.

Variable n : nat.
Variables I J : index.
Hypothesis Hfin : finalized n I J.

Lemma I_mono (r i : nat) : (r <= i <= n)%nat -> (I r <= I i)%nat.
Proof.
  intros [Hri Hin]. induction i as [| i IH].
  - assert (r = 0)%nat by lia. subst. lia.
  - destruct (Nat.eq_dec r (S i)) as [-> | Hne]; [lia | ].
    assert (I r <= I i)%nat by (apply IH; lia).
    pose proof (fin_mono n I J Hfin i). replace (i + 1)%nat with (S i) in * by lia.
    lia.
Qed.

Lemma rows_disjoint (r r' q : nat) :
  (r < n)%nat -> (r' < n)%nat -> inrow I r q -> inrow I r' q -> r = r'.
Proof.
  intros Hr Hr' [H1 H2] [H3 H4].
  destruct (Nat.lt_trichotomy r r') as [Hlt | [Heq | Hgt]]; [ | exact Heq | ].
  - pose proof (I_mono (r + 1)%nat r'). lia.
  - pose proof (I_mono (r' + 1)%nat r). lia.
Qed.

Lemma offset_of_found (i j q : nat) :
  (i < n)%nat -> inrow I i q -> J q = j -> offset_of I J i j = Some q.
Proof.
  intros Hi Hq Hj. unfold offset_of.
  apply find_entry_first; [lia | exact Hq | exact Hj | ].
  intros q' Hq' Hj'.
  assert (q' = q).
  { apply (fin_nodup n I J Hfin i); try assumption.
    - destruct Hq. split; lia.
    - congruence. }
  lia.
Qed.

Lemma Build_smap_ok :
  structurally_symmetric n I J ->
  exists sm, Build_smap n I J = Some sm /\ is_smap n I J sm.
Proof.
  intros Hsym. unfold Build_smap.
  set (body := fun (row : nat) (st : nat * option index) => _).
  assert (H : forall m, (m <= n)%nat ->
            exists sm, forloop m body (0%nat, Some (fun _ => 0%nat))
                       = (I m, Some sm) /\
                       forall r q, (r < m)%nat -> inrow I r q ->
                                   inrow I (J q) (sm q) /\ J (sm q) = r).
  { induction m as [| m IH]; intros Hm.
    - exists (fun _ => 0%nat). simpl. rewrite (fin_I0 n I J Hfin).
      split; [reflexivity | ]. intros r q Hr. lia.
    - destruct (IH ltac:(lia)) as (sm & Est & Hgood).
      simpl forloop. rewrite Est. unfold body at 1.
      pose proof (fin_mono n I J Hfin m ltac:(lia)) as Hmono.
      replace (m + 1)%nat with (S m) in * by lia.
      replace (Nat.max (I m) (I (S m))) with (I (S m)) by lia.
      match goal with
      | |- context [forloop _ ?f (Some sm)] => set (inner := f)
      end.
      assert (Hin : forall t, (t <= I (S m) - I m)%nat ->
                exists sm', forloop t inner (Some sm) = Some sm' /\
                  (forall r q, (r < m)%nat -> inrow I r q ->
                               inrow I (J q) (sm' q) /\ J (sm' q) = r) /\
                  (forall q, (I m <= q < I m + t)%nat ->
                             inrow I (J q) (sm' q) /\ J (sm' q) = m)).
      { induction t as [| t IHt]; intros Ht.
        - exists sm. simpl. split; [reflexivity | ].
          split; [exact Hgood | ]. intros q Hq. lia.
        - destruct (IHt ltac:(lia)) as (sm' & E' & Hold & Hrow).
          simpl forloop. rewrite E'. unfold inner at 1.
          assert (Hj : inrow I m (I m + t)%nat).
          { unfold inrow. replace (m + 1)%nat with (S m) by lia. lia. }
          destruct (Hsym m (I m + t)%nat ltac:(lia) Hj) as (q' & Hq' & Hjq').
          assert (Hcol : (J (I m + t)%nat < n)%nat)
            by (apply (fin_col n I J Hfin m); [lia | exact Hj]).
          rewrite (offset_of_found (J (I m + t)%nat) m q' Hcol Hq' Hjq').
          eexists. split; [reflexivity | ].
          split.
          + intros r q Hr Hq.
            destruct (Nat.eqb_spec q (I m + t)%nat) as [-> | Hne].
            * exfalso. assert (r = m) by (apply (rows_disjoint r m (I m + t)%nat);
                                          try assumption; lia). lia.
            * apply Hold; assumption.
          + intros q Hq.
            destruct (Nat.eqb_spec q (I m + t)%nat) as [-> | Hne].
            * split; assumption.
            * apply Hrow. lia. }
      destruct (Hin (I (S m) - I m)%nat (Nat.le_refl _)) as (sm' & E' & Hold & Hrow).
      exists sm'. rewrite E'. split; [reflexivity | ].
      intros r q Hr Hq.
      destruct (Nat.eq_dec r m) as [-> | Hne].
      * apply Hrow. unfold inrow in Hq.
        replace (m + 1)%nat with (S m) in Hq by lia. lia.
      * apply Hold; [lia | exact Hq]. }
  destruct (H n (Nat.le_refl n)) as (sm & E & Hgood).
  exists sm. rewrite E. split; [reflexivity | exact Hgood].
Qed.

End Pattern.

(** [dij] for the entry at offset [q]. *)
Definition dval (Kp : mem) (sm : index) (q : nat) : R :=
  Rmax (Rmax 0 (- Kp q)) (- Kp (sm q)).

Lemma Rmax3_swap (a b : R) : Rmax (Rmax 0 a) b = Rmax (Rmax 0 b) a.
Proof.
  unfold Rmax. repeat destruct (Rle_dec _ _); lra.
Qed.

Lemma Rmax3_nonneg (a b : R) : 0 <= Rmax (Rmax 0 a) b.
Proof.
  unfold Rmax. repeat destruct (Rle_dec _ _); lra.
Qed.

Lemma sum_n_single (n t0 : nat) (h : nat -> R) :
  (t0 < n)%nat -> (forall t, (t < n)%nat -> t <> t0 -> h t = 0) ->
  sum_n n h = h t0.
Proof.
  induction n as [| n IH]; intros Ht H0; [lia | ].
  rewrite sum_n_S. destruct (Nat.eq_dec t0 n) as [-> | Hne].
  - rewrite (sum_n_ext n h (fun _ => 0)), sum_n_zero; [lra | ].
    intros i Hi. apply H0; lia.
  - rewrite IH; [ | lia | intros t Hlt; apply H0; lia].
    rewrite (H0 n); [lra | lia | lia].
Qed.

Section Upwinding.

Variable n : nat.
Variables I J : index.
Variable Kp : mem.
Variable sm : index.
Hypothesis Hfin : finalized n I J.
Hypothesis Hdiag : diagonal_stored n I J.
Hypothesis Hsm : is_smap n I J sm.

Local Abbreviation dval' := (dval Kp sm).
Local Abbreviation offsum := (offdiag_sum I J (dval Kp sm)).

Lemma smap_diag (i q : nat) :
  (i < n)%nat -> inrow I i q -> J q = i -> sm q = q.
Proof.
  intros Hi Hq Hj. destruct (Hsm i q Hi Hq) as [Hrow Hcol].
  apply (fin_nodup n I J Hfin i); try assumption; congruence.
Qed.

Lemma smap_invol (i q : nat) :
  (i < n)%nat -> inrow I i q -> sm (sm q) = q.
Proof.
  intros Hi Hq. destruct (Hsm i q Hi Hq) as [Hrow Hcol].
  assert (Hj : (J q < n)%nat) by (apply (fin_col n I J Hfin i); assumption).
  destruct (Hsm (J q) (sm q) Hj Hrow) as [Hrow' Hcol'].
  rewrite Hcol in Hrow'.
  apply (fin_nodup n I J Hfin i); assumption.
Qed.

Lemma dval_sym (i q : nat) :
  (i < n)%nat -> inrow I i q -> dval' (sm q) = dval' q.
Proof.
  intros Hi Hq. unfold dval. rewrite (smap_invol i q Hi Hq).
  apply Rmax3_swap.
Qed.

(** Storing [dij] at [k] and at [smap[k]] keeps every entry that already
    holds its [dij]. *)
Lemma upd_pair_dval (Dp : mem) (i k q : nat) :
  (i < n)%nat -> inrow I i k -> Dp q = dval' q ->
  upd (upd Dp k (dval' k)) (sm k) (dval' k) q = dval' q.
Proof.
  intros Hi Hk Hq. unfold upd.
  destruct (Nat.eqb_spec q (sm k)) as [-> | _].
  - symmetry. apply (dval_sym i); assumption.
  - destruct (Nat.eqb_spec q k) as [-> | _]; [reflexivity | exact Hq].
Qed.

Lemma upd_pair_at (Dp : mem) (k : nat) (d : R) :
  upd (upd Dp k d) (sm k) d k = d.
Proof.
  unfold upd. destruct (Nat.eqb_spec k (sm k)); [reflexivity | ].
  rewrite Nat.eqb_refl. reflexivity.
Qed.

Lemma upwind_entry_eq (i k : nat) (Dp : mem) (rs : R) :
  upwind_entry J Kp sm i k (Dp, rs) =
  (upd (upd Dp k (dval' k)) (sm k) (dval' k),
   if Nat.eqb i (J k) then rs else rs + dval' k).
Proof.
  unfold upwind_entry. cbv zeta. rewrite upd_pair_at. reflexivity.
Qed.

(** The entries of the rows below [i] hold their final values. *)
Definition rows_done (i : nat) (Dp : mem) : Prop :=
  (forall r q, (r < i)%nat -> inrow I r q -> J q <> r -> Dp q = dval' q) /\
  (forall r q, (r < i)%nat -> inrow I r q -> J q = r -> Dp q = - offsum r).

(** In the rows above [i], the entries whose symmetric entry has been visited
    hold their [dij]; [t] entries of row [i] have been visited. *)
Definition rows_ahead (i t : nat) (Dp : mem) : Prop :=
  forall r q, (i < r < n)%nat -> inrow I r q ->
              ((J q < i)%nat \/ (J q = i /\ (sm q < I i + t)%nat)) ->
              Dp q = dval' q.

Lemma inner_loop_spec (i : nat) (Dp0 : mem) :
  (i < n)%nat -> rows_done i Dp0 -> rows_ahead i 0 Dp0 ->
  forall t, (t <= I (i + 1)%nat - I i)%nat ->
    let st := forloop t (fun t st => upwind_entry J Kp sm i (I i + t)%nat st)
                      (Dp0, 0) in
    rows_done i (fst st) /\ rows_ahead i t (fst st) /\
    (forall q, (I i <= q < I i + t)%nat -> fst st q = dval' q) /\
    snd st = sum_n t (fun t' => if Nat.eqb i (J (I i + t')%nat) then 0
                                else dval' (I i + t')%nat).
Proof.
  intros Hi Hdone Hahead. induction t as [| t IH]; intros Ht; cbv zeta.
  - simpl. split; [exact Hdone | ]. split; [exact Hahead | ].
    split; [intros q Hq; lia | reflexivity].
  - simpl forloop. cbv zeta in IH. specialize (IH ltac:(lia)).
    destruct (forloop t _ (Dp0, 0)) as [Dp rs].
    simpl fst in IH. simpl snd in IH.
    destruct IH as ((HA & HB) & HC & HD & HE).
    rewrite upwind_entry_eq. simpl fst. simpl snd.
    set (k := (I i + t)%nat) in *.
    assert (Hk : inrow I i k) by (unfold inrow, k; lia).
    assert (Hjk : (J k < n)%nat) by (apply (fin_col n I J Hfin i); assumption).
    destruct (Hsm i k Hi Hk) as [Hsk Hjsk].
    split; [split | split; [ | split]].
    + intros r q Hr Hq Hj. apply (upd_pair_dval _ i); try assumption.
      apply (HA r); assumption.
    + intros r q Hr Hq Hj.
      assert (Hqk : q <> k).
      { intros ->. assert (r = i) by (apply (rows_disjoint n I J Hfin r i k);
                                      try assumption; lia). lia. }
      assert (Hqs : q <> sm k).
      { intros ->. assert (r = J k) by (apply (rows_disjoint n I J Hfin r (J k) (sm k));
                                        try assumption; lia).
        rewrite Hjsk in Hj. lia. }
      rewrite !upd_other by assumption. apply (HB r); assumption.
    + intros r q Hr Hq Hcase.
      destruct Hcase as [Hlt | [Hji Hlt]].
      * apply (upd_pair_dval _ i); try assumption.
        apply (HC r); [exact Hr | exact Hq | left; exact Hlt].
      * destruct (Nat.eq_dec (sm q) k) as [Hsq | Hsq].
        -- assert (Hq' : sm k = q)
             by (rewrite <- Hsq; apply (smap_invol r); [lia | exact Hq]).
           rewrite <- Hq' at 1. rewrite upd_same.
           rewrite <- Hq'. symmetry. apply (dval_sym i); assumption.
        -- apply (upd_pair_dval _ i); try assumption.
           apply (HC r); [exact Hr | exact Hq | right; split; [exact Hji | ]].
           unfold k in Hsq. lia.
    + intros q Hq. destruct (Nat.eq_dec q k) as [-> | Hne].
      * apply upd_pair_at.
      * apply (upd_pair_dval _ i); try assumption. apply HD. unfold k in Hne. lia.
    + rewrite sum_n_S, HE. fold k.
      destruct (Nat.eqb i (J k)); lra.
Qed.

(** In the rows from [m] on, the entries whose column is below [m] hold their
    [dij]. *)
Definition rows_partner (m : nat) (Dp : mem) : Prop :=
  forall r q, (m <= r < n)%nat -> inrow I r q -> (J q < m)%nat ->
              Dp q = dval' q.

Lemma outer_loop_spec (Dp0 : mem) :
  forall m, (m <= n)%nat ->
    exists Dp,
      forloop m (upwind_row I J Kp sm I J) (0%nat, Some Dp0) = (I m, Some Dp) /\
      rows_done m Dp /\ rows_partner m Dp.
Proof.
  induction m as [| m IH]; intros Hm.
  - exists Dp0. simpl. rewrite (fin_I0 n I J Hfin).
    split; [reflexivity | ]. split; [split | ]; intros r q Hr; lia.
  - destruct (IH ltac:(lia)) as (Dp & Est & Hdone & Hpart).
    simpl forloop. rewrite Est. unfold upwind_row.
    pose proof (fin_mono n I J Hfin m ltac:(lia)) as Hmono.
    replace (Nat.max (I m) (I (m + 1)%nat)) with (I (S m))
      by (replace (m + 1)%nat with (S m) by lia;
          replace (m + 1)%nat with (S m) in Hmono by lia; lia).
    assert (Hm' : (m < n)%nat) by lia.
    assert (Hahead : rows_ahead m 0 Dp).
    { intros r q Hr Hq [Hlt | [Hj Hlt]].
      - apply (Hpart r); [lia | exact Hq | exact Hlt].
      - exfalso. destruct (Hsm r q ltac:(lia) Hq) as [[Hlo _] _].
        rewrite Hj in Hlo. lia. }
    pose proof (inner_loop_spec m Dp Hm' Hdone Hahead
                  (I (m + 1)%nat - I m)%nat (Nat.le_refl _)) as Hin.
    cbv zeta in Hin.
    destruct (forloop (I (m + 1)%nat - I m) _ (Dp, 0)) as [Dp1 rs].
    simpl fst in Hin. simpl snd in Hin.
    destruct Hin as ((HA & HB) & HC & HD & HE).
    destruct (Hdiag m Hm') as (kd & Hkd & Hjkd).
    unfold set_entry.
    rewrite (offset_of_found n I J Hfin m m kd Hm' Hkd Hjkd).
    exists (upd Dp1 kd (- rs)). split; [reflexivity | ].
    assert (Hother : forall r q, (r < n)%nat -> r <> m -> inrow I r q -> q <> kd).
    { intros r q Hr Hne Hq ->. apply Hne.
      apply (rows_disjoint n I J Hfin r m kd); assumption. }
    split; [split | ].
    + intros r q Hr Hq Hj.
      assert (Hqk : q <> kd).
      { intros ->. assert (r = m)
          by (apply (rows_disjoint n I J Hfin r m kd); try assumption; lia).
        congruence. }
      rewrite upd_other by exact Hqk.
      destruct (Nat.eq_dec r m) as [-> | Hne].
      * apply HD. unfold inrow in Hq. lia.
      * apply (HA r); [lia | exact Hq | exact Hj].
    + intros r q Hr Hq Hj.
      destruct (Nat.eq_dec r m) as [-> | Hne].
      * assert (q = kd)
          by (apply (fin_nodup n I J Hfin m); try assumption; congruence).
        subst q. rewrite upd_same, HE. reflexivity.
      * rewrite upd_other by (apply (Hother r); try assumption; lia).
        apply (HB r); [lia | exact Hq | exact Hj].
    + intros r q Hr Hq Hj.
      rewrite upd_other by (apply (Hother r); try assumption; lia).
      apply (HC r); [lia | exact Hq | ].
      destruct (Nat.eq_dec (J q) m) as [Hjm | Hjm].
      * right. split; [exact Hjm | ].
        destruct (Hsm r q ltac:(lia) Hq) as [[_ Hhi] _].
        rewrite Hjm in Hhi. lia.
      * left. lia.
Qed.

End Upwinding.

(** C10: on a finalized matrix [K] with a structurally symmetric pattern that
    stores its diagonal, and [D] on the same pattern, the call returns; every
    stored off-diagonal entry has [D(i,j) = D(j,i) =
    max(0, -K(i,j), -K(j,i)) >= 0]; every diagonal entry is minus the sum of
    the off-diagonal entries of its row; every row of [D] sums to zero. *)
Theorem discrete_upwinding_matrix (n : nat) (I J : index) (Kp Dp0 : mem) :
  finalized n I J -> structurally_symmetric n I J -> diagonal_stored n I J ->
  exists Dp,
    ComputeDiscreteUpwindingMatrix n I J Kp I J Dp0 = Some Dp /\
    (forall i q, (i < n)%nat -> inrow I i q -> J q <> i ->
       exists q', offset_of I J (J q) i = Some q' /\
                  inrow I (J q) q' /\ J q' = i /\
                  Dp q = Dp q' /\
                  Dp q = Rmax (Rmax 0 (- Kp q)) (- Kp q') /\
                  0 <= Dp q) /\
    (forall i q, (i < n)%nat -> inrow I i q -> J q = i ->
       Dp q = - offdiag_sum I J Dp i) /\
    (forall i, (i < n)%nat -> row_sum I Dp i = 0).
Proof.
  intros Hfin Hsym Hdiag.
  destruct (Build_smap_ok n I J Hfin Hsym) as (sm & Esm & Hsm).
  destruct (outer_loop_spec n I J Kp sm Hfin Hdiag Hsm Dp0 n (Nat.le_refl n))
    as (Dp & E & (HA & HB) & _).
  exists Dp. unfold ComputeDiscreteUpwindingMatrix. rewrite Esm, E.
  split; [reflexivity | ].
  assert (Hoff : forall i, (i < n)%nat ->
            offdiag_sum I J Dp i = offdiag_sum I J (dval Kp sm) i).
  { intros i Hi. unfold offdiag_sum. apply sum_n_ext. intros t Ht.
    destruct (Nat.eqb_spec i (J (I i + t)%nat)) as [_ | Hne]; [reflexivity | ].
    apply (HA i); [exact Hi | unfold inrow; lia | congruence]. }
  split; [ | split].
  - intros i q Hi Hq Hj.
    destruct (Hsm i q Hi Hq) as [Hrow Hcol].
    assert (Hjn : (J q < n)%nat) by (apply (fin_col n I J Hfin i); assumption).
    exists (sm q).
    split; [apply (offset_of_found n I J Hfin); assumption | ].
    split; [exact Hrow | ]. split; [exact Hcol | ].
    assert (E1 : Dp q = dval Kp sm q) by (apply (HA i); assumption).
    assert (E2 : Dp (sm q) = dval Kp sm (sm q))
      by (apply (HA (J q)); [exact Hjn | exact Hrow | congruence]).
    rewrite E1, E2, (dval_sym n I J Kp sm Hfin Hsm i q Hi Hq).
    split; [reflexivity | ]. split; [reflexivity | apply Rmax3_nonneg].
  - intros i q Hi Hq Hj. rewrite (Hoff i Hi). apply (HB i); assumption.
  - intros i Hi.
    destruct (Hdiag i Hi) as (kd & Hkd & Hjkd).
    assert (Ekd : kd = (I i + (kd - I i))%nat) by (unfold inrow in Hkd; lia).
    unfold row_sum.
    rewrite (sum_n_ext _ _
               (fun t => (if Nat.eqb i (J (I i + t)%nat)
                          then Dp (I i + t)%nat else 0)
                         + (if Nat.eqb i (J (I i + t)%nat)
                            then 0 else Dp (I i + t)%nat)))
      by (intros t _; destruct (Nat.eqb i (J (I i + t)%nat)); lra).
    rewrite sum_n_plus. fold (offdiag_sum I J Dp i).
    rewrite (sum_n_single _ (kd - I i)%nat).
    + rewrite <- Ekd, Hjkd, Nat.eqb_refl.
      rewrite (HB i kd Hi Hkd Hjkd), (Hoff i Hi). lra.
    + unfold inrow in Hkd. lia.
    + intros t Ht Hne.
      destruct (Nat.eqb_spec i (J (I i + t)%nat)) as [Heq | _]; [ | reflexivity].
      exfalso. apply Hne.
      assert (I i + t = kd)%nat.
      { apply (fin_nodup n I J Hfin i); try assumption.
        - unfold inrow. lia.
        - congruence. }
      lia.
Qed.

(** The matrix [[1, -2], [3, 4]], stored densely. *)
Lemma discrete_upwinding_matrix_witness :
  let I : index := fun i => (2 * i)%nat in
  let J : index := fun q => Nat.modulo q 2 in
  let Kp : mem := fun q => match q with
                           | O => 1 | S O => -2 | S (S O) => 3 | _ => 4
                           end in
  exists Dp,
    ComputeDiscreteUpwindingMatrix 2 I J Kp I J (fun _ => 0) = Some Dp /\
    (forall i q, (i < 2)%nat -> inrow I i q -> J q <> i ->
       exists q', offset_of I J (J q) i = Some q' /\
                  inrow I (J q) q' /\ J q' = i /\
                  Dp q = Dp q' /\
                  Dp q = Rmax (Rmax 0 (- Kp q)) (- Kp q') /\
                  0 <= Dp q) /\
    (forall i q, (i < 2)%nat -> inrow I i q -> J q = i ->
       Dp q = - offdiag_sum I J Dp i) /\
    (forall i, (i < 2)%nat -> row_sum I Dp i = 0).
Proof.
  intros I J Kp.
  assert (Hmod : forall q, (I 0%nat <= q < I 2%nat)%nat ->
            q = 0%nat \/ q = 1%nat \/ q = 2%nat \/ q = 3%nat)
    by (unfold I; intros q Hq; lia).
  apply (discrete_upwinding_matrix 2 I J Kp (fun _ => 0)).
  - constructor.
    + reflexivity.
    + intros i Hi. unfold I. lia.
    + intros i q Hi Hq. unfold J. apply Nat.mod_upper_bound. lia.
    + intros i q q' Hi [H1 H2] [H3 H4] Hj. unfold I, J in *.
      assert (Hi' : i = 0%nat \/ i = 1%nat) by lia.
      destruct Hi' as [-> | ->]; simpl in *.
      * assert (Hq : q = 0%nat \/ q = 1%nat) by lia.
        assert (Hq' : q' = 0%nat \/ q' = 1%nat) by lia.
        destruct Hq as [-> | ->]; destruct Hq' as [-> | ->];
          simpl in Hj; congruence.
      * assert (Hq : q = 2%nat \/ q = 3%nat) by lia.
        assert (Hq' : q' = 2%nat \/ q' = 3%nat) by lia.
        destruct Hq as [-> | ->]; destruct Hq' as [-> | ->];
          simpl in Hj; congruence.
  - intros i q Hi [H1 H2]. unfold I, J, inrow in *.
    assert (Hi' : i = 0%nat \/ i = 1%nat) by lia.
    destruct Hi' as [-> | ->]; simpl in *.
    + assert (Hq : q = 0%nat \/ q = 1%nat) by lia.
      destruct Hq as [-> | ->]; simpl.
      * exists 0%nat. simpl. split; [lia | reflexivity].
      * exists 2%nat. simpl. split; [lia | reflexivity].
    + assert (Hq : q = 2%nat \/ q = 3%nat) by lia.
      destruct Hq as [-> | ->]; simpl.
      * exists 1%nat. simpl. split; [lia | reflexivity].
      * exists 3%nat. simpl. split; [lia | reflexivity].
  - intros i Hi. unfold I, J, inrow.
    assert (Hi' : i = 0%nat \/ i = 1%nat) by lia.
    destruct Hi' as [-> | ->]; simpl.
    + exists 0%nat. simpl. split; [lia | reflexivity].
    + exists 3%nat. simpl. split; [lia | reflexivity].
Defined.

(** C10 as stated fails: the finalized pattern that stores only the entries
    [(0,1)] and [(1,0)] is structurally symmetric, but no row stores its
    diagonal entry: the map of transposed entries is built, and then the
    access [D(i,i)] that ends the first row finds no entry and the run is
    aborted. *)
Lemma upwinding_needs_stored_diagonal :
  let I : index := fun i => i in
  let J : index := fun q => match q with O => 1%nat | _ => 0%nat end in
  let Kp : mem := fun q => match q with O => 1 | _ => -1 end in
  finalized 2 I J /\ structurally_symmetric 2 I J /\
  Build_smap 2 I J <> None /\
  ComputeDiscreteUpwindingMatrix 2 I J Kp I J (fun _ => 0) = None.
Proof.
  intros I J Kp. split; [ | split; [ | split]].
  - constructor.
    + reflexivity.
    + intros i Hi. unfold I. lia.
    + intros i q Hi [H1 H2]. unfold I, J in *. destruct q; lia.
    + intros i q q' Hi [H1 H2] [H3 H4] _. unfold I in *. lia.
  - intros i q Hi [H1 H2]. unfold I, J, inrow in *.
    assert (Hq : q = i) by lia. subst q.
    assert (Hi' : i = 0%nat \/ i = 1%nat) by lia.
    destruct Hi' as [-> | ->]; simpl.
    + exists 1%nat. split; [lia | reflexivity].
    + exists 0%nat. split; [lia | reflexivity].
  - vm_compute. discriminate.
  - reflexivity.
Qed.

End Upwind.


(* ================================================================== *)
(** * Subdomain and direction numbering (DofMapsDST.cpp:29-58) *)
(* ================================================================== *)

Module Grid.

Local Open Scope Z_scope.

(** [a[d]] on an [Array<int>]. *)
Definition at_ (a : list Z) (d : nat) : Z := nth d a 0.

(** [void GetSubdomainijk(int ip, const Array<int> nxyz, Array<int> & ijk)];
    [/] and [%] on [int] truncate toward zero. *)
Definition GetSubdomainijk (ip : Z) (nxyz : list Z) : list Z :=
  let ijk2 := Z.quot ip (at_ nxyz 0 * at_ nxyz 1) in
  let ijk1 := Z.quot (ip - ijk2 * at_ nxyz 0 * at_ nxyz 1) (at_ nxyz 0) in
  let ijk0 := Z.rem (ip - ijk2 * at_ nxyz 0 * at_ nxyz 1) (at_ nxyz 0) in
  [ijk0; ijk1; ijk2].

(** [void GetDirectionijk(int id, Array<int> & ijk)] *)
Definition GetDirectionijk (id : Z) : list Z :=
  let n := 3 in
  let ijk2 := Z.quot id (n * n) - 1 in
  let ijk1 := Z.quot (id - (ijk2 + 1) * n * n) n - 1 in
  let ijk0 := Z.rem (id - (ijk2 + 1) * n * n) n - 1 in
  [ijk0; ijk1; ijk2].

(** [int GetSubdomainId(const Array<int> nxyz, Array<int> & ijk)] *)
Definition GetSubdomainId (nxyz ijk : list Z) : Z :=
  let dim := length ijk in
  let k := if Nat.eqb dim 2 then 0 else at_ ijk 2 in
  k * at_ nxyz 1 * at_ nxyz 0 + at_ ijk 1 * at_ nxyz 0 + at_ ijk 0.

(** [int GetDirectionId(const Array<int> & ijk)] *)
Definition GetDirectionId (ijk : list Z) : Z :=
  let n := 3 in
  let dim := length ijk in
  let k := if Nat.eqb dim 2 then -1 else at_ ijk 2 in
  (k + 1) * n * n + (at_ ijk 1 + 1) * n + at_ ijk 0 + 1.

(** [for (int v = lo; v <= hi; v++)] runs over these values. *)
Definition zrange (lo hi : Z) : list Z :=
  map (fun t => lo + Z.of_nat t) (seq 0 (Z.to_nat (hi - lo + 1))).

End Grid.

(* ================================================================== *)
(** * Overlap region builder: [DofMaps::AddElementToOvlpLists] and
      [DofMaps::ComputeOvlpElems] (DofMapsDST.cpp:112-192) *)
(* ================================================================== *)

Module Overlap.

Import Arrays Grid.

Local Open Scope Z_scope.

(** [OvlpElems[l][DirId].Append(iel)] on the buckets of one subdomain. *)
Fixpoint append_at (b : list (list nat)) (id : nat) (iel : nat)
  : list (list nat) :=
  match b, id with
  | [], _ => []
  | l :: b', O => (l ++ [iel]) :: b'
  | l :: b', S id' => l :: append_at b' id' iel
  end.

(** [void DofMaps::AddElementToOvlpLists(int l, int iel, const Array<bool> &
    neg, const Array<bool> & pos)], on the buckets [OvlpElems[l]]. *)
Definition AddElementToOvlpLists (dim : nat) (iel : nat) (neg pos : list bool)
  (b : list (list nat)) : list (list nat) :=
  let kbeg := if Nat.eqb dim 2 then 0 else -1 in
  let kend := if Nat.eqb dim 2 then 0 else 1 in
  fold_left
    (fun b k =>
       if Nat.eqb dim 3 &&
          (((k =? -1) && negb (nth 2 neg false)) ||
           ((k =? 1) && negb (nth 2 pos false)))
       then b
       else
         fold_left
           (fun b j =>
              if ((j =? -1) && negb (nth 1 neg false)) ||
                 ((j =? 1) && negb (nth 1 pos false))
              then b
              else
                fold_left
                  (fun b i =>
                     if ((i =? -1) && negb (nth 0 neg false)) ||
                        ((i =? 1) && negb (nth 0 pos false))
                     then b
                     else if (i =? 0) && (j =? 0) && (k =? 0) then b
                     else
                       let dijk := [i; j; if Nat.eqb dim 2 then -1 else k] in
                       let DirId := GetDirectionId dijk in
                       append_at b (Z.to_nat DirId) iel)
                  (zrange (-1) 1) b)
           (zrange (-1) 1) b)
    (zrange kbeg kend) b.

(** [flags[d] = true] on an [Array<bool>]. *)
Fixpoint set_true (flags : list bool) (d : nat) : list bool :=
  match flags, d with
  | [], _ => []
  | _ :: f, O => true :: f
  | b :: f, S d' => b :: set_true f d'
  end.

Section Element.

(** The subdomain: its coordinates [ijk] in the grid [nxyz], its bounding
    box [pmin], [pmax], the mesh size [h] and [nlayers = 2 * OvlpNlayers];
    [center] is the centroid of the element at hand. *)
Variable dim : nat.
Variables nxyz ijk : list Z.
Variables pmin pmax : nat -> R.
Variable h : R.
Variable nlayers : Z.

(** [neg] after the loop over [d]: it starts all [false]. *)
Definition neg_flags (center : nat -> R) : list bool :=
  fold_left
    (fun neg d =>
       if (0 <? at_ ijk d) &&
          Rltb (center d) (pmin d + h * IZR nlayers)%R
       then set_true neg d else neg)
    (seq 0 dim) (repeat false dim).

(** [pos] after the loop over [d]. *)
Definition pos_flags (center : nat -> R) : list bool :=
  fold_left
    (fun pos d =>
       if (at_ ijk d <? at_ nxyz d - 1) &&
          Rltb (pmax d - h * IZR nlayers)%R (center d)
       then set_true pos d else pos)
    (seq 0 dim) (repeat false dim).

End Element.

(** The part of [DofMaps::ComputeOvlpElems] for one subdomain [l] owned by
    the process: [NE] elements with centroids [center iel], buckets resized
    to [pow(3,dim)]. *)
Definition ComputeOvlpElems_subdomain (dim : nat) (nxyz : list Z) (l : Z)
  (NE : nat) (center : nat -> nat -> R) (pmin pmax : nat -> R) (h : R)
  (OvlpNlayers : Z) : list (list nat) :=
  let nlayers := 2 * OvlpNlayers in
  let ijk := GetSubdomainijk l nxyz in
  fold_left
    (fun b iel =>
       AddElementToOvlpLists dim iel
         (neg_flags dim ijk pmin h nlayers (center iel))
         (pos_flags dim nxyz ijk pmax h nlayers (center iel)) b)
    (seq 0 NE) (repeat [] (3 ^ dim)%nat).

(** The mesh data of one subdomain. *)
Record submesh : Type := mkSubmesh {
  sub_NE : nat;
  sub_center : nat -> nat -> R;
  sub_pmin : nat -> R;
  sub_pmax : nat -> R
}.

(** [void DofMaps::ComputeOvlpElems()] on process [myid]: [OvlpElems] has one
    entry per subdomain, left empty for the subdomains of other processes. *)
Definition ComputeOvlpElems (myid : Z) (subdomain_rank : list Z) (dim : nat)
  (nxyz : list Z) (mesh : nat -> submesh) (h : R) (OvlpNlayers : Z)
  : list (list (list nat)) :=
  map (fun l =>
         if myid =? nth l subdomain_rank 0
         then ComputeOvlpElems_subdomain dim nxyz (Z.of_nat l)
                (sub_NE (mesh l)) (sub_center (mesh l))
                (sub_pmin (mesh l)) (sub_pmax (mesh l)) h OvlpNlayers
         else [])
      (seq 0 (length subdomain_rank)).

(** ** The words of the specification *)

(** Direction [v] is compatible with the flags: every component -1 has [neg]
    set and every component +1 has [pos] set, on the [dim] axes. *)
Definition compatible (dim : nat) (neg pos : list bool) (v : list Z) : bool :=
  forallb (fun d => (negb (at_ v d =? -1) || nth d neg false) &&
                    (negb (at_ v d =? 1) || nth d pos false))
          (seq 0 dim).

(** Direction [v] is not the zero direction, on the [dim] axes. *)
Definition nonzero (dim : nat) (v : list Z) : bool :=
  existsb (fun d => negb (at_ v d =? 0)) (seq 0 dim).

Definition in_bucket (dim : nat) (neg pos : list bool) (id : nat) : bool :=
  let v := GetDirectionijk (Z.of_nat id) in
  nonzero dim v && compatible dim neg pos v.

(** ** Flags *)

Lemma Rltb_true (a b : R) : Rltb a b = true <-> (a < b)%R.
Proof.
  unfold Rltb. destruct (Rlt_dec a b); split; intros; try assumption;
    try reflexivity; try discriminate; contradiction.
Qed.

Lemma set_true_length (f : list bool) (d : nat) :
  length (set_true f d) = length f.
Proof.
  revert d. induction f as [| b f IH]; intros [| d]; simpl; auto.
Qed.

Lemma set_true_nth (f : list bool) (d d' : nat) :
  nth d' (set_true f d) false =
  if Nat.eqb d' d && Nat.ltb d (length f) then true else nth d' f false.
Proof.
  revert d d'. induction f as [| b f IH]; intros d d'.
  - simpl. destruct d, d'; simpl; try reflexivity;
      rewrite andb_false_r; reflexivity.
  - destruct d as [| d], d' as [| d']; simpl; try reflexivity.
    rewrite IH. reflexivity.
Qed.

(** A loop that sets the flag of every [d] of [ds] satisfying [c]. *)
Lemma flags_fold (c : nat -> bool) (ds : list nat) :
  forall (init : list bool) (d : nat),
    (forall d', In d' ds -> (d' < length init)%nat) ->
    nth d (fold_left (fun f d' => if c d' then set_true f d' else f) ds init)
        false =
    nth d init false || (existsb (Nat.eqb d) ds && c d).
Proof.
  induction ds as [| d0 ds IH]; intros init d Hin.
  - simpl. rewrite orb_false_r. reflexivity.
  - simpl fold_left. rewrite IH.
    + simpl existsb.
      assert (Hd0 : (d0 < length init)%nat) by (apply Hin; left; reflexivity).
      destruct (c d0) eqn:Ec.
      * rewrite set_true_nth.
        apply Nat.ltb_lt in Hd0. rewrite Hd0, andb_true_r.
        destruct (Nat.eqb_spec d d0) as [-> | Hne].
        -- rewrite Ec. simpl. rewrite orb_true_r. reflexivity.
        -- reflexivity.
      * destruct (Nat.eqb_spec d d0) as [-> | Hne].
        -- rewrite Ec. rewrite !andb_false_r. reflexivity.
        -- reflexivity.
    + intros d' Hd'. destruct (c d0); [rewrite set_true_length | ];
        apply Hin; right; exact Hd'.
Qed.

Lemma existsb_seq (d n : nat) :
  existsb (Nat.eqb d) (seq 0 n) = Nat.ltb d n.
Proof.
  destruct (Nat.ltb_spec d n) as [Hlt | Hge].
  - apply existsb_exists. exists d. split; [apply in_seq; lia | apply Nat.eqb_refl].
  - destruct (existsb (Nat.eqb d) (seq 0 n)) eqn:E; [ | reflexivity].
    apply existsb_exists in E. destruct E as (x & Hx & He).
    apply in_seq in Hx. apply Nat.eqb_eq in He. lia.
Qed.

Lemma nth_repeat_false (n d : nat) : nth d (repeat false n) false = false.
Proof.
  revert d. induction n as [| n IH]; intros [| d]; simpl; auto.
Qed.

Lemma flags_loop (c : nat -> bool) (dim d : nat) :
  (d < dim)%nat ->
  nth d (fold_left (fun f d' => if c d' then set_true f d' else f)
           (seq 0 dim) (repeat false dim)) false = c d.
Proof.
  intros Hd. rewrite flags_fold.
  - rewrite nth_repeat_false, existsb_seq. simpl.
    apply Nat.ltb_lt in Hd. rewrite Hd. reflexivity.
  - intros d' Hd'. apply in_seq in Hd'. rewrite repeat_length. lia.
Qed.

Lemma flags_loop_length (c : nat -> bool) (ds : list nat) (init : list bool) :
  length (fold_left (fun f d' => if c d' then set_true f d' else f) ds init)
  = length init.
Proof.
  revert init. induction ds as [| d0 ds IH]; intros init; simpl; [reflexivity | ].
  rewrite IH. destruct (c d0); [apply set_true_length | reflexivity].
Qed.

Lemma neg_flags_nth (dim : nat) (ijk : list Z) (pmin : nat -> R) (h : R)
  (nlayers : Z) (center : nat -> R) (d : nat) :
  (d < dim)%nat ->
  nth d (neg_flags dim ijk pmin h nlayers center) false =
  (0 <? at_ ijk d) && Rltb (center d) (pmin d + h * IZR nlayers)%R.
Proof.
  intros Hd. unfold neg_flags.
  apply (flags_loop
           (fun d => (0 <? at_ ijk d) &&
                     Rltb (center d) (pmin d + h * IZR nlayers)%R)).
  exact Hd.
Qed.

Lemma pos_flags_nth (dim : nat) (nxyz ijk : list Z) (pmax : nat -> R) (h : R)
  (nlayers : Z) (center : nat -> R) (d : nat) :
  (d < dim)%nat ->
  nth d (pos_flags dim nxyz ijk pmax h nlayers center) false =
  (at_ ijk d <? at_ nxyz d - 1) &&
  Rltb (pmax d - h * IZR nlayers)%R (center d).
Proof.
  intros Hd. unfold pos_flags.
  apply (flags_loop
           (fun d => (at_ ijk d <? at_ nxyz d - 1) &&
                     Rltb (pmax d - h * IZR nlayers)%R (center d))).
  exact Hd.
Qed.

Lemma neg_flags_length (dim : nat) (ijk : list Z) (pmin : nat -> R) (h : R)
  (nlayers : Z) (center : nat -> R) :
  length (neg_flags dim ijk pmin h nlayers center) = dim.
Proof.
  unfold neg_flags. rewrite flags_loop_length. apply repeat_length.
Qed.

Lemma pos_flags_length (dim : nat) (nxyz ijk : list Z) (pmax : nat -> R)
  (h : R) (nlayers : Z) (center : nat -> R) :
  length (pos_flags dim nxyz ijk pmax h nlayers center) = dim.
Proof.
  unfold pos_flags. rewrite flags_loop_length. apply repeat_length.
Qed.

(** ** Buckets *)

Lemma append_at_length (b : list (list nat)) (id iel : nat) :
  length (append_at b id iel) = length b.
Proof.
  revert id. induction b as [| l b IH]; intros [| id]; simpl; auto.
Qed.

Lemma fold_left_length_inv {A B : Type} (f : list A -> B -> list A)
  (l : list B) :
  (forall b x, length (f b x) = length b) ->
  forall b, length (fold_left f l b) = length b.
Proof.
  intros Hf. induction l as [| x l IH]; intros b; simpl; [reflexivity | ].
  rewrite IH. apply Hf.
Qed.

Lemma AddElementToOvlpLists_length (dim iel : nat) (neg pos : list bool)
  (b : list (list nat)) :
  length (AddElementToOvlpLists dim iel neg pos b) = length b.
Proof.
  unfold AddElementToOvlpLists.
  apply fold_left_length_inv. intros b1 k.
  destruct (_ && _); [reflexivity | ].
  apply fold_left_length_inv. intros b2 j.
  destruct (_ || _); [reflexivity | ].
  apply fold_left_length_inv. intros b3 i.
  destruct (_ || _); [reflexivity | ].
  destruct (_ && _); [reflexivity | ].
  apply append_at_length.
Qed.

(** In 3D the element goes, once, to the buckets of the compatible non-zero
    directions: all 64 settings of the flags on all 27 buckets. *)
Lemma AddElementToOvlpLists_3D (iel : nat) (neg pos : list bool)
  (b : list (list nat)) (id : nat) :
  length neg = 3%nat -> length pos = 3%nat -> length b = 27%nat ->
  (id < 27)%nat ->
  nth id (AddElementToOvlpLists 3 iel neg pos b) [] =
  if in_bucket 3 neg pos id then nth id b [] ++ [iel] else nth id b [].
Proof.
  intros Hn Hp Hb Hid.
  destruct neg as [| n0 [| n1 [| n2 [| ? ?]]]]; try discriminate.
  destruct pos as [| p0 [| p1 [| p2 [| ? ?]]]]; try discriminate.
  do 27 (destruct b as [| ? b]; [discriminate | ]).
  destruct b; [ | discriminate].
  do 27 (destruct id as [| id];
         [destruct n0, n1, n2, p0, p1, p2; vm_compute; reflexivity | ]).
  lia.
Qed.

(** In 2D: all 16 settings of the flags on all 9 buckets. *)
Lemma AddElementToOvlpLists_2D (iel : nat) (neg pos : list bool)
  (b : list (list nat)) (id : nat) :
  length neg = 2%nat -> length pos = 2%nat -> length b = 9%nat ->
  (id < 9)%nat ->
  nth id (AddElementToOvlpLists 2 iel neg pos b) [] =
  if in_bucket 2 neg pos id then nth id b [] ++ [iel] else nth id b [].
Proof.
  intros Hn Hp Hb Hid.
  destruct neg as [| n0 [| n1 [| ? ?]]]; try discriminate.
  destruct pos as [| p0 [| p1 [| ? ?]]]; try discriminate.
  do 9 (destruct b as [| ? b]; [discriminate | ]).
  destruct b; [ | discriminate].
  do 9 (destruct id as [| id];
        [destruct n0, n1, p0, p1; vm_compute; reflexivity | ]).
  lia.
Qed.

Lemma AddElementToOvlpLists_nth (dim iel : nat) (neg pos : list bool)
  (b : list (list nat)) (id : nat) :
  dim = 2%nat \/ dim = 3%nat ->
  length neg = dim -> length pos = dim -> length b = (3 ^ dim)%nat ->
  (id < 3 ^ dim)%nat ->
  nth id (AddElementToOvlpLists dim iel neg pos b) [] =
  if in_bucket dim neg pos id then nth id b [] ++ [iel] else nth id b [].
Proof.
  intros [-> | ->] Hn Hp Hb Hid.
  - apply AddElementToOvlpLists_2D; assumption.
  - apply AddElementToOvlpLists_3D; assumption.
Qed.

(** The loop over the elements: bucket [id] collects, in order, the elements
    that belong to it. *)
Lemma element_loop_nth (dim : nat) (neg pos : nat -> list bool) (id : nat) :
  dim = 2%nat \/ dim = 3%nat ->
  (forall iel, length (neg iel) = dim) ->
  (forall iel, length (pos iel) = dim) ->
  (id < 3 ^ dim)%nat ->
  forall (els : list nat) (b : list (list nat)),
    length b = (3 ^ dim)%nat ->
    nth id (fold_left (fun b iel =>
                         AddElementToOvlpLists dim iel (neg iel) (pos iel) b)
              els b) [] =
    nth id b [] ++
    filter (fun iel => in_bucket dim (neg iel) (pos iel) id) els.
Proof.
  intros Hdim Hn Hp Hid. induction els as [| iel els IH]; intros b Hb.
  - simpl. rewrite app_nil_r. reflexivity.
  - simpl fold_left. rewrite IH
      by (rewrite AddElementToOvlpLists_length; exact Hb).
    rewrite AddElementToOvlpLists_nth by auto.
    simpl filter. destruct (in_bucket dim (neg iel) (pos iel) id).
    + rewrite <- app_assoc. reflexivity.
    + reflexivity.
Qed.

Lemma nth_repeat_nil (n id : nat) :
  nth id (repeat (@nil nat) n) [] = [].
Proof.
  revert id. induction n as [| n IH]; intros [| id]; simpl; auto.
Qed.

(** Bucket [id] is the bucket of the direction [GetDirectionijk(id)]. *)
Lemma direction_id_roundtrip (id : nat) :
  (id < 27)%nat ->
  Z.to_nat (GetDirectionId (GetDirectionijk (Z.of_nat id))) = id.
Proof.
  intros Hid.
  do 27 (destruct id as [| id]; [reflexivity | ]). lia.
Qed.

Lemma nth_map_seq {A : Type} (f : nat -> A) (n l : nat) (d : A) :
  (l < n)%nat -> nth l (map f (seq 0 n)) d = f l.
Proof.
  intros Hl.
  rewrite (nth_indep _ d (f 0%nat)) by (rewrite length_map, length_seq; exact Hl).
  rewrite (map_nth f (seq 0 n) 0%nat l), seq_nth by exact Hl.
  reflexivity.
Qed.

(** C6: on the process that owns subdomain [l], for every element the flag
    [neg[d]] is set exactly when [ijk[d] > 0] and the centroid is less than
    [nlayers] mesh sizes above the bounding-box minimum on axis [d], [pos[d]]
    exactly when [ijk[d] < nxyz[d] - 1] and the centroid is less than
    [nlayers] mesh sizes below the maximum; and bucket [id] of the subdomain
    holds, once each and in element order, exactly the elements for which the
    direction of [id] is non-zero and has [neg] set on its -1 components and
    [pos] set on its +1 components. *)
Theorem overlap_buckets (myid : Z) (subdomain_rank : list Z) (dim : nat)
  (nxyz : list Z) (mesh : nat -> submesh) (h : R) (OvlpNlayers : Z) (l : nat) :
  dim = 2%nat \/ dim = 3%nat ->
  (l < length subdomain_rank)%nat ->
  myid = nth l subdomain_rank 0 ->
  let nlayers := 2 * OvlpNlayers in
  let ijk := GetSubdomainijk (Z.of_nat l) nxyz in
  let neg := fun iel =>
    neg_flags dim ijk (sub_pmin (mesh l)) h nlayers (sub_center (mesh l) iel) in
  let pos := fun iel =>
    pos_flags dim nxyz ijk (sub_pmax (mesh l)) h nlayers
      (sub_center (mesh l) iel) in
  (forall iel d, (d < dim)%nat ->
     (nth d (neg iel) false = true <->
      0 < at_ ijk d /\
      (sub_center (mesh l) iel d < sub_pmin (mesh l) d + h * IZR nlayers)%R) /\
     (nth d (pos iel) false = true <->
      at_ ijk d < at_ nxyz d - 1 /\
      (sub_center (mesh l) iel d > sub_pmax (mesh l) d - h * IZR nlayers)%R)) /\
  (forall id, (id < 3 ^ dim)%nat ->
     nth id (nth l (ComputeOvlpElems myid subdomain_rank dim nxyz mesh h
                      OvlpNlayers) []) [] =
     filter (fun iel => in_bucket dim (neg iel) (pos iel) id)
            (seq 0 (sub_NE (mesh l))) /\
     Z.to_nat (GetDirectionId (GetDirectionijk (Z.of_nat id))) = id).
Proof.
  intros Hdim Hl Hown nlayers ijk neg pos. split.
  - intros iel d Hd. split.
    + unfold neg. rewrite neg_flags_nth by exact Hd.
      rewrite andb_true_iff, Z.ltb_lt, Rltb_true. reflexivity.
    + unfold pos. rewrite pos_flags_nth by exact Hd.
      rewrite andb_true_iff, Z.ltb_lt, Rltb_true. reflexivity.
  - intros id Hid. split.
    + unfold ComputeOvlpElems.
      rewrite nth_map_seq by exact Hl.
      rewrite <- Hown, Z.eqb_refl.
      unfold ComputeOvlpElems_subdomain.
      rewrite (element_loop_nth dim neg pos id Hdim).
      * rewrite nth_repeat_nil. reflexivity.
      * intros iel. apply neg_flags_length.
      * intros iel. apply pos_flags_length.
      * exact Hid.
      * apply repeat_length.
    + apply direction_id_roundtrip.
      destruct Hdim as [-> | ->]; simpl in Hid; lia.
Qed.

(** A 2x1 grid in 2D, unit squares of mesh size 1/4 with one overlap layer;
    subdomain 0 has one element, centred at (7/8, 1/2): it is within two mesh
    sizes of the right side, and subdomain 0 has a right neighbour, so the
    element is in the bucket of direction (+1, 0), which is bucket 5. *)
Lemma overlap_buckets_witness :
  let mesh := fun _ : nat =>
    mkSubmesh 1 (fun _ d => match d with O => (7 / 8)%R | _ => (1 / 2)%R end)
              (fun _ => 0%R) (fun _ => 1%R) in
  nth 5 (nth 0 (ComputeOvlpElems 0 [0; 0] 2 [2; 1; 1] mesh (1 / 4)%R 1) []) []
  = [0%nat].
Proof.
  intros mesh.
  assert (Hdim : 2%nat = 2%nat \/ 2%nat = 3%nat) by (left; reflexivity).
  assert (Hl : (0 < length [0; 0])%nat) by (simpl; lia).
  assert (Hown : 0 = nth 0 [0; 0] 0) by reflexivity.
  destruct (overlap_buckets 0 [0; 0] 2 [2; 1; 1] mesh (1 / 4)%R 1 0
              Hdim Hl Hown) as [Hflags Hb].
  destruct (Hb 5%nat ltac:(simpl; lia)) as [-> _].
  assert (Hp0 : nth 0 (pos_flags 2 [2; 1; 1] (GetSubdomainijk (Z.of_nat 0) [2; 1; 1])
                         (sub_pmax (mesh 0%nat)) (1 / 4)%R (2 * 1)
                         (sub_center (mesh 0%nat) 0%nat)) false = true).
  { apply (Hflags 0%nat 0%nat); [lia | ]. split.
    - vm_compute. reflexivity.
    - simpl. lra. }
  assert (Hlen := pos_flags_length 2 [2; 1; 1]
                    (GetSubdomainijk (Z.of_nat 0) [2; 1; 1])
                    (sub_pmax (mesh 0%nat)) (1 / 4)%R (2 * 1)
                    (sub_center (mesh 0%nat) 0%nat)).
  simpl seq. simpl filter. unfold in_bucket.
  destruct (pos_flags 2 [2; 1; 1] _ _ _ _ _) as [| p0 [| p1 [| ? ?]]];
    try discriminate.
  simpl in Hp0. subst p0.
  destruct (neg_flags 2 _ _ _ _ _) as [| n0 [| n1 ?]];
    vm_compute; reflexivity.
Defined.

End Overlap.


(* ================================================================== *)
(** * Neighbor data exchanger: [DofMaps::TransferToNeighbors]
      (DofMapsDST.cpp:277-414) *)
(* ================================================================== *)

Module Transfer.

Import Arrays Grid.

Local Open Scope Z_scope.

(** The members of [DofMaps] the function reads: [OvlpTDofs[i][d]] is the
    overlap-DOF list of subdomain [i] in direction [d], [TrueVSize i] is
    [fes[i]->GetTrueVSize()]. *)
Record dofmaps : Type := mkDofMaps {
  dim : nat;
  nxyz : list Z;
  subdomain_rank : list Z;
  OvlpTDofs : Z -> Z -> list Z;
  TrueVSize : Z -> nat
}.

(** [subdomain_rank[i]] *)
Definition rank_of (M : dofmaps) (i : Z) : Z :=
  nth (Z.to_nat i) (subdomain_rank M) 0.

(** [int nrneighbors = pow(3,dim);] *)
Definition nrneighbors (M : dofmaps) : Z := Z.of_nat (3 ^ dim M).

(** [a[d] = v] on an [Array<int>]. *)
Fixpoint set_at (a : list Z) (d : nat) (v : Z) : list Z :=
  match a, d with
  | [], _ => []
  | _ :: a', O => v :: a'
  | x :: a', S d' => x :: set_at a' d' v
  end.

(** [Array<int> direction1(3); direction1 = -1;
    for (d < dim) direction1[d] = -directions[d];] *)
Definition direction1 (dim : nat) (directions : list Z) : list Z :=
  fold_left (fun a d => set_at a d (- at_ directions d))
            (seq 0 dim) [-1; -1; -1].

(** The tests at the head of both loop bodies, for subdomain [i0] and
    direction [d]: [None] when a [continue] is taken, otherwise the
    destination subdomain [i1]. *)
Definition destination (dim : nat) (nxyz : list Z) (i0 d : Z) : option Z :=
  let ijk := GetSubdomainijk i0 nxyz in
  let directions := GetDirectionijk d in
  if Nat.eqb dim 2 && (at_ directions 0 =? 0) && (at_ directions 1 =? 0)
  then None
  else if Nat.eqb dim 3 && (at_ directions 0 =? 0)
          && (at_ directions 1 =? 0) && (at_ directions 2 =? 0)
  then None
  else
    let i := at_ ijk 0 + at_ directions 0 in
    if (i <? 0) || (i >=? at_ nxyz 0) then None
    else
      let j := at_ ijk 1 + at_ directions 1 in
      if (j <? 0) || (j >=? at_ nxyz 1) then None
      else
        let k := if Nat.eqb dim 3 then at_ ijk 2 + at_ directions 2 else 0 in
        if (k <? 0) || (k >=? at_ nxyz 2) then None
        else Some (GetSubdomainId nxyz [i; j; k]).

(** Modelled from the spec: "sends the values at that direction's overlap-DOF
    list" (section 4.4); [Vector::GetSubVector] itself is library code that
    is not part of the sources at hand.  The overlap lists hold decoded,
    non-negative DOFs. *)
Definition GetSubVector (v : list R) (dofs : list Z) : list R :=
  map (fun dof => nth (Z.to_nat dof) v 0%R) dofs.

(** [v[p] = c] on a [Vector]. *)
Fixpoint set_entry (v : list R) (p : nat) (c : R) : list R :=
  match v, p with
  | [], _ => []
  | _ :: v', O => c :: v'
  | y :: v', S p' => y :: set_entry v' p' c
  end.

(** Modelled from the spec: "writes the received buffer into its own local
    vector at the overlap-DOF positions" (section 4.4); [Vector::SetSubVector]
    itself is library code that is not part of the sources at hand:
    [v[dofs[t]] = elemvect[t]] for [t = 0, 1, ...]. *)
Fixpoint SetSubVector (dofs : list Z) (elemvect : list R) (v : list R)
  : list R :=
  match dofs, elemvect with
  | dof :: dofs', c :: elemvect' =>
      SetSubVector dofs' elemvect' (set_entry v (Z.to_nat dof) c)
  | _, _ => v
  end.

(** A posted [MPI_Isend]: destination rank, tag and buffer; a posted
    [MPI_Irecv]: source rank, tag and count. *)
Record isend : Type := mkIsend { s_dest : Z; s_tag : Z; s_data : list R }.
Record irecv : Type := mkIrecv { r_src : Z; r_tag : Z; r_count : nat }.

Section Process.

Variable myid : Z.
Variable M : dofmaps.

(** The body of the first pair of loops for [(i0, d)]; the state is the
    requests posted so far. *)
Definition post_slot (x : list (list R)) (i0 d : Z)
  (st : list isend * list irecv) : list isend * list irecv :=
  match destination (dim M) (nxyz M) i0 d with
  | None => st
  | Some i1 =>
      let st :=
        if myid =? rank_of M i0
        then
          let tdofs0 := OvlpTDofs M i0 d in
          let send_buffer := GetSubVector (nth (Z.to_nat i0) x []) tdofs0 in
          let dest := rank_of M i1 in
          let tag := i0 * nrneighbors M + d in
          (fst st ++ [mkIsend dest tag send_buffer], snd st)
        else st in
      if myid =? rank_of M i1
      then
        let d1 := GetDirectionId (direction1 (dim M) (GetDirectionijk d)) in
        let count := length (OvlpTDofs M i1 d1) in
        let src := rank_of M i0 in
        let tag := i0 * nrneighbors M + d in
        (fst st, snd st ++ [mkIrecv src tag count])
      else st
  end.

(** [OvlpSol[i1][d1]], a table of optional vectors. *)
Definition solutions := Z -> Z -> option (list R).

Definition set_solution (S : solutions) (i d : Z) (v : list R) : solutions :=
  fun i' d' => if (i' =? i) && (d' =? d) then Some v else S i' d'.

(** The body of the second pair of loops for [(i0, d)]; the state is
    [(recv_counter, OvlpSol)], and [recv_buffer c] is the buffer of the
    [c]-th posted receive once [MPI_Waitall] has returned. *)
Definition extract_slot (recv_buffer : nat -> list R) (i0 d : Z)
  (st : nat * solutions) : nat * solutions :=
  match destination (dim M) (nxyz M) i0 d with
  | None => st
  | Some i1 =>
      if myid =? rank_of M i1
      then
        let d1 := GetDirectionId (direction1 (dim M) (GetDirectionijk d)) in
        let tdofs1 := OvlpTDofs M i1 d1 in
        let fresh := repeat 0%R (TrueVSize M i1) in
        (S (fst st),
         set_solution (snd st) i1 d1
           (SetSubVector tdofs1 (recv_buffer (fst st)) fresh))
      else st
  end.

(** The two loops [for (is < nrsendIds) for (d < nrneighbors)]. *)
Definition over_slots {St : Type} (body : Z -> Z -> St -> St)
  (SubdomainIds : list Z) (st : St) : St :=
  fold_left
    (fun st i0 =>
       fold_left (fun st d => body i0 (Z.of_nat d) st)
                 (seq 0 (3 ^ dim M)) st)
    SubdomainIds st.

(** [void DofMaps::TransferToNeighbors(const Array<int> & SubdomainIds,
    const Array<Vector *> & x)]: [None] when [MFEM_VERIFY] aborts the run,
    otherwise the posted requests and the new [OvlpSol]. *)
Definition TransferToNeighbors (SubdomainIds : list Z) (x : list (list R))
  (recv_buffer : nat -> list R) (OvlpSol : solutions)
  : option (list isend * list irecv * solutions) :=
  if negb (Nat.eqb (length SubdomainIds) (length x)) then None
  else
    let posted := over_slots (post_slot x) SubdomainIds ([], []) in
    let extracted :=
      over_slots (extract_slot recv_buffer) SubdomainIds (0%nat, OvlpSol) in
    Some (posted, snd extracted).

End Process.

(** ** The words of the specification *)

(** The direction is the zero direction, on the [dim] axes. *)
Definition zero_direction (dim : nat) (v : list Z) : Prop :=
  forall a, (a < dim)%nat -> at_ v a = 0.

(** The destination coordinate [(i,j,k) + direction] ([k] is 0 in 2D) is
    inside the [nx * ny * nz] grid. *)
Definition inside_grid (dim : nat) (nxyz : list Z) (i0 d : Z) : Prop :=
  let ijk := GetSubdomainijk i0 nxyz in
  let v := GetDirectionijk d in
  0 <= at_ ijk 0 + at_ v 0 < at_ nxyz 0 /\
  0 <= at_ ijk 1 + at_ v 1 < at_ nxyz 1 /\
  (if Nat.eqb dim 3 then 0 <= at_ ijk 2 + at_ v 2 < at_ nxyz 2
   else 0 < at_ nxyz 2).

(** The [(subdomain, direction)] pairs in the order the loops visit them. *)
Definition slots (dim : nat) (SubdomainIds : list Z) : list (Z * Z) :=
  flat_map (fun i0 => map (fun d => (i0, Z.of_nat d)) (seq 0 (3 ^ dim)))
           SubdomainIds.


(** ** The tests at the head of the loop bodies *)

Lemma destination_spec (dim : nat) (nxyz : list Z) (i0 d : Z) :
  dim = 2%nat \/ dim = 3%nat ->
  match destination dim nxyz i0 d with
  | Some i1 =>
      ~ zero_direction dim (GetDirectionijk d) /\
      inside_grid dim nxyz i0 d /\
      i1 = GetSubdomainId nxyz
             [at_ (GetSubdomainijk i0 nxyz) 0 + at_ (GetDirectionijk d) 0;
              at_ (GetSubdomainijk i0 nxyz) 1 + at_ (GetDirectionijk d) 1;
              if Nat.eqb dim 3
              then at_ (GetSubdomainijk i0 nxyz) 2 + at_ (GetDirectionijk d) 2
              else 0]
  | None =>
      zero_direction dim (GetDirectionijk d) \/ ~ inside_grid dim nxyz i0 d
  end.
Proof.
  intros Hdim. unfold destination, inside_grid, zero_direction.
  set (ijk := GetSubdomainijk i0 nxyz). set (v := GetDirectionijk d).
  cbv zeta. rewrite !Z.geb_leb.
  destruct Hdim as [-> | ->]; simpl Nat.eqb; cbv iota; simpl andb.
  - destruct (Z.eqb_spec (at_ v 0) 0) as [E0 | N0];
      destruct (Z.eqb_spec (at_ v 1) 0) as [E1 | N1]; simpl andb; cbv iota;
      try (left; intros a Ha; destruct a as [| [| a]]; [exact E0 | exact E1 | lia]);
      (destruct (Z.ltb_spec (at_ ijk 0 + at_ v 0) 0);
       [right; lia | ];
       destruct (Z.leb_spec (at_ nxyz 0) (at_ ijk 0 + at_ v 0));
       [right; lia | ]; simpl orb; cbv iota;
       destruct (Z.ltb_spec (at_ ijk 1 + at_ v 1) 0);
       [right; lia | ];
       destruct (Z.leb_spec (at_ nxyz 1) (at_ ijk 1 + at_ v 1));
       [right; lia | ]; simpl orb; cbv iota;
       destruct (Z.leb_spec (at_ nxyz 2) 0);
       [right; lia | ]; simpl orb; cbv iota;
       split; [ | split; [lia | reflexivity]]).
    + intros Hz. apply N1. apply (Hz 1%nat). lia.
    + intros Hz. apply N0. apply (Hz 0%nat). lia.
    + intros Hz. apply N0. apply (Hz 0%nat). lia.
  - destruct (Z.eqb_spec (at_ v 0) 0) as [E0 | N0];
      destruct (Z.eqb_spec (at_ v 1) 0) as [E1 | N1];
      destruct (Z.eqb_spec (at_ v 2) 0) as [E2 | N2]; simpl andb; cbv iota;
      try (left; intros a Ha; destruct a as [| [| [| a]]];
           [exact E0 | exact E1 | exact E2 | lia]);
      (destruct (Z.ltb_spec (at_ ijk 0 + at_ v 0) 0);
       [right; lia | ];
       destruct (Z.leb_spec (at_ nxyz 0) (at_ ijk 0 + at_ v 0));
       [right; lia | ]; simpl orb; cbv iota;
       destruct (Z.ltb_spec (at_ ijk 1 + at_ v 1) 0);
       [right; lia | ];
       destruct (Z.leb_spec (at_ nxyz 1) (at_ ijk 1 + at_ v 1));
       [right; lia | ]; simpl orb; cbv iota;
       destruct (Z.ltb_spec (at_ ijk 2 + at_ v 2) 0);
       [right; lia | ];
       destruct (Z.leb_spec (at_ nxyz 2) (at_ ijk 2 + at_ v 2));
       [right; lia | ]; simpl orb; cbv iota;
       split; [ | split; [lia | reflexivity]]);
      intros Hz;
      first [ apply N0; apply (Hz 0%nat); lia
            | apply N1; apply (Hz 1%nat); lia
            | apply N2; apply (Hz 2%nat); lia ].
Qed.

Lemma destination_zero (dim : nat) (nxyz : list Z) (i0 d : Z) :
  dim = 2%nat \/ dim = 3%nat ->
  zero_direction dim (GetDirectionijk d) ->
  destination dim nxyz i0 d = None.
Proof.
  intros Hdim Hz. pose proof (destination_spec dim nxyz i0 d Hdim) as H.
  destruct (destination dim nxyz i0 d); [ | reflexivity].
  destruct H as (Hnz & _). contradiction.
Qed.

Lemma destination_outside (dim : nat) (nxyz : list Z) (i0 d : Z) :
  dim = 2%nat \/ dim = 3%nat ->
  ~ inside_grid dim nxyz i0 d -> destination dim nxyz i0 d = None.
Proof.
  intros Hdim Hout. pose proof (destination_spec dim nxyz i0 d Hdim) as H.
  destruct (destination dim nxyz i0 d); [ | reflexivity].
  destruct H as (_ & Hin & _). contradiction.
Qed.

(** The opposite direction: [direction1] negates the direction on the [dim]
    axes, and its id decodes to the negated direction. *)
Lemma opposite_direction (dim : nat) (d : nat) (a : nat) :
  dim = 2%nat \/ dim = 3%nat -> (d < 3 ^ dim)%nat -> (a < dim)%nat ->
  at_ (direction1 dim (GetDirectionijk (Z.of_nat d))) a
  = - at_ (GetDirectionijk (Z.of_nat d)) a /\
  at_ (GetDirectionijk
         (GetDirectionId (direction1 dim (GetDirectionijk (Z.of_nat d))))) a
  = - at_ (GetDirectionijk (Z.of_nat d)) a.
Proof.
  intros [-> | ->] Hd Ha.
  - simpl in Hd.
    do 9 (destruct d as [| d];
          [destruct a as [| [| a]]; [split; reflexivity | split; reflexivity | lia] | ]).
    lia.
  - simpl in Hd.
    do 27 (destruct d as [| d];
           [destruct a as [| [| [| a]]];
            [split; reflexivity | split; reflexivity | split; reflexivity | lia] | ]).
    lia.
Qed.

(** ** [SetSubVector] onto a vector *)

Lemma set_entry_length (v : list R) (p : nat) (c : R) :
  length (set_entry v p c) = length v.
Proof.
  revert p. induction v as [| y v IH]; intros [| p]; simpl; auto.
Qed.

Lemma set_entry_nth (v : list R) (p q : nat) (c : R) :
  nth q (set_entry v p c) 0%R =
  if Nat.eqb q p && Nat.ltb p (length v) then c else nth q v 0%R.
Proof.
  revert p q. induction v as [| y v IH]; intros p q.
  - simpl. destruct p, q; simpl; try reflexivity;
      rewrite andb_false_r; reflexivity.
  - destruct p as [| p], q as [| q]; simpl; try reflexivity.
    rewrite IH. reflexivity.
Qed.

Lemma SetSubVector_length (dofs : list Z) (ev v : list R) :
  length (SetSubVector dofs ev v) = length v.
Proof.
  revert ev v. induction dofs as [| dof dofs IH]; intros [| c ev] v; simpl;
    try reflexivity.
  rewrite IH. apply set_entry_length.
Qed.

Lemma SetSubVector_other (dofs : list Z) (p : nat) :
  (forall dof, In dof dofs -> Z.to_nat dof <> p) ->
  forall ev v, nth p (SetSubVector dofs ev v) 0%R = nth p v 0%R.
Proof.
  induction dofs as [| dof dofs IH]; intros Hno [| c ev] v; simpl;
    try reflexivity.
  rewrite IH by (intros dof' Hin; apply Hno; right; exact Hin).
  rewrite set_entry_nth.
  destruct (Nat.eqb_spec p (Z.to_nat dof)) as [E | _]; [ | reflexivity].
  exfalso. apply (Hno dof); [left; reflexivity | congruence].
Qed.

Lemma SetSubVector_at (dofs : list Z) :
  NoDup (map Z.to_nat dofs) ->
  forall (ev v : list R) (t : nat),
    (t < length dofs)%nat -> (t < length ev)%nat ->
    (Z.to_nat (nth t dofs 0%Z) < length v)%nat ->
    nth (Z.to_nat (nth t dofs 0)) (SetSubVector dofs ev v) 0%R = nth t ev 0%R.
Proof.
  induction dofs as [| dof dofs IH]; intros Hnd ev v t Ht Hev Hv;
    [simpl in Ht; lia | ].
  destruct ev as [| c ev]; [simpl in Hev; lia | ].
  simpl map in Hnd. apply NoDup_cons_iff in Hnd. destruct Hnd as [Hnotin Hnd].
  destruct t as [| t]; simpl nth; simpl SetSubVector.
  - rewrite SetSubVector_other.
    + rewrite set_entry_nth, Nat.eqb_refl.
      simpl nth in Hv. apply Nat.ltb_lt in Hv. rewrite Hv. reflexivity.
    + intros dof' Hin E. apply Hnotin. rewrite <- E.
      apply in_map. exact Hin.
  - simpl in Ht, Hev. simpl nth in Hv.
    apply IH; try assumption; try lia.
    rewrite set_entry_length. exact Hv.
Qed.

Lemma nth_repeat_zero (n p : nat) : nth p (repeat 0%R n) 0%R = 0%R.
Proof.
  revert p. induction n as [| n IH]; intros [| p]; simpl; auto.
Qed.

(** ** The loops *)

Lemma over_slots_fold {St : Type} (M : dofmaps) (body : Z -> Z -> St -> St)
  (ids : list Z) (st : St) :
  over_slots M body ids st =
  fold_left (fun st s => body (fst s) (snd s) st) (slots (dim M) ids) st.
Proof.
  unfold over_slots, slots. revert st.
  induction ids as [| i0 ids IH]; intros st; simpl; [reflexivity | ].
  rewrite fold_left_app, <- IH. f_equal.
  generalize (seq 0 (3 ^ dim M)). intros l. revert st.
  induction l as [| d l IHl]; intros st; simpl; [reflexivity | apply IHl].
Qed.

(** The requests one slot posts on process [myid]. *)
Definition slot_sends (myid : Z) (M : dofmaps) (x : list (list R))
  (s : Z * Z) : list isend :=
  match destination (dim M) (nxyz M) (fst s) (snd s) with
  | None => []
  | Some i1 =>
      if myid =? rank_of M (fst s)
      then [mkIsend (rank_of M i1) (fst s * nrneighbors M + snd s)
              (GetSubVector (nth (Z.to_nat (fst s)) x [])
                 (OvlpTDofs M (fst s) (snd s)))]
      else []
  end.

Definition slot_recvs (myid : Z) (M : dofmaps) (s : Z * Z) : list irecv :=
  match destination (dim M) (nxyz M) (fst s) (snd s) with
  | None => []
  | Some i1 =>
      if myid =? rank_of M i1
      then [mkIrecv (rank_of M (fst s)) (fst s * nrneighbors M + snd s)
              (length (OvlpTDofs M i1
                         (GetDirectionId
                            (direction1 (dim M) (GetDirectionijk (snd s))))))]
      else []
  end.

Lemma post_slot_eq (myid : Z) (M : dofmaps) (x : list (list R)) (s : Z * Z)
  (st : list isend * list irecv) :
  post_slot myid M x (fst s) (snd s) st =
  (fst st ++ slot_sends myid M x s, snd st ++ slot_recvs myid M s).
Proof.
  unfold post_slot, slot_sends, slot_recvs.
  destruct st as [sends recvs]. simpl fst. simpl snd.
  destruct (destination (dim M) (nxyz M) (fst s) (snd s)) as [i1 | ].
  - destruct (myid =? rank_of M (fst s)); destruct (myid =? rank_of M i1);
      simpl; rewrite ?app_nil_r; reflexivity.
  - rewrite !app_nil_r. reflexivity.
Qed.

Lemma post_loop_eq (myid : Z) (M : dofmaps) (x : list (list R))
  (l : list (Z * Z)) (st : list isend * list irecv) :
  fold_left (fun st s => post_slot myid M x (fst s) (snd s) st) l st =
  (fst st ++ flat_map (slot_sends myid M x) l,
   snd st ++ flat_map (slot_recvs myid M) l).
Proof.
  revert st. induction l as [| s l IH]; intros st; simpl.
  - rewrite !app_nil_r. destruct st; reflexivity.
  - rewrite IH, post_slot_eq. simpl. rewrite <- !app_assoc. reflexivity.
Qed.

(** ** The table of received vectors *)

(** The slots are the pairs of a passed subdomain id and a direction id
    below [3^dim]. *)
Lemma slot_in_range (dim : nat) (ids : list Z) (i0 d : Z) :
  In (i0, d) (slots dim ids) ->
  In i0 ids /\ exists n, (n < 3 ^ dim)%nat /\ d = Z.of_nat n.
Proof.
  unfold slots. intros H. apply in_flat_map in H as (i & Hi & H).
  apply in_map_iff in H as (n & E & Hn). apply in_seq in Hn.
  injection E as <- <-. split; [exact Hi | ]. exists n. split; [lia | reflexivity].
Qed.

Lemma in_slot_sends (myid : Z) (M : dofmaps) (x : list (list R)) (s : Z * Z)
  (sd : isend) :
  In sd (slot_sends myid M x s) <->
  exists i1,
    destination (dim M) (nxyz M) (fst s) (snd s) = Some i1 /\
    myid = rank_of M (fst s) /\
    sd = mkIsend (rank_of M i1) (fst s * nrneighbors M + snd s)
           (GetSubVector (nth (Z.to_nat (fst s)) x [])
                         (OvlpTDofs M (fst s) (snd s))).
Proof.
  unfold slot_sends.
  destruct (destination (dim M) (nxyz M) (fst s) (snd s)) as [i1 | ].
  - destruct (Z.eqb_spec myid (rank_of M (fst s))) as [E | N]; simpl; split.
    + intros [<- | []]. exists i1. repeat split. exact E.
    + intros (i1' & E1 & _ & ->). injection E1 as <-. now left.
    + intros [].
    + intros (_ & _ & E & _). contradiction.
  - simpl. split; [intros [] | intros (i1 & E & _); discriminate].
Qed.

Lemma in_slot_recvs (myid : Z) (M : dofmaps) (s : Z * Z) (rc : irecv) :
  In rc (slot_recvs myid M s) <->
  exists i1,
    destination (dim M) (nxyz M) (fst s) (snd s) = Some i1 /\
    myid = rank_of M i1 /\
    rc = mkIrecv (rank_of M (fst s)) (fst s * nrneighbors M + snd s)
           (length (OvlpTDofs M i1
                      (GetDirectionId
                         (direction1 (dim M) (GetDirectionijk (snd s)))))).
Proof.
  unfold slot_recvs.
  destruct (destination (dim M) (nxyz M) (fst s) (snd s)) as [i1 | ].
  - destruct (Z.eqb_spec myid (rank_of M i1)) as [E | N]; simpl; split.
    + intros [<- | []]. exists i1. repeat split. exact E.
    + intros (i1' & E1 & _ & ->). injection E1 as <-. now left.
    + intros [].
    + intros (i1' & E1 & E & _). injection E1 as <-. contradiction.
  - simpl. split; [intros [] | intros (i1 & E & _); discriminate].
Qed.

(** The counter of the second pair of loops counts the receives that the
    first pair posted for the same slots. *)
Lemma extract_count (myid : Z) (M : dofmaps) (rb : nat -> list R)
  (l : list (Z * Z)) (c : nat) (Sol : solutions) :
  fst (fold_left (fun st s => extract_slot myid M rb (fst s) (snd s) st)
                 l (c, Sol))
  = (c + length (flat_map (slot_recvs myid M) l))%nat.
Proof.
  revert c Sol. induction l as [| s l IH]; intros c Sol; simpl; [lia | ].
  unfold extract_slot at 2, slot_recvs at 1.
  destruct (destination (dim M) (nxyz M) (fst s) (snd s)) as [i1 | ].
  - destruct (myid =? rank_of M i1).
    + simpl fst. simpl snd. rewrite IH. simpl. lia.
    + rewrite IH. simpl. lia.
  - rewrite IH. simpl. lia.
Qed.

(** An entry of the table that none of the slots is received into keeps its
    value. *)
Lemma extract_frame (myid : Z) (M : dofmaps) (rb : nat -> list R)
  (i d' : Z) (l : list (Z * Z)) :
  (forall i0 d i1,
     In (i0, d) l -> destination (dim M) (nxyz M) i0 d = Some i1 ->
     myid = rank_of M i1 ->
     ~ (i1 = i /\
        GetDirectionId (direction1 (dim M) (GetDirectionijk d)) = d')) ->
  forall (c : nat) (Sol : solutions),
    snd (fold_left (fun st s => extract_slot myid M rb (fst s) (snd s) st)
                   l (c, Sol)) i d'
    = Sol i d'.
Proof.
  induction l as [| [i0 d] l IH]; intros Hno c Sol; [reflexivity | ].
  simpl fold_left. unfold extract_slot at 2. simpl fst; simpl snd.
  assert (Hl : forall i0 d i1,
            In (i0, d) l -> destination (dim M) (nxyz M) i0 d = Some i1 ->
            myid = rank_of M i1 ->
            ~ (i1 = i /\
               GetDirectionId (direction1 (dim M) (GetDirectionijk d)) = d'))
    by (intros a b e Hin; apply Hno; right; exact Hin).
  destruct (destination (dim M) (nxyz M) i0 d) as [i1 | ] eqn:Hdest;
    [ | apply (IH Hl)].
  destruct (Z.eqb_spec myid (rank_of M i1)) as [Hown | _]; [ | apply (IH Hl)].
  rewrite (IH Hl). unfold set_solution.
  destruct (Z.eqb_spec i i1) as [E1 | _]; [ | reflexivity].
  destruct (Z.eqb_spec d'
              (GetDirectionId (direction1 (dim M) (GetDirectionijk d))))
    as [E2 | _]; [ | reflexivity].
  exfalso. apply (Hno i0 d i1 (or_introl eq_refl) Hdest Hown).
  split; congruence.
Qed.

(** C5: [TransferToNeighbors] on one process, for dimension 2 or 3 and as
    many vectors as subdomain ids.  The call returns.  The tests at the head
    of the loops let a slot (subdomain [i0], direction [d]) through exactly
    when the direction is not the zero direction and the destination
    coordinate is inside the grid, and then [i1] is the subdomain at that
    coordinate.  The sends and the receives that are posted are exactly those
    of the slots that pass, so nothing is transmitted for a zero direction or
    towards the outside of the grid.  An entry of [OvlpSol] that no passing
    slot is received into keeps its value.  For a passing slot whose
    destination [i1] the process owns, with [d1] the id of the negated
    direction: its receive is the [c]-th posted one, where [c] counts the
    receives posted for the slots before it; when the second loop has passed
    the slot, [OvlpSol[i1][d1]] holds a vector of [GetTrueVSize()] entries
    that is zero off the overlap DOFs of [(i1, d1)] and holds entry [t] of the
    [c]-th receive buffer at DOF [t] of that list; and the table still holds
    it on return unless a later slot is received into the same entry. *)
Theorem transfer_to_neighbors (myid : Z) (M : dofmaps) (SubdomainIds : list Z)
  (x : list (list R)) (recv_buffer : nat -> list R) (OvlpSol : solutions) :
  dim M = 2%nat \/ dim M = 3%nat ->
  length SubdomainIds = length x ->
  exists sends recvs Sol,
    TransferToNeighbors myid M SubdomainIds x recv_buffer OvlpSol
    = Some (sends, recvs, Sol) /\
    (forall i0 d,
       match destination (dim M) (nxyz M) i0 d with
       | Some i1 =>
           ~ zero_direction (dim M) (GetDirectionijk d) /\
           inside_grid (dim M) (nxyz M) i0 d /\
           i1 = GetSubdomainId (nxyz M)
                  [at_ (GetSubdomainijk i0 (nxyz M)) 0
                   + at_ (GetDirectionijk d) 0;
                   at_ (GetSubdomainijk i0 (nxyz M)) 1
                   + at_ (GetDirectionijk d) 1;
                   if Nat.eqb (dim M) 3
                   then at_ (GetSubdomainijk i0 (nxyz M)) 2
                        + at_ (GetDirectionijk d) 2
                   else 0]
       | None =>
           zero_direction (dim M) (GetDirectionijk d) \/
           ~ inside_grid (dim M) (nxyz M) i0 d
       end) /\
    (forall sd,
       In sd sends <->
       exists i0 d i1,
         In (i0, d) (slots (dim M) SubdomainIds) /\
         destination (dim M) (nxyz M) i0 d = Some i1 /\
         myid = rank_of M i0 /\
         sd = mkIsend (rank_of M i1) (i0 * nrneighbors M + d)
                (GetSubVector (nth (Z.to_nat i0) x []) (OvlpTDofs M i0 d))) /\
    (forall rc,
       In rc recvs <->
       exists i0 d i1,
         In (i0, d) (slots (dim M) SubdomainIds) /\
         destination (dim M) (nxyz M) i0 d = Some i1 /\
         myid = rank_of M i1 /\
         rc = mkIrecv (rank_of M i0) (i0 * nrneighbors M + d)
                (length (OvlpTDofs M i1
                           (GetDirectionId
                              (direction1 (dim M) (GetDirectionijk d)))))) /\
    (forall i d',
       (forall i0 d i1,
          In (i0, d) (slots (dim M) SubdomainIds) ->
          destination (dim M) (nxyz M) i0 d = Some i1 ->
          myid = rank_of M i1 ->
          ~ (i1 = i /\
             GetDirectionId (direction1 (dim M) (GetDirectionijk d)) = d')) ->
       Sol i d' = OvlpSol i d') /\
    (forall before i0 d after i1,
       slots (dim M) SubdomainIds = before ++ (i0, d) :: after ->
       destination (dim M) (nxyz M) i0 d = Some i1 ->
       myid = rank_of M i1 ->
       let d1 := GetDirectionId (direction1 (dim M) (GetDirectionijk d)) in
       let tdofs1 := OvlpTDofs M i1 d1 in
       let c := length (flat_map (slot_recvs myid M) before) in
       exists v,
         nth_error recvs c
         = Some (mkIrecv (rank_of M i0) (i0 * nrneighbors M + d)
                         (length tdofs1)) /\
         (forall a, (a < dim M)%nat ->
            at_ (GetDirectionijk d1) a = - at_ (GetDirectionijk d) a) /\
         length v = TrueVSize M i1 /\
         (forall p, (forall dof, In dof tdofs1 -> Z.to_nat dof <> p) ->
                    nth p v 0%R = 0%R) /\
         (NoDup (map Z.to_nat tdofs1) ->
          length (recv_buffer c) = length tdofs1 ->
          forall t, (t < length tdofs1)%nat ->
                    (Z.to_nat (nth t tdofs1 0%Z) < TrueVSize M i1)%nat ->
                    nth (Z.to_nat (nth t tdofs1 0%Z)) v 0%R
                    = nth t (recv_buffer c) 0%R) /\
         snd (fold_left
                (fun st s => extract_slot myid M recv_buffer (fst s) (snd s) st)
                (before ++ [(i0, d)]) (0%nat, OvlpSol)) i1 d1
         = Some v /\
         ((forall i0' d' i1',
             In (i0', d') after ->
             destination (dim M) (nxyz M) i0' d' = Some i1' ->
             myid = rank_of M i1' ->
             ~ (i1' = i1 /\
                GetDirectionId (direction1 (dim M) (GetDirectionijk d'))
                = d1)) ->
          Sol i1 d1 = Some v)).
Proof.
  intros Hdim Hlen.
  unfold TransferToNeighbors. rewrite Hlen, Nat.eqb_refl. simpl negb. cbv iota.
  rewrite !over_slots_fold, post_loop_eq. simpl fst. simpl snd. cbn [app].
  eexists. eexists. eexists. split; [reflexivity | ].
  split; [intros i0 d; now apply destination_spec | ].
  split; [ | split; [ | split]].
  - intros sd. rewrite in_flat_map. split.
    + intros ([i0 d] & Hin & Hsd). apply in_slot_sends in Hsd.
      destruct Hsd as (i1 & Hdest & Hown & ->). exists i0, d, i1.
      repeat split; assumption.
    + intros (i0 & d & i1 & Hin & Hdest & Hown & ->).
      exists (i0, d). split; [exact Hin | ].
      apply in_slot_sends. exists i1. repeat split; assumption.
  - intros rc. rewrite in_flat_map. split.
    + intros ([i0 d] & Hin & Hrc). apply in_slot_recvs in Hrc.
      destruct Hrc as (i1 & Hdest & Hown & ->). exists i0, d, i1.
      repeat split; assumption.
    + intros (i0 & d & i1 & Hin & Hdest & Hown & ->).
      exists (i0, d). split; [exact Hin | ].
      apply in_slot_recvs. exists i1. repeat split; assumption.
  - intros i d' Hno. now apply extract_frame.
  - intros before i0 d after i1 Hsplit Hdest Hown.
    set (d1 := GetDirectionId (direction1 (dim M) (GetDirectionijk d))).
    set (tdofs1 := OvlpTDofs M i1 d1).
    set (c := length (flat_map (slot_recvs myid M) before)).
    exists (SetSubVector tdofs1 (recv_buffer c) (repeat 0%R (TrueVSize M i1))).
    assert (Hin : In (i0, d) (slots (dim M) SubdomainIds))
      by (rewrite Hsplit; apply in_or_app; right; now left).
    destruct (slot_in_range _ _ _ _ Hin) as (_ & n & Hn & ->).
    assert (Hstep :
      fold_left
        (fun st s => extract_slot myid M recv_buffer (fst s) (snd s) st)
        (before ++ [(i0, Z.of_nat n)]) (0%nat, OvlpSol)
      = (S c,
         set_solution
           (snd (fold_left
                   (fun st s =>
                      extract_slot myid M recv_buffer (fst s) (snd s) st)
                   before (0%nat, OvlpSol)))
           i1 d1
           (SetSubVector tdofs1 (recv_buffer c)
                         (repeat 0%R (TrueVSize M i1))))).
    { rewrite fold_left_app. simpl fold_left.
      pose proof (extract_count myid M recv_buffer before 0%nat OvlpSol) as Hc.
      destruct (fold_left _ before (0%nat, OvlpSol)) as [c0 Sb].
      simpl fst in Hc. simpl snd. simpl Nat.add in Hc. fold c in Hc. subst c0.
      unfold extract_slot. simpl fst; simpl snd.
      rewrite Hdest, <- Hown, Z.eqb_refl. reflexivity. }
    assert (Hlook : forall S0 : solutions,
              set_solution S0 i1 d1
                (SetSubVector tdofs1 (recv_buffer c)
                              (repeat 0%R (TrueVSize M i1))) i1 d1
              = Some (SetSubVector tdofs1 (recv_buffer c)
                                   (repeat 0%R (TrueVSize M i1)))).
    { intros S0. unfold set_solution. now rewrite !Z.eqb_refl. }
    split; [ | split; [ | split; [ | split; [ | split; [ | split]]]]].
    + rewrite Hsplit, flat_map_app. simpl flat_map.
      assert (E : slot_recvs myid M (i0, Z.of_nat n)
                  = [mkIrecv (rank_of M i0) (i0 * nrneighbors M + Z.of_nat n)
                             (length tdofs1)]).
      { unfold slot_recvs. simpl fst; simpl snd.
        rewrite Hdest, <- Hown, Z.eqb_refl. reflexivity. }
      rewrite E. unfold c.
      rewrite nth_error_app2, Nat.sub_diag by lia. reflexivity.
    + intros a Ha. apply opposite_direction; assumption.
    + rewrite SetSubVector_length. apply repeat_length.
    + intros p Hp. rewrite SetSubVector_other by exact Hp.
      apply nth_repeat_zero.
    + intros Hnd Hbuf t Ht Hran.
      apply SetSubVector_at; try assumption.
      * rewrite Hbuf. exact Ht.
      * rewrite repeat_length. exact Hran.
    + rewrite Hstep. simpl snd. apply Hlook.
    + intros Hlast. rewrite Hsplit.
      replace (before ++ (i0, Z.of_nat n) :: after)
        with ((before ++ [(i0, Z.of_nat n)]) ++ after)
        by (rewrite <- app_assoc; reflexivity).
      rewrite fold_left_app, Hstep.
      rewrite (extract_frame myid M recv_buffer i1 d1 after Hlast).
      apply Hlook.
Qed.

(** Two subdomains side by side in 2D, both on process 0, DOFs 0 and 2 in
    each overlap list: subdomain 0 sends to its right (direction 5) and is
    received into [OvlpSol[1][3]] from the first buffer, subdomain 1 sends to
    its left (direction 3) and is received into [OvlpSol[0][5]] from the
    second buffer; every other direction leaves the grid. *)
Lemma transfer_to_neighbors_witness :
  let M := mkDofMaps 2 [2; 1; 1] [0; 0] (fun _ _ => [0; 2]) (fun _ => 3%nat) in
  let x := [[1; 2; 3]%R; [4; 5; 6]%R] in
  let recv_buffer := fun c : nat => match c with
                                    | O => [7; 8]%R
                                    | _ => [9; 10]%R
                                    end in
  exists sends recvs Sol,
    TransferToNeighbors 0 M [0; 1] x recv_buffer (fun _ _ => None)
    = Some (sends, recvs, Sol) /\
    sends = [mkIsend 0 5 [1; 3]%R; mkIsend 0 12 [4; 6]%R] /\
    recvs = [mkIrecv 0 5 2; mkIrecv 0 12 2] /\
    (exists v, Sol 1 3 = Some v /\
               length v = 3%nat /\
               nth 0 v 0%R = 7%R /\ nth 1 v 0%R = 0%R /\ nth 2 v 0%R = 8%R) /\
    (exists v, Sol 0 5 = Some v /\
               length v = 3%nat /\
               nth 0 v 0%R = 9%R /\ nth 1 v 0%R = 0%R /\ nth 2 v 0%R = 10%R) /\
    Sol 0 3 = None /\ Sol 1 5 = None.
Proof.
  intros M x recv_buffer.
  assert (Hdim : dim M = 2%nat \/ dim M = 3%nat) by (left; reflexivity).
  assert (Hlen : length [0; 1] = length x) by reflexivity.
  destruct (transfer_to_neighbors 0 M [0; 1] x recv_buffer (fun _ _ => None)
              Hdim Hlen)
    as (sends & recvs & Sol & E & _ & _ & _ & Hframe & Hslot).
  assert (Hnd : NoDup (map Z.to_nat [0; 2])).
  { simpl. constructor; [simpl; intros [H | []]; discriminate H | ].
    constructor; [intros [] | constructor]. }
  assert (Hother : forall i0 d i1 (l : list (Z * Z)) (i d' : Z),
            Forall (fun s => match destination 2 [2; 1; 1] (fst s) (snd s) with
                             | Some j =>
                                 (j =? i)
                                 && (GetDirectionId
                                       (direction1 2 (GetDirectionijk (snd s)))
                                     =? d')
                             | None => false
                             end = false) l ->
            In (i0, d) l -> destination (dim M) (nxyz M) i0 d = Some i1 ->
            0 = rank_of M i1 ->
            ~ (i1 = i /\
               GetDirectionId (direction1 (dim M) (GetDirectionijk d)) = d')).
  { intros i0 d i1 l i d' Hall Hin Hdest _ [E1 E2].
    rewrite Forall_forall in Hall. specialize (Hall (i0, d) Hin).
    simpl fst in Hall; simpl snd in Hall.
    change (destination 2 [2; 1; 1] i0 d = Some i1) in Hdest.
    change (GetDirectionId (direction1 2 (GetDirectionijk d)) = d') in E2.
    rewrite Hdest, E1, E2, !Z.eqb_refl in Hall. discriminate Hall. }
  exists sends, recvs, Sol. split; [exact E | ].
  assert (E' : TransferToNeighbors 0 M [0; 1] x recv_buffer (fun _ _ => None)
               = Some ([mkIsend 0 5 [1; 3]%R; mkIsend 0 12 [4; 6]%R],
                       [mkIrecv 0 5 2; mkIrecv 0 12 2], Sol)).
  { rewrite E. f_equal. f_equal. f_equal.
    - assert (Es : fst (fst (sends, recvs, Sol))
                   = [mkIsend 0 5 [1; 3]%R; mkIsend 0 12 [4; 6]%R]).
      { rewrite <- (f_equal (fun o => match o with
                                      | Some r => fst (fst r)
                                      | None => []
                                      end) E). reflexivity. }
      exact Es.
    - assert (Er : snd (fst (sends, recvs, Sol))
                   = [mkIrecv 0 5 2; mkIrecv 0 12 2]).
      { rewrite <- (f_equal (fun o => match o with
                                      | Some r => snd (fst r)
                                      | None => []
                                      end) E). reflexivity. }
      exact Er. }
  rewrite E in E'. injection E' as Es Er.
  split; [exact Es | ]. split; [exact Er | ].
  split; [ | split; [ | split]].
  - destruct (Hslot [(0, 0); (0, 1); (0, 2); (0, 3); (0, 4)] 0 5
                    [(0, 6); (0, 7); (0, 8);
                     (1, 0); (1, 1); (1, 2); (1, 3); (1, 4); (1, 5);
                     (1, 6); (1, 7); (1, 8)] 1
                    eq_refl eq_refl eq_refl)
      as (v & _ & _ & Hl & Hz & Hv & _ & Hend).
    exists v. split.
    + apply Hend. intros i0' d' i1'. apply Hother.
      repeat constructor.
    + split; [exact Hl | ].
      split; [exact (Hv Hnd eq_refl 0%nat ltac:(simpl; lia) ltac:(simpl; lia)) | ].
      split; [ | exact (Hv Hnd eq_refl 1%nat ltac:(simpl; lia) ltac:(simpl; lia))].
      apply Hz. intros dof [<- | [<- | []]]; simpl; lia.
  - destruct (Hslot [(0, 0); (0, 1); (0, 2); (0, 3); (0, 4); (0, 5);
                     (0, 6); (0, 7); (0, 8); (1, 0); (1, 1); (1, 2)] 1 3
                    [(1, 4); (1, 5); (1, 6); (1, 7); (1, 8)] 0
                    eq_refl eq_refl eq_refl)
      as (v & _ & _ & Hl & Hz & Hv & _ & Hend).
    exists v. split.
    + apply Hend. intros i0' d' i1'. apply Hother.
      repeat constructor.
    + split; [exact Hl | ].
      split; [exact (Hv Hnd eq_refl 0%nat ltac:(simpl; lia) ltac:(simpl; lia)) | ].
      split; [ | exact (Hv Hnd eq_refl 1%nat ltac:(simpl; lia) ltac:(simpl; lia))].
      apply Hz. intros dof [<- | [<- | []]]; simpl; lia.
  - apply Hframe. intros i0 d i1. apply Hother. repeat constructor.
  - apply Hframe. intros i0 d i1. apply Hother. repeat constructor.
Defined.

End Transfer.


(* ================================================================== *)
(** * Subdomain-global DOF bridge, step 4 of
      [DofMaps::SubdomainToGlobalMapsSetup] (DofMapsDST.cpp:590-627) *)
(* ================================================================== *)

Module Bridge.

Local Open Scope Z_scope.

(** How the construction of one map ends: with the map, with the fatal abort
    of [MFEM_VERIFY], or with an [Array] indexed outside its size, which the
    source does not define. *)
Inductive outcome (A : Type) : Type :=
| Done (a : A)
| Abort
| OutOfRange.

Arguments Done {A} a.
Arguments Abort {A}.
Arguments OutOfRange {A}.

(** [int edof = (edof_ >= 0) ? edof_ : abs(edof_) - 1;] *)
Definition decode (edof_ : Z) : Z :=
  if edof_ >=? 0 then edof_ else Z.abs edof_ - 1.

(** [a[p] = v] on an [Array<int>] of known size. *)
Fixpoint set_at (a : list Z) (p : nat) (v : Z) : list Z :=
  match a, p with
  | [], _ => []
  | _ :: a', O => v :: a'
  | y :: a', S p' => y :: set_at a' p' v
  end.

(** The body of the inner loop, for one entry [edof_] of the element's DOF
    list: [SubdomainGTrueDofs[ip][edof] = global_tdofs[ip][k]; k++;].  The
    state is [(k, SubdomainGTrueDofs[ip])]. *)
Definition reassemble_entry (global_tdofs : list Z) (st : outcome (nat * list Z))
  (edof_ : Z) : outcome (nat * list Z) :=
  match st with
  | Done (k, G) =>
      let edof := decode edof_ in
      match nth_error global_tdofs k with
      | None => OutOfRange
      | Some g =>
          if (0 <=? edof) && (edof <? Z.of_nat (length G))
          then Done (S k, set_at G (Z.to_nat edof) g)
          else OutOfRange
      end
  | Abort => Abort
  | OutOfRange => OutOfRange
  end.

(** The pass of the loop [for (int ip = 0; ip < nrsubdomains; ++ip)] for a
    subdomain the process owns.  [nrdof] is [fes[ip]->GetTrueVSize()],
    [elem_dofs] lists [fes[ip]->GetElementDofs(iel, .)] for
    [iel = 0 .. nel-1], [global_tdofs] is [global_tdofs[ip]], and [junk] is
    what [SetSize(nrdof)] leaves in the new array.  The line
    [MFEM_VERIFY(nrdof == global_tdofs[ip].Size(), ...)] is commented out in
    the source, so no comparison of the two counts is made. *)
Definition reassemble (nrdof : nat) (junk : nat -> Z)
  (elem_dofs : list (list Z)) (global_tdofs : list Z) : outcome (list Z) :=
  let G0 := map junk (seq 0 nrdof) in
  match fold_left
          (fun st dofs => fold_left (reassemble_entry global_tdofs) dofs st)
          elem_dofs (Done (0%nat, G0)) with
  | Done (_, G) => Done G
  | Abort => Abort
  | OutOfRange => OutOfRange
  end.

Lemma reassemble_entry_no_abort (global_tdofs : list Z)
  (st : outcome (nat * list Z)) (edof_ : Z) :
  st <> Abort -> reassemble_entry global_tdofs st edof_ <> Abort.
Proof.
  intros H. unfold reassemble_entry.
  destruct st as [[k G] | | ]; try assumption; try discriminate.
  destruct (nth_error global_tdofs k); [ | discriminate].
  destruct (_ && _); discriminate.
Qed.

Lemma fold_entries_no_abort (global_tdofs : list Z) (dofs : list Z) :
  forall st, st <> Abort ->
             fold_left (reassemble_entry global_tdofs) dofs st <> Abort.
Proof.
  induction dofs as [| d dofs IH]; intros st H; simpl; [exact H | ].
  apply IH. apply reassemble_entry_no_abort. exact H.
Qed.

Lemma fold_concat {A B : Type} (f : A -> B -> A) (ls : list (list B)) :
  forall a, fold_left (fun a l => fold_left f l a) ls a
            = fold_left f (concat ls) a.
Proof.
  induction ls as [| l ls IH]; intros a; simpl; [reflexivity | ].
  rewrite fold_left_app. apply IH.
Qed.

Lemma set_at_length (a : list Z) (p : nat) (v : Z) :
  length (set_at a p v) = length a.
Proof.
  revert p. induction a as [| y a IH]; intros [| p]; simpl; auto.
Qed.

Lemma set_at_nth (a : list Z) (p q : nat) (v : Z) :
  nth q (set_at a p v) 0 =
  if Nat.eqb q p && Nat.ltb p (length a) then v else nth q a 0.
Proof.
  revert p q. induction a as [| y a IH]; intros p q.
  - simpl. destruct p, q; simpl; try reflexivity;
      rewrite andb_false_r; reflexivity.
  - destruct p as [| p], q as [| q]; simpl; try reflexivity.
    rewrite IH. reflexivity.
Qed.

Lemma reassemble_entry_ok (global_tdofs : list Z) (k : nat) (G : list Z)
  (d g : Z) :
  nth_error global_tdofs k = Some g ->
  0 <= decode d < Z.of_nat (length G) ->
  reassemble_entry global_tdofs (Done (k, G)) d
  = Done (S k, set_at G (Z.to_nat (decode d)) g).
Proof.
  intros Eg Hd. unfold reassemble_entry. rewrite Eg.
  destruct (Z.leb_spec 0 (decode d)) as [_ | ?]; [ | lia].
  destruct (Z.ltb_spec (decode d) (Z.of_nat (length G))) as [_ | ?]; [ | lia].
  reflexivity.
Qed.

(** The traversal over [visits] starting at position [k0] of the received
    list: it completes when the list is long enough and every DOF is in
    range, and every DOF that is visited holds the id received at its last
    visit. *)
Lemma traversal_spec (global_tdofs : list Z) (visits : list Z) :
  forall (k0 : nat) (G0 : list Z),
    (k0 + length visits <= length global_tdofs)%nat ->
    (forall d, In d visits -> 0 <= decode d < Z.of_nat (length G0)) ->
    exists G,
      fold_left (reassemble_entry global_tdofs) visits (Done (k0, G0))
      = Done ((k0 + length visits)%nat, G) /\
      length G = length G0 /\
      (forall p, (forall d, In d visits -> Z.to_nat (decode d) <> p) ->
                 nth p G 0 = nth p G0 0) /\
      (forall t, (t < length visits)%nat ->
         (forall t', (t < t' < length visits)%nat ->
                     decode (nth t' visits 0) <> decode (nth t visits 0)) ->
         nth (Z.to_nat (decode (nth t visits 0))) G 0
         = nth (k0 + t) global_tdofs 0).
Proof.
  induction visits as [| d visits IH]; intros k0 G0 Hlen Hrange.
  - exists G0. simpl. rewrite Nat.add_0_r.
    repeat split; try reflexivity. intros t Ht. simpl in Ht. lia.
  - cbn [fold_left].
    assert (Hd : 0 <= decode d < Z.of_nat (length G0))
      by (apply Hrange; left; reflexivity).
    destruct (nth_error global_tdofs k0) as [g | ] eqn:Eg.
    2:{ apply nth_error_None in Eg. simpl in Hlen. lia. }
    rewrite (reassemble_entry_ok global_tdofs k0 G0 d g Eg Hd).
    destruct (IH (S k0) (set_at G0 (Z.to_nat (decode d)) g)) as (G & E & HL & Hoth & Hat).
    + simpl in Hlen. lia.
    + intros d' Hin. rewrite set_at_length. apply Hrange. right. exact Hin.
    + exists G. rewrite E. simpl length.
      replace (S k0 + length visits)%nat with (k0 + S (length visits))%nat by lia.
      split; [reflexivity | ].
      split; [rewrite HL; apply set_at_length | ].
      split.
      * intros p Hp. rewrite Hoth by (intros d' Hin; apply Hp; right; exact Hin).
        rewrite set_at_nth.
        destruct (Nat.eqb_spec p (Z.to_nat (decode d))) as [E' | _];
          [ | reflexivity].
        exfalso. apply (Hp d); [left; reflexivity | congruence].
      * intros t Ht Hlast. destruct t as [| t].
        -- cbn [nth].
           rewrite Hoth.
           ++ rewrite set_at_nth, Nat.eqb_refl.
              assert (Hlt : (Z.to_nat (decode d) < length G0)%nat) by lia.
              apply Nat.ltb_lt in Hlt. rewrite Hlt. simpl andb. cbv iota.
              rewrite Nat.add_0_r.
              symmetry. apply nth_error_nth. exact Eg.
           ++ intros d' Hin E'.
              apply In_nth with (d := 0) in Hin.
              destruct Hin as (t' & Ht' & Hn).
              apply (Hlast (S t')); [simpl; lia | ].
              simpl nth. rewrite Hn.
              assert (0 <= decode d') by (apply (Hrange d'); right;
                                          rewrite <- Hn; apply nth_In; exact Ht').
              lia.
        -- cbn [nth].
           replace (k0 + S t)%nat with (S k0 + t)%nat by lia.
           apply Hat; [simpl in Ht; lia | ].
           intros t' Ht'. apply (Hlast (S t')). simpl. lia.
Qed.

(** C2, as amended: the construction never ends in the fatal abort, whatever
    the two counts are; and whenever the received list is at least as long as
    the element-DOF traversal and every element DOF decodes below the
    true-DOF count, it completes with a map of exactly [nrdof] entries in
    which every visited DOF holds the id received at the traversal position
    of its last visit (ids beyond the traversal are ignored) and every other
    entry keeps what [SetSize] left there. *)
Theorem reassembly_never_aborts (nrdof : nat) (junk : nat -> Z)
  (elem_dofs : list (list Z)) (global_tdofs : list Z) :
  reassemble nrdof junk elem_dofs global_tdofs <> Abort /\
  ((length (concat elem_dofs) <= length global_tdofs)%nat ->
   (forall d, In d (concat elem_dofs) -> 0 <= decode d < Z.of_nat nrdof) ->
   exists G,
     reassemble nrdof junk elem_dofs global_tdofs = Done G /\
     length G = nrdof /\
     (forall t, (t < length (concat elem_dofs))%nat ->
        (forall t', (t < t' < length (concat elem_dofs))%nat ->
                    decode (nth t' (concat elem_dofs) 0)
                    <> decode (nth t (concat elem_dofs) 0)) ->
        nth (Z.to_nat (decode (nth t (concat elem_dofs) 0))) G 0
        = nth t global_tdofs 0)).
Proof.
  split.
  - unfold reassemble. rewrite fold_concat.
    pose proof (fold_entries_no_abort global_tdofs (concat elem_dofs)
                  (Done (0%nat, map junk (seq 0 nrdof)))) as H.
    destruct (fold_left _ _ _) as [[k G] | | ]; try discriminate.
    exfalso. apply H; [discriminate | reflexivity].
  - intros Hlen Hrange. unfold reassemble. rewrite fold_concat.
    destruct (traversal_spec global_tdofs (concat elem_dofs) 0
                (map junk (seq 0 nrdof))) as (G & E & HL & _ & Hat).
    + simpl. exact Hlen.
    + intros d Hd. rewrite length_map, length_seq. apply Hrange. exact Hd.
    + exists G. rewrite E. split; [reflexivity | ].
      split; [rewrite HL, length_map, length_seq; reflexivity | ].
      intros t Ht Hlast. rewrite (Hat t Ht Hlast). reflexivity.
Qed.

(** Two elements sharing DOF 1, three true DOFs, four received ids. *)
Lemma reassembly_never_aborts_witness :
  exists G,
    reassemble 3 (fun _ => 0) [[0; 1]; [1; 2]] [10; 11; 11; 12] = Done G /\
    length G = 3%nat.
Proof.
  assert (Hlen : (length (concat [[0; 1]; [1; 2]])
                  <= length [10; 11; 11; 12])%nat) by (simpl; lia).
  assert (Hrange : forall d, In d (concat [[0; 1]; [1; 2]]) ->
                             0 <= decode d < Z.of_nat 3).
  { intros d Hd. simpl in Hd.
    destruct Hd as [<- | [<- | [<- | [<- | []]]]]; vm_compute; split;
      congruence. }
  destruct (proj2 (reassembly_never_aborts 3 (fun _ => 0) [[0; 1]; [1; 2]]
                     [10; 11; 11; 12]) Hlen Hrange) as (G & E & HL & _).
  exists G. split; assumption.
Defined.

(** C2 as stated fails: a subdomain of two elements sharing DOF 1 has three
    true DOFs; with five reassembled ids the counts differ (5 against 3), and
    the construction completes: the map is [10; 99; 12], the id 11 has been
    overwritten and the id 55 dropped, with no abort. *)
Lemma reassembly_count_mismatch_completes :
  length [10; 11; 99; 12; 55] <> 3%nat /\
  reassemble 3 (fun _ => 0) [[0; 1]; [1; 2]] [10; 11; 99; 12; 55]
  = Done [10; 99; 12].
Proof.
  split; [simpl; lia | reflexivity].
Qed.

End Bridge.

(* ================================================================== *)
(** * Prolongation [DofMaps::SubdomainsToGlobal] (DofMapsDST.cpp:808-883) *)
(* ================================================================== *)

Module Accumulate.

Import Arrays.

Local Open Scope nat_scope.

(** The workspace arrays [send_count], [send_displ], [recv_count],
    [recv_displ], [soffs], [roffs]: one [int] per process. *)
Definition counts := nat -> nat.

Definition updn (c : counts) (k v : nat) : counts :=
  fun k' => if Nat.eqb k' k then v else c k'.

(** What one process holds: its rank, its offset in the global true-DOF
    numbering, and the two maps built by the setup. *)
Record process : Type := mkProcess {
  myid : nat;
  mytoffset : Z;
  SubdomainGTrueDofs : list (list Z);
  SubdomainLTrueDofs : list (list Z)
}.

Section Run.

(** The same on every process. *)
Variable num_procs : nat.
Variable nrsubdomains : nat.
Variable subdomain_rank : list nat.
Variable tdof_offsets : list Z.

(** [get_rank(tdof, tdof_offsets)], used as an array index. *)
Definition tdof_rank (tdof : Z) : nat :=
  Z.to_nat (Rank.get_rank tdof tdof_offsets).

Definition owner (ip : nat) : nat := nth ip subdomain_rank 0.

(** The two loops [for (ip < nrsubdomains) { if (myid != subdomain_rank[ip])
    continue; for (i < ndofs) ... }] over the owned subdomains, with [tdof =
    SubdomainGTrueDofs[ip][i]]. *)
Definition over_owned {St : Type} (p : process)
  (body : nat -> nat -> Z -> St -> St) (st : St) : St :=
  forloop nrsubdomains
    (fun ip st =>
       if negb (Nat.eqb (myid p) (owner ip)) then st
       else
         let dofs := nth ip (SubdomainGTrueDofs p) [] in
         forloop (length dofs) (fun i st => body ip i (nth i dofs 0%Z) st) st)
    st.

(** The counting pass: [send_count[tdof_rank]++]. *)
Definition compute_send_count (p : process) : counts :=
  over_owned p
    (fun _ _ tdof send_count =>
       let r := tdof_rank tdof in updn send_count r (send_count r + 1))
    (fun _ => 0).

(** [for (k < num_procs-1) displ[k+1] = displ[k] + count[k];] on a zeroed
    array. *)
Definition displacements (count : counts) : counts :=
  forloop (num_procs - 1)
    (fun k displ => updn displ (k + 1) (displ k + count k)) (fun _ => 0).

(** The fill of [sendbuf]: [k = send_displ[tdof_rank] + soffs[tdof_rank];
    soffs[tdof_rank]++; sendbuf[k] = x[ip][i];].  The state is
    [(sendbuf, soffs)], both zeroed. *)
Definition fill_step (send_displ : counts) (r : nat) (v : R)
  (st : mem * counts) : mem * counts :=
  let '(sendbuf, soffs) := st in
  let k := send_displ r + soffs r in
  (upd sendbuf k v, updn soffs r (soffs r + 1)).

Definition fill_sendbuf (p : process) (x : list (list R))
  (send_displ : counts) : mem :=
  fst (over_owned p
         (fun ip i tdof =>
            fill_step send_displ (tdof_rank tdof) (nth i (nth ip x []) 0%R))
         (fun _ => 0%R, fun _ => 0)).

(** [MPI_Alltoallv] seen from the receiving process [r]: for every source
    [s], the [recv_count[s]] values that [s] holds from [send_displ_s[r]] on
    arrive at [recv_displ[s]].  [junk] is what the new receive buffer
    holds. *)
Definition alltoallv (sendbuf : nat -> mem) (send_displ : nat -> counts)
  (r : nat) (recv_count recv_displ : counts) (junk : mem) : mem :=
  forloop num_procs
    (fun s recvbuf =>
       forloop (recv_count s)
         (fun t recvbuf =>
            upd recvbuf (recv_displ s + t) (sendbuf s (send_displ s r + t)))
         recvbuf)
    junk.

(** The last pair of loops: [k = tdof - mytoffset;
    j = recv_displ[subdomain_rank[ip]] + roffs[subdomain_rank[ip]];
    roffs[subdomain_rank[ip]]++; y[k] += recvbuf[j];] over every subdomain
    and every entry of [SubdomainLTrueDofs[ip]].  The state is [(y, roffs)]. *)
Definition entry (p : process) (tdof : Z) : nat :=
  Z.to_nat (tdof - mytoffset p).

Definition accumulate_step (p : process) (recv_displ : counts)
  (recvbuf : mem) (src : nat) (tdof : Z) (st : mem * counts) : mem * counts :=
  let '(y, roffs) := st in
  let k := entry p tdof in
  let j := recv_displ src + roffs src in
  (upd y k (y k + recvbuf j)%R, updn roffs src (roffs src + 1)).

Definition accumulate (p : process) (recv_displ : counts) (recvbuf : mem)
  (y : mem) : mem :=
  fst (forloop nrsubdomains
         (fun ip st =>
            let dofs := nth ip (SubdomainLTrueDofs p) [] in
            forloop (length dofs)
              (fun i st =>
                 accumulate_step p recv_displ recvbuf (owner ip)
                                 (nth i dofs 0%Z) st)
              st)
         (y, fun _ => 0)).

(** [void DofMaps::SubdomainsToGlobal(const std::vector<Vector> & x,
    Vector & y)] run by all the processes: [procs s], [x s], [y s] are the
    maps and the arguments on process [s]; the result is the vector [y] of
    process [r] after the call.  [MPI_Alltoall] gives
    [recv_count[s] = send_count_s[r]]. *)
Definition SubdomainsToGlobal (procs : nat -> process)
  (x : nat -> list (list R)) (y : nat -> mem) (junk : mem) (r : nat) : mem :=
  let send_count := fun s => compute_send_count (procs s) in
  let send_displ := fun s => displacements (send_count s) in
  let sendbuf := fun s => fill_sendbuf (procs s) (x s) (send_displ s) in
  let recv_count := fun s => send_count s r in
  let recv_displ := displacements recv_count in
  let recvbuf := alltoallv sendbuf send_displ r recv_count recv_displ junk in
  accumulate (procs r) recv_displ recvbuf (y r).

End Run.

(** ** Loops as folds over the visited indices *)

Lemma forloop_fold {St : Type} (n : nat) (body : nat -> St -> St) (s : St) :
  forloop n body s = fold_left (fun s i => body i s) (seq 0 n) s.
Proof.
  induction n as [| n IH]; [reflexivity | ].
  rewrite seq_S, fold_left_app. simpl. rewrite IH. reflexivity.
Qed.

Lemma fold_left_flat_map {St A B : Type} (f : St -> B -> St)
  (g : A -> list B) (l : list A) (s : St) :
  fold_left f (flat_map g l) s = fold_left (fun s a => fold_left f (g a) s) l s.
Proof.
  revert s. induction l as [| a l IH]; intros s; [reflexivity | ].
  simpl. rewrite fold_left_app. apply IH.
Qed.

Lemma fold_left_map {St A B : Type} (f : St -> B -> St) (g : A -> B)
  (l : list A) (s : St) :
  fold_left f (map g l) s = fold_left (fun s a => f s (g a)) l s.
Proof.
  revert s. induction l as [| a l IH]; intros s; [reflexivity | apply IH].
Qed.

Lemma fold_left_ext {St A : Type} (f g : St -> A -> St) (l : list A) (s : St) :
  (forall s a, f s a = g s a) -> fold_left f l s = fold_left g l s.
Proof.
  intros H. revert s. induction l as [| a l IH]; intros s; [reflexivity | ].
  simpl. rewrite H. apply IH.
Qed.

(** ** Buckets: what a counting pass and a fill pass leave *)

Definition bucket (r : nat) (items : list (nat * R)) : list R :=
  map snd (filter (fun it => Nat.eqb (fst it) r) items).

Definition count_pass (items : list (nat * R)) (c : counts) : counts :=
  fold_left (fun c it => updn c (fst it) (c (fst it) + 1)) items c.

Definition fill_pass (displ : counts) (items : list (nat * R))
  (st : mem * counts) : mem * counts :=
  fold_left (fun st it => fill_step displ (fst it) (snd it) st) items st.

Lemma updn_same (c : counts) (k v : nat) : updn c k v k = v.
Proof. unfold updn. now rewrite Nat.eqb_refl. Qed.

Lemma updn_other (c : counts) (k k' v : nat) : k' <> k -> updn c k v k' = c k'.
Proof. intros H. unfold updn. now apply Nat.eqb_neq in H as ->. Qed.

Lemma bucket_app (r : nat) (l1 l2 : list (nat * R)) :
  bucket r (l1 ++ l2) = bucket r l1 ++ bucket r l2.
Proof. unfold bucket. now rewrite filter_app, map_app. Qed.

Lemma bucket_cons (r k : nat) (v : R) (l : list (nat * R)) :
  bucket r ((k, v) :: l) = if Nat.eqb k r then v :: bucket r l else bucket r l.
Proof. unfold bucket. simpl. now destruct (Nat.eqb k r). Qed.

Lemma count_pass_spec (items : list (nat * R)) (c : counts) (r : nat) :
  count_pass items c r = c r + length (bucket r items).
Proof.
  revert c. induction items as [| [k v] items IH]; intros c.
  - simpl. lia.
  - unfold count_pass in *. simpl fold_left. rewrite IH, bucket_cons.
    destruct (Nat.eqb_spec k r) as [-> | Hk].
    + rewrite updn_same. simpl. lia.
    + rewrite updn_other by congruence. lia.
Qed.

(** The fill pass puts the values bound for [r] one after the other from
    [displ r + offs r] on, as long as the blocks of different destinations
    do not meet. *)
Lemma fill_pass_spec (displ : counts) (items : list (nat * R)) :
  forall (buf : mem) (offs : counts),
    (forall r r' t t', r <> r' ->
       t < offs r + length (bucket r items) ->
       t' < offs r' + length (bucket r' items) ->
       displ r + t <> displ r' + t') ->
    (forall r t, t < length (bucket r items) ->
       fst (fill_pass displ items (buf, offs)) (displ r + (offs r + t))
       = nth t (bucket r items) 0%R) /\
    (forall a,
       (forall r t, offs r <= t < offs r + length (bucket r items) ->
          a <> displ r + t) ->
       fst (fill_pass displ items (buf, offs)) a = buf a).
Proof.
  induction items as [| [k v] items IH]; intros buf offs Hsep.
  - split; [simpl; intros; lia | reflexivity].
  - unfold fill_pass in *. simpl fold_left. unfold fill_step at 2.
    simpl fst; simpl snd.
    assert (Hlen : forall r, updn offs k (offs k + 1) r + length (bucket r items)
                             = offs r + length (bucket r ((k, v) :: items))).
    { intros r. rewrite bucket_cons. destruct (Nat.eqb_spec k r) as [-> | Hk].
      - rewrite updn_same. simpl. lia.
      - rewrite updn_other by congruence. lia. }
    destruct (IH (upd buf (displ k + offs k) v) (updn offs k (offs k + 1)))
      as [IH1 IH2].
    { intros r r' t t' Hr Ht Ht'. rewrite Hlen in Ht, Ht'. now apply Hsep. }
    assert (Hframe : forall a,
      (forall r t, offs r <= t < offs r + length (bucket r ((k, v) :: items)) ->
                   a <> displ r + t) ->
      fst (fold_left (fun st it => fill_step displ (fst it) (snd it) st) items
             (upd buf (displ k + offs k) v, updn offs k (offs k + 1))) a
      = buf a).
    { intros a Ha. rewrite IH2.
      - apply upd_other. apply Ha. rewrite bucket_cons, Nat.eqb_refl. simpl. lia.
      - intros r t Ht. apply Ha. rewrite <- Hlen.
        destruct (Nat.eq_dec r k) as [-> | Hk].
        + rewrite updn_same in Ht. rewrite updn_same. lia.
        + rewrite updn_other in Ht by exact Hk. rewrite updn_other by exact Hk. lia. }
    split; [ | exact Hframe].
    intros r t Ht. rewrite bucket_cons in Ht |- *.
    destruct (Nat.eqb_spec k r) as [<- | Hk].
    + destruct t as [| t].
      * rewrite Nat.add_0_r. rewrite IH2.
        -- apply upd_same.
        -- intros r t Hrt. destruct (Nat.eq_dec r k) as [-> | Hrk].
           ++ rewrite updn_same in Hrt. lia.
           ++ rewrite updn_other in Hrt by exact Hrk.
              apply Hsep; [congruence | | ].
              ** rewrite bucket_cons, Nat.eqb_refl. simpl. lia.
              ** rewrite bucket_cons. apply Nat.eqb_neq in Hrk.
                 rewrite Nat.eqb_sym, Hrk. lia.
      * simpl in Ht. simpl nth. specialize (IH1 k t).
        rewrite updn_same in IH1.
        replace (displ k + (offs k + S t)) with (displ k + (offs k + 1 + t)) by lia.
        apply IH1. lia.
    + specialize (IH1 r t). rewrite updn_other in IH1 by congruence.
      now apply IH1.
Qed.

(** ** Displacements are prefix sums *)

Fixpoint psum (count : counts) (r : nat) : nat :=
  match r with
  | O => 0
  | S r' => psum count r' + count r'
  end.

Lemma displacements_spec (num_procs : nat) (count : counts) (r : nat) :
  r < num_procs -> displacements num_procs count r = psum count r.
Proof.
  intros Hr. unfold displacements.
  assert (H : forall m, m <= num_procs - 1 ->
            forall k, forloop m
                        (fun k displ => updn displ (k + 1) (displ k + count k))
                        (fun _ => 0) k
                      = if Nat.leb k m then psum count k else 0).
  { induction m as [| m IH]; intros Hm k.
    - simpl. destruct k; reflexivity.
    - simpl forloop. unfold updn at 1.
      destruct (Nat.eqb_spec k (m + 1)) as [-> | Hk].
      + rewrite (IH ltac:(lia) m), Nat.leb_refl.
        replace (m + 1 <=? S m) with true by (symmetry; apply Nat.leb_le; lia).
        replace (m + 1) with (S m) by lia. reflexivity.
      + rewrite (IH ltac:(lia) k).
        destruct (Nat.leb_spec k m), (Nat.leb_spec k (S m)); try lia; reflexivity. }
  rewrite (H (num_procs - 1) (Nat.le_refl _) r).
  replace (r <=? num_procs - 1) with true by (symmetry; apply Nat.leb_le; lia).
  reflexivity.
Qed.

Lemma psum_mono (count : counts) (r r' : nat) :
  r < r' -> psum count r + count r <= psum count r'.
Proof.
  induction 1 as [| r' _ IH]; simpl; lia.
Qed.

Lemma psum_separated (count : counts) (r r' t t' : nat) :
  r <> r' -> t < count r -> t' < count r' ->
  psum count r + t <> psum count r' + t'.
Proof.
  intros Hr Ht Ht'.
  destruct (Nat.lt_total r r') as [H | [H | H]]; [ | congruence | ].
  - pose proof (psum_mono count r r' H). lia.
  - pose proof (psum_mono count r' r H). lia.
Qed.

(** ** The exchange *)

Lemma alltoallv_spec (num_procs : nat) (sendbuf : nat -> mem)
  (send_displ : nat -> counts) (r : nat) (recv_count recv_displ : counts)
  (junk : mem) :
  (forall s s' t t', s < num_procs -> s' < num_procs -> s <> s' ->
     t < recv_count s -> t' < recv_count s' ->
     recv_displ s + t <> recv_displ s' + t') ->
  forall s t, s < num_procs -> t < recv_count s ->
    alltoallv num_procs sendbuf send_displ r recv_count recv_displ junk
              (recv_displ s + t)
    = sendbuf s (send_displ s r + t).
Proof.
  intros Hsep. unfold alltoallv.
  assert (Hin : forall s n buf,
    (forall t, t < n ->
       forloop n (fun t b => upd b (recv_displ s + t)
                                 (sendbuf s (send_displ s r + t))) buf
               (recv_displ s + t) = sendbuf s (send_displ s r + t)) /\
    (forall a, (forall t, t < n -> a <> recv_displ s + t) ->
       forloop n (fun t b => upd b (recv_displ s + t)
                                 (sendbuf s (send_displ s r + t))) buf a
       = buf a)).
  { intros s n buf. induction n as [| n [IH1 IH2]].
    - split; [intros; lia | reflexivity].
    - split.
      + intros t Ht. simpl forloop.
        destruct (Nat.eq_dec t n) as [-> | Hn]; [apply upd_same | ].
        rewrite upd_other by lia. apply IH1. lia.
      + intros a Ha. simpl forloop. rewrite upd_other by (apply Ha; lia).
        apply IH2. intros t Ht. apply Ha. lia. }
  assert (Hout : forall m, m <= num_procs ->
    forall s t, s < m -> t < recv_count s ->
      forloop m
        (fun s b => forloop (recv_count s)
                      (fun t b => upd b (recv_displ s + t)
                                      (sendbuf s (send_displ s r + t))) b)
        junk (recv_displ s + t)
      = sendbuf s (send_displ s r + t)).
  { induction m as [| m IH]; intros Hm s t Hs Ht; [lia | ].
    simpl forloop. destruct (Nat.eq_dec s m) as [-> | Hsm].
    - apply (Hin m (recv_count m)). exact Ht.
    - rewrite (proj2 (Hin m (recv_count m) _)).
      + apply IH; lia.
      + intros t' Ht'. apply Hsep; try lia. }
  intros s t Hs Ht. apply (Hout num_procs (Nat.le_refl _)); assumption.
Qed.

(** ** The sending side *)

Lemma bucket_flat_map {A : Type} (r : nat) (f : A -> list (nat * R))
  (l : list A) :
  bucket r (flat_map f l) = flat_map (fun a => bucket r (f a)) l.
Proof.
  induction l as [| a l IH]; [reflexivity | ].
  simpl. now rewrite bucket_app, IH.
Qed.

Lemma bucket_nil (r : nat) (items : list (nat * R)) :
  (forall it, In it items -> fst it <> r) -> bucket r items = [].
Proof.
  induction items as [| [k v] items IH]; intros H; [reflexivity | ].
  rewrite bucket_cons.
  destruct (Nat.eqb_spec k r) as [Hk | Hk].
  - exfalso. apply (H (k, v)); [now left | exact Hk].
  - apply IH. intros it Hit. apply H. now right.
Qed.

Section Sender.

Variable num_procs : nat.
Variable nrsubdomains : nat.
Variable subdomain_rank : list nat.
Variable tdof_offsets : list Z.
Variable p : process.
Variable x : list (list R).

(** The pairs (destination, value) of one owned subdomain, in the order of
    the inner loop. *)
Definition items_of (ip : nat) : list (nat * R) :=
  let dofs := nth ip (SubdomainGTrueDofs p) [] in
  map (fun i => (tdof_rank tdof_offsets (nth i dofs 0%Z),
                 nth i (nth ip x []) 0%R))
      (seq 0 (length dofs)).

Definition owned_items (ip : nat) : list (nat * R) :=
  if negb (Nat.eqb (myid p) (owner subdomain_rank ip)) then []
  else items_of ip.

Definition visits : list (nat * R) :=
  flat_map owned_items (seq 0 nrsubdomains).

Lemma over_owned_visits {St : Type} (h : nat * R -> St -> St) (st : St) :
  over_owned nrsubdomains subdomain_rank p
    (fun ip i tdof =>
       h (tdof_rank tdof_offsets tdof, nth i (nth ip x []) 0%R)) st
  = fold_left (fun st it => h it st) visits st.
Proof.
  unfold over_owned, visits. rewrite forloop_fold, fold_left_flat_map.
  apply fold_left_ext. intros s ip. unfold owned_items.
  destruct (negb (myid p =? owner subdomain_rank ip)); [reflexivity | ].
  unfold items_of. cbv zeta. rewrite forloop_fold, fold_left_map. reflexivity.
Qed.

Lemma compute_send_count_spec (r : nat) :
  compute_send_count nrsubdomains subdomain_rank tdof_offsets p r
  = length (bucket r visits).
Proof.
  change (length (bucket r visits)) with (0 + length (bucket r visits)).
  rewrite <- (count_pass_spec visits (fun _ => 0) r). unfold count_pass.
  rewrite <- (over_owned_visits
                (fun it c => updn c (fst it) (c (fst it) + 1)) (fun _ => 0)).
  reflexivity.
Qed.

Hypothesis Hkeys : forall it, In it visits -> fst it < num_procs.

Lemma bucket_out_of_range (r : nat) : num_procs <= r -> bucket r visits = [].
Proof.
  intros Hr. apply bucket_nil. intros it Hit. apply Hkeys in Hit. lia.
Qed.

Lemma fill_sendbuf_spec (r t : nat) :
  t < length (bucket r visits) ->
  fill_sendbuf nrsubdomains subdomain_rank tdof_offsets p x
    (displacements num_procs
       (compute_send_count nrsubdomains subdomain_rank tdof_offsets p))
    (displacements num_procs
       (compute_send_count nrsubdomains subdomain_rank tdof_offsets p) r + t)
  = nth t (bucket r visits) 0%R.
Proof.
  intros Ht.
  set (displ := displacements num_procs _).
  assert (E : fill_sendbuf nrsubdomains subdomain_rank tdof_offsets p x displ
              = fst (fill_pass displ visits (fun _ => 0%R, fun _ => 0))).
  { unfold fill_pass.
    rewrite <- (over_owned_visits
                  (fun it st => fill_step displ (fst it) (snd it) st)
                  (fun _ => 0%R, fun _ => 0)).
    reflexivity. }
  rewrite E.
  assert (Hrange : forall q, 0 < length (bucket q visits) -> q < num_procs).
  { intros q Hq. destruct (Nat.lt_ge_cases q num_procs) as [H | H]; [exact H | ].
    rewrite (bucket_out_of_range q H) in Hq. simpl in Hq. lia. }
  assert (Hd : forall q, q < num_procs ->
            displ q = psum (fun q => length (bucket q visits)) q).
  { intros q Hq. unfold displ. rewrite displacements_spec by exact Hq.
    clear. induction q as [| q IH]; [reflexivity | ].
    simpl. now rewrite IH, compute_send_count_spec. }
  destruct (fill_pass_spec displ visits (fun _ => 0%R) (fun _ => 0)) as [H1 _].
  - intros q q' u u' Hq Hu Hu'. simpl in Hu, Hu'.
    rewrite !Hd by (apply Hrange; lia).
    apply psum_separated; assumption.
  - specialize (H1 r t Ht). simpl in H1. exact H1.
Qed.

End Sender.

(** ** Lists through their indices *)

Lemma filter_map_comm {A B : Type} (f : B -> bool) (g : A -> B) (l : list A) :
  filter f (map g l) = map g (filter (fun a => f (g a)) l).
Proof.
  induction l as [| a l IH]; [reflexivity | ].
  simpl. destruct (f (g a)); simpl; now rewrite IH.
Qed.

Lemma nth_map_in {A B : Type} (g : A -> B) (l : list A) (i : nat) (d : A)
  (e : B) :
  i < length l -> nth i (map g l) e = g (nth i l d).
Proof.
  intros Hi. rewrite (nth_indep (map g l) e (g d)) by now rewrite length_map.
  apply map_nth.
Qed.

Lemma list_by_index {A : Type} (d : A) (l : list A) :
  l = map (fun i => nth i l d) (seq 0 (length l)).
Proof.
  apply (nth_ext _ _ d d).
  - now rewrite length_map, length_seq.
  - intros n Hn.
    rewrite (nth_map_in _ _ n 0) by now rewrite length_seq.
    now rewrite seq_nth.
Qed.

Lemma filter_by_index {A : Type} (d : A) (f : A -> bool) (l : list A) :
  filter f l
  = map (fun i => nth i l d)
        (filter (fun i => f (nth i l d)) (seq 0 (length l))).
Proof.
  rewrite (list_by_index d l) at 1. apply filter_map_comm.
Qed.

Lemma seq_split (n m : nat) :
  n < m -> seq 0 m = seq 0 n ++ n :: seq (S n) (m - S n).
Proof.
  intros H. replace m with (n + S (m - S n)) at 1 by lia.
  rewrite seq_app. reflexivity.
Qed.

(** A sum over the selected indices is the sum of the selected terms. *)
Lemma sum_n_filter (n : nat) (f : nat -> bool) (F : nat -> R) :
  sum_n (length (filter f (seq 0 n)))
        (fun j => F (nth j (filter f (seq 0 n)) 0))
  = sum_n n (fun i => if f i then F i else 0%R).
Proof.
  induction n as [| n IH]; [reflexivity | ].
  rewrite seq_S, filter_app, sum_n_S. simpl filter. simpl Nat.add.
  assert (E : sum_n (length (filter f (seq 0 n)))
                (fun j => F (nth j (filter f (seq 0 n) ++
                                    (if f n then [n] else [])) 0))
              = sum_n n (fun i => if f i then F i else 0%R)).
  { rewrite <- IH. apply sum_n_ext. intros j Hj. now rewrite app_nth1. }
  destruct (f n).
  - rewrite length_app. simpl length.
    rewrite Nat.add_1_r, sum_n_S, E.
    rewrite app_nth2, Nat.sub_diag by lia. reflexivity.
  - rewrite app_nil_r in *. rewrite IH. lra.
Qed.

Lemma sum_n_two (n i j : nat) (f : nat -> R) :
  i < n -> j < n -> i <> j ->
  (forall k, k < n -> k <> i -> k <> j -> f k = 0%R) ->
  sum_n n f = (f i + f j)%R.
Proof.
  intros Hi Hj Hij H.
  transitivity (sum_n n (fun k => ((if Nat.eqb k i then f i else 0)
                                   + (if Nat.eqb k j then f j else 0))%R)).
  - apply sum_n_ext. intros k Hk.
    destruct (Nat.eqb_spec k i) as [Hki | Hki], (Nat.eqb_spec k j) as [Hkj | Hkj];
      subst; try congruence; try lra.
    rewrite H by assumption. lra.
  - rewrite sum_n_plus.
    assert (S1 : forall m v, m < n ->
              sum_n n (fun k => if Nat.eqb k m then v else 0%R) = v).
    { clear. intros m v. induction n as [| n IH]; intros Hm; [lia | ].
      rewrite sum_n_S. destruct (Nat.eqb_spec n m) as [-> | Hn].
      - rewrite (sum_n_ext m _ (fun _ => 0%R)).
        + rewrite sum_n_zero. lra.
        + intros k Hk. destruct (Nat.eqb_spec k m); [lia | reflexivity].
      - rewrite IH by lia. lra. }
    now rewrite !S1.
Qed.

Lemma sum_n_one (n i : nat) (f : nat -> R) :
  i < n -> (forall k, k < n -> k <> i -> f k = 0%R) -> sum_n n f = f i.
Proof.
  intros Hi H. induction n as [| n IH]; [lia | ].
  rewrite sum_n_S. destruct (Nat.eq_dec i n) as [-> | Hn].
  - rewrite (sum_n_ext n _ (fun _ => 0%R)).
    + rewrite sum_n_zero. lra.
    + intros k Hk. apply H; lia.
  - rewrite IH; [ | lia | intros k Hk Hki; apply H; lia].
    rewrite (H n) by lia. lra.
Qed.

Lemma sum_n_none (n : nat) (f : nat -> R) :
  (forall k, k < n -> f k = 0%R) -> sum_n n f = 0%R.
Proof.
  intros H. rewrite (sum_n_ext n _ (fun _ => 0%R)) by exact H.
  apply sum_n_zero.
Qed.

(** ** The DOF bridge left by the setup *)

(** The global true DOFs of subdomain [ip] as its owner holds them, and the
    value the owner contributes for the [i]-th of them. *)
Definition owned_dofs (subdomain_rank : list nat) (procs : nat -> process)
  (ip : nat) : list Z :=
  nth ip (SubdomainGTrueDofs (procs (owner subdomain_rank ip))) [].

Definition contribution (subdomain_rank : list nat)
  (x : nat -> list (list R)) (ip i : nat) : R :=
  nth i (nth ip (x (owner subdomain_rank ip)) []) 0%R.

(** What [SubdomainToGlobalMapsSetup] establishes (DofMapsDST.cpp:629-721):
    every subdomain has an owner, every DOF of a subdomain belongs to some
    process and is not below the offset of that process, and each process
    keeps in [SubdomainLTrueDofs[ip]] the DOFs of the owner's list that it
    owns, in the owner's order. *)
Record bridge (num_procs nrsubdomains : nat) (subdomain_rank : list nat)
  (tdof_offsets : list Z) (procs : nat -> process) : Prop := mkBridge {
  owner_in_range :
    forall ip, ip < nrsubdomains -> owner subdomain_rank ip < num_procs;
  myid_is_rank :
    forall s, s < num_procs -> myid (procs s) = s;
  ranks_in_range :
    forall ip i, ip < nrsubdomains ->
      i < length (owned_dofs subdomain_rank procs ip) ->
      (0 <= Rank.get_rank (nth i (owned_dofs subdomain_rank procs ip) 0%Z)
                          tdof_offsets < Z.of_nat num_procs)%Z;
  offsets_below :
    forall ip i, ip < nrsubdomains ->
      i < length (owned_dofs subdomain_rank procs ip) ->
      let tdof := nth i (owned_dofs subdomain_rank procs ip) 0%Z in
      (mytoffset (procs (tdof_rank tdof_offsets tdof)) <= tdof)%Z;
  local_dofs :
    forall r ip, r < num_procs -> ip < nrsubdomains ->
      nth ip (SubdomainLTrueDofs (procs r)) []
      = filter (fun tdof =>
                  Z.eqb (Rank.get_rank tdof tdof_offsets) (Z.of_nat r))
               (owned_dofs subdomain_rank procs ip)
}.

(** The [i]-th DOF of subdomain [ip] lands in entry [a] of [y] on process
    [r]. *)
Definition hits (subdomain_rank : list nat) (tdof_offsets : list Z)
  (procs : nat -> process) (r a ip i : nat) : bool :=
  let tdof := nth i (owned_dofs subdomain_rank procs ip) 0%Z in
  Nat.eqb (tdof_rank tdof_offsets tdof) r && Nat.eqb (entry (procs r) tdof) a.

(** Everything the subdomains contribute to entry [a] of process [r]. *)
Definition contributed (nrsubdomains : nat) (subdomain_rank : list nat)
  (tdof_offsets : list Z) (procs : nat -> process)
  (x : nat -> list (list R)) (r a : nat) : R :=
  sum_n nrsubdomains
    (fun ip =>
       sum_n (length (owned_dofs subdomain_rank procs ip))
         (fun i =>
            if hits subdomain_rank tdof_offsets procs r a ip i
            then contribution subdomain_rank x ip i else 0%R)).

Section Receiver.

Variable num_procs : nat.
Variable nrsubdomains : nat.
Variable subdomain_rank : list nat.
Variable tdof_offsets : list Z.
Variable procs : nat -> process.
Variable x : nat -> list (list R).
Variable y : nat -> mem.
Variable junk : mem.

Hypothesis HB : bridge num_procs nrsubdomains subdomain_rank tdof_offsets procs.

Variable r : nat.
Hypothesis Hr : r < num_procs.

Local Abbreviation own := (owner subdomain_rank).
Local Abbreviation G := (owned_dofs subdomain_rank procs).
Local Abbreviation X := (contribution subdomain_rank x).
Local Abbreviation trank := (tdof_rank tdof_offsets).

(** The indices of the DOFs of subdomain [ip] that process [r] owns. *)
Definition idx (ip : nat) : list nat :=
  filter (fun i => Nat.eqb (trank (nth i (G ip) 0%Z)) r)
         (seq 0 (length (G ip))).

(** What process [s] sends to [r]. *)
Definition chan (s : nat) : list R :=
  bucket r (visits nrsubdomains subdomain_rank tdof_offsets (procs s) (x s)).

(** ... of which the part of the subdomains before [n]. *)
Definition pre (n s : nat) : list R :=
  bucket r (flat_map (owned_items subdomain_rank tdof_offsets (procs s) (x s))
                     (seq 0 n)).

Lemma keys_in_range (s : nat) :
  s < num_procs ->
  forall it,
    In it (visits nrsubdomains subdomain_rank tdof_offsets (procs s) (x s)) ->
    fst it < num_procs.
Proof.
  intros Hs it Hit. unfold visits in Hit.
  apply in_flat_map in Hit as [ip [Hip Hit]]. apply in_seq in Hip.
  unfold owned_items in Hit. rewrite (myid_is_rank _ _ _ _ _ HB s Hs) in Hit.
  destruct (Nat.eqb_spec s (own ip)) as [E | E]; simpl in Hit; [ | easy].
  unfold items_of in Hit. cbv zeta in Hit.
  apply in_map_iff in Hit as [i [<- Hi]]. apply in_seq in Hi. simpl fst.
  subst s.
  pose proof (ranks_in_range _ _ _ _ _ HB ip i ltac:(lia) ltac:(unfold owned_dofs; lia)) as H.
  unfold tdof_rank. unfold owned_dofs in H. lia.
Qed.

Lemma seg_spec (n : nat) :
  bucket r (items_of tdof_offsets (procs (own n)) (x (own n)) n)
  = map (X n) (idx n).
Proof.
  unfold bucket, items_of. cbv zeta.
  rewrite filter_map_comm, map_map. reflexivity.
Qed.

Lemma L_spec (n : nat) :
  n < nrsubdomains ->
  nth n (SubdomainLTrueDofs (procs r)) []
  = map (fun i => nth i (G n) 0%Z) (idx n).
Proof.
  intros Hn. rewrite (local_dofs _ _ _ _ _ HB r n Hr Hn).
  rewrite (filter_by_index 0%Z). f_equal. apply filter_ext_in.
  intros i Hi. apply in_seq in Hi.
  pose proof (ranks_in_range _ _ _ _ _ HB n i Hn ltac:(lia)) as H.
  unfold tdof_rank.
  destruct (Z.eqb_spec (Rank.get_rank (nth i (G n) 0%Z) tdof_offsets)
                       (Z.of_nat r)) as [E | E];
    symmetry; [apply Nat.eqb_eq | apply Nat.eqb_neq]; lia.
Qed.

Lemma pre_S (n s : nat) :
  s < num_procs ->
  pre (S n) s
  = pre n s ++ (if Nat.eqb s (own n) then map (X n) (idx n) else []).
Proof.
  intros Hs. unfold pre. rewrite seq_S, flat_map_app, bucket_app. simpl.
  rewrite app_nil_r. f_equal. unfold owned_items.
  rewrite (myid_is_rank _ _ _ _ _ HB s Hs).
  destruct (Nat.eqb_spec s (own n)) as [-> | E]; simpl; [ | reflexivity].
  apply seg_spec.
Qed.

Lemma chan_split (n : nat) :
  n < nrsubdomains ->
  exists post,
    chan (own n) = pre n (own n) ++ map (X n) (idx n) ++ post.
Proof.
  intros Hn. unfold chan, visits, pre.
  rewrite (seq_split n nrsubdomains Hn), flat_map_app, bucket_app.
  simpl flat_map. rewrite bucket_app.
  eexists. f_equal. f_equal. unfold owned_items.
  rewrite (myid_is_rank _ _ _ _ _ HB _ (owner_in_range _ _ _ _ _ HB n Hn)).
  rewrite Nat.eqb_refl. simpl. apply seg_spec.
Qed.

(** The receive side of the two collectives on process [r]. *)
Definition recv_count (s : nat) : nat :=
  compute_send_count nrsubdomains subdomain_rank tdof_offsets (procs s) r.

Definition recv_displ : counts := displacements num_procs recv_count.

Definition recvbuf : mem :=
  alltoallv num_procs
    (fun s =>
       fill_sendbuf nrsubdomains subdomain_rank tdof_offsets (procs s) (x s)
         (displacements num_procs
            (compute_send_count nrsubdomains subdomain_rank tdof_offsets
                                (procs s))))
    (fun s =>
       displacements num_procs
         (compute_send_count nrsubdomains subdomain_rank tdof_offsets
                             (procs s)))
    r recv_count recv_displ junk.

Lemma recv_count_spec (s : nat) : recv_count s = length (chan s).
Proof. apply compute_send_count_spec. Qed.

Lemma recvbuf_spec (s t : nat) :
  s < num_procs -> t < length (chan s) ->
  recvbuf (recv_displ s + t) = nth t (chan s) 0%R.
Proof.
  intros Hs Ht. unfold recvbuf. rewrite alltoallv_spec.
  - apply fill_sendbuf_spec; [now apply keys_in_range | exact Ht].
  - intros s1 s2 t1 t2 H1 H2 H12 Ht1 Ht2. unfold recv_displ.
    rewrite !displacements_spec by assumption.
    now apply psum_separated.
  - exact Hs.
  - now rewrite recv_count_spec.
Qed.

(** One subdomain of the accumulation loop. *)
Lemma accumulate_subdomain (n : nat) (y0 : mem) (roffs0 : counts) :
  n < nrsubdomains ->
  roffs0 (own n) = length (pre n (own n)) ->
  let dofs := nth n (SubdomainLTrueDofs (procs r)) [] in
  let st := forloop (length dofs)
              (fun i st =>
                 accumulate_step (procs r) recv_displ recvbuf (own n)
                                 (nth i dofs 0%Z) st)
              (y0, roffs0) in
  snd st (own n) = roffs0 (own n) + length (idx n) /\
  (forall s, s <> own n -> snd st s = roffs0 s) /\
  (forall a,
     fst st a
     = (y0 a + sum_n (length (G n))
                 (fun i =>
                    if hits subdomain_rank tdof_offsets procs r a n i
                    then X n i else 0))%R).
Proof.
  intros Hn Hro dofs st. subst st dofs. rewrite (L_spec n Hn), length_map.
  destruct (chan_split n Hn) as [post Hch].
  pose proof (owner_in_range _ _ _ _ _ HB n Hn) as Hown.
  set (F := fun a i =>
              if Nat.eqb (entry (procs r) (nth i (G n) 0%Z)) a
              then X n i else 0%R).
  assert (Inv :
    let st := forloop (length (idx n))
                (fun i st =>
                   accumulate_step (procs r) recv_displ recvbuf (own n)
                     (nth i (map (fun i => nth i (G n) 0%Z) (idx n)) 0%Z) st)
                (y0, roffs0) in
    snd st (own n) = roffs0 (own n) + length (idx n) /\
    (forall s, s <> own n -> snd st s = roffs0 s) /\
    (forall a, fst st a
               = (y0 a + sum_n (length (idx n))
                           (fun j => F a (nth j (idx n) 0%nat)))%R)).
  { apply (Upwind.forloop_ind
             (fun i (st : mem * counts) =>
                snd st (own n) = roffs0 (own n) + i /\
                (forall s, s <> own n -> snd st s = roffs0 s) /\
                (forall a, fst st a
                           = (y0 a + sum_n i
                                       (fun j => F a (nth j (idx n) 0%nat)))%R))).
    - simpl. split; [lia | ]. split; [reflexivity | ].
      intros a. unfold sum_n. simpl. lra.
    - intros i [y1 ro1] Hi (H1 & H2 & H3). simpl in H1, H2, H3.
      unfold accumulate_step. simpl fst; simpl snd.
      split; [rewrite updn_same; lia | ].
      split; [intros s Hs; rewrite updn_other by exact Hs; now apply H2 | ].
      intros a. rewrite sum_n_S.
      rewrite (nth_map_in _ _ i 0) by exact Hi.
      rewrite H1, Hro, recvbuf_spec;
        [ | exact Hown
          | rewrite Hch, !length_app, length_map; lia ].
      rewrite Hch, app_nth2_plus, app_nth1 by (rewrite length_map; exact Hi).
      rewrite (nth_map_in _ _ i 0) by exact Hi.
      unfold upd. rewrite (Nat.eqb_sym a).
      assert (EF : F a (nth i (idx n) 0)
                   = if Nat.eqb (entry (procs r)
                                   (nth (nth i (idx n) 0) (G n) 0%Z)) a
                     then X n (nth i (idx n) 0) else 0%R) by reflexivity.
      rewrite EF.
      destruct (Nat.eqb_spec (entry (procs r) (nth (nth i (idx n) 0) (G n) 0%Z)) a)
        as [E | E]; [rewrite E | ]; rewrite H3; lra. }
  destruct Inv as (I1 & I2 & I3).
  split; [exact I1 | ]. split; [exact I2 | ].
  intros a. rewrite I3. f_equal.
  unfold idx. rewrite (sum_n_filter (length (G n)) _ (F a)).
  apply sum_n_ext. intros i Hi. unfold hits, F. cbv zeta.
  destruct (Nat.eqb (trank (nth i (G n) 0%Z)) r); reflexivity.
Qed.

Lemma accumulate_spec (a : nat) :
  accumulate nrsubdomains subdomain_rank (procs r) recv_displ recvbuf (y r) a
  = (y r a
     + contributed nrsubdomains subdomain_rank tdof_offsets procs x r a)%R.
Proof.
  unfold accumulate, contributed.
  assert (Inv :
    let st := forloop nrsubdomains
                (fun ip st =>
                   let dofs := nth ip (SubdomainLTrueDofs (procs r)) [] in
                   forloop (length dofs)
                     (fun i st =>
                        accumulate_step (procs r) recv_displ recvbuf (own ip)
                                        (nth i dofs 0%Z) st)
                     st)
                (y r, fun _ => 0) in
    (forall s, s < num_procs -> snd st s = length (pre nrsubdomains s)) /\
    (forall a, fst st a
               = (y r a + sum_n nrsubdomains
                            (fun ip =>
                               sum_n (length (G ip))
                                 (fun i =>
                                    if hits subdomain_rank tdof_offsets procs
                                            r a ip i
                                    then X ip i else 0)))%R)).
  { apply (Upwind.forloop_ind
             (fun n (st : mem * counts) =>
                (forall s, s < num_procs -> snd st s = length (pre n s)) /\
                (forall a, fst st a
                           = (y r a + sum_n n
                                (fun ip =>
                                   sum_n (length (G ip))
                                     (fun i =>
                                        if hits subdomain_rank tdof_offsets
                                                procs r a ip i
                                        then X ip i else 0)))%R))).
    - split; [reflexivity | ]. intros a'. unfold sum_n. simpl. lra.
    - intros n [y0 ro0] Hn [H1 H2]. simpl in H1, H2.
      pose proof (owner_in_range _ _ _ _ _ HB n Hn) as Hown.
      destruct (accumulate_subdomain n y0 ro0 Hn (H1 _ Hown)) as (A1 & A2 & A3).
      cbv zeta. split.
      + intros s Hs. rewrite (pre_S n s Hs), length_app.
        destruct (Nat.eqb_spec s (own n)) as [-> | E].
        * rewrite A1, H1, length_map by exact Hown. reflexivity.
        * rewrite A2, H1 by assumption. simpl. lia.
      + intros a'. rewrite A3, H2, sum_n_S. lra. }
  apply (proj2 Inv).
Qed.

Lemma SubdomainsToGlobal_spec (a : nat) :
  SubdomainsToGlobal num_procs nrsubdomains subdomain_rank tdof_offsets
                     procs x y junk r a
  = (y r a
     + contributed nrsubdomains subdomain_rank tdof_offsets procs x r a)%R.
Proof. apply accumulate_spec. Qed.

(** Which DOFs land in the entry of DOF [d]. *)
Lemma hits_spec (d : Z) (ip i : nat) :
  ip < nrsubdomains -> i < length (G ip) ->
  (mytoffset (procs r) <= d)%Z ->
  hits subdomain_rank tdof_offsets procs r (entry (procs r) d) ip i = true
  <-> nth i (G ip) 0%Z = d /\ trank d = r.
Proof.
  intros Hip Hi Hd. unfold hits. cbv zeta.
  rewrite andb_true_iff, !Nat.eqb_eq.
  pose proof (offsets_below _ _ _ _ _ HB ip i Hip Hi) as Ho. cbv zeta in Ho.
  unfold entry. split.
  - intros [H1 H2]. rewrite H1 in Ho.
    assert (nth i (G ip) 0%Z = d) by lia. subst d. now split.
  - intros [H1 H2]. rewrite H1. now split.
Qed.

End Receiver.

(** ** The prolongation accumulates *)

(** C3: [SubdomainsToGlobal] adds what the subdomains send to the entries
    of [y] and overwrites nothing.  On every process [r], with the maps the
    setup leaves: each entry of [y] grows by the sum of the values
    [x[ip][i]] of all the subdomain DOFs that land in it; a DOF [d] owned by
    [r] that exactly two subdomains [ip1] and [ip2] hold, at positions [i1]
    and [i2], has its entry grown by exactly [x[ip1][i1] + x[ip2][i2]]; and
    the entry of a DOF that no subdomain holds is unchanged. *)
Theorem SubdomainsToGlobal_accumulates
  (num_procs nrsubdomains : nat) (subdomain_rank : list nat)
  (tdof_offsets : list Z) (procs : nat -> process)
  (x : nat -> list (list R)) (y : nat -> mem) (junk : mem) (r : nat) :
  bridge num_procs nrsubdomains subdomain_rank tdof_offsets procs ->
  r < num_procs ->
  let y' := SubdomainsToGlobal num_procs nrsubdomains subdomain_rank
                               tdof_offsets procs x y junk r in
  let dofs := owned_dofs subdomain_rank procs in
  (forall a,
     y' a = (y r a + contributed nrsubdomains subdomain_rank tdof_offsets
                                 procs x r a)%R) /\
  (forall d ip1 i1 ip2 i2,
     ip1 < nrsubdomains -> ip2 < nrsubdomains -> ip1 <> ip2 ->
     i1 < length (dofs ip1) -> i2 < length (dofs ip2) ->
     tdof_rank tdof_offsets d = r ->
     (forall ip i, ip < nrsubdomains -> i < length (dofs ip) ->
        (nth i (dofs ip) 0%Z = d
         <-> (ip = ip1 /\ i = i1) \/ (ip = ip2 /\ i = i2))) ->
     y' (entry (procs r) d)
     = (y r (entry (procs r) d)
        + (contribution subdomain_rank x ip1 i1
           + contribution subdomain_rank x ip2 i2))%R) /\
  (forall d,
     (mytoffset (procs r) <= d)%Z ->
     (forall ip i, ip < nrsubdomains -> i < length (dofs ip) ->
        nth i (dofs ip) 0%Z <> d) ->
     y' (entry (procs r) d) = y r (entry (procs r) d)).
Proof.
  intros HB Hr y' dofs.
  assert (Hall : forall a,
            y' a = (y r a + contributed nrsubdomains subdomain_rank
                                        tdof_offsets procs x r a)%R).
  { intros a. now apply SubdomainsToGlobal_spec. }
  split; [exact Hall | ]. split.
  - intros d ip1 i1 ip2 i2 Hip1 Hip2 Hne Hi1 Hi2 Hd Hex.
    assert (Hoff : (mytoffset (procs r) <= d)%Z).
    { pose proof (offsets_below _ _ _ _ _ HB ip1 i1 Hip1 Hi1) as Ho.
      cbv zeta in Ho. fold (dofs ip1) in Ho.
      rewrite (proj2 (Hex ip1 i1 Hip1 Hi1)) in Ho by (left; now split).
      now rewrite Hd in Ho. }
    assert (Hh : forall ip i, ip < nrsubdomains -> i < length (dofs ip) ->
              hits subdomain_rank tdof_offsets procs r (entry (procs r) d) ip i
              = true
              <-> (ip = ip1 /\ i = i1) \/ (ip = ip2 /\ i = i2)).
    { intros ip i Hip Hi.
      rewrite (hits_spec _ _ _ _ _ HB r Hr d ip i Hip Hi Hoff).
      fold (dofs ip). rewrite <- (Hex ip i Hip Hi). tauto. }
    assert (Hone : forall ip i0 other j0, ip < nrsubdomains ->
              i0 < length (dofs ip) -> other <> ip ->
              (forall i, i < length (dofs ip) ->
                 hits subdomain_rank tdof_offsets procs r (entry (procs r) d)
                      ip i = true
                 <-> (ip = ip /\ i = i0) \/ (ip = other /\ i = j0)) ->
              sum_n (length (dofs ip))
                (fun i =>
                   if hits subdomain_rank tdof_offsets procs r
                           (entry (procs r) d) ip i
                   then contribution subdomain_rank x ip i else 0%R)
              = contribution subdomain_rank x ip i0).
    { intros ip i0 other j0 Hip Hi0 Hother H.
      rewrite (sum_n_one _ i0); [ | exact Hi0 | ].
      2:{ intros k Hk Hki.
          destruct (hits subdomain_rank tdof_offsets procs r
                         (entry (procs r) d) ip k) eqn:E; [ | reflexivity].
          apply (H k Hk) in E. destruct E as [[_ E] | [E _]]; congruence. }
      replace (hits subdomain_rank tdof_offsets procs r (entry (procs r) d)
                    ip i0) with true; [reflexivity | ].
      symmetry. apply (H i0 Hi0). left. now split. }
    rewrite Hall. f_equal. unfold contributed. fold dofs.
    rewrite (sum_n_two nrsubdomains ip1 ip2); [ | assumption .. | ].
    2:{ intros k Hk Hk1 Hk2. apply sum_n_none. intros i Hi.
        destruct (hits subdomain_rank tdof_offsets procs r
                       (entry (procs r) d) k i) eqn:E; [ | reflexivity].
        apply (Hh k i Hk Hi) in E. destruct E as [[E _] | [E _]]; congruence. }
    rewrite (Hone ip1 i1 ip2 i2 Hip1 Hi1 (not_eq_sym Hne))
      by (intros i Hi; apply Hh; assumption).
    rewrite (Hone ip2 i2 ip1 i1 Hip2 Hi2 Hne)
      by (intros i Hi; rewrite (Hh ip2 i Hip2 Hi); tauto).
    reflexivity.
  - intros d Hoff Hno. rewrite Hall.
    replace (contributed nrsubdomains subdomain_rank tdof_offsets procs x r
                         (entry (procs r) d)) with 0%R; [lra | ].
    symmetry. unfold contributed. apply sum_n_none. intros ip Hip.
    apply sum_n_none. intros i Hi.
    destruct (hits subdomain_rank tdof_offsets procs r (entry (procs r) d)
                   ip i) eqn:E; [ | reflexivity].
    apply (hits_spec _ _ _ _ _ HB r Hr d ip i Hip Hi Hoff) in E.
    destruct E as [E _]. exfalso. exact (Hno ip i Hip Hi E).
Qed.

(** Two processes, two subdomains of three DOFs each, DOFs 1 and 2 shared:
    process 0 owns subdomain 0 and the DOFs 0 and 1, process 1 owns
    subdomain 1 and the DOFs 2 and 3. *)
Definition example_procs (s : nat) : process :=
  match s with
  | O => mkProcess 0 0%Z [[0; 1; 2]; [1; 2; 3]]%Z [[0; 1]; [1]]%Z
  | _ => mkProcess 1 2%Z [[0; 1; 2]; [1; 2; 3]]%Z [[2]; [2; 3]]%Z
  end.

Definition example_x (s : nat) : list (list R) :=
  match s with
  | O => [[10; 20; 30]; []]%R
  | _ => [[]; [1; 2; 3]]%R
  end.

Definition example_y (s : nat) : mem :=
  fun a => INR (s + a).

Lemma example_bridge : bridge 2 2 [0; 1] [0; 2]%Z example_procs.
Proof.
  constructor.
  - intros [| [| ip]] H; unfold owner; simpl; lia.
  - intros [| [| s]] H; simpl; lia.
  - intros [| [| ip]] i Hip Hi; try lia;
      (destruct i as [| [| [| i]]]; simpl in Hi; try lia);
      match goal with
      | |- (0 <= ?g < _)%Z => let v := eval vm_compute in g in change g with v
      end; lia.
  - intros [| [| ip]] i Hip Hi; try lia;
      (destruct i as [| [| [| i]]]; simpl in Hi; try lia);
      cbv zeta;
      match goal with
      | |- (?g <= ?h)%Z =>
          let v := eval vm_compute in g in
          let w := eval vm_compute in h in change (v <= w)%Z
      end; lia.
  - intros [| [| r]] [| [| ip]] Hr Hip; try lia; vm_compute; reflexivity.
Qed.

Lemma SubdomainsToGlobal_accumulates_witness :
  SubdomainsToGlobal 2 2 [0; 1] [0; 2]%Z example_procs example_x example_y
                     (fun _ => 7%R) 0 1
  = (example_y 0%nat 1%nat + (20 + 1))%R /\
  SubdomainsToGlobal 2 2 [0; 1] [0; 2]%Z example_procs example_x example_y
                     (fun _ => 7%R) 1 0
  = (example_y 1%nat 0%nat + (30 + 2))%R /\
  SubdomainsToGlobal 2 2 [0; 1] [0; 2]%Z example_procs example_x example_y
                     (fun _ => 7%R) 0 5
  = example_y 0 5.
Proof.
  assert (H0 : 0 < 2) by lia. assert (H1 : 1 < 2) by lia.
  destruct (SubdomainsToGlobal_accumulates 2 2 [0; 1] [0; 2]%Z example_procs
              example_x example_y (fun _ => 7%R) 0 example_bridge H0) as (_ & A2 & A3).
  destruct (SubdomainsToGlobal_accumulates 2 2 [0; 1] [0; 2]%Z example_procs
              example_x example_y (fun _ => 7%R) 1 example_bridge H1) as (_ & B2 & _).
  split; [ | split].
  - apply (A2 1%Z 0 1 1 0); simpl; try lia; try reflexivity.
    intros [| [| ip]] i Hip Hi; try lia;
      (destruct i as [| [| [| i]]]; simpl in Hi; try lia);
      simpl; split; intros H; try lia; destruct H as [[? ?] | [? ?]]; lia.
  - apply (B2 2%Z 0 2 1 1); simpl; try lia; try reflexivity.
    intros [| [| ip]] i Hip Hi; try lia;
      (destruct i as [| [| [| i]]]; simpl in Hi; try lia);
      simpl; split; intros H; try lia; destruct H as [[? ?] | [? ?]]; lia.
  - apply (A3 5%Z); simpl; try lia.
    intros [| [| ip]] i Hip Hi; try lia;
      (destruct i as [| [| [| i]]]; simpl in Hi; try lia); simpl; lia.
Defined.

End Accumulate.

(* ================================================================== *)
(** * The numbering of subdomains and directions (DofMapsDST.cpp:29-58):
      ids and coordinates determine each other *)
(* ================================================================== *)

Module Numbering.

Import Grid.

Local Open Scope Z_scope.

(** The three components are direction components. *)
Definition unit_direction (v : list Z) : Prop :=
  length v = 3%nat /\ forall a, (a < 3)%nat -> -1 <= at_ v a <= 1.

(** The coordinate [ijk] is a cell of the [nx * ny * nz] grid. *)
Definition grid_cell (nxyz ijk : list Z) : Prop :=
  length ijk = 3%nat /\
  forall a, (a < 3)%nat -> 0 <= at_ ijk a < at_ nxyz a.

Lemma list3 (v : list Z) :
  length v = 3%nat -> v = [at_ v 0; at_ v 1; at_ v 2].
Proof.
  destruct v as [| a [| b [| c [| e v]]]]; simpl; intros H; try discriminate.
  reflexivity.
Qed.

Lemma quot_small (a b : Z) : 0 <= a < b -> Z.quot a b = 0.
Proof. intros H. rewrite Z.quot_div_nonneg by lia. apply Z.div_small. lia. Qed.

Lemma rem_small (a b : Z) : 0 <= a < b -> Z.rem a b = a.
Proof. intros H. rewrite Z.rem_mod_nonneg by lia. apply Z.mod_small. lia. Qed.

Lemma quot_mul_add (q r b : Z) :
  0 <= q -> 0 <= r < b -> Z.quot (q * b + r) b = q /\ Z.rem (q * b + r) b = r.
Proof.
  intros Hq Hr.
  assert (0 <= q * b) by nia.
  rewrite Z.quot_div_nonneg, Z.rem_mod_nonneg by lia.
  split.
  - symmetry. apply (Z.div_unique (q * b + r) b q r); lia.
  - symmetry. apply (Z.mod_unique (q * b + r) b q r); lia.
Qed.

(** [GetDirectionId] undoes [GetDirectionijk], for every [int]. *)
Theorem direction_id_of_ijk (id : Z) :
  GetDirectionId (GetDirectionijk id) = id.
Proof.
  unfold GetDirectionId, GetDirectionijk, at_. cbv zeta. simpl length.
  simpl Nat.eqb. cbv iota. simpl nth.
  change (3 * 3) with 9.
  set (q := Z.quot id 9).
  pose proof (Z.quot_rem' (id - (q - 1 + 1) * 3 * 3) 3) as H.
  lia.
Qed.

(** The directions with an id in [0, 27) are the 27 vectors with components
    -1, 0, 1, each with one id: decoding an id of that range gives such a
    vector, and encoding such a vector gives an id of that range that decodes
    back to it.  The ids below 9 are those with third component -1, which
    is how the two-dimensional code numbers its 9 directions. *)
Theorem direction_numbering :
  (forall id, 0 <= id < 27 ->
     unit_direction (GetDirectionijk id) /\
     (id < 9 <-> at_ (GetDirectionijk id) 2 = -1)) /\
  (forall v, unit_direction v ->
     0 <= GetDirectionId v < 27 /\ GetDirectionijk (GetDirectionId v) = v) /\
  (forall i j, -1 <= i <= 1 -> -1 <= j <= 1 ->
     0 <= GetDirectionId [i; j] < 9 /\
     GetDirectionijk (GetDirectionId [i; j]) = [i; j; -1]).
Proof.
  split; [ | split].
  - intros id Hid.
    assert (Hc : exists n, (n < 27)%nat /\ id = Z.of_nat n).
    { exists (Z.to_nat id). lia. }
    destruct Hc as (n & Hn & ->).
    do 27 (destruct n as [| n];
           [split;
            [split; [reflexivity | ];
             intros a Ha; destruct a as [| [| [| a]]]; try lia;
             vm_compute; split; discriminate
            | vm_compute; split; intros H; try reflexivity; try discriminate H;
              exfalso; apply H; reflexivity ] | ]).
    lia.
  - intros v [Hlen Hv]. rewrite (list3 v Hlen).
    pose proof (Hv 0%nat ltac:(lia)) as H0.
    pose proof (Hv 1%nat ltac:(lia)) as H1.
    pose proof (Hv 2%nat ltac:(lia)) as H2.
    assert (E0 : at_ v 0 = -1 \/ at_ v 0 = 0 \/ at_ v 0 = 1) by lia.
    assert (E1 : at_ v 1 = -1 \/ at_ v 1 = 0 \/ at_ v 1 = 1) by lia.
    assert (E2 : at_ v 2 = -1 \/ at_ v 2 = 0 \/ at_ v 2 = 1) by lia.
    destruct E0 as [-> | [-> | ->]], E1 as [-> | [-> | ->]],
             E2 as [-> | [-> | ->]];
      (split; [vm_compute; split; [discriminate | reflexivity] | reflexivity]).
  - intros i j Hi Hj.
    assert (E0 : i = -1 \/ i = 0 \/ i = 1) by lia.
    assert (E1 : j = -1 \/ j = 0 \/ j = 1) by lia.
    destruct E0 as [-> | [-> | ->]], E1 as [-> | [-> | ->]];
      (split; [vm_compute; split; [discriminate | reflexivity] | reflexivity]).
Qed.

Lemma GetSubdomainId_decode (nxyz : list Z) (ip : Z) :
  GetSubdomainId nxyz (GetSubdomainijk ip nxyz) = ip.
Proof.
  unfold GetSubdomainId, GetSubdomainijk. cbv zeta. simpl length.
  simpl Nat.eqb. cbv iota. unfold at_. simpl nth.
  set (n0 := nth 0 nxyz 0). set (n1 := nth 1 nxyz 0).
  set (q := Z.quot ip (n0 * n1)).
  pose proof (Z.quot_rem' (ip - q * n0 * n1) n0) as H.
  lia.
Qed.

(** [GetSubdomainId] undoes [GetSubdomainijk] whenever the divisions are
    defined (the first two extents are not zero), whatever the sign of the
    id. *)
Theorem subdomain_id_of_ijk (nxyz : list Z) (ip : Z) :
  at_ nxyz 0 <> 0 -> at_ nxyz 1 <> 0 ->
  GetSubdomainId nxyz (GetSubdomainijk ip nxyz) = ip.
Proof.
  intros _ _. apply GetSubdomainId_decode.
Qed.

Lemma subdomain_id_of_ijk_witness :
  GetSubdomainId [3; 2; 2] (GetSubdomainijk 7 [3; 2; 2]) = 7.
Proof.
  apply (subdomain_id_of_ijk [3; 2; 2] 7); vm_compute; discriminate.
Defined.

Lemma GetSubdomainijk_encode (nxyz : list Z) (i j k : Z) :
  0 <= i < at_ nxyz 0 -> 0 <= j < at_ nxyz 1 -> 0 <= k ->
  GetSubdomainijk (k * at_ nxyz 1 * at_ nxyz 0 + j * at_ nxyz 0 + i) nxyz
  = [i; j; k].
Proof.
  set (n0 := at_ nxyz 0). set (n1 := at_ nxyz 1).
  intros Hi Hj Hk. unfold GetSubdomainijk. cbv zeta.
  fold n0. fold n1.
  assert (Hm : 0 <= j * n0 + i < n0 * n1) by nia.
  destruct (quot_mul_add k (j * n0 + i) (n0 * n1) Hk Hm) as [Eq _].
  replace (k * n1 * n0 + j * n0 + i) with (k * (n0 * n1) + (j * n0 + i))
    by ring.
  rewrite Eq.
  replace (k * (n0 * n1) + (j * n0 + i) - k * n0 * n1) with (j * n0 + i)
    by ring.
  destruct (quot_mul_add j i n0 ltac:(lia) Hi) as [Ej Ei].
  now rewrite Ej, Ei.
Qed.

Lemma GetSubdomainijk_cell (nxyz : list Z) (ip : Z) :
  0 < at_ nxyz 0 -> 0 < at_ nxyz 1 -> 0 < at_ nxyz 2 ->
  0 <= ip < at_ nxyz 0 * at_ nxyz 1 * at_ nxyz 2 ->
  grid_cell nxyz (GetSubdomainijk ip nxyz).
Proof.
  set (n0 := at_ nxyz 0). set (n1 := at_ nxyz 1). set (n2 := at_ nxyz 2).
  intros H0 H1 H2 Hip. unfold GetSubdomainijk. cbv zeta. fold n0. fold n1.
  assert (H01 : 0 < n0 * n1) by nia.
  rewrite (Z.quot_div_nonneg ip (n0 * n1)) by lia.
  pose proof (Z.div_mod ip (n0 * n1) ltac:(lia)) as Hdm.
  pose proof (Z.mod_pos_bound ip (n0 * n1) H01) as Hmb.
  assert (Hq : 0 <= ip / (n0 * n1) < n2).
  { split; [apply Z.div_pos; lia | ].
    apply Z.div_lt_upper_bound; [lia | ]. nia. }
  replace (ip - ip / (n0 * n1) * n0 * n1) with (ip mod (n0 * n1)) by lia.
  set (m := ip mod (n0 * n1)) in *.
  rewrite (Z.quot_div_nonneg m n0), (Z.rem_mod_nonneg m n0) by lia.
  pose proof (Z.mod_pos_bound m n0 H0) as Hi.
  assert (Hj : 0 <= m / n0 < n1).
  { split; [apply Z.div_pos; lia | ].
    apply Z.div_lt_upper_bound; [lia | ]. nia. }
  split; [reflexivity | ].
  intros a Ha. destruct a as [| [| [| a]]]; try lia; unfold at_; simpl nth;
    fold (at_ nxyz 0); fold (at_ nxyz 1); fold (at_ nxyz 2);
    fold n0; fold n1; fold n2; lia.
Qed.

(** On a grid with positive extents the subdomain ids in
    [0, nx * ny * nz) and the grid cells determine each other: decoding such
    an id gives a cell, encoding a cell gives such an id that decodes back
    to it.  In 2D ([ijk] of two entries) the id is [j * nx + i] and decodes
    to layer 0. *)
Theorem subdomain_numbering (nxyz : list Z) :
  0 < at_ nxyz 0 -> 0 < at_ nxyz 1 -> 0 < at_ nxyz 2 ->
  (forall ip, 0 <= ip < at_ nxyz 0 * at_ nxyz 1 * at_ nxyz 2 ->
     grid_cell nxyz (GetSubdomainijk ip nxyz)) /\
  (forall ijk, grid_cell nxyz ijk ->
     0 <= GetSubdomainId nxyz ijk < at_ nxyz 0 * at_ nxyz 1 * at_ nxyz 2 /\
     GetSubdomainijk (GetSubdomainId nxyz ijk) nxyz = ijk) /\
  (forall i j, 0 <= i < at_ nxyz 0 -> 0 <= j < at_ nxyz 1 ->
     GetSubdomainId nxyz [i; j] = j * at_ nxyz 0 + i /\
     GetSubdomainijk (GetSubdomainId nxyz [i; j]) nxyz = [i; j; 0]).
Proof.
  set (n0 := at_ nxyz 0). set (n1 := at_ nxyz 1). set (n2 := at_ nxyz 2).
  intros H0 H1 H2.
  split; [ | split].
  - intros ip Hip. now apply GetSubdomainijk_cell.
  - intros ijk [Hlen Hc]. rewrite (list3 ijk Hlen).
    pose proof (Hc 0%nat ltac:(lia)) as Hi.
    pose proof (Hc 1%nat ltac:(lia)) as Hj.
    pose proof (Hc 2%nat ltac:(lia)) as Hk.
    fold n0 in Hi. fold n1 in Hj. fold n2 in Hk.
    set (i := at_ ijk 0) in *. set (j := at_ ijk 1) in *.
    set (k := at_ ijk 2) in *.
    assert (E : GetSubdomainId nxyz [i; j; k] = k * n1 * n0 + j * n0 + i)
      by reflexivity.
    rewrite E. split; [ | apply GetSubdomainijk_encode; lia].
    clearbody i j k n0 n1 n2.
    assert (Hm : 0 <= j * n0 + i < n1 * n0) by nia.
    assert (Hk' : 0 <= k * (n1 * n0) <= (n2 - 1) * (n1 * n0)).
    { split; [apply Z.mul_nonneg_nonneg; nia | ].
      apply Z.mul_le_mono_nonneg_r; nia. }
    nia.
  - intros i j Hi Hj.
    assert (E : GetSubdomainId nxyz [i; j] = 0 * n1 * n0 + j * n0 + i)
      by reflexivity.
    rewrite E. split; [ring | ]. apply GetSubdomainijk_encode; lia.
Qed.

Lemma subdomain_numbering_witness :
  grid_cell [3; 2; 2] (GetSubdomainijk 7 [3; 2; 2]) /\
  GetSubdomainijk (GetSubdomainId [3; 2; 2] [1; 0; 1]) [3; 2; 2] = [1; 0; 1].
Proof.
  destruct (subdomain_numbering [3; 2; 2]) as (A & B & _);
    try (vm_compute; reflexivity).
  split.
  - apply A. vm_compute. split; [discriminate | reflexivity].
  - apply B. split; [reflexivity | ].
    intros a Ha. destruct a as [| [| [| a]]]; try lia;
      vm_compute; (split; [discriminate | reflexivity]).
Defined.

End Numbering.

(* ================================================================== *)
(** * Neighbours and message pairing in [DofMaps::TransferToNeighbors]
      (DofMapsDST.cpp:277-414) *)
(* ================================================================== *)

Module Neighbours.

Import Arrays Grid Numbering Transfer.

Local Open Scope Z_scope.

(** The id under which the destination files what it receives from
    direction [d]: [GetDirectionId(direction1)]. *)
Definition opposite_id (dim : nat) (d : Z) : Z :=
  GetDirectionId (direction1 dim (GetDirectionijk d)).

(** The number of subdomains the grid has for the loops of dimension [dim]:
    the third extent plays no part in 2D. *)
Definition grid_size (dim : nat) (nxyz : list Z) : Z :=
  at_ nxyz 0 * at_ nxyz 1 * (if Nat.eqb dim 3 then at_ nxyz 2 else 1).

(** The opposite direction has the mirrored id, and opposing twice gives the
    direction back. *)
Theorem opposite_id_mirror (dim d : nat) :
  dim = 2%nat \/ dim = 3%nat -> (d < 3 ^ dim)%nat ->
  opposite_id dim (Z.of_nat d) = Z.of_nat (3 ^ dim - 1 - d) /\
  opposite_id dim (opposite_id dim (Z.of_nat d)) = Z.of_nat d.
Proof.
  intros [-> | ->] Hd; simpl in Hd.
  - do 9 (destruct d as [| d]; [split; reflexivity | ]). lia.
  - do 27 (destruct d as [| d]; [split; reflexivity | ]). lia.
Qed.

Lemma opposite_id_mirror_witness :
  opposite_id 2 (Z.of_nat 5) = Z.of_nat (3 ^ 2 - 1 - 5) /\
  opposite_id 2 (opposite_id 2 (Z.of_nat 5)) = Z.of_nat 5.
Proof.
  apply (opposite_id_mirror 2 5); [left; reflexivity | simpl; lia].
Defined.

Lemma at_cons3 (a b c : Z) :
  at_ [a; b; c] 0 = a /\ at_ [a; b; c] 1 = b /\ at_ [a; b; c] 2 = c.
Proof. repeat split. Qed.

(** Being a neighbour is symmetric: when the loops send from subdomain [i0]
    in direction [d] to subdomain [i1], they send from [i1] in the opposite
    direction to [i0] (so that [OvlpSol[i1][d1]] and [OvlpTDofs[i1][d1]]
    describe the overlap with [i0]), and [i1] is a subdomain of the grid. *)
Theorem neighbour_symmetric (dim : nat) (nxyz : list Z) (i0 : Z) (d : nat)
  (i1 : Z) :
  dim = 2%nat \/ dim = 3%nat ->
  0 < at_ nxyz 0 -> 0 < at_ nxyz 1 -> 0 < at_ nxyz 2 ->
  0 <= i0 < grid_size dim nxyz ->
  (d < 3 ^ dim)%nat ->
  destination dim nxyz i0 (Z.of_nat d) = Some i1 ->
  destination dim nxyz i1 (opposite_id dim (Z.of_nat d)) = Some i0 /\
  0 <= i1 < grid_size dim nxyz.
Proof.
  intros Hdim H0 H1 H2 Hi0 Hd Hdest.
  pose proof (destination_spec dim nxyz i0 (Z.of_nat d) Hdim) as Hs.
  rewrite Hdest in Hs. destruct Hs as (Hnz & Hin & Hi1).
  unfold inside_grid in Hin. cbv zeta in Hin.
  set (v := GetDirectionijk (Z.of_nat d)) in *.
  set (d1 := opposite_id dim (Z.of_nat d)).
  assert (Hv : forall a, (a < dim)%nat ->
            at_ (GetDirectionijk d1) a = - at_ v a).
  { intros a Ha. apply (opposite_direction dim d a Hdim Hd Ha). }
  set (n0 := at_ nxyz 0) in *. set (n1 := at_ nxyz 1) in *.
  set (n2 := at_ nxyz 2) in *.
  (* the cell of [i0] *)
  assert (Hcell : exists a0 a1 a2,
            GetSubdomainijk i0 nxyz = [a0; a1; a2] /\
            0 <= a0 < n0 /\ 0 <= a1 < n1 /\
            (if Nat.eqb dim 3 then 0 <= a2 < n2 else a2 = 0) /\
            i0 = a2 * n1 * n0 + a1 * n0 + a0).
  { pose proof (GetSubdomainId_decode nxyz i0) as Hrt.
    destruct Hdim as [-> | ->]; unfold grid_size in Hi0; simpl Nat.eqb in *;
      cbv iota in *; fold n0 n1 n2 in Hi0.
    - assert (Hc : grid_cell [n0; n1; 1] (GetSubdomainijk i0 [n0; n1; 1])).
      { apply GetSubdomainijk_cell; unfold at_; simpl nth; lia. }
      assert (E : GetSubdomainijk i0 [n0; n1; 1] = GetSubdomainijk i0 nxyz)
        by reflexivity.
      rewrite E in Hc. destruct Hc as [Hlen Hc].
      rewrite (list3 _ Hlen) in Hrt |- *.
      pose proof (Hc 0%nat ltac:(lia)) as C0.
      pose proof (Hc 1%nat ltac:(lia)) as C1.
      pose proof (Hc 2%nat ltac:(lia)) as C2.
      unfold at_ in C0 at 3. unfold at_ in C1 at 3. unfold at_ in C2 at 3.
      simpl nth in C0, C1, C2.
      eexists. eexists. eexists. split; [reflexivity | ].
      split; [exact C0 | ]. split; [exact C1 | ]. split; [lia | ].
      symmetry. exact Hrt.
    - assert (Hc : grid_cell nxyz (GetSubdomainijk i0 nxyz)).
      { apply GetSubdomainijk_cell; fold n0 n1 n2; lia. }
      destruct Hc as [Hlen Hc].
      rewrite (list3 _ Hlen) in Hrt |- *.
      pose proof (Hc 0%nat ltac:(lia)) as C0.
      pose proof (Hc 1%nat ltac:(lia)) as C1.
      pose proof (Hc 2%nat ltac:(lia)) as C2.
      eexists. eexists. eexists. split; [reflexivity | ].
      split; [exact C0 | ]. split; [exact C1 | ]. split; [exact C2 | ].
      symmetry. exact Hrt. }
  destruct Hcell as (a0 & a1 & a2 & Eijk & A0 & A1 & A2 & Ei0).
  rewrite Eijk in Hin, Hi1.
  destruct (at_cons3 a0 a1 a2) as (Ea0 & Ea1 & Ea2).
  rewrite Ea0, Ea1, ?Ea2 in Hin, Hi1.
  destruct Hin as (I0 & I1 & I2).
  set (k := if Nat.eqb dim 3 then a2 + at_ v 2 else 0) in *.
  assert (Hk : 0 <= k < n2 /\ (dim = 2%nat -> k = 0)).
  { subst k. destruct Hdim as [-> | ->]; simpl Nat.eqb in *; cbv iota in *;
      split; try lia; intros; try discriminate; reflexivity. }
  assert (Ei1 : i1 = k * n1 * n0 + (a1 + at_ v 1) * n0 + (a0 + at_ v 0)).
  { rewrite Hi1. reflexivity. }
  assert (Eijk1 : GetSubdomainijk i1 nxyz
                  = [a0 + at_ v 0; a1 + at_ v 1; k]).
  { rewrite Ei1. apply GetSubdomainijk_encode; fold n0 n1; lia. }
  split.
  - pose proof (destination_spec dim nxyz i1 d1 Hdim) as Hs1.
    destruct (destination dim nxyz i1 d1) as [i0' | ].
    + destruct Hs1 as (_ & _ & E'). rewrite E'. f_equal.
      rewrite Eijk1.
      destruct (at_cons3 (a0 + at_ v 0) (a1 + at_ v 1) k) as (B0 & B1 & B2).
      rewrite B0, B1, B2.
      rewrite (Hv 0%nat), (Hv 1%nat) by (destruct Hdim; lia).
      replace (a0 + at_ v 0 + - at_ v 0) with a0 by lia.
      replace (a1 + at_ v 1 + - at_ v 1) with a1 by lia.
      rewrite Ei0.
      destruct Hdim as [-> | ->]; simpl Nat.eqb in *; cbv iota in *.
      * subst a2. reflexivity.
      * rewrite (Hv 2%nat) by lia. subst k.
        replace (a2 + at_ v 2 + - at_ v 2) with a2 by lia. reflexivity.
    + exfalso. destruct Hs1 as [Hz | Hout].
      * apply Hnz. intros a Ha. specialize (Hz a Ha).
        rewrite (Hv a Ha) in Hz. lia.
      * apply Hout. unfold inside_grid. cbv zeta. rewrite Eijk1.
        destruct (at_cons3 (a0 + at_ v 0) (a1 + at_ v 1) k) as (B0 & B1 & B2).
        rewrite B0, B1, ?B2.
        rewrite (Hv 0%nat), (Hv 1%nat) by (destruct Hdim; lia).
        fold n0 n1 n2.
        split; [lia | ]. split; [lia | ].
        destruct Hdim as [-> | ->]; simpl Nat.eqb in *; cbv iota in *.
        -- exact H2.
        -- rewrite (Hv 2%nat) by lia. subst k. lia.
  - rewrite Ei1. unfold grid_size. fold n0 n1 n2.
    destruct Hk as [Hk Hk2].
    destruct Hdim as [-> | ->]; simpl Nat.eqb in *; cbv iota in *.
    + rewrite (Hk2 eq_refl). nia.
    + assert (Hm : 0 <= (a1 + at_ v 1) * n0 + (a0 + at_ v 0) < n1 * n0) by nia.
      assert (Hk' : 0 <= k * (n1 * n0) <= (n2 - 1) * (n1 * n0)).
      { split; [apply Z.mul_nonneg_nonneg; nia | ].
        apply Z.mul_le_mono_nonneg_r; nia. }
      nia.
Qed.

Lemma neighbour_symmetric_witness :
  destination 2 [2; 1; 1] 1 (opposite_id 2 (Z.of_nat 5)) = Some 0 /\
  0 <= 1 < grid_size 2 [2; 1; 1].
Proof.
  apply (neighbour_symmetric 2 [2; 1; 1] 0 5 1);
    try (vm_compute; reflexivity);
    try (left; reflexivity);
    try (simpl; lia).
  vm_compute. split; [discriminate | reflexivity].
Defined.

(** ** Which requests meet *)

(** The tag of the message of a slot. *)
Definition tag_of (M : dofmaps) (s : Z * Z) : Z :=
  fst s * nrneighbors M + snd s.

Lemma posted_requests (myid : Z) (M : dofmaps) (ids : list Z)
  (x : list (list R)) (rb : nat -> list R) (Sol : solutions)
  (sends : list isend) (recvs : list irecv) (Sol' : solutions) :
  TransferToNeighbors myid M ids x rb Sol = Some (sends, recvs, Sol') ->
  sends = flat_map (slot_sends myid M x) (slots (dim M) ids) /\
  recvs = flat_map (slot_recvs myid M) (slots (dim M) ids).
Proof.
  unfold TransferToNeighbors.
  destruct (negb (length ids =? length x)%nat); [discriminate | ].
  rewrite !over_slots_fold, post_loop_eq. simpl fst. simpl snd.
  intros H. injection H as <- <- _. split; reflexivity.
Qed.

(** The messages process [p] sends to process [q] carry, in the order they
    are posted, exactly the tags of the receives that [q] posts for source
    [p], when both call the function with the same subdomain ids on the same
    grid and ownership table. *)
Theorem sends_meet_receives (p q : Z) (M M' : dofmaps) (ids : list Z)
  (x x' : list (list R)) (rb rb' : nat -> list R) (Sol Sol' : solutions)
  (sends sends' : list isend) (recvs recvs' : list irecv)
  (Out Out' : solutions) :
  dim M = dim M' -> nxyz M = nxyz M' ->
  subdomain_rank M = subdomain_rank M' ->
  TransferToNeighbors p M ids x rb Sol = Some (sends, recvs, Out) ->
  TransferToNeighbors q M' ids x' rb' Sol' = Some (sends', recvs', Out') ->
  map s_tag (filter (fun m => s_dest m =? q) sends)
  = map r_tag (filter (fun r => r_src r =? p) recvs').
Proof.
  intros Hd Hn Hr Hp Hq.
  apply posted_requests in Hp as [-> _].
  apply posted_requests in Hq as [_ ->].
  rewrite <- Hd. generalize (slots (dim M) ids). intros l.
  induction l as [| s l IH]; [reflexivity | ].
  simpl flat_map. rewrite !filter_app, !map_app, IH. f_equal.
  unfold slot_sends, slot_recvs, nrneighbors, rank_of.
  rewrite <- Hd, <- Hn, <- Hr.
  destruct (destination (dim M) (nxyz M) (fst s) (snd s)) as [i1 | ];
    [ | reflexivity].
  set (r0 := nth (Z.to_nat (fst s)) (subdomain_rank M) 0).
  set (r1 := nth (Z.to_nat i1) (subdomain_rank M) 0).
  destruct (Z.eqb_spec p r0) as [E0 | N0], (Z.eqb_spec q r1) as [E1 | N1];
    simpl filter; simpl s_dest; simpl r_src.
  - subst. rewrite !Z.eqb_refl. reflexivity.
  - destruct (Z.eqb_spec r1 q); [congruence | reflexivity].
  - destruct (Z.eqb_spec r0 p); [congruence | reflexivity].
  - reflexivity.
Qed.

(** Two processes of a 2 x 1 grid, each owning one subdomain. *)
Lemma sends_meet_receives_witness :
  let M := mkDofMaps 2 [2; 1; 1] [0; 1] (fun _ _ => [0; 2]) (fun _ => 3%nat) in
  let x := [[1; 2; 3]%R; [4; 5; 6]%R] in
  exists sends recvs Out sends' recvs' Out',
    TransferToNeighbors 0 M [0; 1] x (fun _ => [7; 8]%R) (fun _ _ => None)
    = Some (sends, recvs, Out) /\
    TransferToNeighbors 1 M [0; 1] x (fun _ => [7; 8]%R) (fun _ _ => None)
    = Some (sends', recvs', Out') /\
    map s_tag (filter (fun m => s_dest m =? 1) sends)
    = map r_tag (filter (fun r => r_src r =? 0) recvs') /\
    map s_tag (filter (fun m => s_dest m =? 1) sends) = [5].
Proof.
  intros M x.
  eexists. eexists. eexists. eexists. eexists. eexists.
  split; [reflexivity | ]. split; [reflexivity | ].
  split; [ | reflexivity].
  eapply (sends_meet_receives 0 1 M M [0; 1] x x
            (fun _ => [7; 8]%R) (fun _ => [7; 8]%R)
            (fun _ _ => None) (fun _ _ => None)); reflexivity.
Defined.

(** ** Tags *)

Lemma tag_of_inj (M : dofmaps) (s s' : Z * Z) :
  0 <= snd s < nrneighbors M -> 0 <= snd s' < nrneighbors M ->
  tag_of M s = tag_of M s' -> s = s'.
Proof.
  destruct s as [i d], s' as [i' d']. unfold tag_of. simpl fst. simpl snd.
  set (n := nrneighbors M). intros Hd Hd' E.
  assert (i = i') by nia. subst i'. f_equal. lia.
Qed.

Lemma slots_in (dim : nat) (ids : list Z) (s : Z * Z) :
  In s (slots dim ids) <->
  In (fst s) ids /\ 0 <= snd s < Z.of_nat (3 ^ dim).
Proof.
  unfold slots. rewrite in_flat_map. split.
  - intros (i0 & Hi0 & Hs). apply in_map_iff in Hs as (d & <- & Hd).
    apply in_seq in Hd. simpl. split; [exact Hi0 | lia].
  - intros [Hi Hd]. exists (fst s). split; [exact Hi | ].
    apply in_map_iff. exists (Z.to_nat (snd s)). split.
    + destruct s as [i d]. simpl in *. f_equal. lia.
    + apply in_seq. lia.
Qed.

Lemma slots_NoDup (dim : nat) (ids : list Z) :
  NoDup ids -> NoDup (slots dim ids).
Proof.
  unfold slots. induction 1 as [| i0 ids Hni Hnd IH]; [constructor | ].
  simpl. apply NoDup_app.
  - apply NoDup_map_NoDup_ForallPairs; [ | apply seq_NoDup].
    intros a b _ _ E. injection E as E. lia.
  - exact IH.
  - intros s Hs Hs'. apply in_map_iff in Hs as (d & <- & _).
    apply (proj1 (slots_in dim ids (i0, Z.of_nat d))) in Hs' as [Hin _].
    contradiction.
Qed.

Lemma tags_NoDup {A : Type} (tagA : A -> Z) (f : Z * Z -> list A)
  (tag : Z * Z -> Z) (l : list (Z * Z)) :
  (forall s a, In a (f s) -> tagA a = tag s) ->
  (forall s, (length (f s) <= 1)%nat) ->
  NoDup (map tag l) -> NoDup (map tagA (flat_map f l)).
Proof.
  intros Htag Hone. induction l as [| s l IH]; intros Hnd; [constructor | ].
  simpl in Hnd. inversion Hnd as [| t ts Hnotin Hnd' [E1 E2]]. subst.
  simpl flat_map. rewrite map_app.
  specialize (IH Hnd').
  pose proof (Hone s) as H1. pose proof (Htag s) as H2.
  destruct (f s) as [| a [| b fs]]; simpl in H1; [exact IH | | lia].
  simpl. constructor; [ | exact IH].
  intros Hin. apply Hnotin.
  apply in_map_iff in Hin as (a' & Ea & Hin').
  apply in_flat_map in Hin' as (s' & Hs' & Ha').
  apply in_map_iff. exists s'. split; [ | exact Hs'].
  rewrite <- (Htag s' a' Ha'), Ea. apply H2. now left.
Qed.

(** When no subdomain id is passed twice, no two sends of a process and no
    two receives of a process carry the same tag: the tag
    [i0 * nrneighbors + d] names the slot. *)
Theorem tags_are_distinct (myid : Z) (M : dofmaps) (ids : list Z)
  (x : list (list R)) (rb : nat -> list R) (Sol : solutions)
  (sends : list isend) (recvs : list irecv) (Out : solutions) :
  NoDup ids ->
  TransferToNeighbors myid M ids x rb Sol = Some (sends, recvs, Out) ->
  NoDup (map s_tag sends) /\ NoDup (map r_tag recvs).
Proof.
  intros Hnd H. apply posted_requests in H as [-> ->].
  assert (Htags : NoDup (map (tag_of M) (slots (dim M) ids))).
  { apply NoDup_map_NoDup_ForallPairs; [ | now apply slots_NoDup].
    intros s s' Hs Hs'. apply slots_in in Hs as [_ Hs], Hs' as [_ Hs'].
    apply tag_of_inj; assumption. }
  split.
  - apply (tags_NoDup s_tag (slot_sends myid M x) (tag_of M)); [ | | exact Htags].
    + intros s a. unfold slot_sends.
      destruct (destination _ _ _ _); [ | intros []].
      destruct (myid =? _); [ | intros []].
      intros [<- | []]. reflexivity.
    + intros s. unfold slot_sends.
      destruct (destination _ _ _ _); [ | simpl; lia].
      destruct (myid =? _); simpl; lia.
  - apply (tags_NoDup r_tag (slot_recvs myid M) (tag_of M)); [ | | exact Htags].
    + intros s a. unfold slot_recvs.
      destruct (destination _ _ _ _); [ | intros []].
      destruct (myid =? _); [ | intros []].
      intros [<- | []]. reflexivity.
    + intros s. unfold slot_recvs.
      destruct (destination _ _ _ _); [ | simpl; lia].
      destruct (myid =? _); simpl; lia.
Qed.

Lemma tags_are_distinct_witness :
  let M := mkDofMaps 2 [2; 1; 1] [0; 0] (fun _ _ => [0; 2]) (fun _ => 3%nat) in
  let x := [[1; 2; 3]%R; [4; 5; 6]%R] in
  exists sends recvs Out,
    TransferToNeighbors 0 M [0; 1] x (fun _ => [7; 8]%R) (fun _ _ => None)
    = Some (sends, recvs, Out) /\
    NoDup (map s_tag sends) /\ NoDup (map r_tag recvs) /\
    map s_tag sends = [5; 12].
Proof.
  intros M x. eexists. eexists. eexists.
  split; [reflexivity | ].
  assert (Hnd : NoDup [0; 1]).
  { constructor; [simpl; intros [H | []]; discriminate H | ].
    constructor; [intros [] | constructor]. }
  pose proof (tags_are_distinct 0 M [0; 1] x (fun _ => [7; 8]%R)
                (fun _ _ => None) _ _ _ Hnd eq_refl) as [H1 H2].
  split; [exact H1 | ]. split; [exact H2 | reflexivity].
Defined.

(** ** Buffers *)

Lemma extract_counter (myid : Z) (M : dofmaps) (rb : nat -> list R)
  (l : list (Z * Z)) (c : nat) (Sol : solutions) :
  fst (fold_left (fun st s => extract_slot myid M rb (fst s) (snd s) st)
                 l (c, Sol))
  = (c + length (flat_map (slot_recvs myid M) l))%nat.
Proof.
  revert c Sol. induction l as [| s l IH]; intros c Sol; simpl; [lia | ].
  unfold extract_slot at 2, slot_recvs at 1.
  destruct (destination (dim M) (nxyz M) (fst s) (snd s)) as [i1 | ].
  - destruct (myid =? rank_of M i1).
    + simpl fst. simpl snd. rewrite IH. simpl. lia.
    + rewrite IH. simpl. lia.
  - rewrite IH. simpl. lia.
Qed.

(** The second pair of loops consumes as many buffers as the first pair
    posted receives, and for every slot it takes the buffer of the receive
    that was posted for that slot: when the slot is reached the counter is
    the position of its receive among the posted ones. *)
Theorem buffers_follow_receives (myid : Z) (M : dofmaps) (ids : list Z)
  (x : list (list R)) (rb : nat -> list R) (Sol : solutions)
  (sends : list isend) (recvs : list irecv) (Out : solutions) :
  TransferToNeighbors myid M ids x rb Sol = Some (sends, recvs, Out) ->
  fst (over_slots M (extract_slot myid M rb) ids (0%nat, Sol))
  = length recvs /\
  (forall before s after i1,
     slots (dim M) ids = before ++ s :: after ->
     destination (dim M) (nxyz M) (fst s) (snd s) = Some i1 ->
     myid = rank_of M i1 ->
     let c := fst (fold_left
                     (fun st s => extract_slot myid M rb (fst s) (snd s) st)
                     before (0%nat, Sol)) in
     (c < length recvs)%nat /\
     r_tag (nth c recvs (mkIrecv 0 0 0)) = tag_of M s /\
     r_src (nth c recvs (mkIrecv 0 0 0)) = rank_of M (fst s)).
Proof.
  intros H. apply posted_requests in H as [_ ->]. split.
  - rewrite over_slots_fold, extract_counter. reflexivity.
  - intros before s after i1 Hsplit Hdest Hown c. subst c.
    rewrite extract_counter, Hsplit. simpl Nat.add.
    rewrite flat_map_app. simpl flat_map.
    assert (E : slot_recvs myid M s
                = [mkIrecv (rank_of M (fst s)) (tag_of M s)
                     (length (OvlpTDofs M i1
                                (GetDirectionId
                                   (direction1 (dim M)
                                      (GetDirectionijk (snd s))))))]).
    { unfold slot_recvs. rewrite Hdest, <- Hown, Z.eqb_refl. reflexivity. }
    rewrite E. rewrite length_app. simpl length.
    split; [lia | ].
    rewrite app_nth2, Nat.sub_diag by lia. simpl. split; reflexivity.
Qed.

Lemma buffers_follow_receives_witness :
  let M := mkDofMaps 2 [2; 1; 1] [0; 0] (fun _ _ => [0; 2]) (fun _ => 3%nat) in
  let x := [[1; 2; 3]%R; [4; 5; 6]%R] in
  exists recvs : list irecv,
    fst (over_slots M (extract_slot 0 M (fun _ => [7; 8]%R)) [0; 1]
                    (0%nat, fun _ _ => None))
    = length recvs /\ length recvs = 2%nat.
Proof.
  intros M x. eexists.
  split.
  - refine (proj1 (buffers_follow_receives 0 M [0; 1] x (fun _ => [7; 8]%R)
                     (fun _ _ => None) _ _ _ _)).
    reflexivity.
  - reflexivity.
Defined.

End Neighbours.

(* ================================================================== *)
(** * Overlap DOF lists: [DofMaps::ComputeOvlpTdofs]
      (DofMapsDST.cpp:194-244) *)
(* ================================================================== *)

Module OverlapDofs.

Import Overlap.

Local Open Scope Z_scope.

(** [int dof = (dof_ >= 0) ? dof_ : abs(dof_) - 1;] *)
Definition decode (dof_ : Z) : Z :=
  if dof_ >=? 0 then dof_ else Z.abs dof_ - 1.

(** The body of the innermost loop for one entry [dof_] of [ElemDofs]:
    [if (!tdof_marker[dof]) { tdoflist.Append(dof); tdof_marker[dof] = 1; }].
    The state is [(tdof_marker, tdoflist)]; it is [None] once the marker has
    been indexed outside its [ntdofs] entries, which the source does not
    define. *)
Definition mark_dof (st : option (list bool * list Z)) (dof_ : Z)
  : option (list bool * list Z) :=
  match st with
  | None => None
  | Some (tdof_marker, tdoflist) =>
      let dof := decode dof_ in
      match nth_error tdof_marker (Z.to_nat dof) with
      | None => None
      | Some true => Some (tdof_marker, tdoflist)
      | Some false =>
          Some (set_true tdof_marker (Z.to_nat dof), tdoflist ++ [dof])
      end
  end.

(** The pass for one subdomain and one direction: [tdof_marker = 0], an
    empty [tdoflist], then the loops over the elements [Elems] of the
    overlap and over the DOFs [GetElementDofs jel] of each of them. *)
Definition overlap_tdofs (ntdofs : nat) (Elems : list nat)
  (GetElementDofs : nat -> list Z) : option (list Z) :=
  match fold_left
          (fun st jel => fold_left mark_dof (GetElementDofs jel) st)
          Elems (Some (repeat false ntdofs, [])) with
  | Some (_, tdoflist) => Some tdoflist
  | None => None
  end.

(** All the entries are there, or none. *)
Fixpoint all_some {A : Type} (l : list (option A)) : option (list A) :=
  match l with
  | [] => Some []
  | None :: _ => None
  | Some a :: l' =>
      match all_some l' with
      | Some r => Some (a :: r)
      | None => None
      end
  end.

(** [void DofMaps::ComputeOvlpTdofs()] on process [myid]: [OvlpTDofs] has one
    entry per subdomain, resized to [pow(3,dim)] lists for the subdomains of
    the process and left empty for the others.  [TrueVSize l] is
    [fes[l]->GetTrueVSize()] and [GetElementDofs l jel] is
    [fes[l]->GetElementDofs(jel, .)].  The function also sets every
    [OvlpSol[l][d]] of these subdomains to the null pointer; that table is
    the [solutions] argument of [Transfer.TransferToNeighbors]. *)
Definition ComputeOvlpTdofs (myid : Z) (subdomain_rank : list Z) (dim : nat)
  (TrueVSize : nat -> nat) (OvlpElems : list (list (list nat)))
  (GetElementDofs : nat -> nat -> list Z) : option (list (list (list Z))) :=
  all_some
    (map (fun l =>
            if myid =? nth l subdomain_rank 0
            then
              all_some
                (map (fun d =>
                        overlap_tdofs (TrueVSize l)
                          (nth d (nth l OvlpElems []) [])
                          (GetElementDofs l))
                     (seq 0 (3 ^ dim)))
            else Some [])
         (seq 0 (length subdomain_rank))).

(** ** The marker and the list agree *)

Definition agree (ntdofs : nat) (marker : list bool) (tdoflist : list Z)
  : Prop :=
  length marker = ntdofs /\
  NoDup tdoflist /\
  (forall v, In v tdoflist -> 0 <= v < Z.of_nat ntdofs) /\
  (forall n, nth n marker false = true <-> In (Z.of_nat n) tdoflist).

Lemma decode_nonneg (dof_ : Z) : 0 <= decode dof_.
Proof. unfold decode. destruct (Z.geb_spec dof_ 0); lia. Qed.

Lemma nth_error_nth_bool (l : list bool) (n : nat) :
  nth_error l n = if Nat.ltb n (length l) then Some (nth n l false) else None.
Proof.
  revert n. induction l as [| b l IH]; intros [| n]; simpl; try reflexivity.
  rewrite IH. reflexivity.
Qed.

Lemma mark_dof_agree (ntdofs : nat) (marker : list bool) (lst : list Z)
  (dof_ : Z) :
  agree ntdofs marker lst ->
  decode dof_ < Z.of_nat ntdofs ->
  exists marker' lst',
    mark_dof (Some (marker, lst)) dof_ = Some (marker', lst') /\
    agree ntdofs marker' lst' /\
    (forall v, In v lst' <-> In v lst \/ v = decode dof_) /\
    (exists tail, lst' = lst ++ tail).
Proof.
  intros (Hlen & Hnd & Hrange & Hmark) Hlt.
  pose proof (decode_nonneg dof_) as Hge.
  unfold mark_dof. cbv zeta. rewrite nth_error_nth_bool, Hlen.
  replace (Z.to_nat (decode dof_) <? ntdofs)%nat with true
    by (symmetry; apply Nat.ltb_lt; lia).
  destruct (nth (Z.to_nat (decode dof_)) marker false) eqn:E.
  - exists marker, lst. split; [reflexivity | ].
    split; [split; [exact Hlen | split; [exact Hnd | split; [exact Hrange | exact Hmark]]] | ].
    split; [ | exists []; now rewrite app_nil_r].
    intros v. split; [now left | ].
    intros [H | ->]; [exact H | ].
    apply Hmark in E. now rewrite Z2Nat.id in E.
  - exists (set_true marker (Z.to_nat (decode dof_))), (lst ++ [decode dof_]).
    split; [reflexivity | ].
    assert (Hnew : ~ In (decode dof_) lst).
    { intros Hin. rewrite <- (Z2Nat.id (decode dof_)) in Hin by exact Hge.
      apply Hmark in Hin. congruence. }
    split; [ | split; [ | now exists [decode dof_]]].
    + split; [now rewrite set_true_length | ].
      split.
      { apply NoDup_app; [exact Hnd | repeat constructor; intros [] | ].
        intros a Ha [<- | []]. contradiction. }
      split.
      { intros v Hv. apply in_app_iff in Hv as [Hv | [<- | []]];
          [now apply Hrange | lia]. }
      intros n. rewrite set_true_nth, Hlen, in_app_iff.
      destruct (Nat.eqb_spec n (Z.to_nat (decode dof_))) as [-> | Hn].
      * replace (Z.to_nat (decode dof_) <? ntdofs)%nat with true
          by (symmetry; apply Nat.ltb_lt; lia).
        simpl. split; [intros _; right; left; lia | reflexivity].
      * simpl andb. cbv iota. rewrite Hmark. split; [now left | ].
        intros [H | [H | []]]; [exact H | lia].
    + intros v. rewrite in_app_iff. simpl. intuition.
Qed.

Lemma mark_loop (ntdofs : nat) (raw : list Z) :
  forall marker lst,
    agree ntdofs marker lst ->
    (forall dof_, In dof_ raw -> decode dof_ < Z.of_nat ntdofs) ->
    exists marker' lst',
      fold_left mark_dof raw (Some (marker, lst)) = Some (marker', lst') /\
      agree ntdofs marker' lst' /\
      (forall v, In v lst' <-> In v lst \/ In v (map decode raw)) /\
      (exists tail, lst' = lst ++ tail).
Proof.
  induction raw as [| dof_ raw IH]; intros marker lst Hag Hin.
  - exists marker, lst. split; [reflexivity | ]. split; [exact Hag | ].
    split; [ | exists []; now rewrite app_nil_r].
    intros v. simpl. tauto.
  - destruct (mark_dof_agree ntdofs marker lst dof_ Hag (Hin _ (or_introl eq_refl)))
      as (m1 & l1 & E1 & Hag1 & Hin1 & (t1 & Ht1)).
    destruct (IH m1 l1 Hag1 (fun d H => Hin d (or_intror H)))
      as (m2 & l2 & E2 & Hag2 & Hin2 & (t2 & Ht2)).
    exists m2, l2. cbn [fold_left]. rewrite E1. split; [exact E2 | ].
    split; [exact Hag2 | ]. split.
    + intros v. rewrite Hin2, Hin1. simpl. intuition.
    + exists (t1 ++ t2). now rewrite Ht2, Ht1, app_assoc.
Qed.

Lemma fold_elements {St : Type} (f : St -> Z -> St) (g : nat -> list Z)
  (l : list nat) (st : St) :
  fold_left (fun st jel => fold_left f (g jel) st) l st
  = fold_left f (flat_map g l) st.
Proof.
  revert st. induction l as [| a l IH]; intros st; [reflexivity | ].
  simpl. rewrite fold_left_app. apply IH.
Qed.

Lemma agree_start (ntdofs : nat) : agree ntdofs (repeat false ntdofs) [].
Proof.
  split; [apply repeat_length | ]. split; [constructor | ].
  split; [intros v [] | ].
  intros n. split; [ | intros []].
  intros H. exfalso. revert n H.
  induction ntdofs as [| m IH]; intros [| n]; simpl; try discriminate.
  apply IH.
Qed.

Lemma overlap_tdofs_spec (ntdofs : nat) (Elems : list nat)
  (GetElementDofs : nat -> list Z) :
  (forall jel dof_, In jel Elems -> In dof_ (GetElementDofs jel) ->
     decode dof_ < Z.of_nat ntdofs) ->
  exists tdoflist,
    overlap_tdofs ntdofs Elems GetElementDofs = Some tdoflist /\
    NoDup tdoflist /\
    (forall v, In v tdoflist <->
               exists jel dof_, In jel Elems /\
                                In dof_ (GetElementDofs jel) /\
                                v = decode dof_) /\
    (forall v, In v tdoflist -> 0 <= v < Z.of_nat ntdofs).
Proof.
  intros Hrange. unfold overlap_tdofs. rewrite fold_elements.
  destruct (mark_loop ntdofs (flat_map GetElementDofs Elems)
              (repeat false ntdofs) [] (agree_start ntdofs))
    as (m & l & E & (Hlen & Hnd & Hr & _) & Hin & _).
  { intros dof_ H. apply in_flat_map in H as (jel & Hj & Hd).
    now apply (Hrange jel). }
  exists l. rewrite E. split; [reflexivity | ]. split; [exact Hnd | ].
  split; [ | exact Hr].
  intros v. rewrite Hin. split.
  - intros [[] | H]. apply in_map_iff in H as (dof_ & <- & H).
    apply in_flat_map in H as (jel & Hj & Hd). now exists jel, dof_.
  - intros (jel & dof_ & Hj & Hd & ->). right. apply in_map.
    apply in_flat_map. now exists jel.
Qed.

Lemma all_some_spec {A : Type} (l : list (option A)) :
  (forall o, In o l -> o <> None) ->
  exists r, all_some l = Some r /\ map Some r = l.
Proof.
  induction l as [| o l IH]; intros H.
  - exists []. split; reflexivity.
  - destruct IH as (r & E & Hr); [intros o' Ho'; apply H; now right | ].
    destruct o as [a | ]; [ | exfalso; apply (H None); [now left | reflexivity]].
    exists (a :: r). simpl. rewrite E, Hr. split; reflexivity.
Qed.

Lemma map_Some_nth {A : Type} (r : list A) (l : list (option A)) (i : nat)
  (d : A) :
  map Some r = l -> (i < length l)%nat -> nth i l None = Some (nth i r d).
Proof.
  intros <- Hi. rewrite length_map in Hi.
  rewrite (nth_indep _ None (Some d)) by now rewrite length_map.
  apply map_nth.
Qed.

Lemma nth_map_seq_in {A : Type} (f : nat -> A) (n i : nat) (d : A) :
  (i < n)%nat -> nth i (map f (seq 0 n)) d = f i.
Proof.
  intros Hi.
  rewrite (nth_indep _ d (f 0%nat)) by now rewrite length_map, length_seq.
  rewrite (map_nth f (seq 0 n) 0%nat i), seq_nth by exact Hi. reflexivity.
Qed.

(** On the process that owns subdomain [l], when every element DOF decodes
    below [GetTrueVSize()], [OvlpTDofs[l][d]] holds each decoded DOF of the
    elements of [OvlpElems[l][d]] exactly once and nothing else, all of them
    within [0, GetTrueVSize()); the subdomains of other processes keep an
    empty table. *)
Theorem ComputeOvlpTdofs_lists (myid : Z) (subdomain_rank : list Z)
  (dim : nat) (TrueVSize : nat -> nat) (OvlpElems : list (list (list nat)))
  (GetElementDofs : nat -> nat -> list Z) :
  (forall l d jel dof_,
     (l < length subdomain_rank)%nat -> myid = nth l subdomain_rank 0 ->
     (d < 3 ^ dim)%nat ->
     In jel (nth d (nth l OvlpElems []) []) ->
     In dof_ (GetElementDofs l jel) ->
     decode dof_ < Z.of_nat (TrueVSize l)) ->
  exists OvlpTDofs,
    ComputeOvlpTdofs myid subdomain_rank dim TrueVSize OvlpElems
                     GetElementDofs = Some OvlpTDofs /\
    length OvlpTDofs = length subdomain_rank /\
    forall l, (l < length subdomain_rank)%nat ->
      (myid <> nth l subdomain_rank 0 -> nth l OvlpTDofs [] = []) /\
      (myid = nth l subdomain_rank 0 ->
       length (nth l OvlpTDofs []) = (3 ^ dim)%nat /\
       forall d, (d < 3 ^ dim)%nat ->
         let tdoflist := nth d (nth l OvlpTDofs []) [] in
         NoDup tdoflist /\
         NoDup (map Z.to_nat tdoflist) /\
         (forall v, In v tdoflist <->
                    exists jel dof_,
                      In jel (nth d (nth l OvlpElems []) []) /\
                      In dof_ (GetElementDofs l jel) /\ v = decode dof_) /\
         (forall v, In v tdoflist -> 0 <= v < Z.of_nat (TrueVSize l))).
Proof.
  intros Hrange. unfold ComputeOvlpTdofs.
  set (inner := fun l d =>
                  overlap_tdofs (TrueVSize l) (nth d (nth l OvlpElems []) [])
                                (GetElementDofs l)).
  set (row := fun l =>
                if myid =? nth l subdomain_rank 0
                then all_some (map (inner l) (seq 0 (3 ^ dim)))
                else Some []).
  assert (Hinner : forall l, (l < length subdomain_rank)%nat ->
            myid = nth l subdomain_rank 0 ->
            exists r, all_some (map (inner l) (seq 0 (3 ^ dim))) = Some r /\
                      map Some r = map (inner l) (seq 0 (3 ^ dim))).
  { intros l Hl Hown. apply all_some_spec. intros o Ho.
    apply in_map_iff in Ho as (d & <- & Hd). apply in_seq in Hd.
    destruct (overlap_tdofs_spec (TrueVSize l) (nth d (nth l OvlpElems []) [])
                (GetElementDofs l)) as (lst & E & _).
    { intros jel dof_ Hj Hdof. apply (Hrange l d jel dof_); try assumption. lia. }
    unfold inner. rewrite E. discriminate. }
  destruct (all_some_spec (map row (seq 0 (length subdomain_rank))))
    as (T & ET & HT).
  { intros o Ho. apply in_map_iff in Ho as (l & <- & Hl). apply in_seq in Hl.
    unfold row. destruct (Z.eqb_spec myid (nth l subdomain_rank 0)) as [E | E];
      [ | discriminate].
    destruct (Hinner l ltac:(lia) E) as (r & -> & _). discriminate. }
  exists T. split; [exact ET | ].
  assert (HlenT : length T = length subdomain_rank).
  { rewrite <- (length_map Some T), HT, length_map, length_seq. reflexivity. }
  split; [exact HlenT | ].
  intros l Hl.
  assert (Erow : row l = Some (nth l T [])).
  { rewrite <- (nth_map_seq_in row (length subdomain_rank) l None Hl).
    apply map_Some_nth; [exact HT | now rewrite length_map, length_seq]. }
  unfold row in Erow. split.
  - intros Hne. destruct (Z.eqb_spec myid (nth l subdomain_rank 0));
      [contradiction | ]. now injection Erow as <-.
  - intros Hown. rewrite Hown in Erow at 1. rewrite Z.eqb_refl in Erow.
    destruct (Hinner l Hl Hown) as (r & Er & Hr).
    rewrite Er in Erow. injection Erow as <-.
    split.
    { rewrite <- (length_map Some r), Hr, length_map, length_seq. reflexivity. }
    intros d Hd. set (tdoflist := nth d r []).
    assert (Ed : inner l d = Some tdoflist).
    { rewrite <- (nth_map_seq_in (inner l) (3 ^ dim) d None Hd).
      apply map_Some_nth; [exact Hr | now rewrite length_map, length_seq]. }
    destruct (overlap_tdofs_spec (TrueVSize l) (nth d (nth l OvlpElems []) [])
                (GetElementDofs l)) as (lst & E & Hnd & Hin & Hb).
    { intros jel dof_ Hj Hdof. now apply (Hrange l d jel dof_). }
    unfold inner in Ed. rewrite E in Ed. injection Ed as Ed. subst lst.
    split; [exact Hnd | ]. split; [ | split; [exact Hin | exact Hb]].
    apply NoDup_map_NoDup_ForallPairs; [ | exact Hnd].
    intros a b Ha Hb' Eab. apply Hb in Ha, Hb'. lia.
Qed.

(** One subdomain of two triangles that share the edge [1, 2]; the second
    element lists DOF 1 under its negative code [-2]. *)
Lemma ComputeOvlpTdofs_lists_witness :
  exists OvlpTDofs,
    ComputeOvlpTdofs 0 [0] 2 (fun _ => 4%nat)
      [[[0%nat; 1%nat]; []; []; []; []; []; []; []; []]]
      (fun _ jel => match jel with O => [0; 1; 2] | _ => [-2; 2; 3] end)
    = Some OvlpTDofs /\
    nth 0 (nth 0 OvlpTDofs []) [] = [0; 1; 2; 3] /\
    NoDup (nth 0 (nth 0 OvlpTDofs []) []).
Proof.
  destruct (ComputeOvlpTdofs_lists 0 [0] 2 (fun _ => 4%nat)
              [[[0%nat; 1%nat]; []; []; []; []; []; []; []; []]]
              (fun _ jel => match jel with O => [0; 1; 2] | _ => [-2; 2; 3] end))
    as (T & E & _ & H).
  { intros l d jel dof_ Hl _ Hd Hj Hdof.
    destruct l as [| l]; [ | simpl in Hl; lia].
    destruct jel as [| jel]; simpl in Hdof;
      repeat (destruct Hdof as [<- | Hdof]; [vm_compute; reflexivity | ]);
      destruct Hdof. }
  exists T. split; [exact E | ].
  vm_compute in E. injection E as <-.
  split; [reflexivity | ].
  destruct (H 0%nat ltac:(simpl; lia)) as [_ H0].
  destruct (H0 eq_refl) as [_ H1].
  exact (proj1 (H1 0%nat ltac:(simpl; lia))).
Defined.

End OverlapDofs.

(* ================================================================== *)
(** * Local solution bounds: [SolutionBounds] (ex9.cpp:62-160) *)
(* ================================================================== *)

Module Bounds.

Import Arrays.

Local Open Scope R_scope.

(** A [double] that may be an infinity: the running minimum starts at
    [numeric_limits<double>::infinity()], the running maximum at its
    negation, and the values of the solution are finite. *)
Inductive ext : Type :=
| NegInf
| Fin (r : R)
| PosInf.

(** [x_j > x_i_max] and [x_j < x_i_min] for a finite [x_j]. *)
Definition gt_ext (x_j : R) (b : ext) : bool :=
  match b with
  | NegInf => true
  | Fin m => Rgtb x_j m
  | PosInf => false
  end.

Definition lt_ext (x_j : R) (b : ext) : bool :=
  match b with
  | NegInf => false
  | Fin m => Rltb x_j m
  | PosInf => true
  end.

(** The two tests of the inner loops; the state is [(x_i_min, x_i_max)]. *)
Definition bound_step (x_j : R) (st : ext * ext) : ext * ext :=
  let '(x_i_min, x_i_max) := st in
  let x_i_max := if gt_ext x_j x_i_max then Fin x_j else x_i_max in
  let x_i_min := if lt_ext x_j x_i_min then Fin x_j else x_i_min in
  (x_i_min, x_i_max).

(** The vectors [x_min] and [x_max]. *)
Definition bounds := nat -> ext.

Definition upd_ext (b : bounds) (i : nat) (v : ext) : bounds :=
  fun i' => if Nat.eqb i' i then v else b i'.

(** [void ComputeFromSparsity(const SparseMatrix& K, const Vector& x)]:
    [size = K.Size()], [I], [J] are the arrays of [K]; the state of the outer
    loop is [(k, x_min, x_max)], with [k] carried from one row to the
    next. *)
Definition ComputeFromSparsity (size : nat) (I J : nat -> nat) (x : mem)
  (x_min x_max : bounds) : bounds * bounds :=
  snd (forloop size
         (fun i (st : nat * (bounds * bounds)) =>
            let '(k, (x_min, x_max)) := st in
            let end_ := I (i + 1)%nat in
            let '(x_i_min, x_i_max) :=
              forloop (end_ - k)
                (fun t st => bound_step (x (J (k + t)%nat)) st)
                (PosInf, NegInf) in
            (Nat.max k end_,
             (upd_ext x_min i x_i_min, upd_ext x_max i x_i_max)))
         (0%nat, (x_min, x_max))).

(** [void ComputeLocalBounds(const Vector &x)]: [size = x.Size()];
    [map_for_bounds[i]] is the list stored under key [i], the empty list
    when the map has no such key ([operator[]] of [std::map]). *)
Definition ComputeLocalBounds (size : nat) (map_for_bounds : nat -> list nat)
  (x : mem) (x_min x_max : bounds) : bounds * bounds :=
  forloop size
    (fun i (st : bounds * bounds) =>
       let '(x_min, x_max) := st in
       let '(x_i_min, x_i_max) :=
         forloop (length (map_for_bounds i))
           (fun j st => bound_step (x (nth j (map_for_bounds i) 0%nat)) st)
           (PosInf, NegInf) in
       (upd_ext x_min i x_i_min, upd_ext x_max i x_i_max))
    (x_min, x_max).

(** [void Compute(const SparseMatrix &K, const Vector &x)]: [None] is the
    exit through [mfem_error("Unsupported stencil.")].  [stencil] is the
    value of the [STENCIL] member, [ksize] is [K.Size()] and [xsize] is
    [x.Size()]. *)
Definition Compute (stencil : Z) (ksize xsize : nat) (I J : nat -> nat)
  (map_for_bounds : nat -> list nat) (x : mem) (x_min x_max : bounds)
  : option (bounds * bounds) :=
  if Z.eqb stencil 0 then Some (ComputeFromSparsity ksize I J x x_min x_max)
  else if Z.eqb stencil 1 || Z.eqb stencil 2
  then Some (ComputeLocalBounds xsize map_for_bounds x x_min x_max)
  else None.

(** ** What a bound says *)

(** [b <= v] for a lower bound, [v <= b] for an upper bound. *)
Definition below (b : ext) (v : R) : Prop :=
  match b with
  | NegInf => True
  | Fin m => m <= v
  | PosInf => False
  end.

Definition above (b : ext) (v : R) : Prop :=
  match b with
  | NegInf => False
  | Fin m => v <= m
  | PosInf => True
  end.

(** The scan of [n] values [val 0 .. val (n-1)]. *)
Lemma scan_spec (val : nat -> R) (n : nat) :
  let st := forloop n (fun t st => bound_step (val t) st) (PosInf, NegInf) in
  (n = 0%nat -> st = (PosInf, NegInf)) /\
  ((0 < n)%nat ->
   exists t t', (t < n)%nat /\ (t' < n)%nat /\
                fst st = Fin (val t) /\ snd st = Fin (val t')) /\
  (forall t, (t < n)%nat -> below (fst st) (val t) /\ above (snd st) (val t)).
Proof.
  induction n as [| n IH]; cbv zeta.
  - split; [reflexivity | ]. split; intros; lia.
  - cbv zeta in IH. simpl forloop.
    destruct (forloop n (fun t st => bound_step (val t) st) (PosInf, NegInf))
      as [mn mx].
    destruct IH as (I0 & I1 & I2). simpl fst in *. simpl snd in *.
    split; [intros; lia | ].
    destruct n as [| n'].
    + specialize (I0 eq_refl). injection I0 as -> ->.
      unfold bound_step. simpl. split.
      * intros _. exists 0%nat, 0%nat. repeat split; lia.
      * intros t Ht. assert (t = 0%nat) by lia. subst. simpl. lra.
    + destruct (I1 ltac:(lia)) as (t & t' & Ht & Ht' & Emn & Emx).
      subst mn mx. unfold bound_step, gt_ext, lt_ext, Rgtb, Rltb. cbv zeta.
      simpl fst; simpl snd.
      assert (Hb : forall u, (u < S n')%nat ->
                 val t <= val u /\ val u <= val t').
      { intros u Hu. destruct (I2 u Hu) as [B A]. simpl in B, A. lra. }
      destruct (Rlt_dec (val t') (val (S n'))) as [G | G];
        destruct (Rlt_dec (val (S n')) (val t)) as [L | L]; simpl.
      * split.
        -- intros _. exists (S n'), (S n'). repeat split; lia.
        -- intros u Hu. destruct (Nat.eq_dec u (S n')) as [-> | Hne];
             [lra | ]. destruct (Hb u ltac:(lia)). lra.
      * split.
        -- intros _. exists t, (S n'). repeat split; lia.
        -- intros u Hu. destruct (Nat.eq_dec u (S n')) as [-> | Hne];
             [lra | ]. destruct (Hb u ltac:(lia)). lra.
      * split.
        -- intros _. exists (S n'), t'. repeat split; lia.
        -- intros u Hu. destruct (Nat.eq_dec u (S n')) as [-> | Hne];
             [lra | ]. destruct (Hb u ltac:(lia)). lra.
      * split.
        -- intros _. exists t, t'. repeat split; lia.
        -- intros u Hu. destruct (Nat.eq_dec u (S n')) as [-> | Hne];
             [lra | ]. destruct (Hb u ltac:(lia)). lra.
Qed.

(** The bounds of one row scanned from offset [k] on. *)
Definition row_bounds (x : mem) (J : nat -> nat) (k n : nat) : ext * ext :=
  forloop n (fun t st => bound_step (x (J (k + t)%nat)) st) (PosInf, NegInf).

Lemma upd_ext_same (b : bounds) (i : nat) (v : ext) : upd_ext b i v i = v.
Proof. unfold upd_ext. now rewrite Nat.eqb_refl. Qed.

Lemma upd_ext_other (b : bounds) (i i' : nat) (v : ext) :
  i' <> i -> upd_ext b i v i' = b i'.
Proof. intros H. unfold upd_ext. now apply Nat.eqb_neq in H as ->. Qed.

Lemma ComputeFromSparsity_rows (size : nat) (I J : nat -> nat) (x : mem)
  (x_min x_max : bounds) :
  I 0%nat = 0%nat ->
  (forall i, (i < size)%nat -> (I i <= I (i + 1))%nat) ->
  let r := ComputeFromSparsity size I J x x_min x_max in
  (forall i, (i < size)%nat ->
     (fst r i, snd r i) = row_bounds x J (I i) (I (i + 1) - I i)%nat) /\
  (forall i, (size <= i)%nat -> fst r i = x_min i /\ snd r i = x_max i).
Proof.
  intros H0 Hmono. unfold ComputeFromSparsity.
  set (body := fun i (st : nat * (bounds * bounds)) =>
                 let '(k, (x_min, x_max)) := st in
                 let end_ := I (i + 1)%nat in
                 let '(x_i_min, x_i_max) :=
                   forloop (end_ - k)
                     (fun t st => bound_step (x (J (k + t)%nat)) st)
                     (PosInf, NegInf) in
                 (Nat.max k end_,
                  (upd_ext x_min i x_i_min, upd_ext x_max i x_i_max))).
  assert (Inv : forall n, (n <= size)%nat ->
            let st := forloop n body (0%nat, (x_min, x_max)) in
            fst st = I n /\
            (forall i, (i < n)%nat ->
               (fst (snd st) i, snd (snd st) i)
               = row_bounds x J (I i) (I (i + 1) - I i)%nat) /\
            (forall i, (n <= i)%nat ->
               fst (snd st) i = x_min i /\ snd (snd st) i = x_max i)).
  { induction n as [| n IH]; intros Hn; cbv zeta.
    - simpl. split; [now rewrite H0 | ]. split; [intros; lia | now split].
    - specialize (IH ltac:(lia)). cbv zeta in IH. simpl forloop.
      destruct (forloop n body (0%nat, (x_min, x_max))) as [k [mn mx]].
      simpl fst in IH; simpl snd in IH. destruct IH as (Ek & Ilo & Ihi).
      subst k. unfold body. cbv zeta.
      fold (row_bounds x J (I n) (I (n + 1)%nat - I n)).
      destruct (row_bounds x J (I n) (I (n + 1)%nat - I n)) as [a b] eqn:Erow.
      simpl fst; simpl snd.
      pose proof (Hmono n ltac:(lia)) as Hm.
      split; [replace (S n) with (n + 1)%nat by lia; lia | ]. split.
      + intros i Hi. destruct (Nat.eq_dec i n) as [-> | Hne].
        * rewrite !upd_ext_same. now rewrite Erow.
        * rewrite !upd_ext_other by exact Hne. apply Ilo. lia.
      + intros i Hi. rewrite !upd_ext_other by lia. apply Ihi. lia. }
  cbv zeta. destruct (Inv size (Nat.le_refl _)) as (_ & A & B).
  split; [exact A | exact B].
Qed.

Lemma ComputeFromSparsity_spec (size : nat) (I J : nat -> nat) (x : mem)
  (x_min x_max : bounds) :
  I 0%nat = 0%nat ->
  (forall i, (i < size)%nat -> (I i <= I (i + 1))%nat) ->
  let r := ComputeFromSparsity size I J x x_min x_max in
  (forall i, (i < size)%nat ->
     (forall q, (I i <= q < I (i + 1))%nat ->
        below (fst r i) (x (J q)) /\ above (snd r i) (x (J q))) /\
     ((I i < I (i + 1))%nat ->
      exists q q', (I i <= q < I (i + 1))%nat /\ (I i <= q' < I (i + 1))%nat /\
                   fst r i = Fin (x (J q)) /\ snd r i = Fin (x (J q'))) /\
     (I i = I (i + 1)%nat -> fst r i = PosInf /\ snd r i = NegInf) /\
     (forall q, (I i <= q < I (i + 1))%nat -> J q = i ->
        below (fst r i) (x i) /\ above (snd r i) (x i))) /\
  (forall i, (size <= i)%nat -> fst r i = x_min i /\ snd r i = x_max i).
Proof.
  intros H0 Hmono r.
  destruct (ComputeFromSparsity_rows size I J x x_min x_max H0 Hmono)
    as [Hrow Hout]. fold r in Hrow, Hout.
  split; [ | exact Hout].
  intros i Hi. specialize (Hrow i Hi).
  pose proof (scan_spec (fun t => x (J (I i + t)%nat)) (I (i + 1) - I i)%nat)
    as Hs. cbv beta zeta in Hs.
  unfold row_bounds in Hrow. rewrite <- Hrow in Hs.
  simpl fst in Hs; simpl snd in Hs. destruct Hs as (S0 & S1 & S2).
  assert (Henc : forall q, (I i <= q < I (i + 1))%nat ->
            below (fst r i) (x (J q)) /\ above (snd r i) (x (J q))).
  { intros q Hq. specialize (S2 (q - I i)%nat ltac:(lia)).
    now replace (I i + (q - I i))%nat with q in S2 by lia. }
  split; [exact Henc | ]. split; [ | split].
  - intros Hne. destruct (S1 ltac:(lia)) as (t & t' & Ht & Ht' & E1 & E2).
    exists (I i + t)%nat, (I i + t')%nat.
    split; [lia | ]. split; [lia | ]. now split.
  - intros He. specialize (S0 ltac:(lia)). injection S0 as -> ->. now split.
  - intros q Hq <-. now apply Henc.
Qed.

(** With the row offsets of a finalized matrix ([I[0] = 0], not decreasing),
    [ComputeFromSparsity] leaves in [x_min(i)] and [x_max(i)] the least and
    the greatest of the values [x(J[q])] over the entries [q] stored in row
    [i]: both are attained and enclose every such value; a row that stores
    nothing gets [+infinity] and [-infinity]; a row that stores its diagonal
    has [x_min(i) <= x(i) <= x_max(i)]; and the entries from [K.Size()] on
    are left as they were. *)
Theorem ComputeFromSparsity_encloses (size : nat) (I J : nat -> nat) (x : mem)
  (x_min x_max : bounds) :
  I 0%nat = 0%nat ->
  (forall i, (i < size)%nat -> (I i <= I (i + 1))%nat) ->
  let r := ComputeFromSparsity size I J x x_min x_max in
  (forall i, (i < size)%nat ->
     (forall q, (I i <= q < I (i + 1))%nat ->
        below (fst r i) (x (J q)) /\ above (snd r i) (x (J q))) /\
     ((I i < I (i + 1))%nat ->
      exists q q', (I i <= q < I (i + 1))%nat /\ (I i <= q' < I (i + 1))%nat /\
                   fst r i = Fin (x (J q)) /\ snd r i = Fin (x (J q'))) /\
     (I i = I (i + 1)%nat -> fst r i = PosInf /\ snd r i = NegInf) /\
     (forall q, (I i <= q < I (i + 1))%nat -> J q = i ->
        below (fst r i) (x i) /\ above (snd r i) (x i))) /\
  (forall i, (size <= i)%nat -> fst r i = x_min i /\ snd r i = x_max i).
Proof. apply ComputeFromSparsity_spec. Qed.

(** A matrix of two rows: row 0 stores columns 0 and 1, row 1 stores
    nothing. *)
Lemma ComputeFromSparsity_encloses_witness :
  let I := fun i => match i with O => 0%nat | _ => 2%nat end in
  let J := fun q => q in
  let x := fun i => match i with O => 3 | _ => 1 end in
  let r := ComputeFromSparsity 2 I J x (fun _ => Fin 0) (fun _ => Fin 0) in
  (below (fst r 0%nat) (x 0%nat) /\ above (snd r 0%nat) (x 0%nat)) /\
  (fst r 1%nat = PosInf /\ snd r 1%nat = NegInf) /\
  (fst r 2%nat = Fin 0 /\ snd r 2%nat = Fin 0).
Proof.
  intros I J x r.
  assert (H0 : I 0%nat = 0%nat) by reflexivity.
  assert (Hm : forall i, (i < 2)%nat -> (I i <= I (i + 1))%nat).
  { intros [| [| i]] Hi; simpl; lia. }
  destruct (ComputeFromSparsity_encloses 2 I J x (fun _ => Fin 0)
              (fun _ => Fin 0) H0 Hm) as [A B].
  fold r in A, B. split; [ | split].
  - destruct (A 0%nat ltac:(lia)) as (_ & _ & _ & D).
    apply (D 0%nat); [simpl; lia | reflexivity].
  - destruct (A 1%nat ltac:(lia)) as (_ & _ & E & _).
    apply E. reflexivity.
  - apply B. lia.
Defined.

Lemma ComputeLocalBounds_spec (size : nat)
  (map_for_bounds : nat -> list nat) (x : mem) (x_min x_max : bounds) :
  let r := ComputeLocalBounds size map_for_bounds x x_min x_max in
  (forall i, (i < size)%nat ->
     (forall j, In j (map_for_bounds i) ->
        below (fst r i) (x j) /\ above (snd r i) (x j)) /\
     (map_for_bounds i <> [] ->
      exists j j', In j (map_for_bounds i) /\ In j' (map_for_bounds i) /\
                   fst r i = Fin (x j) /\ snd r i = Fin (x j')) /\
     (map_for_bounds i = [] -> fst r i = PosInf /\ snd r i = NegInf) /\
     (In i (map_for_bounds i) ->
      below (fst r i) (x i) /\ above (snd r i) (x i))) /\
  (forall i, (size <= i)%nat -> fst r i = x_min i /\ snd r i = x_max i).
Proof.
  intros r. unfold ComputeLocalBounds in r.
  set (scan := fun i =>
                 forloop (length (map_for_bounds i))
                   (fun j st =>
                      bound_step (x (nth j (map_for_bounds i) 0%nat)) st)
                   (PosInf, NegInf)).
  assert (Inv : forall n,
            let st := forloop n
                        (fun i (st : bounds * bounds) =>
                           let '(x_min, x_max) := st in
                           let '(x_i_min, x_i_max) := scan i in
                           (upd_ext x_min i x_i_min, upd_ext x_max i x_i_max))
                        (x_min, x_max) in
            (forall i, (i < n)%nat -> (fst st i, snd st i) = scan i) /\
            (forall i, (n <= i)%nat ->
               fst st i = x_min i /\ snd st i = x_max i)).
  { induction n as [| n IH]; cbv zeta.
    - simpl. split; [intros; lia | now split].
    - cbv zeta in IH. simpl forloop.
      destruct (forloop n _ (x_min, x_max)) as [mn mx].
      simpl fst in IH; simpl snd in IH. destruct IH as (Ilo & Ihi).
      destruct (scan n) as [a b] eqn:En. simpl fst; simpl snd. split.
      + intros i Hi. destruct (Nat.eq_dec i n) as [-> | Hne].
        * rewrite !upd_ext_same. now rewrite En.
        * rewrite !upd_ext_other by exact Hne. apply Ilo. lia.
      + intros i Hi. rewrite !upd_ext_other by lia. apply Ihi. lia. }
  destruct (Inv size) as [Hrow Hout]. fold r in Hrow, Hout.
  split; [ | exact Hout].
  intros i Hi. specialize (Hrow i Hi).
  pose proof (scan_spec (fun j => x (nth j (map_for_bounds i) 0%nat))
                (length (map_for_bounds i))) as Hs.
  cbv beta zeta in Hs. unfold scan in Hrow. rewrite <- Hrow in Hs.
  simpl fst in Hs; simpl snd in Hs. destruct Hs as (S0 & S1 & S2).
  assert (Henc : forall j, In j (map_for_bounds i) ->
            below (fst r i) (x j) /\ above (snd r i) (x j)).
  { intros j Hj. apply (In_nth _ _ 0%nat) in Hj as (t & Ht & <-).
    now apply S2. }
  split; [exact Henc | ]. split; [ | split].
  - intros Hne.
    assert (Hlen : (0 < length (map_for_bounds i))%nat).
    { destruct (map_for_bounds i); [congruence | simpl; lia]. }
    destruct (S1 Hlen) as (t & t' & Ht & Ht' & E1 & E2).
    exists (nth t (map_for_bounds i) 0%nat), (nth t' (map_for_bounds i) 0%nat).
    split; [now apply nth_In | ]. split; [now apply nth_In | ]. now split.
  - intros He. rewrite He in S0. specialize (S0 eq_refl).
    injection S0 as E1 E2. split; assumption.
  - intros Hin. now apply Henc.
Qed.

(** [ComputeLocalBounds] leaves in [x_min(i)] and [x_max(i)] the least and
    the greatest of the values of [x] at the DOFs listed in
    [map_for_bounds[i]]: both are attained and enclose every such value; a
    DOF with an empty (or missing) list gets [+infinity] and [-infinity]; a
    DOF that is in its own list has [x_min(i) <= x(i) <= x_max(i)]; and the
    entries from [x.Size()] on are left as they were. *)
Theorem ComputeLocalBounds_encloses (size : nat)
  (map_for_bounds : nat -> list nat) (x : mem) (x_min x_max : bounds) :
  let r := ComputeLocalBounds size map_for_bounds x x_min x_max in
  (forall i, (i < size)%nat ->
     (forall j, In j (map_for_bounds i) ->
        below (fst r i) (x j) /\ above (snd r i) (x j)) /\
     (map_for_bounds i <> [] ->
      exists j j', In j (map_for_bounds i) /\ In j' (map_for_bounds i) /\
                   fst r i = Fin (x j) /\ snd r i = Fin (x j')) /\
     (map_for_bounds i = [] -> fst r i = PosInf /\ snd r i = NegInf) /\
     (In i (map_for_bounds i) ->
      below (fst r i) (x i) /\ above (snd r i) (x i))) /\
  (forall i, (size <= i)%nat -> fst r i = x_min i /\ snd r i = x_max i).
Proof. apply ComputeLocalBounds_spec. Qed.

(** [Compute] either ends in [mfem_error], exactly when the stencil is not
    0, 1 or 2, or returns bounds that hold the current value: with stencil 0
    and the row offsets of a finalized matrix, every row that stores its
    diagonal gets finite bounds [x_min(i) <= x(i) <= x_max(i)]; with stencil
    1 or 2 the same holds for every DOF that is in its own list. *)
Theorem Compute_holds_solution (stencil : Z) (ksize xsize : nat)
  (I J : nat -> nat) (map_for_bounds : nat -> list nat) (x : mem)
  (x_min x_max : bounds) :
  I 0%nat = 0%nat ->
  (forall i, (i < ksize)%nat -> (I i <= I (i + 1))%nat) ->
  match Compute stencil ksize xsize I J map_for_bounds x x_min x_max with
  | None => stencil <> 0%Z /\ stencil <> 1%Z /\ stencil <> 2%Z
  | Some r =>
      (stencil = 0%Z \/ stencil = 1%Z \/ stencil = 2%Z) /\
      forall i,
        (if Z.eqb stencil 0
         then (i < ksize)%nat /\
              exists q, (I i <= q < I (i + 1))%nat /\ J q = i
         else (i < xsize)%nat /\ In i (map_for_bounds i)) ->
        exists lo hi,
          fst r i = Fin lo /\ snd r i = Fin hi /\ lo <= x i <= hi
  end.
Proof.
  intros H0 Hmono. unfold Compute.
  assert (Hfin : forall a b : ext, forall v,
            (exists u, a = Fin u) -> (exists u, b = Fin u) ->
            below a v -> above b v ->
            exists lo hi, a = Fin lo /\ b = Fin hi /\ lo <= v <= hi).
  { intros a b v [u ->] [w ->] Hb Ha. simpl in Hb, Ha.
    exists u, w. repeat split; assumption. }
  destruct (Z.eqb_spec stencil 0) as [E0 | N0].
  - split; [now left | ]. intros i [Hi (q & Hq & Hd)].
    destruct (ComputeFromSparsity_spec ksize I J x x_min x_max H0 Hmono)
      as [A _].
    destruct (A i Hi) as (_ & Hatt & _ & Hdiag).
    destruct (Hatt ltac:(lia)) as (q1 & q2 & _ & _ & E1 & E2).
    destruct (Hdiag q Hq Hd) as [Hb Ha].
    apply Hfin; eauto.
  - destruct (Z.eqb_spec stencil 1) as [E1 | N1];
      [ | destruct (Z.eqb_spec stencil 2) as [E2 | N2]]; simpl orb; cbv iota.
    + split; [now right; left | ]. intros i [Hi Hin].
      destruct (ComputeLocalBounds_spec xsize map_for_bounds x x_min x_max)
        as [A _].
      destruct (A i Hi) as (_ & Hatt & _ & Hself).
      destruct Hatt as (j1 & j2 & _ & _ & F1 & F2);
        [intros Hnil; rewrite Hnil in Hin; destruct Hin | ].
      destruct (Hself Hin) as [Hb Ha].
      apply Hfin; eauto.
    + split; [now right; right | ]. intros i [Hi Hin].
      destruct (ComputeLocalBounds_spec xsize map_for_bounds x x_min x_max)
        as [A _].
      destruct (A i Hi) as (_ & Hatt & _ & Hself).
      destruct Hatt as (j1 & j2 & _ & _ & F1 & F2);
        [intros Hnil; rewrite Hnil in Hin; destruct Hin | ].
      destruct (Hself Hin) as [Hb Ha].
      apply Hfin; eauto.
    + repeat split; assumption.
Qed.

(** A matrix of two rows with the pattern [(0,0) (0,1) (1,1)]. *)
Lemma Compute_holds_solution_witness :
  let I := fun i => match i with O => 0%nat | S O => 2%nat | _ => 3%nat end in
  let J := fun q => match q with O => 0%nat | _ => 1%nat end in
  let x := fun i => match i with O => 3 | _ => 1 end in
  match Compute 0 2 2 I J (fun _ => []) x (fun _ => Fin 0) (fun _ => Fin 0)
  with
  | None => False
  | Some r =>
      exists lo hi,
        fst r 0%nat = Fin lo /\ snd r 0%nat = Fin hi /\ lo <= x 0%nat <= hi
  end.
Proof.
  intros I J x.
  assert (H0 : I 0%nat = 0%nat) by reflexivity.
  assert (Hm : forall i, (i < 2)%nat -> (I i <= I (i + 1))%nat).
  { intros [| [| i]] Hi; simpl; lia. }
  pose proof (Compute_holds_solution 0 2 2 I J (fun _ => []) x
                (fun _ => Fin 0) (fun _ => Fin 0) H0 Hm) as H.
  destruct (Compute 0 2 2 I J (fun _ => []) x (fun _ => Fin 0)
                    (fun _ => Fin 0)) as [r | ].
  - destruct H as [_ H]. apply (H 0%nat). simpl Z.eqb. cbv iota.
    split; [lia | ]. exists 0%nat. split; [simpl; lia | reflexivity].
  - destruct H as (H & _). apply H. reflexivity.
Defined.

End Bounds.

(* ================================================================== *)
(** * [FE_Evolution::ComputeFCTSolution] (ex9.cpp:1914-1965): what it
      leaves alone and when it returns one of its two inputs *)
(* ================================================================== *)

Module FCTFacts.

Import Arrays FCT.

Local Open Scope R_scope.

Section Facts.

Variable dt : R.
Variables x_min x_max lumpedM : mem.
Variables NE nd : nat.
Variables x yH yL : mem.

Local Abbreviation FCT' :=
  (ComputeFCTSolution dt x_min x_max lumpedM NE nd x yH yL).
Local Abbreviation flux' := (flux dt x_min x_max lumpedM x yH yL).
Local Abbreviation sumPos' := (sumPos_of dt x_min x_max lumpedM nd x yH yL).
Local Abbreviation sumNeg' := (sumNeg_of dt x_min x_max lumpedM nd x yH yL).

Lemma clip_inside (lo hi u : R) : lo <= u <= hi -> Rmin hi (Rmax u lo) = u.
Proof.
  intros H. unfold Rmin, Rmax.
  destruct (Rle_dec u lo); destruct (Rle_dec hi _); lra.
Qed.

Lemma Rmax_Rmin_0 (f : R) : Rmax f 0 + Rmin f 0 = f.
Proof. unfold Rmax, Rmin. destruct (Rle_dec f 0); lra. Qed.

Lemma sums_add_up (k : nat) :
  sumPos' k + sumNeg' k = sum_n nd (fun j => flux' (k * nd + j)%nat).
Proof.
  unfold sumPos_of, sumNeg_of. rewrite <- sum_n_plus.
  apply sum_n_ext. intros j _. apply Rmax_Rmin_0.
Qed.

(** A balanced element is not rescaled. *)
Lemma rescaled_same (sP sN f : R) :
  - eps <= sP + sN <= eps -> rescaled sP sN f = f.
Proof.
  intros H. unfold rescaled, Rgtb, Rltb.
  destruct (Rlt_dec eps (sP + sN)); [lra | ].
  destruct (Rlt_dec (sP + sN) (- eps)); [lra | ].
  reflexivity.
Qed.

(** The function writes the nodes [k * nd + j] of the [NE] elements and
    nothing else, and what it writes there does not depend on what [y] held
    on entry. *)
Theorem FCT_overwrites_nodes_only (y y' : mem) :
  (forall a, (forall k j, (k < NE)%nat -> (j < nd)%nat ->
                          a <> (k * nd + j)%nat) ->
             FCT' y a = y a) /\
  (forall k j, (k < NE)%nat -> (j < nd)%nat ->
               FCT' y (k * nd + j)%nat = FCT' y' (k * nd + j)%nat).
Proof.
  split.
  - intros a Ha.
    apply (ComputeFCTSolution_writes dt x_min x_max lumpedM NE nd x yH yL y a).
    intros v (k & Hk & j & Hj & E & _). exact (Ha k j Hk Hj E).
  - intros k j Hk Hj. now rewrite !ComputeFCTSolution_at.
Qed.

(** On an element where the high-order and the low-order rates agree and the
    low-order update is within the bounds, the result is the low-order rate
    (time step and lumped masses not zero). *)
Theorem FCT_keeps_low_order (y : mem) (k : nat) :
  (k < NE)%nat -> dt <> 0 ->
  (forall j, (j < nd)%nat ->
     let d := (k * nd + j)%nat in
     lumpedM d <> 0 /\ yH d = yL d /\
     x_min d <= x d + dt * yL d <= x_max d) ->
  forall j, (j < nd)%nat -> FCT' y (k * nd + j)%nat = yL (k * nd + j)%nat.
Proof.
  intros Hk Hdt Hel j Hj.
  assert (Hflux : forall i, (i < nd)%nat -> flux' (k * nd + i)%nat = 0).
  { intros i Hi. destruct (Hel i Hi) as (_ & E & Hb). cbv zeta in E, Hb.
    unfold flux, clipped, lowOrder. rewrite E.
    rewrite clip_inside by exact Hb. ring. }
  rewrite ComputeFCTSolution_at by assumption. unfold yOut, fluxOut.
  rewrite rescaled_same.
  - rewrite Hflux by exact Hj. unfold Rdiv. lra.
  - rewrite sums_add_up.
    rewrite (sum_n_ext nd _ (fun _ => 0)) by exact Hflux.
    rewrite sum_n_zero. pose proof eps_pos. lra.
Qed.

(** On an element where the high-order update is within the bounds at every
    node and the antidiffusive fluxes [lumpedM * dt * (yH - yL)] add up to
    at most [eps] in absolute value, the result is the high-order rate
    (time step and lumped masses not zero). *)
Theorem FCT_keeps_high_order (y : mem) (k : nat) :
  (k < NE)%nat -> dt <> 0 ->
  (forall j, (j < nd)%nat ->
     let d := (k * nd + j)%nat in
     lumpedM d <> 0 /\ x_min d <= x d + dt * yH d <= x_max d) ->
  - eps <= sum_n nd (fun j => let d := (k * nd + j)%nat in
                              lumpedM d * (dt * (yH d - yL d))) <= eps ->
  forall j, (j < nd)%nat -> FCT' y (k * nd + j)%nat = yH (k * nd + j)%nat.
Proof.
  intros Hk Hdt Hel Hsum j Hj.
  assert (Hflux : forall i, (i < nd)%nat ->
            flux' (k * nd + i)%nat
            = lumpedM (k * nd + i)%nat
              * (dt * (yH (k * nd + i)%nat - yL (k * nd + i)%nat))).
  { intros i Hi. destruct (Hel i Hi) as (_ & Hb). cbv zeta in Hb.
    unfold flux, clipped, lowOrder.
    rewrite clip_inside by exact Hb. ring. }
  rewrite ComputeFCTSolution_at by assumption. unfold yOut, fluxOut.
  rewrite rescaled_same.
  - rewrite Hflux by exact Hj. destruct (Hel j Hj) as (Hm & _).
    cbv zeta in Hm. field. split; assumption.
  - rewrite sums_add_up.
    rewrite (sum_n_ext nd _ _ Hflux). exact Hsum.
Qed.

End Facts.

Lemma FCT_keeps_low_order_witness :
  ComputeFCTSolution 1 (fun _ => 0) (fun _ => 1) (fun _ => 1) 1 2
    (fun _ => 0) (fun _ => 1 / 2) (fun _ => 1 / 2) (fun _ => 7) 1%nat
  = 1 / 2.
Proof.
  apply (FCT_keeps_low_order 1 (fun _ => 0) (fun _ => 1) (fun _ => 1) 1 2
           (fun _ => 0) (fun _ => 1 / 2) (fun _ => 1 / 2) (fun _ => 7) 0);
    try lia; try lra.
  intros j Hj. cbv zeta. split; [lra | ]. split; [reflexivity | lra].
Defined.

Lemma FCT_keeps_high_order_witness :
  ComputeFCTSolution 1 (fun _ => 0) (fun _ => 1) (fun _ => 1) 1 2
    (fun _ => 1 / 2)
    (fun d => match d with O => 1 / 4 | _ => - (1 / 4) end)
    (fun _ => 0) (fun _ => 7) 1%nat
  = - (1 / 4).
Proof.
  apply (FCT_keeps_high_order 1 (fun _ => 0) (fun _ => 1) (fun _ => 1) 1 2
           (fun _ => 1 / 2)
           (fun d => match d with O => 1 / 4 | _ => - (1 / 4) end)
           (fun _ => 0) (fun _ => 7) 0);
    try lia; try lra.
  - intros j Hj. cbv zeta. split; [lra | ].
    destruct j as [| [| j]]; simpl; try lra; lia.
  - unfold sum_n. simpl. unfold eps. lra.
Defined.

End FCTFacts.

(* ================================================================== *)
(** * [SparseMatrix_Build_smap] and [ComputeDiscreteUpwindingMatrix]
      (ex9.cpp:573-629): the symmetry check and the sign of [K + D] *)
(* ================================================================== *)

Module UpwindFacts.

Import Arrays Upwind.

Local Open Scope R_scope.

Lemma find_entry_sound (J : index) (target hi : nat) :
  forall fuel lo q,
    (lo <= hi)%nat -> find_entry fuel J target lo hi = Some q ->
    (lo <= q < hi)%nat /\ J q = target.
Proof.
  induction fuel as [| fuel IH]; intros lo q Hlo H; [discriminate | ].
  simpl in H. destruct (Nat.eqb_spec lo hi) as [-> | Hne]; [discriminate | ].
  destruct (Nat.eqb_spec (J lo) target) as [Hj | Hj].
  - injection H as <-. split; [lia | exact Hj].
  - apply IH in H; [ | lia]. destruct H as [H1 H2]. split; [lia | exact H2].
Qed.

Section Pattern.

Variable n : nat.
Variables I J : index.
Hypothesis Hfin : finalized n I J.

Lemma offset_of_sound (i j q : nat) :
  (i < n)%nat -> offset_of I J i j = Some q -> inrow I i q /\ J q = j.
Proof.
  intros Hi H. unfold offset_of in H.
  apply find_entry_sound in H; [exact H | ].
  apply (fin_mono n I J Hfin i Hi).
Qed.

(** Whatever the pattern, a map that is returned is a symmetry map. *)
Lemma Build_smap_sound (sm : index) :
  Build_smap n I J = Some sm -> is_smap n I J sm.
Proof.
  unfold Build_smap.
  set (body := fun (row : nat) (st : nat * option index) => _).
  assert (H : forall m, (m <= n)%nat ->
            exists o, forloop m body (0%nat, Some (fun _ => 0%nat)) = (I m, o) /\
                      forall sm, o = Some sm ->
                        forall r q, (r < m)%nat -> inrow I r q ->
                                    inrow I (J q) (sm q) /\ J (sm q) = r).
  { induction m as [| m IH]; intros Hm.
    - exists (Some (fun _ => 0%nat)). simpl. rewrite (fin_I0 n I J Hfin).
      split; [reflexivity | ]. intros sm' _ r q Hr. lia.
    - destruct (IH ltac:(lia)) as (o & Est & Hgood).
      simpl forloop. rewrite Est. unfold body at 1.
      pose proof (fin_mono n I J Hfin m ltac:(lia)) as Hmono.
      replace (m + 1)%nat with (S m) in * by lia.
      replace (Nat.max (I m) (I (S m))) with (I (S m)) by lia.
      match goal with
      | |- context [forloop _ ?f o] => set (inner := f)
      end.
      assert (Hin : forall t, (t <= I (S m) - I m)%nat ->
                forall sm', forloop t inner o = Some sm' ->
                  (forall r q, (r < m)%nat -> inrow I r q ->
                               inrow I (J q) (sm' q) /\ J (sm' q) = r) /\
                  (forall q, (I m <= q < I m + t)%nat ->
                             inrow I (J q) (sm' q) /\ J (sm' q) = m)).
      { induction t as [| t IHt]; intros Ht sm' E.
        - simpl in E. split; [now apply Hgood | ]. intros q Hq. lia.
        - simpl forloop in E. unfold inner at 1 in E.
          destruct (forloop t inner o) as [sm0 | ] eqn:E0; [ | discriminate].
          destruct (IHt ltac:(lia) sm0 eq_refl) as (Hold & Hrow).
          assert (Hj : inrow I m (I m + t)%nat).
          { unfold inrow. replace (m + 1)%nat with (S m) by lia. lia. }
          assert (Hcol : (J (I m + t)%nat < n)%nat)
            by (apply (fin_col n I J Hfin m); [lia | exact Hj]).
          destruct (offset_of I J (J (I m + t)%nat) m) as [q' | ] eqn:Eo;
            [ | discriminate].
          injection E as <-.
          destruct (offset_of_sound _ _ _ Hcol Eo) as [Hq' Hjq'].
          split.
          + intros r q Hr Hq.
            destruct (Nat.eqb_spec q (I m + t)%nat) as [-> | Hne].
            * exfalso.
              assert (r = m) by (apply (rows_disjoint n I J Hfin r m (I m + t)%nat);
                                 try assumption; lia). lia.
            * apply Hold; assumption.
          + intros q Hq.
            destruct (Nat.eqb_spec q (I m + t)%nat) as [-> | Hne].
            * split; assumption.
            * apply Hrow. lia. }
      eexists. split; [reflexivity | ].
      intros sm' E r q Hr Hq.
      destruct (Hin (I (S m) - I m)%nat (Nat.le_refl _) sm' E) as (Hold & Hrow).
      destruct (Nat.eq_dec r m) as [-> | Hne].
      * apply Hrow. unfold inrow in Hq.
        replace (m + 1)%nat with (S m) in Hq by lia. lia.
      * apply Hold; [lia | exact Hq]. }
  destruct (H n (Nat.le_refl n)) as (o & E & Hgood).
  rewrite E. simpl snd. intros ->. intros i q Hi Hq. now apply (Hgood sm).
Qed.

End Pattern.

(** On a finalized matrix [SparseMatrix_Build_smap] ends in [mfem_error]
    exactly when the sparsity pattern is not structurally symmetric, and then
    [ComputeDiscreteUpwindingMatrix] is aborted too.  A map that is returned
    sends every stored entry [(i, j)] to the entry [(j, i)], sends that one
    back, and leaves the diagonal entries where they are. *)
Theorem Build_smap_checks_symmetry (n : nat) (I J : index) :
  finalized n I J ->
  (Build_smap n I J = None <-> ~ structurally_symmetric n I J) /\
  (forall DI DJ Kp Dp,
     ~ structurally_symmetric n I J ->
     ComputeDiscreteUpwindingMatrix n I J Kp DI DJ Dp = None) /\
  (forall sm, Build_smap n I J = Some sm ->
     forall i q, (i < n)%nat -> inrow I i q ->
       inrow I (J q) (sm q) /\ J (sm q) = i /\ sm (sm q) = q /\
       (J q = i -> sm q = q)).
Proof.
  intros Hfin.
  assert (Hiff : Build_smap n I J = None <-> ~ structurally_symmetric n I J).
  { split.
    - intros E Hsym. destruct (Build_smap_ok n I J Hfin Hsym) as (sm & E' & _).
      congruence.
    - intros Hns. destruct (Build_smap n I J) as [sm | ] eqn:E; [ | reflexivity].
      exfalso. apply Hns. intros i q Hi Hq.
      destruct (Build_smap_sound n I J Hfin sm E i q Hi Hq) as [H1 H2].
      exists (sm q). now split. }
  split; [exact Hiff | ]. split.
  - intros DI DJ Kp Dp Hns. unfold ComputeDiscreteUpwindingMatrix.
    now rewrite (proj2 Hiff Hns).
  - intros sm E i q Hi Hq.
    pose proof (Build_smap_sound n I J Hfin sm E) as Hsm.
    destruct (Hsm i q Hi Hq) as [H1 H2].
    split; [exact H1 | ]. split; [exact H2 | ]. split.
    + apply (smap_invol n I J sm Hfin Hsm i q Hi Hq).
    + intros Hd. apply (smap_diag n I J sm Hfin Hsm i q Hi Hq Hd).
Qed.

(** A full 2 x 2 pattern: offsets 0, 1 in row 0 and 2, 3 in row 1. *)
Definition dense2_I : index := fun i => (2 * i)%nat.
Definition dense2_J : index := fun q => Nat.modulo q 2.

Lemma dense2_finalized : finalized 2 dense2_I dense2_J.
Proof.
  constructor.
  - reflexivity.
  - intros i Hi. unfold dense2_I. lia.
  - intros i q Hi Hq. unfold dense2_J. apply Nat.mod_upper_bound. lia.
  - intros i q q' Hi [H1 H2] [H3 H4] Hj. unfold dense2_I, dense2_J in *.
    assert (Hi' : i = 0%nat \/ i = 1%nat) by lia.
    destruct Hi' as [-> | ->]; simpl in *.
    + assert (Hq : q = 0%nat \/ q = 1%nat) by lia.
      assert (Hq' : q' = 0%nat \/ q' = 1%nat) by lia.
      destruct Hq as [-> | ->]; destruct Hq' as [-> | ->];
        simpl in Hj; congruence.
    + assert (Hq : q = 2%nat \/ q = 3%nat) by lia.
      assert (Hq' : q' = 2%nat \/ q' = 3%nat) by lia.
      destruct Hq as [-> | ->]; destruct Hq' as [-> | ->];
        simpl in Hj; congruence.
Qed.

Lemma dense2_symmetric : structurally_symmetric 2 dense2_I dense2_J.
Proof.
  intros i q Hi [H1 H2]. unfold dense2_I, dense2_J, inrow in *.
  assert (Hi' : i = 0%nat \/ i = 1%nat) by lia.
  destruct Hi' as [-> | ->]; simpl in *.
  - assert (Hq : q = 0%nat \/ q = 1%nat) by lia.
    destruct Hq as [-> | ->]; simpl.
    + exists 0%nat. simpl. split; [lia | reflexivity].
    + exists 2%nat. simpl. split; [lia | reflexivity].
  - assert (Hq : q = 2%nat \/ q = 3%nat) by lia.
    destruct Hq as [-> | ->]; simpl.
    + exists 1%nat. simpl. split; [lia | reflexivity].
    + exists 3%nat. simpl. split; [lia | reflexivity].
Qed.

Lemma dense2_diagonal : diagonal_stored 2 dense2_I dense2_J.
Proof.
  intros i Hi. unfold dense2_I, dense2_J, inrow.
  assert (Hi' : i = 0%nat \/ i = 1%nat) by lia.
  destruct Hi' as [-> | ->]; simpl.
  - exists 0%nat. simpl. split; [lia | reflexivity].
  - exists 3%nat. simpl. split; [lia | reflexivity].
Qed.

Lemma Build_smap_checks_symmetry_witness :
  (Build_smap 2 dense2_I dense2_J = None
   <-> ~ structurally_symmetric 2 dense2_I dense2_J) /\
  exists sm, Build_smap 2 dense2_I dense2_J = Some sm /\
             sm 1%nat = 2%nat /\ sm (sm 1%nat) = 1%nat.
Proof.
  destruct (Build_smap_checks_symmetry 2 dense2_I dense2_J dense2_finalized)
    as (A & _ & C).
  split; [exact A | ].
  eexists. split; [reflexivity | ]. split; reflexivity.
Defined.

(** [K + D] has no negative off-diagonal entry.  On a finalized matrix [K]
    with a structurally symmetric pattern that stores its diagonal, with [D]
    on the same pattern: for every stored off-diagonal entry [(i, j)], with
    [q'] the offset of [(j, i)], both [K(i,j) + D(i,j)] and
    [K(j,i) + D(i,j)] are non-negative, [D(i,j)] is zero exactly when
    [K(i,j)] and [K(j,i)] are both non-negative, and no stored entry of the
    result depends on what [D] held on entry. *)
Theorem upwinding_removes_negative_entries (n : nat) (I J : index)
  (Kp Dp0 Dp0' : mem) :
  finalized n I J -> structurally_symmetric n I J -> diagonal_stored n I J ->
  exists sm Dp Dp',
    Build_smap n I J = Some sm /\
    ComputeDiscreteUpwindingMatrix n I J Kp I J Dp0 = Some Dp /\
    ComputeDiscreteUpwindingMatrix n I J Kp I J Dp0' = Some Dp' /\
    (forall i q, (i < n)%nat -> inrow I i q -> Dp q = Dp' q) /\
    (forall i q, (i < n)%nat -> inrow I i q -> J q <> i ->
       0 <= Kp q + Dp q /\ 0 <= Kp (sm q) + Dp q /\
       (Dp q = 0 <-> 0 <= Kp q /\ 0 <= Kp (sm q))).
Proof.
  intros Hfin Hsym Hdiag.
  destruct (Build_smap_ok n I J Hfin Hsym) as (sm & Esm & Hsm).
  destruct (outer_loop_spec n I J Kp sm Hfin Hdiag Hsm Dp0 n (Nat.le_refl n))
    as (Dp & E & (HA & HB) & _).
  destruct (outer_loop_spec n I J Kp sm Hfin Hdiag Hsm Dp0' n (Nat.le_refl n))
    as (Dp' & E' & (HA' & HB') & _).
  exists sm, Dp, Dp'. unfold ComputeDiscreteUpwindingMatrix.
  rewrite Esm, E, E'. repeat (split; [reflexivity | ]).
  split.
  - intros i q Hi Hq. destruct (Nat.eq_dec (J q) i) as [Hd | Hd].
    + now rewrite (HB i q Hi Hq Hd), (HB' i q Hi Hq Hd).
    + now rewrite (HA i q Hi Hq Hd), (HA' i q Hi Hq Hd).
  - intros i q Hi Hq Hd. rewrite (HA i q Hi Hq Hd). unfold dval, Rmax.
    destruct (Rle_dec 0 (- Kp q));
      destruct (Rle_dec _ (- Kp (sm q))); repeat split; intros; lra.
Qed.

Lemma upwinding_removes_negative_entries_witness :
  let Kp : mem := fun q => match q with
                           | O => 1 | S O => -2 | S (S O) => 3 | _ => 4
                           end in
  exists sm Dp Dp',
    Build_smap 2 dense2_I dense2_J = Some sm /\
    ComputeDiscreteUpwindingMatrix 2 dense2_I dense2_J Kp dense2_I dense2_J
      (fun _ => 0) = Some Dp /\
    ComputeDiscreteUpwindingMatrix 2 dense2_I dense2_J Kp dense2_I dense2_J
      (fun _ => 9) = Some Dp' /\
    (forall i q, (i < 2)%nat -> inrow dense2_I i q -> Dp q = Dp' q) /\
    (forall i q, (i < 2)%nat -> inrow dense2_I i q -> dense2_J q <> i ->
       0 <= Kp q + Dp q /\ 0 <= Kp (sm q) + Dp q /\
       (Dp q = 0 <-> 0 <= Kp q /\ 0 <= Kp (sm q))).
Proof.
  intros Kp.
  exact (upwinding_removes_negative_entries 2 dense2_I dense2_J Kp
           (fun _ => 0) (fun _ => 9)
           dense2_finalized dense2_symmetric dense2_diagonal).
Defined.

End UpwindFacts.

(* ================================================================== *)
(** * [QuadratureInterpolator::Values<byVDIM>]
      (quadinterpolator_byvdim_eval.cpp:228-287): every supported
      configuration computes the dense contraction *)
(* ================================================================== *)

Module KernelFacts.

Import Arrays Kernels.

Local Open Scope Z_scope.

Lemma small_bits (b i k : Z) :
  0 <= b < 2 ^ k -> 0 <= k <= i -> Z.testbit b i = false.
Proof.
  intros Hb Hk. destruct (Z.eq_dec b 0) as [-> | Hne]; [apply Z.bits_0 | ].
  apply Z.bits_above_log2; [lia | ].
  assert (Z.log2 b < k) by (apply Z.log2_lt_pow2; lia). lia.
Qed.

Lemma lor_shiftl_add (a b k : Z) :
  0 <= k -> 0 <= b < 2 ^ k -> Z.lor (Z.shiftl a k) b = a * 2 ^ k + b.
Proof.
  intros Hk Hb. rewrite <- Z.shiftl_mul_pow2 by exact Hk.
  assert (Hland : Z.land (Z.shiftl a k) b = 0).
  { apply Z.bits_inj'. intros i Hi. rewrite Z.land_spec, Z.bits_0.
    destruct (Z.lt_ge_cases i k) as [Hlt | Hge].
    - now rewrite Z.shiftl_spec_low.
    - rewrite (small_bits b i k) by lia. apply andb_false_r. }
  pose proof (Z.add_lor_land (Z.shiftl a k) b) as H.
  rewrite Hland in H. lia.
Qed.

(** Within the four bits of each field the id is the number with the
    hexadecimal digits [dim], [vdim], [D1D], [Q1D]. *)
Lemma kernel_id_digits (dim vdim D1D Q1D : nat) :
  (vdim < 16)%nat -> (D1D < 16)%nat -> (Q1D < 16)%nat ->
  kernel_id dim vdim D1D Q1D
  = 4096 * Z.of_nat dim + 256 * Z.of_nat vdim + 16 * Z.of_nat D1D
    + Z.of_nat Q1D.
Proof.
  intros Hv Hd Hq. unfold kernel_id.
  replace (Z.shiftl (Z.of_nat dim) 12)
    with (Z.shiftl (Z.shiftl (Z.shiftl (Z.of_nat dim) 4) 4) 4)
    by (rewrite !Z.shiftl_shiftl by lia; reflexivity).
  replace (Z.shiftl (Z.of_nat vdim) 8)
    with (Z.shiftl (Z.shiftl (Z.of_nat vdim) 4) 4)
    by (rewrite !Z.shiftl_shiftl by lia; reflexivity).
  rewrite <- !Z.shiftl_lor.
  rewrite (lor_shiftl_add _ (Z.of_nat vdim) 4) by (simpl; lia).
  rewrite (lor_shiftl_add _ (Z.of_nat D1D) 4) by (simpl; lia).
  rewrite (lor_shiftl_add _ (Z.of_nat Q1D) 4) by (simpl; lia).
  change (2 ^ 4) with 16. ring.
Qed.

Local Open Scope R_scope.

(** The places [Values] is to fill and what belongs there. *)
Definition outputs2D (NE vdim D1D Q1D : nat) (B X : mem) (a : nat) (v : R)
  : Prop :=
  exists e, (e < NE)%nat /\
  exists c, (c < vdim)%nat /\
  exists qy, (qy < Q1D)%nat /\
  exists qx, (qx < Q1D)%nat /\
    a = y2 Q1D vdim c qx qy e /\ v = dense2D D1D Q1D vdim B X c qx qy e.

Definition outputs3D (NE vdim D1D Q1D : nat) (B X : mem) (a : nat) (v : R)
  : Prop :=
  exists e, (e < NE)%nat /\
  exists c, (c < vdim)%nat /\
  exists qz, (qz < Q1D)%nat /\
  exists qy, (qy < Q1D)%nat /\
  exists qx, (qx < Q1D)%nat /\
    a = y3 Q1D vdim c qx qy qz e /\
    v = dense3D D1D Q1D vdim B X c qx qy qz e.

(** [Y'] is [Y] with the places of [W] filled. *)
Definition filled (W : nat -> R -> Prop) (Y Y' : mem) : Prop :=
  forall a, (forall v, W a v -> Y' a = v) /\
            ((forall v, ~ W a v) -> Y' a = Y a).

(** Whichever label the switch takes, the kernel fills the output. *)
Lemma Values_fills (NE vdim dim D1D Q1D : nat) (B X Y : mem)
  (sh2 : shared2D) (sh3 : shared3D) :
  (vdim < 16)%nat -> (D1D <= 8)%nat -> (Q1D <= 8)%nat ->
  exists Y',
    Values NE vdim dim D1D Q1D B X Y sh2 sh3 = Returned Y' /\
    (dim = 2%nat -> filled (outputs2D NE vdim D1D Q1D B X) Y Y') /\
    (dim = 3%nat -> filled (outputs3D NE vdim D1D Q1D B X) Y Y') /\
    (dim <> 2%nat -> dim <> 3%nat -> Y' = Y).
Proof.
  intros Hv HD HQ. unfold Values.
  destruct (Nat.eqb_spec NE 0) as [-> | HNE].
  { exists Y. split; [reflexivity | ].
    split; [ | split; [ | reflexivity]]; intros _ a;
      (split; [intros v (e & He & _); lia | reflexivity]). }
  cbv zeta.
  destruct (in_dec Z.eq_dec (kernel_id dim vdim D1D Q1D) fast_ids)
    as [Hin | Hnot].
  - rewrite kernel_id_digits in Hin by lia.
    unfold fast_ids in Hin. cbn [In] in Hin.
    destruct Hin as [H | [H | [H | [H | [H | [H | [H | [H | [H | [H | [H |
                    [H | [H | []]]]]]]]]]]]]].
    + assert (E : (dim = 2 /\ vdim = 1 /\ D1D = 2 /\ Q1D = 4)%nat) by lia.
      destruct E as (-> & -> & -> & ->).
      exists (EvalByVDim2D 1 2 4 8 0 0 NE B X Y 0 0 0 sh2).
      split; [reflexivity | ].
      split; [intros _ | split; [discriminate | intros Hn; now contradiction Hn]].
      exact (kernel2D_writes 2 4 1 2 B X (le_n _) NE sh2 Y).
    + assert (E : (dim = 2 /\ vdim = 1 /\ D1D = 3 /\ Q1D = 6)%nat) by lia.
      destruct E as (-> & -> & -> & ->).
      exists (EvalByVDim2D 1 3 6 4 0 0 NE B X Y 0 0 0 sh2).
      split; [reflexivity | ].
      split; [intros _ | split; [discriminate | intros Hn; now contradiction Hn]].
      exact (kernel2D_writes 3 6 1 3 B X (le_n _) NE sh2 Y).
    + assert (E : (dim = 2 /\ vdim = 1 /\ D1D = 4 /\ Q1D = 8)%nat) by lia.
      destruct E as (-> & -> & -> & ->).
      exists (EvalByVDim2D 1 4 8 2 0 0 NE B X Y 0 0 0 sh2).
      split; [reflexivity | ].
      split; [intros _ | split; [discriminate | intros Hn; now contradiction Hn]].
      exact (kernel2D_writes 4 8 1 4 B X (le_n _) NE sh2 Y).
    + assert (E : (dim = 2 /\ vdim = 2 /\ D1D = 2 /\ Q1D = 4)%nat) by lia.
      destruct E as (-> & -> & -> & ->).
      exists (EvalByVDim2D 2 2 4 8 0 0 NE B X Y 0 0 0 sh2).
      split; [reflexivity | ].
      split; [intros _ | split; [discriminate | intros Hn; now contradiction Hn]].
      exact (kernel2D_writes 2 4 2 2 B X (le_n _) NE sh2 Y).
    + assert (E : (dim = 2 /\ vdim = 2 /\ D1D = 3 /\ Q1D = 4)%nat) by lia.
      destruct E as (-> & -> & -> & ->).
      exists (EvalByVDim2D 2 3 4 8 0 0 NE B X Y 0 0 0 sh2).
      split; [reflexivity | ].
      split; [intros _ | split; [discriminate | intros Hn; now contradiction Hn]].
      exact (kernel2D_writes 3 4 2 3 B X (le_n _) NE sh2 Y).
    + assert (E : (dim = 2 /\ vdim = 2 /\ D1D = 3 /\ Q1D = 6)%nat) by lia.
      destruct E as (-> & -> & -> & ->).
      exists (EvalByVDim2D 2 3 6 4 0 0 NE B X Y 0 0 0 sh2).
      split; [reflexivity | ].
      split; [intros _ | split; [discriminate | intros Hn; now contradiction Hn]].
      exact (kernel2D_writes 3 6 2 3 B X (le_n _) NE sh2 Y).
    + assert (E : (dim = 2 /\ vdim = 2 /\ D1D = 4 /\ Q1D = 8)%nat) by lia.
      destruct E as (-> & -> & -> & ->).
      exists (EvalByVDim2D 2 4 8 2 0 0 NE B X Y 0 0 0 sh2).
      split; [reflexivity | ].
      split; [intros _ | split; [discriminate | intros Hn; now contradiction Hn]].
      exact (kernel2D_writes 4 8 2 4 B X (le_n _) NE sh2 Y).
    + assert (E : (dim = 3 /\ vdim = 1 /\ D1D = 2 /\ Q1D = 4)%nat) by lia.
      destruct E as (-> & -> & -> & ->).
      exists (EvalByVDim3D 1 2 4 0 0 NE B X Y 0 0 0 sh3).
      split; [reflexivity | ].
      split; [discriminate | split; [intros _ | intros _ Hn; now contradiction Hn]].
      exact (kernel3D_writes 2 4 1 2 4 B X (le_n _) (le_n _) NE sh3 Y).
    + assert (E : (dim = 3 /\ vdim = 1 /\ D1D = 3 /\ Q1D = 6)%nat) by lia.
      destruct E as (-> & -> & -> & ->).
      exists (EvalByVDim3D 1 3 6 0 0 NE B X Y 0 0 0 sh3).
      split; [reflexivity | ].
      split; [discriminate | split; [intros _ | intros _ Hn; now contradiction Hn]].
      exact (kernel3D_writes 3 6 1 3 6 B X (le_n _) (le_n _) NE sh3 Y).
    + assert (E : (dim = 3 /\ vdim = 1 /\ D1D = 4 /\ Q1D = 8)%nat) by lia.
      destruct E as (-> & -> & -> & ->).
      exists (EvalByVDim3D 1 4 8 0 0 NE B X Y 0 0 0 sh3).
      split; [reflexivity | ].
      split; [discriminate | split; [intros _ | intros _ Hn; now contradiction Hn]].
      exact (kernel3D_writes 4 8 1 4 8 B X (le_n _) (le_n _) NE sh3 Y).
    + assert (E : (dim = 3 /\ vdim = 3 /\ D1D = 2 /\ Q1D = 4)%nat) by lia.
      destruct E as (-> & -> & -> & ->).
      exists (EvalByVDim3D 3 2 4 0 0 NE B X Y 0 0 0 sh3).
      split; [reflexivity | ].
      split; [discriminate | split; [intros _ | intros _ Hn; now contradiction Hn]].
      exact (kernel3D_writes 2 4 3 2 4 B X (le_n _) (le_n _) NE sh3 Y).
    + assert (E : (dim = 3 /\ vdim = 3 /\ D1D = 3 /\ Q1D = 6)%nat) by lia.
      destruct E as (-> & -> & -> & ->).
      exists (EvalByVDim3D 3 3 6 0 0 NE B X Y 0 0 0 sh3).
      split; [reflexivity | ].
      split; [discriminate | split; [intros _ | intros _ Hn; now contradiction Hn]].
      exact (kernel3D_writes 3 6 3 3 6 B X (le_n _) (le_n _) NE sh3 Y).
    + assert (E : (dim = 3 /\ vdim = 3 /\ D1D = 4 /\ Q1D = 8)%nat) by lia.
      destruct E as (-> & -> & -> & ->).
      exists (EvalByVDim3D 3 4 8 0 0 NE B X Y 0 0 0 sh3).
      split; [reflexivity | ].
      split; [discriminate | split; [intros _ | intros _ Hn; now contradiction Hn]].
      exact (kernel3D_writes 4 8 3 4 8 B X (le_n _) (le_n _) NE sh3 Y).
  - rewrite (fast_path_none _ NE B X Y sh2 sh3 Hnot).
    unfold generic_path. cbv zeta.
    destruct (Nat.leb_spec D1D 8) as [_ | ?]; [ | lia].
    destruct (Nat.leb_spec Q1D 8) as [_ | ?]; [ | lia].
    simpl negb. cbv iota.
    eexists. split; [reflexivity | ].
    split; [ | split].
    + intros ->. simpl Nat.eqb. cbv iota.
      exact (kernel2D_writes D1D Q1D vdim 8 B X HD NE sh2 Y).
    + intros ->. simpl Nat.eqb. cbv iota.
      exact (kernel3D_writes D1D Q1D vdim 8 8 B X HD HQ NE sh3 Y).
    + intros H2 H3.
      destruct (Nat.eqb_spec dim 2) as [? | _]; [contradiction | ].
      destruct (Nat.eqb_spec dim 3) as [? | _]; [contradiction | ].
      reflexivity.
Qed.

(** With [vdim] below 16 and at most 8 DOFs and 8 points per direction,
    [Values] returns, whichever kernel the switch selects, and the output
    holds the dense contraction of the input with [B] at every component and
    quadrature point of every element: in 2D
    [Y(c,qx,qy,e) = sum_dx sum_dy B(qx,dx) B(qy,dy) X(dx,dy,c,e)], in 3D the
    triple sum.  The result at these places does not depend on what [Y] and
    the scratch arrays hold on entry. *)
Theorem Values_is_dense (NE vdim dim D1D Q1D : nat) (B X Y : mem)
  (sh2 : shared2D) (sh3 : shared3D) :
  (vdim < 16)%nat -> (D1D <= 8)%nat -> (Q1D <= 8)%nat ->
  exists Y',
    Values NE vdim dim D1D Q1D B X Y sh2 sh3 = Returned Y' /\
    (dim = 2%nat ->
     forall e c qx qy,
       (e < NE)%nat -> (c < vdim)%nat -> (qx < Q1D)%nat -> (qy < Q1D)%nat ->
       Y' (y2 Q1D vdim c qx qy e) = dense2D D1D Q1D vdim B X c qx qy e) /\
    (dim = 3%nat ->
     forall e c qx qy qz,
       (e < NE)%nat -> (c < vdim)%nat ->
       (qx < Q1D)%nat -> (qy < Q1D)%nat -> (qz < Q1D)%nat ->
       Y' (y3 Q1D vdim c qx qy qz e)
       = dense3D D1D Q1D vdim B X c qx qy qz e).
Proof.
  intros Hv HD HQ.
  destruct (Values_fills NE vdim dim D1D Q1D B X Y sh2 sh3 Hv HD HQ)
    as (Y' & E & H2 & H3 & _).
  exists Y'. split; [exact E | ]. split.
  - intros Hd e c qx qy He Hc Hx Hy.
    apply (proj1 (H2 Hd _)).
    exists e. split; [exact He | ]. exists c. split; [exact Hc | ].
    exists qy. split; [exact Hy | ]. exists qx. auto.
  - intros Hd e c qx qy qz He Hc Hx Hy Hz.
    apply (proj1 (H3 Hd _)).
    exists e. split; [exact He | ]. exists c. split; [exact Hc | ].
    exists qz. split; [exact Hz | ]. exists qy. split; [exact Hy | ].
    exists qx. auto.
Qed.

Lemma Values_is_dense_witness :
  let z : mem := fun _ => 0 in
  let sh2 := mkShared2D z z z in
  let sh3 := mkShared3D z z z in
  exists Y',
    Values 1 1 2 2 4 (fun _ => 1) (fun _ => 2) z sh2 sh3 = Returned Y' /\
    Y' (y2 4 1 0 1 3 0) = dense2D 2 4 1 (fun _ => 1) (fun _ => 2) 0 1 3 0.
Proof.
  intros z sh2 sh3.
  destruct (Values_is_dense 1 1 2 2 4 (fun _ => 1) (fun _ => 2) z sh2 sh3)
    as (Y' & E & H2 & _); try lia.
  exists Y'. split; [exact E | ]. apply H2; (reflexivity || lia).
Defined.

Lemma y2_below (Q V c qx qy e NE : nat) :
  (e < NE)%nat -> (c < V)%nat -> (qx < Q)%nat -> (qy < Q)%nat ->
  (y2 Q V c qx qy e < V * Q * Q * NE)%nat.
Proof.
  intros He Hc Hx Hy. unfold y2, idx4, idx3, idx2.
  assert (H1 : (qy + Q * e + 1 <= Q * NE)%nat) by nia.
  assert (H2 : (qx + Q * (qy + Q * e) + 1 <= Q * (Q * NE))%nat) by nia.
  assert (H3 : (c + V * (qx + Q * (qy + Q * e)) + 1 <= V * (Q * (Q * NE)))%nat)
    by nia.
  nia.
Qed.

Lemma y3_below (Q V c qx qy qz e NE : nat) :
  (e < NE)%nat -> (c < V)%nat -> (qx < Q)%nat -> (qy < Q)%nat ->
  (qz < Q)%nat ->
  (y3 Q V c qx qy qz e < V * Q * Q * Q * NE)%nat.
Proof.
  intros He Hc Hx Hy Hz. unfold y3, idx5, idx4, idx3, idx2.
  assert (H0 : (qz + Q * e + 1 <= Q * NE)%nat) by nia.
  assert (H1 : (qy + Q * (qz + Q * e) + 1 <= Q * (Q * NE))%nat) by nia.
  assert (H2 : (qx + Q * (qy + Q * (qz + Q * e)) + 1
                <= Q * (Q * (Q * NE)))%nat) by nia.
  assert (H3 : (c + V * (qx + Q * (qy + Q * (qz + Q * e))) + 1
                <= V * (Q * (Q * (Q * NE))))%nat) by nia.
  nia.
Qed.

(** [Values] writes nothing outside the output vector: with [vdim] below 16
    and at most 8 DOFs and 8 points per direction, every entry of [Y] from
    [vdim * Q1D^dim * NE] on keeps its value; nothing at all is written when
    there is no element, or when the dimension is neither 2 nor 3. *)
Theorem Values_stays_in_output (NE vdim dim D1D Q1D : nat) (B X Y : mem)
  (sh2 : shared2D) (sh3 : shared3D) :
  (vdim < 16)%nat -> (D1D <= 8)%nat -> (Q1D <= 8)%nat ->
  exists Y',
    Values NE vdim dim D1D Q1D B X Y sh2 sh3 = Returned Y' /\
    (dim = 2%nat ->
     forall a, (vdim * Q1D * Q1D * NE <= a)%nat -> Y' a = Y a) /\
    (dim = 3%nat ->
     forall a, (vdim * Q1D * Q1D * Q1D * NE <= a)%nat -> Y' a = Y a) /\
    (dim <> 2%nat -> dim <> 3%nat -> Y' = Y) /\
    (NE = 0%nat -> forall a, Y' a = Y a).
Proof.
  intros Hv HD HQ.
  destruct (Values_fills NE vdim dim D1D Q1D B X Y sh2 sh3 Hv HD HQ)
    as (Y' & E & H2 & H3 & H4).
  exists Y'. split; [exact E | ].
  assert (F2 : dim = 2%nat ->
            forall a, (vdim * Q1D * Q1D * NE <= a)%nat -> Y' a = Y a).
  { intros Hd a Ha. apply (proj2 (H2 Hd a)).
    intros v (e & He & c & Hc & qy & Hy & qx & Hx & -> & _).
    pose proof (y2_below Q1D vdim c qx qy e NE He Hc Hx Hy). lia. }
  assert (F3 : dim = 3%nat ->
            forall a, (vdim * Q1D * Q1D * Q1D * NE <= a)%nat -> Y' a = Y a).
  { intros Hd a Ha. apply (proj2 (H3 Hd a)).
    intros v (e & He & c & Hc & qz & Hz & qy & Hy & qx & Hx & -> & _).
    pose proof (y3_below Q1D vdim c qx qy qz e NE He Hc Hx Hy Hz). lia. }
  split; [exact F2 | ]. split; [exact F3 | ]. split; [exact H4 | ].
  intros -> a.
  destruct (Nat.eq_dec dim 2) as [Hd2 | Hd2]; [apply (F2 Hd2); lia | ].
  destruct (Nat.eq_dec dim 3) as [Hd3 | Hd3]; [apply (F3 Hd3); lia | ].
  now rewrite (H4 Hd2 Hd3).
Qed.

Lemma Values_stays_in_output_witness :
  let z : mem := fun _ => 0 in
  let sh2 := mkShared2D z z z in
  let sh3 := mkShared3D z z z in
  exists Y',
    Values 1 1 2 2 4 (fun _ => 1) (fun _ => 2) (fun _ => 5) sh2 sh3
    = Returned Y' /\ Y' 16%nat = 5.
Proof.
  intros z sh2 sh3.
  destruct (Values_stays_in_output 1 1 2 2 4 (fun _ => 1) (fun _ => 2)
              (fun _ => 5) sh2 sh3) as (Y' & E & H2 & _); try lia.
  exists Y'. split; [exact E | ]. apply H2; [reflexivity | simpl; lia].
Defined.

Lemma sum_n_linear (n : nat) (alpha : R) (f g : nat -> R) :
  sum_n n (fun i => alpha * f i + g i) = alpha * sum_n n f + sum_n n g.
Proof.
  induction n as [| n IH]; [unfold sum_n; simpl; lra | ].
  rewrite !sum_n_S, IH. lra.
Qed.

Lemma dense2D_linear (D Q V : nat) (B X1 X2 : mem) (alpha : R)
  (c qx qy e : nat) :
  dense2D D Q V B (fun a => alpha * X1 a + X2 a) c qx qy e
  = alpha * dense2D D Q V B X1 c qx qy e + dense2D D Q V B X2 c qx qy e.
Proof.
  unfold dense2D, x2.
  rewrite <- sum_n_linear. apply sum_n_ext. intros dx _.
  rewrite <- sum_n_linear. apply sum_n_ext. intros dy _. ring.
Qed.

Lemma dense3D_linear (D Q V : nat) (B X1 X2 : mem) (alpha : R)
  (c qx qy qz e : nat) :
  dense3D D Q V B (fun a => alpha * X1 a + X2 a) c qx qy qz e
  = alpha * dense3D D Q V B X1 c qx qy qz e
    + dense3D D Q V B X2 c qx qy qz e.
Proof.
  unfold dense3D, x3.
  rewrite <- sum_n_linear. apply sum_n_ext. intros dx _.
  rewrite <- sum_n_linear. apply sum_n_ext. intros dy _.
  rewrite <- sum_n_linear. apply sum_n_ext. intros dz _. ring.
Qed.

(** [Values] is linear in the input vector: with [vdim] below 16 and at most
    8 DOFs and 8 points per direction, the values computed for
    [alpha * X1 + X2] are [alpha] times those for [X1] plus those for [X2],
    at every component and quadrature point of every element, whatever the
    three output vectors held before. *)
Theorem Values_is_linear (NE vdim dim D1D Q1D : nat) (B X1 X2 : mem)
  (alpha : R) (Y Y1 Y2 : mem) (sh2 : shared2D) (sh3 : shared3D) :
  (vdim < 16)%nat -> (D1D <= 8)%nat -> (Q1D <= 8)%nat ->
  exists Z Z1 Z2,
    Values NE vdim dim D1D Q1D B (fun a => alpha * X1 a + X2 a) Y sh2 sh3
    = Returned Z /\
    Values NE vdim dim D1D Q1D B X1 Y1 sh2 sh3 = Returned Z1 /\
    Values NE vdim dim D1D Q1D B X2 Y2 sh2 sh3 = Returned Z2 /\
    (dim = 2%nat ->
     forall e c qx qy,
       (e < NE)%nat -> (c < vdim)%nat -> (qx < Q1D)%nat -> (qy < Q1D)%nat ->
       let a := y2 Q1D vdim c qx qy e in
       Z a = alpha * Z1 a + Z2 a) /\
    (dim = 3%nat ->
     forall e c qx qy qz,
       (e < NE)%nat -> (c < vdim)%nat ->
       (qx < Q1D)%nat -> (qy < Q1D)%nat -> (qz < Q1D)%nat ->
       let a := y3 Q1D vdim c qx qy qz e in
       Z a = alpha * Z1 a + Z2 a).
Proof.
  intros Hv HD HQ.
  destruct (Values_fills NE vdim dim D1D Q1D B (fun a => alpha * X1 a + X2 a)
              Y sh2 sh3 Hv HD HQ) as (Z & E & A2 & A3 & _).
  destruct (Values_fills NE vdim dim D1D Q1D B X1 Y1 sh2 sh3 Hv HD HQ)
    as (Z1 & E1 & B2 & B3 & _).
  destruct (Values_fills NE vdim dim D1D Q1D B X2 Y2 sh2 sh3 Hv HD HQ)
    as (Z2 & E2 & C2 & C3 & _).
  exists Z, Z1, Z2. repeat (split; [assumption | ]). split.
  - intros Hd e c qx qy He Hc Hx Hy a.
    rewrite (proj1 (A2 Hd a)
               (dense2D D1D Q1D vdim B (fun a => alpha * X1 a + X2 a)
                        c qx qy e)),
            (proj1 (B2 Hd a) (dense2D D1D Q1D vdim B X1 c qx qy e)),
            (proj1 (C2 Hd a) (dense2D D1D Q1D vdim B X2 c qx qy e));
      [apply dense2D_linear | | | ];
      (exists e; split; [exact He | ]; exists c; split; [exact Hc | ];
       exists qy; split; [exact Hy | ]; exists qx; auto).
  - intros Hd e c qx qy qz He Hc Hx Hy Hz a.
    rewrite (proj1 (A3 Hd a)
               (dense3D D1D Q1D vdim B (fun a => alpha * X1 a + X2 a)
                        c qx qy qz e)),
            (proj1 (B3 Hd a) (dense3D D1D Q1D vdim B X1 c qx qy qz e)),
            (proj1 (C3 Hd a) (dense3D D1D Q1D vdim B X2 c qx qy qz e));
      [apply dense3D_linear | | | ];
      (exists e; split; [exact He | ]; exists c; split; [exact Hc | ];
       exists qz; split; [exact Hz | ]; exists qy; split; [exact Hy | ];
       exists qx; auto).
Qed.

Lemma Values_is_linear_witness :
  let z : mem := fun _ => 0 in
  let sh2 := mkShared2D z z z in
  let sh3 := mkShared3D z z z in
  exists Z Z1 Z2,
    Values 1 1 2 2 4 (fun _ => 1) (fun a => 3 * INR a + 1) z sh2 sh3
    = Returned Z /\
    Values 1 1 2 2 4 (fun _ => 1) INR z sh2 sh3 = Returned Z1 /\
    Values 1 1 2 2 4 (fun _ => 1) (fun _ => 1) z sh2 sh3 = Returned Z2 /\
    Z (y2 4 1 0 1 3 0) = 3 * Z1 (y2 4 1 0 1 3 0) + Z2 (y2 4 1 0 1 3 0).
Proof.
  intros z sh2 sh3.
  destruct (Values_is_linear 1 1 2 2 4 (fun _ => 1) INR (fun _ => 1) 3
              z z z sh2 sh3) as (Z & Z1 & Z2 & E & E1 & E2 & H2 & _);
    try lia.
  exists Z, Z1, Z2. repeat (split; [assumption | ]).
  apply H2; (reflexivity || lia).
Defined.

End KernelFacts.

(* ================================================================== *)
(** * The restriction of a global vector to the subdomains
      (DofMapsDST.cpp:726-805, [DofMaps::GlobalToSubdomains]) *)

Module Restrict.

Import Arrays.
Import Accumulate.

Local Open Scope nat_scope.

(** [x.resize(nrsubdomains)] on a [std::vector<Vector>]: the vectors beyond
    [nrsubdomains] go, the missing ones are created empty. *)
Definition resize (n : nat) (x : list (list R)) : list (list R) :=
  firstn n x ++ repeat [] (n - length x).

(** [x[ip] = v] for the whole vector [x[ip]]. *)
Fixpoint set_vector (x : list (list R)) (ip : nat) (v : list R)
  : list (list R) :=
  match x, ip with
  | [], _ => []
  | _ :: x', O => v :: x'
  | w :: x', S ip' => w :: set_vector x' ip' v
  end.

Section Run.

(** The same on every process. *)
Variable num_procs : nat.
Variable nrsubdomains : nat.
Variable subdomain_rank : list nat.
Variable tdof_offsets : list Z.

(** The two loops [for (ip < nrsubdomains) { ndofs =
    SubdomainLTrueDofs[ip].Size(); for (i < ndofs) ... }] over every
    subdomain, owned or not, with [tdof = SubdomainLTrueDofs[ip][i]].  The
    rank that both loops compute with [get_rank(tdof, tdof_offsets)] is not
    used: its test is commented out in the source. *)
Definition over_local {St : Type} (p : process)
  (body : nat -> Z -> St -> St) (st : St) : St :=
  forloop nrsubdomains
    (fun ip st =>
       let dofs := nth ip (SubdomainLTrueDofs p) [] in
       forloop (length dofs) (fun i st => body ip (nth i dofs 0%Z) st) st)
    st.

(** The counting pass: [send_count[subdomain_rank[ip]]++]. *)
Definition compute_send_count (p : process) : counts :=
  over_local p
    (fun ip _ send_count =>
       let d := owner subdomain_rank ip in updn send_count d (send_count d + 1))
    (fun _ => 0).

(** The fill of [sendbuf]: [j = send_displ[subdomain_rank[ip]] +
    soffs[subdomain_rank[ip]]; soffs[subdomain_rank[ip]]++;
    k = tdof - mytoffset; sendbuf[j] = y[k];]. *)
Definition fill_sendbuf (p : process) (y : mem) (send_displ : counts) : mem :=
  fst (over_local p
         (fun ip tdof =>
            fill_step send_displ (owner subdomain_rank ip) (y (entry p tdof)))
         (fun _ => 0%R, fun _ => 0)).

(** The extraction: [tdof = SubdomainGTrueDofs[ip][i];
    k = recv_displ[tdof_rank] + roffs[tdof_rank]; roffs[tdof_rank]++;
    x[ip][i] = recvbuf[k];].  The state is [(x[ip], roffs)]. *)
Definition extract_step (recv_displ : counts) (recvbuf : mem) (i : nat)
  (tdof : Z) (st : list R * counts) : list R * counts :=
  let '(v, roffs) := st in
  let rk := tdof_rank tdof_offsets tdof in
  let k := recv_displ rk + roffs rk in
  (Transfer.set_entry v i (recvbuf k), updn roffs rk (roffs rk + 1)).

(** The last loop, over the owned subdomains.  [x[ip].SetSize(ndof)] leaves a
    vector of [ndof] entries; [fresh ip i] stands for what entry [i] holds
    until the loop assigns it. *)
Definition extract (p : process) (recv_displ : counts) (recvbuf : mem)
  (fresh : nat -> nat -> R) (x : list (list R)) : list (list R) :=
  fst (forloop nrsubdomains
         (fun ip (st : list (list R) * counts) =>
            if negb (Nat.eqb (myid p) (owner subdomain_rank ip)) then st
            else
              let dofs := nth ip (SubdomainGTrueDofs p) [] in
              let ndof := length dofs in
              let v0 := map (fresh ip) (seq 0 ndof) in
              let res := forloop ndof
                           (fun i st =>
                              extract_step recv_displ recvbuf i
                                           (nth i dofs 0%Z) st)
                           (v0, snd st) in
              (set_vector (fst st) ip (fst res), snd res))
         (resize nrsubdomains x, fun _ => 0)).

(** [void DofMaps::GlobalToSubdomains(const Vector & y,
    std::vector<Vector> & x)] run by all the processes: [procs s], [y s] and
    [x s] are the maps and the arguments on process [s]; the result is the
    vector of vectors [x] of process [r] after the call. *)
Definition GlobalToSubdomains (procs : nat -> process) (y : nat -> mem)
  (x : nat -> list (list R)) (junk : mem) (fresh : nat -> nat -> R) (r : nat)
  : list (list R) :=
  let send_count := fun s => compute_send_count (procs s) in
  let send_displ := fun s => displacements num_procs (send_count s) in
  let sendbuf := fun s => fill_sendbuf (procs s) (y s) (send_displ s) in
  let recv_count := fun s => send_count s r in
  let recv_displ := displacements num_procs recv_count in
  let recvbuf :=
    alltoallv num_procs sendbuf send_displ r recv_count recv_displ junk in
  extract (procs r) recv_displ recvbuf fresh (x r).

End Run.

(** ** One exchange, seen through the buckets *)

Lemma fill_by_buckets (num_procs : nat) (items : list (nat * R))
  (count : counts) :
  (forall it, In it items -> fst it < num_procs) ->
  (forall q, count q = length (bucket q items)) ->
  forall r t, t < length (bucket r items) ->
    fst (fill_pass (displacements num_procs count) items
                   (fun _ => 0%R, fun _ => 0))
        (displacements num_procs count r + t)
    = nth t (bucket r items) 0%R.
Proof.
  intros Hkeys Hcount r t Ht.
  set (displ := displacements num_procs count).
  assert (Hrange : forall q, 0 < length (bucket q items) -> q < num_procs).
  { intros q Hq. destruct (Nat.lt_ge_cases q num_procs) as [H | H]; [exact H | ].
    rewrite bucket_nil in Hq; [simpl in Hq; lia | ].
    intros it Hit. apply Hkeys in Hit. lia. }
  assert (Hd : forall q, q < num_procs ->
            displ q = psum (fun q => length (bucket q items)) q).
  { intros q Hq. unfold displ. rewrite displacements_spec by exact Hq.
    clear - Hcount. induction q as [| q IH]; [reflexivity | ].
    simpl. now rewrite IH, Hcount. }
  destruct (fill_pass_spec displ items (fun _ => 0%R) (fun _ => 0)) as [H1 _].
  - intros q q' u u' Hq Hu Hu'. simpl in Hu, Hu'.
    rewrite !Hd by (apply Hrange; lia).
    apply psum_separated; assumption.
  - specialize (H1 r t Ht). simpl in H1. exact H1.
Qed.

Lemma exchange_by_buckets (num_procs : nat) (items : nat -> list (nat * R))
  (send_count : nat -> counts) (sendbuf : nat -> mem) (junk : mem) (r : nat) :
  (forall s it, s < num_procs -> In it (items s) -> fst it < num_procs) ->
  (forall s q, send_count s q = length (bucket q (items s))) ->
  (forall s, sendbuf s
             = fst (fill_pass (displacements num_procs (send_count s))
                              (items s) (fun _ => 0%R, fun _ => 0))) ->
  forall s t, s < num_procs -> t < length (bucket r (items s)) ->
    alltoallv num_procs sendbuf
              (fun s => displacements num_procs (send_count s)) r
              (fun s => send_count s r)
              (displacements num_procs (fun s => send_count s r)) junk
              (displacements num_procs (fun s => send_count s r) s + t)
    = nth t (bucket r (items s)) 0%R.
Proof.
  intros Hkeys Hcount Hbuf s t Hs Ht.
  rewrite alltoallv_spec.
  - rewrite Hbuf. apply fill_by_buckets; [intros it; now apply Hkeys | apply Hcount | exact Ht].
  - intros s1 s2 t1 t2 H1 H2 H12 Ht1 Ht2.
    rewrite !displacements_spec by assumption.
    now apply psum_separated.
  - exact Hs.
  - now rewrite Hcount.
Qed.

(** ** Lists, position by position *)

Lemma firstn_snoc {A : Type} (d : A) (l : list A) (i : nat) :
  i < length l -> firstn (S i) l = firstn i l ++ [nth i l d].
Proof.
  revert i. induction l as [| a l IH]; intros i Hi; [simpl in Hi; lia | ].
  destruct i as [| i]; [reflexivity | ].
  simpl in Hi. simpl. f_equal. apply IH. lia.
Qed.

Lemma split_at {A : Type} (d : A) (l : list A) (i : nat) :
  i < length l -> l = firstn i l ++ nth i l d :: skipn (S i) l.
Proof.
  revert i. induction l as [| a l IH]; intros i Hi; [simpl in Hi; lia | ].
  destruct i as [| i]; [reflexivity | ].
  simpl in Hi. simpl. f_equal. apply IH. lia.
Qed.

Lemma fold_left_by_index {St A : Type} (d : A) (f : St -> A -> St)
  (l : list A) (s : St) :
  fold_left f l s = fold_left (fun s i => f s (nth i l d)) (seq 0 (length l)) s.
Proof.
  rewrite <- (fold_left_map f (fun i => nth i l d)).
  now rewrite <- list_by_index.
Qed.

(** The selected element at position [i] is the one that the elements
    selected before it leave next. *)
Lemma filter_next {A : Type} (d : A) (f : A -> bool) (l : list A) (i : nat) :
  i < length l -> f (nth i l d) = true ->
  length (filter f (firstn i l)) < length (filter f l) /\
  nth (length (filter f (firstn i l))) (filter f l) d = nth i l d.
Proof.
  intros Hi Hf. rewrite (split_at d l i Hi) at 2 4.
  rewrite filter_app. simpl filter. rewrite Hf. split.
  - rewrite length_app. simpl. lia.
  - rewrite app_nth2, Nat.sub_diag by lia. reflexivity.
Qed.

Lemma set_vector_length (x : list (list R)) (ip : nat) (v : list R) :
  length (set_vector x ip v) = length x.
Proof.
  revert ip. induction x as [| w x IH]; intros [| ip]; simpl; auto.
Qed.

Lemma set_vector_nth (x : list (list R)) (ip q : nat) (v : list R) :
  nth q (set_vector x ip v) []
  = if Nat.eqb q ip && Nat.ltb ip (length x) then v else nth q x [].
Proof.
  revert ip q. induction x as [| w x IH]; intros ip q.
  - simpl. destruct ip, q; simpl; try reflexivity;
      rewrite andb_false_r; reflexivity.
  - destruct ip as [| ip], q as [| q]; simpl; try reflexivity.
    rewrite IH. reflexivity.
Qed.

Lemma resize_length (n : nat) (x : list (list R)) : length (resize n x) = n.
Proof.
  unfold resize. rewrite length_app, length_firstn, repeat_length. lia.
Qed.

Lemma resize_nth (n q : nat) (x : list (list R)) :
  q < n -> nth q (resize n x) [] = nth q x [].
Proof.
  intros Hq. unfold resize.
  destruct (Nat.lt_ge_cases q (length x)) as [H | H].
  - rewrite app_nth1 by (rewrite length_firstn; lia).
    rewrite <- (firstn_skipn n x) at 2.
    rewrite app_nth1 by (rewrite length_firstn; lia). reflexivity.
  - rewrite (nth_overflow x) by exact H.
    rewrite app_nth2 by (rewrite length_firstn; lia).
    destruct (nth_in_or_default (q - length (firstn n x))
                                (repeat [] (n - length x)) (@nil R))
      as [Hin | E]; [ | exact E].
    now apply repeat_spec in Hin.
Qed.

(** ** The sending and the receiving side *)

Section Gather.

Variable num_procs : nat.
Variable nrsubdomains : nat.
Variable subdomain_rank : list nat.
Variable tdof_offsets : list Z.
Variable procs : nat -> process.
Variable y : nat -> mem.
Variable x : nat -> list (list R).
Variable junk : mem.
Variable fresh : nat -> nat -> R.

Hypothesis HB : bridge num_procs nrsubdomains subdomain_rank tdof_offsets procs.

Variable r : nat.
Hypothesis Hr : r < num_procs.

Local Abbreviation own := (owner subdomain_rank).
Local Abbreviation G := (owned_dofs subdomain_rank procs).
Local Abbreviation trank := (tdof_rank tdof_offsets).

(** The value of the global vector at DOF [tdof], as process [s] holds it. *)
Definition held (s : nat) (tdof : Z) : R := y s (entry (procs s) tdof).

(** The pairs (destination, value) that process [s] sends for subdomain
    [ip], in the order of the inner loop. *)
Definition sent_of (s ip : nat) : list (nat * R) :=
  map (fun tdof => (own ip, held s tdof))
      (nth ip (SubdomainLTrueDofs (procs s)) []).

Definition sent (s : nat) : list (nat * R) :=
  flat_map (sent_of s) (seq 0 nrsubdomains).

Lemma over_local_sent {St : Type} (s : nat) (h : nat * R -> St -> St)
  (st : St) :
  over_local nrsubdomains (procs s)
    (fun ip tdof => h (own ip, held s tdof)) st
  = fold_left (fun st it => h it st) (sent s) st.
Proof.
  unfold over_local, sent. rewrite forloop_fold, fold_left_flat_map.
  apply fold_left_ext. intros st' ip. cbv zeta. unfold sent_of.
  rewrite forloop_fold, fold_left_map.
  symmetry.
  apply (fold_left_by_index 0%Z (fun st a => h (own ip, held s a) st)).
Qed.

Lemma restrict_count_spec (s q : nat) :
  compute_send_count nrsubdomains subdomain_rank (procs s) q
  = length (bucket q (sent s)).
Proof.
  change (length (bucket q (sent s))) with (0 + length (bucket q (sent s))).
  rewrite <- (count_pass_spec (sent s) (fun _ => 0) q). unfold count_pass.
  rewrite <- (over_local_sent s
                (fun it c => updn c (fst it) (c (fst it) + 1)) (fun _ => 0)).
  reflexivity.
Qed.

Lemma restrict_fill_spec (s : nat) (displ : counts) :
  fill_sendbuf nrsubdomains subdomain_rank (procs s) (y s) displ
  = fst (fill_pass displ (sent s) (fun _ => 0%R, fun _ => 0)).
Proof.
  unfold fill_pass.
  rewrite <- (over_local_sent s
                (fun it st => fill_step displ (fst it) (snd it) st)
                (fun _ => 0%R, fun _ => 0)).
  reflexivity.
Qed.

Lemma sent_keys (s : nat) (it : nat * R) :
  In it (sent s) -> fst it < num_procs.
Proof.
  intros Hit. unfold sent in Hit.
  apply in_flat_map in Hit as [ip [Hip Hit]]. apply in_seq in Hip.
  unfold sent_of in Hit. apply in_map_iff in Hit as [tdof [<- _]].
  simpl. apply (owner_in_range _ _ _ _ _ HB). lia.
Qed.

(** The DOFs of subdomain [ip] that process [s] owns, in the owner's
    order. *)
Definition mine (s ip : nat) : list Z :=
  filter (fun tdof => Nat.eqb (trank tdof) s) (G ip).

Lemma local_is_mine (s ip : nat) :
  s < num_procs -> ip < nrsubdomains ->
  nth ip (SubdomainLTrueDofs (procs s)) [] = mine s ip.
Proof.
  intros Hs Hip. rewrite (local_dofs _ _ _ _ _ HB s ip Hs Hip).
  unfold mine. apply filter_ext_in. intros tdof Hin.
  apply (In_nth _ _ 0%Z) in Hin as [i [Hi <-]].
  pose proof (ranks_in_range _ _ _ _ _ HB ip i Hip Hi) as H.
  unfold tdof_rank.
  destruct (Z.eqb_spec (Rank.get_rank (nth i (G ip) 0%Z) tdof_offsets)
                       (Z.of_nat s)) as [E | E];
    symmetry; [apply Nat.eqb_eq | apply Nat.eqb_neq]; lia.
Qed.

(** What process [s] sends to [r], and the part of it that belongs to the
    subdomains before [n]. *)
Definition chan (s : nat) : list R := bucket r (sent s).

Definition pre (n s : nat) : list R :=
  bucket r (flat_map (sent_of s) (seq 0 n)).

Lemma sent_of_bucket (s n : nat) :
  s < num_procs -> n < nrsubdomains ->
  bucket r (sent_of s n)
  = if Nat.eqb (own n) r then map (held s) (mine s n) else [].
Proof.
  intros Hs Hn. unfold sent_of. rewrite (local_is_mine s n Hs Hn).
  unfold bucket. rewrite filter_map_comm, map_map. simpl.
  destruct (Nat.eqb (own n) r).
  - f_equal. induction (mine s n) as [| a l IH]; [reflexivity | ].
    simpl. now rewrite IH.
  - induction (mine s n) as [| a l IH]; [reflexivity | exact IH].
Qed.

Lemma restrict_pre_S (n s : nat) :
  s < num_procs -> n < nrsubdomains ->
  pre (S n) s
  = pre n s ++ (if Nat.eqb (own n) r then map (held s) (mine s n) else []).
Proof.
  intros Hs Hn. unfold pre. rewrite seq_S, flat_map_app, bucket_app. simpl.
  rewrite app_nil_r. f_equal. now apply sent_of_bucket.
Qed.

Lemma restrict_chan_split (n s : nat) :
  s < num_procs -> n < nrsubdomains -> own n = r ->
  exists post, chan s = pre n s ++ map (held s) (mine s n) ++ post.
Proof.
  intros Hs Hn Hown. unfold chan, sent, pre.
  rewrite (seq_split n nrsubdomains Hn), flat_map_app, bucket_app.
  simpl flat_map. rewrite bucket_app.
  eexists. f_equal. f_equal.
  rewrite (sent_of_bucket s n Hs Hn), Hown, Nat.eqb_refl. reflexivity.
Qed.

(** The receive side of the two collectives on process [r]. *)
Definition recv_count (s : nat) : nat :=
  compute_send_count nrsubdomains subdomain_rank (procs s) r.

Definition recv_displ : counts := displacements num_procs recv_count.

Definition recvbuf : mem :=
  alltoallv num_procs
    (fun s =>
       fill_sendbuf nrsubdomains subdomain_rank (procs s) (y s)
         (displacements num_procs
            (compute_send_count nrsubdomains subdomain_rank (procs s))))
    (fun s =>
       displacements num_procs
         (compute_send_count nrsubdomains subdomain_rank (procs s)))
    r recv_count recv_displ junk.

Lemma restrict_recvbuf_spec (s t : nat) :
  s < num_procs -> t < length (chan s) ->
  recvbuf (recv_displ s + t) = nth t (chan s) 0%R.
Proof.
  intros Hs Ht.
  apply (exchange_by_buckets num_procs sent
           (fun s => compute_send_count nrsubdomains subdomain_rank (procs s))
           _ junk r).
  - intros s' it _. apply sent_keys.
  - intros s' q. apply restrict_count_spec.
  - intros s'. apply restrict_fill_spec.
  - exact Hs.
  - exact Ht.
Qed.

(** One owned subdomain of the extraction loop. *)
Lemma extract_subdomain (n : nat) (roffs0 : counts) :
  n < nrsubdomains -> own n = r ->
  (forall s, s < num_procs -> roffs0 s = length (pre n s)) ->
  let dofs := G n in
  let st := forloop (length dofs)
              (fun i st =>
                 extract_step tdof_offsets recv_displ recvbuf i
                              (nth i dofs 0%Z) st)
              (map (fresh n) (seq 0 (length dofs)), roffs0) in
  length (fst st) = length dofs /\
  (forall s, s < num_procs -> snd st s = length (pre (S n) s)) /\
  (forall i, i < length dofs ->
     nth i (fst st) 0%R
     = held (trank (nth i dofs 0%Z)) (nth i dofs 0%Z)).
Proof.
  intros Hn Hown Hro dofs st. subst st.
  assert (Inv :
    let st := forloop (length dofs)
                (fun i st =>
                   extract_step tdof_offsets recv_displ recvbuf i
                                (nth i dofs 0%Z) st)
                (map (fresh n) (seq 0 (length dofs)), roffs0) in
    length (fst st) = length dofs /\
    (forall s, s < num_procs ->
       snd st s
       = roffs0 s
         + length (filter (fun tdof => Nat.eqb (trank tdof) s)
                          (firstn (length dofs) dofs))) /\
    (forall i, i < length dofs ->
       nth i (fst st) 0%R
       = held (trank (nth i dofs 0%Z)) (nth i dofs 0%Z))).
  { apply (Upwind.forloop_ind
             (fun m (st : list R * counts) =>
                length (fst st) = length dofs /\
                (forall s, s < num_procs ->
                   snd st s
                   = roffs0 s
                     + length (filter (fun tdof => Nat.eqb (trank tdof) s)
                                      (firstn m dofs))) /\
                (forall i, i < m ->
                   nth i (fst st) 0%R
                   = held (trank (nth i dofs 0%Z)) (nth i dofs 0%Z)))).
    - simpl. split; [now rewrite length_map, length_seq | ].
      split; [intros; lia | intros; lia].
    - intros m [v ro] Hm (H1 & H2 & H3). simpl in H1, H2, H3.
      unfold extract_step. simpl fst; simpl snd.
      set (d := nth m dofs 0%Z).
      assert (Hrk : trank d < num_procs).
      { pose proof (ranks_in_range _ _ _ _ _ HB n m Hn Hm) as H.
        fold dofs in H. fold d in H. unfold tdof_rank. lia. }
      split; [now rewrite Transfer.set_entry_length | ].
      split.
      + intros s Hs. rewrite (firstn_snoc 0%Z dofs m Hm), filter_app, length_app.
        fold d. simpl filter.
        destruct (Nat.eqb_spec (trank d) s) as [E | E].
        * rewrite <- E, updn_same, (H2 _ Hrk). simpl. lia.
        * rewrite updn_other by congruence. rewrite (H2 s Hs). simpl. lia.
      + intros i Hi. rewrite Transfer.set_entry_nth.
        destruct (Nat.eqb_spec i m) as [-> | Him].
        * replace (m <? length v) with true
            by (symmetry; apply Nat.ltb_lt; lia).
          simpl andb. cbv iota. fold d.
          destruct (filter_next 0%Z (fun tdof => Nat.eqb (trank tdof) (trank d))
                                dofs m Hm) as [F1 F2].
          { fold d. apply Nat.eqb_refl. }
          fold d in F2.
          destruct (restrict_chan_split n (trank d) Hrk Hn Hown) as [post Hch].
          fold dofs in F1, F2. unfold mine in Hch. fold dofs in Hch.
          rewrite (H2 _ Hrk), (Hro _ Hrk).
          rewrite restrict_recvbuf_spec;
            [ | exact Hrk | rewrite Hch, !length_app, length_map; lia ].
          rewrite Hch, app_nth2_plus, app_nth1 by (rewrite length_map; exact F1).
          rewrite (nth_map_in _ _ _ 0%Z) by exact F1.
          now rewrite F2.
        * simpl andb. cbv iota. apply H3. lia. }
  destruct Inv as (I1 & I2 & I3).
  split; [exact I1 | ]. split; [ | exact I3].
  intros s Hs. rewrite (I2 s Hs), firstn_all.
  rewrite (restrict_pre_S n s Hs Hn), Hown, Nat.eqb_refl, length_app, length_map.
  rewrite (Hro s Hs). reflexivity.
Qed.

Lemma extract_spec :
  let x' := extract nrsubdomains subdomain_rank tdof_offsets (procs r)
                    recv_displ recvbuf fresh (x r) in
  length x' = nrsubdomains /\
  (forall ip, ip < nrsubdomains -> own ip = r ->
     length (nth ip x' []) = length (G ip) /\
     forall i, i < length (G ip) ->
       nth i (nth ip x' []) 0%R
       = held (trank (nth i (G ip) 0%Z)) (nth i (G ip) 0%Z)) /\
  (forall ip, ip < nrsubdomains -> own ip <> r ->
     nth ip x' [] = nth ip (x r) []).
Proof.
  unfold extract.
  assert (Inv :
    let st := forloop nrsubdomains
         (fun ip (st : list (list R) * counts) =>
            if negb (Nat.eqb (myid (procs r)) (own ip)) then st
            else
              let dofs := nth ip (SubdomainGTrueDofs (procs r)) [] in
              let ndof := length dofs in
              let v0 := map (fresh ip) (seq 0 ndof) in
              let res := forloop ndof
                           (fun i st =>
                              extract_step tdof_offsets recv_displ recvbuf i
                                           (nth i dofs 0%Z) st)
                           (v0, snd st) in
              (set_vector (fst st) ip (fst res), snd res))
         (resize nrsubdomains (x r), fun _ => 0) in
    length (fst st) = nrsubdomains /\
    (forall s, s < num_procs -> snd st s = length (pre nrsubdomains s)) /\
    (forall ip, ip < nrsubdomains ->
       if Nat.eqb (own ip) r && Nat.ltb ip nrsubdomains
       then length (nth ip (fst st) []) = length (G ip) /\
            forall i, i < length (G ip) ->
              nth i (nth ip (fst st) []) 0%R
              = held (trank (nth i (G ip) 0%Z)) (nth i (G ip) 0%Z)
       else nth ip (fst st) [] = nth ip (x r) [])).
  { apply (Upwind.forloop_ind
             (fun n (st : list (list R) * counts) =>
                length (fst st) = nrsubdomains /\
                (forall s, s < num_procs -> snd st s = length (pre n s)) /\
                (forall ip, ip < nrsubdomains ->
                   if Nat.eqb (own ip) r && Nat.ltb ip n
                   then length (nth ip (fst st) []) = length (G ip) /\
                        forall i, i < length (G ip) ->
                          nth i (nth ip (fst st) []) 0%R
                          = held (trank (nth i (G ip) 0%Z)) (nth i (G ip) 0%Z)
                   else nth ip (fst st) [] = nth ip (x r) []))).
    - simpl. split; [apply resize_length | ]. split; [reflexivity | ].
      intros ip Hip. rewrite andb_false_r. now apply resize_nth.
    - intros n [x0 ro0] Hn (H1 & H2 & H3). simpl in H1, H2, H3.
      rewrite (myid_is_rank _ _ _ _ _ HB r Hr).
      destruct (Nat.eqb_spec r (own n)) as [E | E]; simpl negb; cbv iota.
      + symmetry in E. simpl fst; simpl snd.
        assert (EG : nth n (SubdomainGTrueDofs (procs r)) [] = G n).
        { unfold owned_dofs. now rewrite E. }
        rewrite EG.
        destruct (extract_subdomain n ro0 Hn E H2) as (A1 & A2 & A3).
        cbv zeta in A1, A2, A3. cbv zeta. simpl fst; simpl snd.
        split; [now rewrite set_vector_length | ].
        split; [exact A2 | ].
        intros ip Hip. rewrite set_vector_nth, H1.
        destruct (Nat.eqb_spec ip n) as [-> | Hne].
        * replace (n <? nrsubdomains) with true
            by (symmetry; apply Nat.ltb_lt; lia).
          replace (n <? S n) with true by (symmetry; apply Nat.ltb_lt; lia).
          rewrite E, Nat.eqb_refl. simpl andb. cbv iota.
          split; [exact A1 | exact A3].
        * simpl andb. cbv iota. specialize (H3 ip Hip).
          replace (ip <? S n) with (ip <? n); [exact H3 | ].
          destruct (Nat.ltb_spec ip n), (Nat.ltb_spec ip (S n)); try lia;
            reflexivity.
      + simpl fst; simpl snd. split; [exact H1 | ]. split.
        * intros s Hs. rewrite (restrict_pre_S n s Hs Hn).
          replace (own n =? r) with false
            by (symmetry; apply Nat.eqb_neq; congruence).
          rewrite app_nil_r. now apply H2.
        * intros ip Hip. specialize (H3 ip Hip).
          destruct (Nat.eq_dec ip n) as [-> | Hne].
          -- replace (own n =? r) with false in *
               by (symmetry; apply Nat.eqb_neq; congruence).
             exact H3.
          -- replace (ip <? S n) with (ip <? n); [exact H3 | ].
             destruct (Nat.ltb_spec ip n), (Nat.ltb_spec ip (S n)); try lia;
               reflexivity. }
  destruct Inv as (I1 & I2 & I3). cbv zeta.
  split; [exact I1 | ]. split.
  - intros ip Hip Hown. specialize (I3 ip Hip).
    rewrite Hown, Nat.eqb_refl in I3.
    replace (ip <? nrsubdomains) with true in I3
      by (symmetry; apply Nat.ltb_lt; exact Hip).
    exact I3.
  - intros ip Hip Hown. specialize (I3 ip Hip).
    replace (own ip =? r) with false in I3
      by (symmetry; apply Nat.eqb_neq; exact Hown).
    exact I3.
Qed.

End Gather.

(** ** The restriction gathers *)

(** [GlobalToSubdomains] hands every subdomain the values of the global
    vector at its DOFs.  With the maps the setup leaves, on the process [r]
    that owns subdomain [ip]: [x[ip]] has one entry for each DOF of
    [SubdomainGTrueDofs[ip]], and entry [i] is the entry [tdof - mytoffset]
    of the vector [y] of the process that owns [tdof =
    SubdomainGTrueDofs[ip][i]], whatever [x] and the receive buffer held
    before; [x] has [nrsubdomains] vectors, and those of the subdomains that
    [r] does not own are the ones it had (empty when it had none). *)
Theorem GlobalToSubdomains_gathers
  (num_procs nrsubdomains : nat) (subdomain_rank : list nat)
  (tdof_offsets : list Z) (procs : nat -> process)
  (y : nat -> mem) (x : nat -> list (list R)) (junk : mem)
  (fresh : nat -> nat -> R) (r : nat) :
  bridge num_procs nrsubdomains subdomain_rank tdof_offsets procs ->
  r < num_procs ->
  let x' := GlobalToSubdomains num_procs nrsubdomains subdomain_rank
                               tdof_offsets procs y x junk fresh r in
  let dofs := owned_dofs subdomain_rank procs in
  length x' = nrsubdomains /\
  (forall ip, ip < nrsubdomains -> owner subdomain_rank ip = r ->
     length (nth ip x' []) = length (dofs ip) /\
     forall i, i < length (dofs ip) ->
       let tdof := nth i (dofs ip) 0%Z in
       let s := tdof_rank tdof_offsets tdof in
       nth i (nth ip x' []) 0%R = y s (entry (procs s) tdof)) /\
  (forall ip, ip < nrsubdomains -> owner subdomain_rank ip <> r ->
     nth ip x' [] = nth ip (x r) []).
Proof.
  intros HB Hr x' dofs.
  exact (extract_spec num_procs nrsubdomains subdomain_rank tdof_offsets
                      procs y x junk fresh HB r Hr).
Qed.

Lemma GlobalToSubdomains_gathers_witness :
  let x' := GlobalToSubdomains 2 2 [0; 1] [0; 2]%Z example_procs example_y
                               example_x (fun _ => 7%R) (fun _ _ => 9%R) 0 in
  length x' = 2 /\
  length (nth 0 x' []) = 3 /\
  nth 1 (nth 0 x' []) 0%R = example_y 0 1 /\
  nth 2 (nth 0 x' []) 0%R = example_y 1 0 /\
  nth 1 x' [] = [].
Proof.
  assert (H0 : 0 < 2) by lia. assert (H1 : 1 < 2) by lia.
  destruct (GlobalToSubdomains_gathers 2 2 [0; 1] [0; 2]%Z example_procs
              example_y example_x (fun _ => 7%R) (fun _ _ => 9%R) 0
              example_bridge H0) as (A1 & A2 & A3).
  destruct (A2 0 H0 eq_refl) as [B1 B2].
  assert (H13 : 1 < 3) by lia. assert (H23 : 2 < 3) by lia.
  cbv zeta. split; [exact A1 | ]. split; [exact B1 | ].
  split; [exact (B2 1 H13) | ]. split; [exact (B2 2 H23) | ].
  apply (A3 1 H1). unfold owner. simpl. lia.
Defined.

(** ** Restriction and prolongation *)

(** The inner product of two global vectors, process by process over the
    [N r] entries that process [r] holds, and the inner product of two
    families of subdomain vectors, each subdomain taken where its owner
    holds it. *)
Definition global_dot (num_procs : nat) (N : nat -> nat) (u v : nat -> mem)
  : R :=
  sum_n num_procs (fun r => sum_n (N r) (fun a => (u r a * v r a)%R)).

Definition subdomain_dot (nrsubdomains : nat) (subdomain_rank : list nat)
  (procs : nat -> process) (u v : nat -> list (list R)) : R :=
  sum_n nrsubdomains
    (fun ip =>
       sum_n (length (owned_dofs subdomain_rank procs ip))
         (fun i => (contribution subdomain_rank u ip i
                    * contribution subdomain_rank v ip i)%R)).

(** What all the subdomain DOFs that are the global DOF [d] contribute
    together. *)
Definition shared_sum (nrsubdomains : nat) (subdomain_rank : list nat)
  (procs : nat -> process) (x : nat -> list (list R)) (d : Z) : R :=
  sum_n nrsubdomains
    (fun ip =>
       sum_n (length (owned_dofs subdomain_rank procs ip))
         (fun i =>
            if Z.eqb (nth i (owned_dofs subdomain_rank procs ip) 0%Z) d
            then contribution subdomain_rank x ip i else 0%R)).

Section Compose.

Variable num_procs : nat.
Variable nrsubdomains : nat.
Variable subdomain_rank : list nat.
Variable tdof_offsets : list Z.
Variable procs : nat -> process.

Hypothesis HB : bridge num_procs nrsubdomains subdomain_rank tdof_offsets procs.

Local Abbreviation own := (owner subdomain_rank).
Local Abbreviation G := (owned_dofs subdomain_rank procs).
Local Abbreviation trank := (tdof_rank tdof_offsets).

Lemma rank_in_range (ip i : nat) :
  ip < nrsubdomains -> i < length (G ip) ->
  trank (nth i (G ip) 0%Z) < num_procs.
Proof.
  intros Hip Hi.
  pose proof (ranks_in_range _ _ _ _ _ HB ip i Hip Hi) as H.
  unfold tdof_rank. lia.
Qed.

(** The entry of a restricted vector, read where the owner holds it. *)
Lemma restricted_entry (y : nat -> mem) (x : nat -> list (list R))
  (junk : mem) (fresh : nat -> nat -> R) (ip i : nat) :
  ip < nrsubdomains -> i < length (G ip) ->
  contribution subdomain_rank
    (GlobalToSubdomains num_procs nrsubdomains subdomain_rank tdof_offsets
                        procs y x junk fresh) ip i
  = y (trank (nth i (G ip) 0%Z))
      (entry (procs (trank (nth i (G ip) 0%Z))) (nth i (G ip) 0%Z)).
Proof.
  intros Hip Hi. unfold contribution.
  pose proof (owner_in_range _ _ _ _ _ HB ip Hip) as Hown.
  destruct (extract_spec num_procs nrsubdomains subdomain_rank tdof_offsets
              procs y x junk fresh HB (own ip) Hown) as (_ & A & _).
  destruct (A ip Hip eq_refl) as [_ A2]. exact (A2 i Hi).
Qed.

(** The entry of a prolongated vector that belongs to a subdomain DOF. *)
Lemma prolongated_entry (x : nat -> list (list R)) (y0 : nat -> mem)
  (junk : mem) (ip i : nat) :
  ip < nrsubdomains -> i < length (G ip) ->
  let d := nth i (G ip) 0%Z in
  SubdomainsToGlobal num_procs nrsubdomains subdomain_rank tdof_offsets procs
                     x y0 junk (trank d) (entry (procs (trank d)) d)
  = (y0 (trank d) (entry (procs (trank d)) d)
     + shared_sum nrsubdomains subdomain_rank procs x d)%R.
Proof.
  intros Hip Hi d.
  pose proof (rank_in_range ip i Hip Hi) as Hrk. fold d in Hrk.
  rewrite (SubdomainsToGlobal_spec _ _ _ _ _ x y0 junk HB (trank d) Hrk).
  f_equal. unfold contributed, shared_sum.
  apply sum_n_ext. intros ip' Hip'. apply sum_n_ext. intros i' Hi'.
  pose proof (offsets_below _ _ _ _ _ HB ip i Hip Hi) as Hoff.
  cbv zeta in Hoff. fold d in Hoff.
  pose proof (hits_spec _ _ _ _ _ HB (trank d) Hrk d ip' i' Hip' Hi' Hoff) as Hh.
  destruct (Z.eqb_spec (nth i' (G ip') 0%Z) d) as [E | E].
  - rewrite (proj2 Hh) by (split; [exact E | reflexivity]). reflexivity.
  - destruct (hits subdomain_rank tdof_offsets procs (trank d)
                   (entry (procs (trank d)) d) ip' i') eqn:E2; [ | reflexivity].
    exfalso. apply E. now apply Hh.
Qed.

(** What one subdomain DOF contributes to the inner product with a global
    vector. *)
Lemma hits_select (N : nat -> nat) (y : nat -> mem) (c : R) (ip i : nat) :
  ip < nrsubdomains -> i < length (G ip) ->
  entry (procs (trank (nth i (G ip) 0%Z))) (nth i (G ip) 0%Z)
    < N (trank (nth i (G ip) 0%Z)) ->
  sum_n num_procs
    (fun r =>
       sum_n (N r)
         (fun a =>
            ((if hits subdomain_rank tdof_offsets procs r a ip i
              then c else 0) * y r a)%R))
  = (c * y (trank (nth i (G ip) 0%Z))
           (entry (procs (trank (nth i (G ip) 0%Z))) (nth i (G ip) 0%Z)))%R.
Proof.
  intros Hip Hi He.
  set (d := nth i (G ip) 0%Z) in *.
  pose proof (rank_in_range ip i Hip Hi) as Hrk. fold d in Hrk.
  rewrite (sum_n_one num_procs (trank d)); [ | exact Hrk | ].
  - rewrite (sum_n_one (N (trank d)) (entry (procs (trank d)) d));
      [ | exact He | ].
    + unfold hits. cbv zeta. fold d. rewrite !Nat.eqb_refl. reflexivity.
    + intros a Ha Hne. unfold hits. cbv zeta. fold d.
      replace (entry (procs (trank d)) d =? a) with false
        by (symmetry; apply Nat.eqb_neq; congruence).
      rewrite andb_false_r. lra.
  - intros r Hr Hne. apply sum_n_none. intros a Ha.
    unfold hits. cbv zeta. fold d.
    replace (trank d =? r) with false
      by (symmetry; apply Nat.eqb_neq; congruence).
    simpl. lra.
Qed.

End Compose.

Lemma sum4_swap (P n : nat) (N L : nat -> nat)
  (T : nat -> nat -> nat -> nat -> R) :
  sum_n P (fun r => sum_n (N r) (fun a =>
     sum_n n (fun ip => sum_n (L ip) (fun i => T r a ip i))))
  = sum_n n (fun ip => sum_n (L ip) (fun i =>
       sum_n P (fun r => sum_n (N r) (fun a => T r a ip i)))).
Proof.
  transitivity
    (sum_n P (fun r => sum_n n (fun ip =>
       sum_n (L ip) (fun i => sum_n (N r) (fun a => T r a ip i))))).
  - apply sum_n_ext. intros r _.
    etransitivity;
      [exact (sum_n_swap (N r) n
                (fun a ip => sum_n (L ip) (fun i => T r a ip i))) | ].
    apply sum_n_ext. intros ip _.
    exact (sum_n_swap (N r) (L ip) (fun a i => T r a ip i)).
  - etransitivity;
      [exact (sum_n_swap P n
                (fun r ip => sum_n (L ip)
                               (fun i => sum_n (N r) (fun a => T r a ip i))))
      | ].
    apply sum_n_ext. intros ip _.
    exact (sum_n_swap P (L ip)
             (fun r i => sum_n (N r) (fun a => T r a ip i))).
Qed.

(** [GlobalToSubdomains] is the transpose of [SubdomainsToGlobal].  With the
    maps the setup leaves, and when every subdomain DOF has its entry among
    the [N r] entries of the process [r] that owns it: the inner product of
    a global vector [y] with the prolongation of the subdomain vectors [x]
    (accumulated onto zero) is the inner product of [x] with the restriction
    of [y], whatever the buffers and the vectors to overwrite held. *)
Theorem restriction_is_transpose
  (num_procs nrsubdomains : nat) (subdomain_rank : list nat)
  (tdof_offsets : list Z) (procs : nat -> process) (N : nat -> nat)
  (x : nat -> list (list R)) (y : nat -> mem)
  (x0 : nat -> list (list R)) (junk1 junk2 : mem) (fresh : nat -> nat -> R) :
  bridge num_procs nrsubdomains subdomain_rank tdof_offsets procs ->
  (forall ip i, ip < nrsubdomains ->
     i < length (owned_dofs subdomain_rank procs ip) ->
     let tdof := nth i (owned_dofs subdomain_rank procs ip) 0%Z in
     let s := tdof_rank tdof_offsets tdof in
     entry (procs s) tdof < N s) ->
  global_dot num_procs N
    (SubdomainsToGlobal num_procs nrsubdomains subdomain_rank tdof_offsets
                        procs x (fun _ _ => 0%R) junk1)
    y
  = subdomain_dot nrsubdomains subdomain_rank procs x
      (GlobalToSubdomains num_procs nrsubdomains subdomain_rank tdof_offsets
                          procs y x0 junk2 fresh).
Proof.
  intros HB HN. unfold global_dot, subdomain_dot.
  set (G := owned_dofs subdomain_rank procs).
  set (T := fun r a ip i =>
              ((if hits subdomain_rank tdof_offsets procs r a ip i
                then contribution subdomain_rank x ip i else 0) * y r a)%R).
  transitivity
    (sum_n num_procs
       (fun r =>
          sum_n (N r)
            (fun a =>
               sum_n nrsubdomains
                 (fun ip => sum_n (length (G ip)) (fun i => T r a ip i))))).
  { apply sum_n_ext. intros r Hr. apply sum_n_ext. intros a Ha.
    rewrite (SubdomainsToGlobal_spec _ _ _ _ _ x (fun _ _ => 0%R) junk1 HB r Hr).
    rewrite Rplus_0_l. unfold contributed. fold G.
    rewrite sum_n_scal_r.
    apply sum_n_ext. intros ip Hip. now rewrite sum_n_scal_r. }
  rewrite (sum4_swap num_procs nrsubdomains N (fun ip => length (G ip)) T).
  apply sum_n_ext. intros ip Hip. apply sum_n_ext. intros i Hi.
  rewrite (restricted_entry _ _ _ _ _ HB y x0 junk2 fresh ip i Hip Hi).
  apply (hits_select _ _ _ _ _ HB N y (contribution subdomain_rank x ip i)
                     ip i Hip Hi).
  exact (HN ip i Hip Hi).
Qed.

Lemma restriction_is_transpose_witness :
  global_dot 2 (fun _ => 2)
    (SubdomainsToGlobal 2 2 [0; 1] [0; 2]%Z example_procs example_x
                        (fun _ _ => 0%R) (fun _ => 7%R))
    example_y
  = subdomain_dot 2 [0; 1] example_procs example_x
      (GlobalToSubdomains 2 2 [0; 1] [0; 2]%Z example_procs example_y
                          (fun _ => []) (fun _ => 7%R) (fun _ _ => 9%R)).
Proof.
  apply (restriction_is_transpose 2 2 [0; 1] [0; 2]%Z example_procs
           (fun _ => 2) example_x example_y (fun _ => []) (fun _ => 7%R)
           (fun _ => 7%R) (fun _ _ => 9%R) example_bridge).
  intros [| [| ip]] i Hip Hi; try lia;
    (destruct i as [| [| [| i]]]; simpl in Hi; try lia);
    vm_compute; lia.
Defined.

(** Prolongation followed by restriction adds up the shared DOFs.  With the
    maps the setup leaves: after [SubdomainsToGlobal] has accumulated the
    subdomain vectors [x] onto zero and [GlobalToSubdomains] has restricted
    the result, entry [i] of subdomain [ip] holds the sum of the entries of
    [x] at all the subdomain DOFs that are the same global DOF as
    [SubdomainGTrueDofs[ip][i]]. *)
Theorem restriction_of_prolongation
  (num_procs nrsubdomains : nat) (subdomain_rank : list nat)
  (tdof_offsets : list Z) (procs : nat -> process)
  (x x0 : nat -> list (list R)) (junk1 junk2 : mem)
  (fresh : nat -> nat -> R) (ip i : nat) :
  bridge num_procs nrsubdomains subdomain_rank tdof_offsets procs ->
  ip < nrsubdomains -> i < length (owned_dofs subdomain_rank procs ip) ->
  let y := SubdomainsToGlobal num_procs nrsubdomains subdomain_rank
                              tdof_offsets procs x (fun _ _ => 0%R) junk1 in
  let x' := GlobalToSubdomains num_procs nrsubdomains subdomain_rank
                               tdof_offsets procs y x0 junk2 fresh
                               (owner subdomain_rank ip) in
  nth i (nth ip x' []) 0%R
  = shared_sum nrsubdomains subdomain_rank procs x
               (nth i (owned_dofs subdomain_rank procs ip) 0%Z).
Proof.
  intros HB Hip Hi y x'.
  pose proof (restricted_entry _ _ _ _ _ HB y x0 junk2 fresh ip i Hip Hi) as E.
  unfold contribution in E. fold x' in E. rewrite E. unfold y.
  rewrite (prolongated_entry _ _ _ _ _ HB x (fun _ _ => 0%R) junk1 ip i Hip Hi).
  apply Rplus_0_l.
Qed.

Lemma restriction_of_prolongation_witness :
  nth 1 (nth 0 (GlobalToSubdomains 2 2 [0; 1] [0; 2]%Z example_procs
                  (SubdomainsToGlobal 2 2 [0; 1] [0; 2]%Z example_procs
                                      example_x (fun _ _ => 0%R)
                                      (fun _ => 7%R))
                  (fun _ => []) (fun _ => 7%R) (fun _ _ => 9%R) 0) []) 0%R
  = shared_sum 2 [0; 1] example_procs example_x 1%Z.
Proof.
  assert (H0 : 0 < 2) by lia.
  assert (H1 : 1 < length (owned_dofs [0; 1] example_procs 0))
    by (simpl; lia).
  exact (restriction_of_prolongation 2 2 [0; 1] [0; 2]%Z example_procs
           example_x (fun _ => []) (fun _ => 7%R) (fun _ => 7%R)
           (fun _ _ => 9%R) 0 1 example_bridge H0 H1).
Defined.

End Restrict.

(* ================================================================== *)
(** * The setup of the subdomain-to-global maps
      (DofMapsDST.cpp:479-721, [DofMaps::SubdomainToGlobalMapsSetup]):
      the processes send their DOF lists to the owners of the subdomains
      (parts 1 to 3), the owners hand their lists to the participating
      ranks (part 5) *)

Module Setup.

Import Arrays.
Import Accumulate.

Local Open Scope nat_scope.

(** An [Array<int>] used as a buffer: one [int] per address, nothing
    bounds-checked. *)
Definition imem := nat -> Z.

Definition updz (m : imem) (a : nat) (v : Z) : imem :=
  fun a' => if Nat.eqb a' a then v else m a'.

(** [t[ip].Append(v)] on a [std::vector<Array<int>>]; the source does not
    define it for [ip] beyond the size, here it changes nothing. *)
Fixpoint append_to (t : list (list Z)) (ip : nat) (v : Z) : list (list Z) :=
  match t, ip with
  | [], _ => []
  | l :: t', O => (l ++ [v]) :: t'
  | l :: t', S ip' => l :: append_to t' ip' v
  end.

(** [t.resize(n)] on a [std::vector<Array<int>>]. *)
Definition resize (n : nat) (t : list (list Z)) : list (list Z) :=
  firstn n t ++ repeat [] (n - length t).

(** What parts 1 to 3 read on one process: the elements of each subdomain
    that the process holds ([part->local_element_map]), its element offset,
    and the two queries of the parallel space, [pfes->GetElementDofs] and
    [pfes->GetGlobalTDofNumber]. *)
Record mesh_part : Type := mkMeshPart {
  local_element_map : list (list Z);
  myelemoffset : Z;
  GetElementDofs : Z -> list Z;
  GetGlobalTDofNumber : Z -> Z
}.

Section Run.

(** The same on every process. *)
Variable num_procs : nat.
Variable nrsubdomains : nat.
Variable subdomain_rank : list nat.
Variable tdof_offsets : list Z.

(** *** Shared by parts 2, 3 and 5 *)

(** One message: [j = send_displ[irank] + soffs[irank]; sendbuf[j] = ip;
    sendbuf[j+1] = ndofs; for (i < ndofs) sendbuf[j+2+i] = dofs[i];
    soffs[irank] += 2 + ndofs;], where [irank] is [subdomain_rank[ip]] in
    part 2 and the marked rank in part 5.  The state is [(sendbuf, soffs)]. *)
Definition write_frame (send_displ : counts) (ip irank : nat) (dofs : list Z)
  (st : imem * counts) : imem * counts :=
  let '(sendbuf, soffs) := st in
  let j := send_displ irank + soffs irank in
  let sendbuf := updz sendbuf j (Z.of_nat ip) in
  let sendbuf := updz sendbuf (j + 1) (Z.of_nat (length dofs)) in
  let sendbuf :=
    forloop (length dofs)
      (fun i sendbuf => updz sendbuf (j + 2 + i) (nth i dofs 0%Z)) sendbuf in
  (sendbuf, updn soffs irank (soffs irank + (2 + length dofs))).

(** [count.Sum()] of an array of [num_procs] entries. *)
Definition Sum (count : counts) : nat :=
  forloop num_procs (fun k s => s + count k) 0.

(** [MPI_Alltoallv] of [MPI_INT]s seen from the receiving process [r]. *)
Definition alltoallv_int (sendbuf : nat -> imem) (send_displ : nat -> counts)
  (r : nat) (recv_count recv_displ : counts) (junk : imem) : imem :=
  forloop num_procs
    (fun s recvbuf =>
       forloop (recv_count s)
         (fun t recvbuf =>
            updz recvbuf (recv_displ s + t) (sendbuf s (send_displ s r + t)))
         recvbuf)
    junk.

(** [k=0; while (k<rbuff_size) { ip = recvbuf[k++]; ndofs = recvbuf[k++];
    for (idof < ndofs) { tdof = recvbuf[k+idof]; ... } k += ndofs; }], the
    loop that reads the messages back in part 3 and in part 5; [body ip tdof]
    is what it does with one DOF.  Every turn of the [while] takes one unit
    of [fuel]; [None] when it runs out. *)
Fixpoint read_frames {St : Type} (body : Z -> Z -> St -> St)
  (fuel rbuff_size : nat) (recvbuf : imem) (k : Z) (st : St) : option St :=
  if Z.ltb k (Z.of_nat rbuff_size) then
    match fuel with
    | O => None
    | S fuel' =>
        let ip := recvbuf (Z.to_nat k) in
        let ndofs := recvbuf (Z.to_nat (k + 1)) in
        let k2 := (k + 2)%Z in
        let st' :=
          forloop (Z.to_nat ndofs)
            (fun idof st =>
               body ip (recvbuf (Z.to_nat (k2 + Z.of_nat idof))) st)
            st in
        read_frames body fuel' rbuff_size recvbuf (k2 + ndofs)%Z st'
    end
  else Some st.

(** *** Parts 1 to 3 (lines 487-584) *)

(** Part 1: [for (ip < nrsubdomains) for (iel < nel) { elem_idx =
    part->local_element_map[ip][iel] - myelemoffset;
    pfes->GetElementDofs(elem_idx, element_dofs); for (i < ndofs) { edof_ =
    element_dofs[i]; edof = (edof_ >= 0) ? edof_ : abs(edof_) - 1; tdof =
    pfes->GetGlobalTDofNumber(edof); local_tdofs[ip].Append(tdof); } }] on
    [nrsubdomains] empty lists.  The marker array of the source is only
    zeroed. *)
Definition collect_local_tdofs (m : mesh_part) : list (list Z) :=
  forloop nrsubdomains
    (fun ip local_tdofs =>
       let elems := nth ip (local_element_map m) [] in
       forloop (length elems)
         (fun iel local_tdofs =>
            let elem_idx := (nth iel elems 0 - myelemoffset m)%Z in
            let element_dofs := GetElementDofs m elem_idx in
            forloop (length element_dofs)
              (fun i local_tdofs =>
                 let edof_ := nth i element_dofs 0%Z in
                 let edof := Bridge.decode edof_ in
                 let tdof := GetGlobalTDofNumber m edof in
                 append_to local_tdofs ip tdof)
              local_tdofs)
         local_tdofs)
    (repeat [] nrsubdomains).

(** The two passes of part 2: [for (ip < nrsubdomains) { ndofs =
    local_tdofs[ip].Size(); if (ndofs) { ... } }]. *)
Definition over_nonempty {St : Type} (local_tdofs : list (list Z))
  (body : nat -> list Z -> St -> St) (st : St) : St :=
  forloop nrsubdomains
    (fun ip st =>
       let dofs := nth ip local_tdofs [] in
       if negb (Nat.eqb (length dofs) 0) then body ip dofs st else st)
    st.

(** [send_count[subdomain_rank[ip]] += 2 + ndofs]. *)
Definition gather_send_count (local_tdofs : list (list Z)) : counts :=
  over_nonempty local_tdofs
    (fun ip dofs send_count =>
       let d := owner subdomain_rank ip in
       updn send_count d (send_count d + (2 + length dofs)))
    (fun _ => 0).

Definition gather_sendbuf (local_tdofs : list (list Z)) (send_displ : counts)
  : imem :=
  fst (over_nonempty local_tdofs
         (fun ip dofs =>
            write_frame send_displ ip (owner subdomain_rank ip) dofs)
         (fun _ => 0%Z, fun _ => 0)).

(** Parts 1 to 3 of [void DofMaps::SubdomainToGlobalMapsSetup()] run by all
    the processes: [parts s] is what process [s] reads, the result is
    [global_tdofs] on process [r].  The body of the extraction loop is
    [global_tdofs[ip].Append(recvbuf[i+k])].  [junk] is what the new receive
    buffer holds before the exchange.  A buffer of [rbuff_size] entries
    holds at most [rbuff_size] messages, which bounds the turns of the
    [while]. *)
Definition SubdomainToGlobalMapsSetup_3 (parts : nat -> mesh_part)
  (junk : imem) (r : nat) : option (list (list Z)) :=
  let local_tdofs := fun s => collect_local_tdofs (parts s) in
  let send_count := fun s => gather_send_count (local_tdofs s) in
  let send_displ := fun s => displacements num_procs (send_count s) in
  let sendbuf := fun s => gather_sendbuf (local_tdofs s) (send_displ s) in
  let recv_count := fun s => send_count s r in
  let recv_displ := displacements num_procs recv_count in
  let rbuff_size := Sum recv_count in
  let recvbuf :=
    alltoallv_int sendbuf send_displ r recv_count recv_displ junk in
  read_frames
    (fun ip tdof global_tdofs => append_to global_tdofs (Z.to_nat ip) tdof)
    rbuff_size rbuff_size recvbuf 0%Z (repeat [] nrsubdomains).

(** *** Part 5 (lines 629-721) *)

(** [Array<int> ranks_marker(num_procs); ranks_marker = 0;
    for (i < ndofs) { rank = get_rank(SubdomainGTrueDofs[ip][i], tdof_offsets);
    if (!ranks_marker[rank]) { ranks_marker[rank] = 1; } }] *)
Definition mark_ranks (dofs : list Z) : counts :=
  forloop (length dofs)
    (fun i ranks_marker =>
       let rank := tdof_rank tdof_offsets (nth i dofs 0%Z) in
       if Nat.eqb (ranks_marker rank) 0 then updn ranks_marker rank 1
       else ranks_marker)
    (fun _ => 0).

(** The two passes [for (ip < nrsubdomains) { if (myid != subdomain_rank[ip])
    continue; ... for (irank < num_procs) { if (ranks_marker[irank]) ... } }]
    over the owned subdomains and the ranks that hold one of their DOFs. *)
Definition over_marked {St : Type} (p : process)
  (body : nat -> nat -> list Z -> St -> St) (st : St) : St :=
  forloop nrsubdomains
    (fun ip st =>
       if negb (Nat.eqb (myid p) (owner subdomain_rank ip)) then st
       else
         let dofs := nth ip (SubdomainGTrueDofs p) [] in
         let ranks_marker := mark_ranks dofs in
         forloop num_procs
           (fun irank st =>
              if negb (Nat.eqb (ranks_marker irank) 0)
              then body ip irank dofs st else st)
           st)
    st.

(** The counting pass: [send_count[irank] += 2+ndofs]. *)
Definition compute_send_count (p : process) : counts :=
  over_marked p
    (fun _ irank dofs send_count =>
       updn send_count irank (send_count irank + (2 + length dofs)))
    (fun _ => 0).

Definition fill_sendbuf (p : process) (send_displ : counts) : imem :=
  fst (over_marked p
         (fun ip irank dofs => write_frame send_displ ip irank dofs)
         (fun _ => 0%Z, fun _ => 0)).

(** The body of the innermost loop of the extraction, for the subdomain
    number [ip] read from the buffer:
    [if (myid != subdomain_rank[ip]) { SubdomainGTrueDofs[ip].Append(tdof); }
     if (get_rank(tdof,tdof_offsets) == myid)
     { SubdomainLTrueDofs[ip].Append(tdof); }].
    The state is [(SubdomainGTrueDofs, SubdomainLTrueDofs)]. *)
Definition absorb_dof (me : nat) (ip : Z) (tdof : Z)
  (st : list (list Z) * list (list Z)) : list (list Z) * list (list Z) :=
  let '(G, L) := st in
  let ip := Z.to_nat ip in
  (if negb (Nat.eqb me (owner subdomain_rank ip)) then append_to G ip tdof
   else G,
   if Z.eqb (Rank.get_rank tdof tdof_offsets) (Z.of_nat me)
   then append_to L ip tdof else L).

(** Part 5 of [void DofMaps::SubdomainToGlobalMapsSetup()] run by all the
    processes: [procs s] is what process [s] holds when part 4 is done, the
    result is what process [r] holds at the end.  [junk] is what the resized
    receive buffer holds before the exchange.  A buffer of [rbuff_size]
    entries holds at most [rbuff_size] messages, which bounds the turns of
    the [while]. *)
Definition SubdomainToGlobalMapsSetup_5 (procs : nat -> process)
  (junk : imem) (r : nat) : option process :=
  let send_count := fun s => compute_send_count (procs s) in
  let send_displ := fun s => displacements num_procs (send_count s) in
  let sendbuf := fun s => fill_sendbuf (procs s) (send_displ s) in
  let recv_count := fun s => send_count s r in
  let recv_displ := displacements num_procs recv_count in
  let rbuff_size := Sum recv_count in
  let recvbuf :=
    alltoallv_int sendbuf send_displ r recv_count recv_displ junk in
  let p := procs r in
  match read_frames (absorb_dof (myid p)) rbuff_size rbuff_size recvbuf 0%Z
                    (SubdomainGTrueDofs p,
                     resize nrsubdomains (SubdomainLTrueDofs p)) with
  | Some (G, L) => Some (mkProcess (myid p) (mytoffset p) G L)
  | None => None
  end.

End Run.

(** ** Messages and the streams they form *)

(** A message [(irank, (ip, dofs))] and the [2 + ndofs] integers that carry
    it. *)
Abbreviation message := (nat * (nat * list Z))%type.

Definition frame (f : nat * list Z) : list Z :=
  Z.of_nat (fst f) :: Z.of_nat (length (snd f)) :: snd f.

(** The messages for [r], and the integers they put one after the other. *)
Definition received (r : nat) (msgs : list message) : list (nat * list Z) :=
  map snd (filter (fun m => Nat.eqb (fst m) r) msgs).

Definition stream (r : nat) (msgs : list message) : list Z :=
  flat_map frame (received r msgs).

Definition count_frames (msgs : list message) (c : counts) : counts :=
  fold_left
    (fun c (m : message) =>
       updn c (fst m) (c (fst m) + (2 + length (snd (snd m)))))
    msgs c.

Definition fill_frames (displ : counts) (msgs : list message)
  (st : imem * counts) : imem * counts :=
  fold_left
    (fun st (m : message) =>
       write_frame displ (fst (snd m)) (fst m) (snd (snd m)) st)
    msgs st.

Lemma updz_same (m : imem) (a : nat) (v : Z) : updz m a v a = v.
Proof. unfold updz. now rewrite Nat.eqb_refl. Qed.

Lemma updz_other (m : imem) (a a' : nat) (v : Z) :
  a' <> a -> updz m a v a' = m a'.
Proof. intros H. unfold updz. now apply Nat.eqb_neq in H as ->. Qed.

Lemma stream_cons (r : nat) (m : message) (msgs : list message) :
  stream r (m :: msgs)
  = if Nat.eqb (fst m) r then frame (snd m) ++ stream r msgs
    else stream r msgs.
Proof.
  unfold stream, received. simpl. now destruct (Nat.eqb (fst m) r).
Qed.

Lemma received_app (r : nat) (l1 l2 : list message) :
  received r (l1 ++ l2) = received r l1 ++ received r l2.
Proof. unfold received. now rewrite filter_app, map_app. Qed.

Lemma frame_length (f : nat * list Z) : length (frame f) = 2 + length (snd f).
Proof. reflexivity. Qed.

Lemma count_frames_spec (msgs : list message) (c : counts) (r : nat) :
  count_frames msgs c r = c r + length (stream r msgs).
Proof.
  revert c. induction msgs as [| m msgs IH]; intros c.
  - simpl. lia.
  - unfold count_frames in *. simpl fold_left. rewrite IH, stream_cons.
    destruct (Nat.eqb_spec (fst m) r) as [<- | Hk].
    + rewrite updn_same, length_app, frame_length. lia.
    + rewrite updn_other by congruence. lia.
Qed.

(** One message lands in the buffer as its frame. *)
Lemma write_frame_spec (displ : counts) (ip irank : nat) (dofs : list Z)
  (buf : imem) (offs : counts) :
  let st := write_frame displ ip irank dofs (buf, offs) in
  let j := displ irank + offs irank in
  (forall t, t < 2 + length dofs ->
     fst st (j + t) = nth t (frame (ip, dofs)) 0%Z) /\
  (forall a, a < j \/ j + (2 + length dofs) <= a -> fst st a = buf a) /\
  snd st = updn offs irank (offs irank + (2 + length dofs)).
Proof.
  cbv zeta. unfold write_frame. simpl fst; simpl snd.
  set (j := displ irank + offs irank).
  set (b2 := updz (updz buf j (Z.of_nat ip)) (j + 1) (Z.of_nat (length dofs))).
  assert (Hloop : forall n, n <= length dofs ->
    let b := forloop n (fun i b => updz b (j + 2 + i) (nth i dofs 0%Z)) b2 in
    (forall i, i < n -> b (j + 2 + i) = nth i dofs 0%Z) /\
    (forall a, a < j + 2 \/ j + 2 + n <= a -> b a = b2 a)).
  { induction n as [| n IH]; intros Hn; cbv zeta.
    - split; [intros; lia | reflexivity].
    - destruct (IH ltac:(lia)) as [IH1 IH2]. simpl forloop. split.
      + intros i Hi. destruct (Nat.eq_dec i n) as [-> | Hne].
        * apply updz_same.
        * rewrite updz_other by lia. apply IH1. lia.
      + intros a Ha. rewrite updz_other by lia. apply IH2. lia. }
  destruct (Hloop (length dofs) (Nat.le_refl _)) as [L1 L2].
  split; [ | split; [ | reflexivity]].
  - intros t Ht. destruct t as [| [| t]].
    + rewrite Nat.add_0_r, L2 by lia. unfold b2.
      rewrite updz_other by lia. apply updz_same.
    + rewrite L2 by lia. unfold b2. apply updz_same.
    + replace (j + S (S t)) with (j + 2 + t) by lia.
      rewrite L1 by lia. reflexivity.
  - intros a Ha. rewrite L2 by lia. unfold b2.
    rewrite !updz_other by lia. reflexivity.
Qed.

(** The fill pass puts the frames bound for [r] one after the other from
    [displ r + offs r] on, as long as the blocks of different destinations
    do not meet. *)
Lemma fill_frames_spec (displ : counts) (msgs : list message) :
  forall (buf : imem) (offs : counts),
    (forall r r' t t', r <> r' ->
       t < offs r + length (stream r msgs) ->
       t' < offs r' + length (stream r' msgs) ->
       displ r + t <> displ r' + t') ->
    (forall r t, t < length (stream r msgs) ->
       fst (fill_frames displ msgs (buf, offs)) (displ r + (offs r + t))
       = nth t (stream r msgs) 0%Z) /\
    (forall a,
       (forall r t, offs r <= t < offs r + length (stream r msgs) ->
          a <> displ r + t) ->
       fst (fill_frames displ msgs (buf, offs)) a = buf a).
Proof.
  induction msgs as [| [k [ip dofs]] msgs IH]; intros buf offs Hsep.
  - split; [simpl; intros; lia | reflexivity].
  - unfold fill_frames in *. cbn [fold_left fst snd].
    destruct (write_frame_spec displ ip k dofs buf offs) as (W1 & W2 & W3).
    cbv zeta in W1, W2, W3.
    destruct (write_frame displ ip k dofs (buf, offs)) as [buf1 offs1] eqn:EW.
    simpl fst in W1, W2; simpl snd in W3. subst offs1.
    set (F := 2 + length dofs) in *.
    assert (Hlen : forall r,
              updn offs k (offs k + F) r + length (stream r msgs)
              = offs r + length (stream r ((k, (ip, dofs)) :: msgs))).
    { intros r. rewrite stream_cons. simpl fst; simpl snd.
      destruct (Nat.eqb_spec k r) as [-> | Hk].
      - rewrite updn_same, length_app, frame_length. simpl snd. fold F. lia.
      - rewrite updn_other by congruence. lia. }
    destruct (IH buf1 (updn offs k (offs k + F))) as [IH1 IH2].
    { intros r r' t t' Hr Ht Ht'. rewrite Hlen in Ht, Ht'. now apply Hsep. }
    assert (Hmine : length (stream k ((k, (ip, dofs)) :: msgs))
                    = F + length (stream k msgs)).
    { rewrite stream_cons. simpl fst. rewrite Nat.eqb_refl, length_app.
      reflexivity. }
    assert (Hlater : forall a,
      (forall r t, offs r <= t
                   < offs r + length (stream r ((k, (ip, dofs)) :: msgs)) ->
                   a <> displ r + t) ->
      forall r t,
        updn offs k (offs k + F) r <= t
        < updn offs k (offs k + F) r + length (stream r msgs) ->
        a <> displ r + t).
    { intros a Ha r t Ht. apply Ha. rewrite <- Hlen.
      destruct (Nat.eq_dec r k) as [-> | Hk].
      - rewrite updn_same in Ht |- *. lia.
      - rewrite updn_other in Ht |- * by exact Hk. lia. }
    split.
    + intros r t Ht. rewrite stream_cons in Ht |- *. simpl fst in *.
      simpl snd in *.
      destruct (Nat.eqb_spec k r) as [<- | Hk].
      * rewrite length_app, frame_length in Ht. simpl snd in Ht. fold F in Ht.
        destruct (Nat.lt_ge_cases t F) as [HtF | HtF].
        -- rewrite app_nth1 by (rewrite frame_length; exact HtF).
           rewrite IH2.
           ++ rewrite Nat.add_assoc. apply W1. exact HtF.
           ++ intros r' t' Hrt. destruct (Nat.eq_dec r' k) as [-> | Hrk].
              ** rewrite updn_same in Hrt. lia.
              ** rewrite updn_other in Hrt by exact Hrk.
                 apply Hsep; [congruence | rewrite Hmine; lia | ].
                 rewrite stream_cons. simpl fst.
                 apply Nat.eqb_neq in Hrk. rewrite Nat.eqb_sym, Hrk. lia.
        -- rewrite app_nth2 by (rewrite frame_length; exact HtF).
           rewrite frame_length. simpl snd. fold F.
           specialize (IH1 k (t - F)). rewrite updn_same in IH1.
           replace (displ k + (offs k + t))
             with (displ k + (offs k + F + (t - F))) by lia.
           apply IH1. lia.
      * specialize (IH1 r t). rewrite updn_other in IH1 by congruence.
        now apply IH1.
    + intros a Ha. rewrite IH2 by (apply Hlater; exact Ha).
      apply W2.
      destruct (Nat.lt_ge_cases a (displ k + offs k)) as [H | H];
        [now left | right].
      destruct (Nat.lt_ge_cases a (displ k + offs k + F)) as [H' | H'];
        [ | exact H'].
      exfalso. apply (Ha k (a - displ k)); [rewrite Hmine | ]; lia.
Qed.

Lemma alltoallv_int_spec (num_procs : nat) (sendbuf : nat -> imem)
  (send_displ : nat -> counts) (r : nat) (recv_count recv_displ : counts)
  (junk : imem) :
  (forall s s' t t', s < num_procs -> s' < num_procs -> s <> s' ->
     t < recv_count s -> t' < recv_count s' ->
     recv_displ s + t <> recv_displ s' + t') ->
  forall s t, s < num_procs -> t < recv_count s ->
    alltoallv_int num_procs sendbuf send_displ r recv_count recv_displ junk
                  (recv_displ s + t)
    = sendbuf s (send_displ s r + t).
Proof.
  intros Hsep. unfold alltoallv_int.
  assert (Hin : forall s n buf,
    (forall t, t < n ->
       forloop n (fun t b => updz b (recv_displ s + t)
                                  (sendbuf s (send_displ s r + t))) buf
               (recv_displ s + t) = sendbuf s (send_displ s r + t)) /\
    (forall a, (forall t, t < n -> a <> recv_displ s + t) ->
       forloop n (fun t b => updz b (recv_displ s + t)
                                  (sendbuf s (send_displ s r + t))) buf a
       = buf a)).
  { intros s n buf. induction n as [| n [IH1 IH2]].
    - split; [intros; lia | reflexivity].
    - split.
      + intros t Ht. simpl forloop.
        destruct (Nat.eq_dec t n) as [-> | Hn]; [apply updz_same | ].
        rewrite updz_other by lia. apply IH1. lia.
      + intros a Ha. simpl forloop. rewrite updz_other by (apply Ha; lia).
        apply IH2. intros t Ht. apply Ha. lia. }
  assert (Hout : forall m, m <= num_procs ->
    forall s t, s < m -> t < recv_count s ->
      forloop m
        (fun s b => forloop (recv_count s)
                      (fun t b => updz b (recv_displ s + t)
                                       (sendbuf s (send_displ s r + t))) b)
        junk (recv_displ s + t)
      = sendbuf s (send_displ s r + t)).
  { induction m as [| m IH]; intros Hm s t Hs Ht; [lia | ].
    simpl forloop. destruct (Nat.eq_dec s m) as [-> | Hsm].
    - apply (Hin m (recv_count m)). exact Ht.
    - rewrite (proj2 (Hin m (recv_count m) _)).
      + apply IH; lia.
      + intros t' Ht'. apply Hsep; try lia. }
  intros s t Hs Ht. apply (Hout num_procs (Nat.le_refl _)); assumption.
Qed.

(** ** Lists met in ascending order *)

Lemma flat_map_flat_map {A B C : Type} (f : A -> list B) (g : B -> list C)
  (l : list A) :
  flat_map g (flat_map f l) = flat_map (fun a => flat_map g (f a)) l.
Proof.
  induction l as [| a l IH]; [reflexivity | ].
  simpl. now rewrite flat_map_app, IH.
Qed.

Lemma flat_map_nil {A B : Type} (f : A -> list B) (l : list A) :
  (forall a, In a l -> f a = []) -> flat_map f l = [].
Proof.
  induction l as [| a l IH]; intros H; [reflexivity | ].
  simpl. rewrite (H a) by now left. apply IH. intros b Hb. apply H. now right.
Qed.

(** Only one index contributes. *)
Lemma flat_map_single {B : Type} (f : nat -> list B) (n a : nat) :
  a < n -> (forall b, b < n -> b <> a -> f b = []) ->
  flat_map f (seq 0 n) = f a.
Proof.
  intros Ha H. rewrite (seq_split a n Ha), flat_map_app. simpl.
  rewrite !flat_map_nil.
  - now rewrite app_nil_r.
  - intros b Hb. apply in_seq in Hb. apply H; lia.
  - intros b Hb. apply in_seq in Hb. apply H; lia.
Qed.

Lemma flat_map_ext_in {A B : Type} (f g : A -> list B) (l : list A) :
  (forall a, In a l -> f a = g a) -> flat_map f l = flat_map g l.
Proof.
  induction l as [| a l IH]; intros H; [reflexivity | ].
  simpl. rewrite (H a) by now left. f_equal. apply IH.
  intros b Hb. apply H. now right.
Qed.

(** The blocks of a concatenation start at the prefix sums of their
    lengths. *)
Lemma concat_blocks (f : nat -> list Z) (n : nat) :
  length (flat_map f (seq 0 n)) = psum (fun s => length (f s)) n /\
  forall k, k < length (flat_map f (seq 0 n)) ->
    exists s t, s < n /\ t < length (f s) /\
                k = psum (fun s => length (f s)) s + t /\
                nth k (flat_map f (seq 0 n)) 0%Z = nth t (f s) 0%Z.
Proof.
  induction n as [| n [IH1 IH2]].
  - split; [reflexivity | simpl; intros; lia].
  - rewrite seq_S, flat_map_app. simpl flat_map. rewrite app_nil_r.
    split; [rewrite length_app, IH1; reflexivity | ].
    intros k Hk. rewrite length_app in Hk.
    destruct (Nat.lt_ge_cases k (length (flat_map f (seq 0 n)))) as [H | H].
    + destruct (IH2 k H) as (s & t & Hs & Ht & E1 & E2).
      exists s, t. rewrite app_nth1 by exact H.
      repeat split; try assumption. lia.
    + exists n, (k - length (flat_map f (seq 0 n))).
      rewrite app_nth2 by exact H. rewrite IH1 in *.
      repeat split; lia.
Qed.

(** ** The marked ranks *)

Section Marks.

Variable tdof_offsets : list Z.

Local Abbreviation trank := (tdof_rank tdof_offsets).

(** Some DOF of the list belongs to [q]. *)
Definition holds_rank (dofs : list Z) (q : nat) : bool :=
  existsb (fun tdof => Nat.eqb (trank tdof) q) dofs.

Lemma mark_ranks_spec (dofs : list Z) (q : nat) :
  negb (Nat.eqb (mark_ranks tdof_offsets dofs q) 0) = holds_rank dofs q.
Proof.
  unfold mark_ranks, holds_rank.
  assert (Inv : forall q,
    forloop (length dofs)
      (fun i ranks_marker =>
         let rank := trank (nth i dofs 0%Z) in
         if Nat.eqb (ranks_marker rank) 0 then updn ranks_marker rank 1
         else ranks_marker)
      (fun _ => 0) q
    = if existsb (fun tdof => Nat.eqb (trank tdof) q)
                 (firstn (length dofs) dofs)
      then 1 else 0).
  { apply (Upwind.forloop_ind
             (fun m (marker : counts) =>
                forall q,
                  marker q
                  = if existsb (fun tdof => Nat.eqb (trank tdof) q)
                               (firstn m dofs)
                    then 1 else 0)).
    - intros q'. reflexivity.
    - intros m marker Hm H q'. cbv zeta.
      rewrite (Restrict.firstn_snoc 0%Z dofs m Hm), existsb_app. simpl existsb.
      rewrite orb_false_r.
      set (d := nth m dofs 0%Z).
      destruct (Nat.eqb_spec (marker (trank d)) 0) as [E | E].
      + destruct (Nat.eqb_spec (trank d) q') as [<- | Hq].
        * rewrite updn_same, orb_true_r. reflexivity.
        * rewrite updn_other by congruence. rewrite orb_false_r. apply H.
      + destruct (Nat.eqb_spec (trank d) q') as [<- | Hq].
        * rewrite orb_true_r. rewrite (H (trank d)) in E |- *.
          destruct (existsb _ (firstn m dofs)); [reflexivity | congruence].
        * rewrite orb_false_r. apply H. }
  rewrite Inv, firstn_all.
  now destruct (existsb _ dofs).
Qed.

Lemma holds_rank_false (dofs : list Z) (q : nat) :
  holds_rank dofs q = false ->
  filter (fun tdof => Z.eqb (Rank.get_rank tdof tdof_offsets) (Z.of_nat q))
         dofs = [].
Proof.
  unfold holds_rank. intros H.
  induction dofs as [| d dofs IH]; [reflexivity | ].
  simpl in H. apply orb_false_iff in H as [H1 H2]. simpl.
  destruct (Z.eqb_spec (Rank.get_rank d tdof_offsets) (Z.of_nat q)) as [E | E].
  - apply Nat.eqb_neq in H1. exfalso. apply H1. unfold tdof_rank.
    rewrite E. apply Nat2Z.id.
  - now apply IH.
Qed.

End Marks.

Lemma received_nil (r : nat) (msgs : list message) :
  (forall m, In m msgs -> fst m <> r) -> received r msgs = [].
Proof.
  unfold received. induction msgs as [| m msgs IH]; intros H; [reflexivity | ].
  simpl. replace (fst m =? r) with false
    by (symmetry; apply Nat.eqb_neq; apply H; now left).
  apply IH. intros m' Hm'. apply H. now right.
Qed.

(** ** Reading the messages back *)

Lemma forloop_ext {St : Type} (n : nat) (b1 b2 : nat -> St -> St) (s : St) :
  (forall i s, i < n -> b1 i s = b2 i s) ->
  forloop n b1 s = forloop n b2 s.
Proof.
  intros H. induction n as [| n IH]; [reflexivity | ].
  simpl. rewrite IH by (intros; apply H; lia). apply H. lia.
Qed.

Lemma Sum_spec (num_procs : nat) (count : counts) :
  Sum num_procs count = psum count num_procs.
Proof.
  unfold Sum. induction num_procs as [| n IH]; [reflexivity | ].
  simpl. now rewrite IH.
Qed.

Section Read.

Variable St : Type.
Variable body : Z -> Z -> St -> St.

(** What the loop does with one message and with a list of messages. *)
Definition take (f : nat * list Z) (st : St) : St :=
  fold_left (fun st tdof => body (Z.of_nat (fst f)) tdof st) (snd f) st.

Definition take_all (frames : list (nat * list Z)) (st : St) : St :=
  fold_left (fun st f => take f st) frames st.

(** On a buffer that holds whole messages from [k] on, the loop ends and
    has taken them one by one. *)
Lemma read_frames_spec (rbuff_size : nat) (recvbuf : imem) :
  forall (frames : list (nat * list Z)) (fuel k : nat) (st : St),
    length frames <= fuel ->
    rbuff_size = k + length (flat_map frame frames) ->
    (forall t, t < length (flat_map frame frames) ->
       recvbuf (k + t) = nth t (flat_map frame frames) 0%Z) ->
    read_frames body fuel rbuff_size recvbuf (Z.of_nat k) st
    = Some (take_all frames st).
Proof.
  induction frames as [| [ip dofs] frames IH]; intros fuel k st Hfuel Hsize Hbuf.
  - simpl in Hsize.
    assert (E : Z.ltb (Z.of_nat k) (Z.of_nat rbuff_size) = false)
      by (apply Z.ltb_ge; lia).
    destruct fuel; simpl; rewrite E; reflexivity.
  - change (flat_map frame ((ip, dofs) :: frames))
      with (frame (ip, dofs) ++ flat_map frame frames) in Hsize, Hbuf.
    rewrite length_app in Hsize, Hbuf.
    rewrite frame_length in Hsize, Hbuf. simpl snd in Hsize, Hbuf.
    destruct fuel as [| fuel]; [simpl in Hfuel; lia | ].
    assert (E : Z.ltb (Z.of_nat k) (Z.of_nat rbuff_size) = true)
      by (apply Z.ltb_lt; lia).
    simpl read_frames. rewrite E.
    assert (E0 : recvbuf (Z.to_nat (Z.of_nat k)) = Z.of_nat ip).
    { rewrite Nat2Z.id. rewrite <- (Nat.add_0_r k) at 1.
      rewrite Hbuf by lia. reflexivity. }
    assert (E1 : recvbuf (Z.to_nat (Z.of_nat k + 1)) = Z.of_nat (length dofs)).
    { replace (Z.to_nat (Z.of_nat k + 1)) with (k + 1) by lia.
      rewrite Hbuf by lia. reflexivity. }
    rewrite E0, E1, Nat2Z.id.
    replace (Z.of_nat k + 2 + Z.of_nat (length dofs))%Z
      with (Z.of_nat (k + (2 + length dofs))) by lia.
    rewrite IH.
    + f_equal. unfold take_all. simpl fold_left. f_equal.
      unfold take. simpl fst; simpl snd.
      rewrite (Restrict.fold_left_by_index 0%Z), <- forloop_fold.
      apply forloop_ext. intros i s Hi.
      replace (Z.to_nat (Z.of_nat k + 2 + Z.of_nat i)) with (k + (2 + i)) by lia.
      rewrite Hbuf by lia.
      rewrite app_nth1 by (rewrite frame_length; simpl; lia).
      reflexivity.
    + simpl in Hfuel. lia.
    + lia.
    + intros t Ht.
      replace (k + (2 + length dofs) + t) with (k + (2 + length dofs + t)) by lia.
      rewrite Hbuf by lia.
      rewrite app_nth2 by (rewrite frame_length; simpl; lia).
      rewrite frame_length. simpl snd. f_equal. lia.
Qed.

End Read.

Arguments take {St} body f st.
Arguments take_all {St} body frames st.

Lemma frames_bound (frames : list (nat * list Z)) :
  length frames <= length (flat_map frame frames).
Proof.
  induction frames as [| f frames IH]; [reflexivity | ].
  cbn [flat_map]. rewrite length_app, frame_length. simpl length. lia.
Qed.

(** ** One exchange of messages *)

Section Exchange.

Variable num_procs : nat.
Variable msgs : nat -> list message.
Variable send_count : nat -> counts.
Variable sendbuf : nat -> imem.
Variable junk : imem.
Variable r : nat.

Hypothesis Hkeys :
  forall s m, s < num_procs -> In m (msgs s) -> fst m < num_procs.
Hypothesis Hcount :
  forall s, send_count s = count_frames (msgs s) (fun _ => 0).
Hypothesis Hbuf :
  forall s, sendbuf s
            = fst (fill_frames (displacements num_procs (send_count s))
                               (msgs s) (fun _ => 0%Z, fun _ => 0)).

Lemma send_count_spec (s q : nat) :
  send_count s q = length (stream q (msgs s)).
Proof. rewrite Hcount, count_frames_spec. reflexivity. Qed.

Lemma sendbuf_spec (s q t : nat) :
  s < num_procs -> t < length (stream q (msgs s)) ->
  sendbuf s (displacements num_procs (send_count s) q + t)
  = nth t (stream q (msgs s)) 0%Z.
Proof.
  intros Hs Ht. rewrite Hbuf.
  set (displ := displacements num_procs (send_count s)).
  assert (Hrange : forall q, 0 < length (stream q (msgs s)) -> q < num_procs).
  { intros q' Hq. destruct (Nat.lt_ge_cases q' num_procs) as [H | H];
      [exact H | ].
    unfold stream in Hq. rewrite received_nil in Hq; [simpl in Hq; lia | ].
    intros m Hm. apply (Hkeys s m Hs) in Hm. lia. }
  assert (Hd : forall q, q < num_procs ->
            displ q = psum (fun q => length (stream q (msgs s))) q).
  { intros q' Hq. unfold displ. rewrite displacements_spec by exact Hq.
    clear - Hcount. induction q' as [| q' IH]; [reflexivity | ].
    simpl. now rewrite IH, send_count_spec. }
  destruct (fill_frames_spec displ (msgs s) (fun _ => 0%Z) (fun _ => 0))
    as [H1 _].
  - intros q1 q2 u u' Hq Hu Hu'. simpl in Hu, Hu'.
    rewrite !Hd by (apply Hrange; lia).
    apply psum_separated; assumption.
  - specialize (H1 q t Ht). simpl in H1. exact H1.
Qed.

(** The messages that reach [r], by ascending source, and the receive
    buffer. *)
Definition arrived : list (nat * list Z) :=
  flat_map (fun s => received r (msgs s)) (seq 0 num_procs).

Definition exchanged : imem :=
  alltoallv_int num_procs sendbuf
    (fun s => displacements num_procs (send_count s)) r
    (fun s => send_count s r)
    (displacements num_procs (fun s => send_count s r)) junk.

Lemma exchanged_spec (s t : nat) :
  s < num_procs -> t < length (stream r (msgs s)) ->
  exchanged (displacements num_procs (fun s => send_count s r) s + t)
  = nth t (stream r (msgs s)) 0%Z.
Proof.
  intros Hs Ht. unfold exchanged. rewrite alltoallv_int_spec.
  - now apply sendbuf_spec.
  - intros s1 s2 t1 t2 H1 H2 H12 Ht1 Ht2.
    rewrite !displacements_spec by assumption.
    now apply psum_separated.
  - exact Hs.
  - now rewrite send_count_spec.
Qed.

Lemma arrived_stream :
  flat_map frame arrived
  = flat_map (fun s => stream r (msgs s)) (seq 0 num_procs).
Proof. unfold arrived. apply flat_map_flat_map. Qed.

Lemma exchanged_size :
  Sum num_procs (fun s => send_count s r) = length (flat_map frame arrived).
Proof.
  rewrite Sum_spec, arrived_stream.
  rewrite (proj1 (concat_blocks (fun s => stream r (msgs s)) num_procs)).
  clear - Hcount. induction num_procs as [| n IH]; [reflexivity | ].
  simpl. now rewrite IH, send_count_spec.
Qed.

Lemma exchanged_frames (k : nat) :
  k < length (flat_map frame arrived) ->
  exchanged k = nth k (flat_map frame arrived) 0%Z.
Proof.
  rewrite arrived_stream. intros Hk.
  destruct (proj2 (concat_blocks (fun s => stream r (msgs s)) num_procs) k Hk)
    as (s & t & Hs & Ht & E1 & E2).
  rewrite E2, <- (exchanged_spec s t Hs Ht). f_equal.
  rewrite E1. f_equal.
  rewrite displacements_spec by exact Hs.
  clear - Hcount. induction s as [| s IH]; [reflexivity | ].
  simpl. now rewrite IH, send_count_spec.
Qed.

(** The extraction loop ends, having read the messages one by one. *)
Lemma exchange_read {St : Type} (body : Z -> Z -> St -> St) (st : St) :
  read_frames body (Sum num_procs (fun s => send_count s r))
              (Sum num_procs (fun s => send_count s r)) exchanged 0%Z st
  = Some (take_all body arrived st).
Proof.
  change 0%Z with (Z.of_nat 0). apply read_frames_spec.
  - rewrite exchanged_size. apply frames_bound.
  - rewrite exchanged_size. reflexivity.
  - intros t Ht. simpl. now apply exchanged_frames.
Qed.

End Exchange.

(** ** Part 5: the sending side *)

Section Sender.

Variable num_procs : nat.
Variable nrsubdomains : nat.
Variable subdomain_rank : list nat.
Variable tdof_offsets : list Z.
Variable p : process.

(** The messages of one owned subdomain and of all of them, in the order
    of the loops. *)
Definition msgs_of (ip : nat) : list message :=
  let dofs := nth ip (SubdomainGTrueDofs p) [] in
  flat_map
    (fun irank =>
       if holds_rank tdof_offsets dofs irank then [(irank, (ip, dofs))]
       else [])
    (seq 0 num_procs).

Definition owned_msgs (ip : nat) : list message :=
  if negb (Nat.eqb (myid p) (owner subdomain_rank ip)) then []
  else msgs_of ip.

Definition all_msgs : list message :=
  flat_map owned_msgs (seq 0 nrsubdomains).

Lemma over_marked_msgs {St : Type} (h : message -> St -> St) (st : St) :
  over_marked num_procs nrsubdomains subdomain_rank tdof_offsets p
    (fun ip irank dofs => h (irank, (ip, dofs))) st
  = fold_left (fun st m => h m st) all_msgs st.
Proof.
  unfold over_marked, all_msgs. rewrite forloop_fold, fold_left_flat_map.
  apply fold_left_ext. intros s ip. unfold owned_msgs.
  destruct (negb (myid p =? owner subdomain_rank ip)); [reflexivity | ].
  unfold msgs_of. cbv zeta. rewrite forloop_fold, fold_left_flat_map.
  apply fold_left_ext. intros s' irank.
  rewrite mark_ranks_spec.
  now destruct (holds_rank tdof_offsets _ irank).
Qed.

Lemma setup_count_frames :
  compute_send_count num_procs nrsubdomains subdomain_rank tdof_offsets p
  = count_frames all_msgs (fun _ => 0).
Proof.
  unfold count_frames.
  rewrite <- (over_marked_msgs
                (fun m c => updn c (fst m) (c (fst m) + (2 + length (snd (snd m)))))
                (fun _ => 0)).
  reflexivity.
Qed.

Lemma setup_fill_frames (displ : counts) :
  fill_sendbuf num_procs nrsubdomains subdomain_rank tdof_offsets p displ
  = fst (fill_frames displ all_msgs (fun _ => 0%Z, fun _ => 0)).
Proof.
  unfold fill_frames.
  rewrite <- (over_marked_msgs
                (fun m st =>
                   write_frame displ (fst (snd m)) (fst m) (snd (snd m)) st)
                (fun _ => 0%Z, fun _ => 0)).
  reflexivity.
Qed.

Lemma msgs_keys (m : message) : In m all_msgs -> fst m < num_procs.
Proof.
  intros Hm. unfold all_msgs in Hm.
  apply in_flat_map in Hm as [ip [_ Hm]]. unfold owned_msgs in Hm.
  destruct (negb (myid p =? owner subdomain_rank ip)); [easy | ].
  unfold msgs_of in Hm. cbv zeta in Hm.
  apply in_flat_map in Hm as [irank [Hin Hm]]. apply in_seq in Hin.
  destruct (holds_rank tdof_offsets _ irank); [ | easy].
  destruct Hm as [<- | []]. simpl. lia.
Qed.

(** What [r] gets from this process: the owned subdomains with a DOF of
    [r], each with its whole list. *)
Lemma received_all (r : nat) :
  r < num_procs ->
  received r all_msgs
  = flat_map
      (fun ip =>
         let dofs := nth ip (SubdomainGTrueDofs p) [] in
         if Nat.eqb (myid p) (owner subdomain_rank ip)
            && holds_rank tdof_offsets dofs r
         then [(ip, dofs)] else [])
      (seq 0 nrsubdomains).
Proof.
  intros Hr. unfold all_msgs.
  induction (seq 0 nrsubdomains) as [| ip l IH]; [reflexivity | ].
  simpl flat_map. rewrite received_app, IH. f_equal.
  unfold owned_msgs. cbv zeta.
  destruct (myid p =? owner subdomain_rank ip); simpl negb; cbv iota;
    [ | reflexivity].
  simpl andb. unfold msgs_of. cbv zeta.
  set (dofs := nth ip (SubdomainGTrueDofs p) []).
  unfold received.
  assert (H : forall n, 
    map snd
      (filter (fun m : message => fst m =? r)
         (flat_map
            (fun irank =>
               if holds_rank tdof_offsets dofs irank
               then [(irank, (ip, dofs))] else [])
            (seq 0 n)))
    = if Nat.ltb r n && holds_rank tdof_offsets dofs r
      then [(ip, dofs)] else []).
  { induction n as [| n IHn]; [reflexivity | ].
    rewrite seq_S, flat_map_app, filter_app, map_app, IHn. simpl flat_map.
    rewrite app_nil_r.
    destruct (Nat.eq_dec r n) as [-> | Hne].
    - rewrite Nat.ltb_irrefl. simpl andb. cbv iota. simpl app.
      replace (n <? S n) with true by (symmetry; apply Nat.ltb_lt; lia).
      simpl andb.
      destruct (holds_rank tdof_offsets dofs n); [ | reflexivity].
      simpl. now rewrite Nat.eqb_refl.
    - replace (r <? S n) with (r <? n)
        by (destruct (Nat.ltb_spec r n), (Nat.ltb_spec r (S n)); try lia;
            reflexivity).
      replace (map snd (filter (fun m : message => fst m =? r)
                 (if holds_rank tdof_offsets dofs n
                  then [(n, (ip, dofs))] else [])))
        with (@nil (nat * list Z)); [now rewrite app_nil_r | ].
      destruct (holds_rank tdof_offsets dofs n); [ | reflexivity].
      simpl. replace (n =? r) with false
        by (symmetry; apply Nat.eqb_neq; congruence).
      reflexivity. }
  rewrite H.
  replace (r <? num_procs) with true by (symmetry; apply Nat.ltb_lt; exact Hr).
  reflexivity.
Qed.

End Sender.

Section Parse.

Variable subdomain_rank : list nat.
Variable tdof_offsets : list Z.
Variable me : nat.

(** What one message and a list of messages do to the two tables. *)
Definition absorb (f : nat * list Z) (st : list (list Z) * list (list Z))
  : list (list Z) * list (list Z) :=
  take (absorb_dof subdomain_rank tdof_offsets me) f st.

Definition absorb_all (frames : list (nat * list Z))
  (st : list (list Z) * list (list Z)) : list (list Z) * list (list Z) :=
  take_all (absorb_dof subdomain_rank tdof_offsets me) frames st.

Lemma append_to_length (t : list (list Z)) (ip : nat) (v : Z) :
  length (append_to t ip v) = length t.
Proof.
  revert ip. induction t as [| l t IH]; intros [| ip]; simpl; auto.
Qed.

Lemma append_to_nth (t : list (list Z)) (ip q : nat) (v : Z) :
  nth q (append_to t ip v) []
  = nth q t [] ++ (if Nat.eqb q ip && Nat.ltb q (length t) then [v] else []).
Proof.
  revert ip q. induction t as [| l t IH]; intros ip q.
  - simpl. destruct ip, q; simpl; try reflexivity;
      now rewrite ?andb_false_r.
  - destruct ip as [| ip], q as [| q]; simpl; try reflexivity.
    + now rewrite app_nil_r.
    + now rewrite app_nil_r.
    + rewrite IH. reflexivity.
Qed.

(** The DOFs of a list that this process owns. *)
Definition mine (dofs : list Z) : list Z :=
  filter (fun tdof => Z.eqb (Rank.get_rank tdof tdof_offsets) (Z.of_nat me))
         dofs.

(** A message for a subdomain owned elsewhere is copied to
    [SubdomainGTrueDofs]. *)
Definition copied (G : list (list Z)) (q : nat) (dofs : list Z) : list Z :=
  if Nat.ltb q (length G) && negb (Nat.eqb me (owner subdomain_rank q))
  then dofs else [].

Definition kept (L : list (list Z)) (q : nat) (dofs : list Z) : list Z :=
  if Nat.ltb q (length L) then mine dofs else [].

(** The part of a message that goes to the list of subdomain [q]. *)
Definition pick (q : nat) (h : list Z -> list Z) (f : nat * list Z) : list Z :=
  if Nat.eqb q (fst f) then h (snd f) else [].

Lemma absorb_spec (f : nat * list Z) (G L : list (list Z)) :
  let st := absorb f (G, L) in
  length (fst st) = length G /\ length (snd st) = length L /\
  (forall q, nth q (fst st) [] = nth q G [] ++ pick q (copied G q) f) /\
  (forall q, nth q (snd st) [] = nth q L [] ++ pick q (kept L q) f).
Proof.
  destruct f as [ip dofs]. unfold absorb, take, pick. simpl fst; simpl snd.
  revert G L. induction dofs as [| d dofs IH]; intros G L; cbv zeta.
  - simpl. repeat split; intros q.
    + unfold copied.
      destruct (q =? ip),
        ((q <? length G) && negb (me =? owner subdomain_rank q));
        now rewrite app_nil_r.
    + unfold kept, mine.
      destruct (q =? ip), (q <? length L); now rewrite app_nil_r.
  - set (G1 := if negb (me =? owner subdomain_rank ip)
               then append_to G ip d else G).
    set (L1 := if Z.eqb (Rank.get_rank d tdof_offsets) (Z.of_nat me)
               then append_to L ip d else L).
    assert (E : absorb_dof subdomain_rank tdof_offsets me (Z.of_nat ip) d
                           (G, L) = (G1, L1)).
    { unfold absorb_dof. rewrite Nat2Z.id. reflexivity. }
    cbn [fold_left]. rewrite E.
    destruct (IH G1 L1) as (A1 & A2 & A3 & A4). cbv zeta in A1, A2, A3, A4.
    assert (HG : length G1 = length G).
    { unfold G1. destruct (negb _); [apply append_to_length | reflexivity]. }
    assert (HL : length L1 = length L).
    { unfold L1. destruct (Z.eqb _ _); [apply append_to_length | reflexivity]. }
    split; [now rewrite A1 | ]. split; [now rewrite A2 | ]. split.
    + intros q. rewrite A3. unfold copied. rewrite HG. unfold G1.
      destruct (Nat.eqb_spec q ip) as [-> | Hq].
      * destruct (negb (me =? owner subdomain_rank ip)).
        -- rewrite append_to_nth, Nat.eqb_refl. simpl andb.
           rewrite andb_true_r.
           destruct (ip <? length G); simpl; rewrite <- ?app_assoc;
             reflexivity.
        -- rewrite andb_false_r. reflexivity.
      * destruct (negb (me =? owner subdomain_rank ip)); [ | reflexivity].
        rewrite append_to_nth.
        replace (q =? ip) with false by (symmetry; now apply Nat.eqb_neq).
        simpl. now rewrite !app_nil_r.
    + intros q. rewrite A4. unfold kept, mine. rewrite HL. unfold L1.
      simpl filter.
      destruct (Nat.eqb_spec q ip) as [-> | Hq].
      * destruct (Z.eqb (Rank.get_rank d tdof_offsets) (Z.of_nat me)).
        -- rewrite append_to_nth, Nat.eqb_refl. simpl andb.
           destruct (ip <? length L); simpl; rewrite <- ?app_assoc;
             reflexivity.
        -- reflexivity.
      * destruct (Z.eqb (Rank.get_rank d tdof_offsets) (Z.of_nat me));
          [ | reflexivity].
        rewrite append_to_nth.
        replace (q =? ip) with false by (symmetry; now apply Nat.eqb_neq).
        simpl. now rewrite !app_nil_r.
Qed.

Lemma absorb_all_spec (frames : list (nat * list Z)) :
  forall (G L : list (list Z)),
    let st := absorb_all frames (G, L) in
    length (fst st) = length G /\ length (snd st) = length L /\
    (forall q, nth q (fst st) []
               = nth q G [] ++ flat_map (pick q (copied G q)) frames) /\
    (forall q, nth q (snd st) []
               = nth q L [] ++ flat_map (pick q (kept L q)) frames).
Proof.
  induction frames as [| f frames IH]; intros G L; cbv zeta.
  - simpl. repeat split; intros; now rewrite app_nil_r.
  - unfold absorb_all, take_all in *. simpl fold_left.
    fold (absorb f (G, L)).
    destruct (absorb_spec f G L) as (B1 & B2 & B3 & B4).
    cbv zeta in B1, B2, B3, B4.
    destruct (absorb f (G, L)) as [G1 L1]. simpl fst in *; simpl snd in *.
    destruct (IH G1 L1) as (A1 & A2 & A3 & A4). cbv zeta in A1, A2, A3, A4.
    split; [now rewrite A1 | ]. split; [now rewrite A2 | ]. split.
    + intros q. rewrite A3, B3, <- app_assoc. simpl flat_map.
      unfold copied. now rewrite B1.
    + intros q. rewrite A4, B4, <- app_assoc. simpl flat_map.
      unfold kept. now rewrite B2.
Qed.

End Parse.

(** ** Part 5: the receiving side *)

Section Receiver.

Variable num_procs : nat.
Variable nrsubdomains : nat.
Variable subdomain_rank : list nat.
Variable tdof_offsets : list Z.
Variable procs : nat -> process.
Variable r : nat.

Hypothesis Hown :
  forall ip, ip < nrsubdomains -> owner subdomain_rank ip < num_procs.
Hypothesis Hid : forall s, s < num_procs -> myid (procs s) = s.
Hypothesis Hr : r < num_procs.

Local Abbreviation own := (owner subdomain_rank).
Local Abbreviation G := (owned_dofs subdomain_rank procs).

Definition msgs (s : nat) : list message :=
  all_msgs num_procs nrsubdomains subdomain_rank tdof_offsets (procs s).

(** Of the messages that reach [r], the one for subdomain [ip] is the
    owner's list, present when it has a DOF of [r]. *)
Lemma frames_pick (ip : nat) (h : list Z -> list Z) :
  ip < nrsubdomains ->
  flat_map (pick ip h) (arrived num_procs msgs r)
  = if holds_rank tdof_offsets (G ip) r then h (G ip) else [].
Proof.
  intros Hip. unfold arrived. rewrite flat_map_flat_map.
  pose proof (Hown ip Hip) as Ho.
  assert (Hs : forall s, s < num_procs ->
    flat_map (pick ip h) (received r (msgs s))
    = if Nat.eqb s (own ip) && holds_rank tdof_offsets (G ip) r
      then h (G ip) else []).
  { intros s Hs. unfold msgs.
    rewrite (received_all _ _ _ _ _ r Hr), flat_map_flat_map, (Hid s Hs).
    rewrite (flat_map_single _ nrsubdomains ip Hip).
    - cbv zeta. destruct (Nat.eqb_spec s (own ip)) as [-> | Hne].
      + fold (G ip). simpl andb.
        destruct (holds_rank tdof_offsets (G ip) r); [ | reflexivity].
        simpl. unfold pick. simpl. now rewrite Nat.eqb_refl, app_nil_r.
      + reflexivity.
    - intros b Hb Hne. cbv zeta.
      destruct (_ && _); [ | reflexivity].
      simpl. unfold pick. simpl.
      replace (ip =? b) with false by (symmetry; apply Nat.eqb_neq; congruence).
      reflexivity. }
  rewrite (flat_map_ext_in _
             (fun s => if Nat.eqb s (own ip) && holds_rank tdof_offsets (G ip) r
                       then h (G ip) else [])).
  - rewrite (flat_map_single _ num_procs (own ip) Ho).
    + now rewrite Nat.eqb_refl.
    + intros b Hb Hne.
      replace (b =? own ip) with false by (symmetry; now apply Nat.eqb_neq).
      reflexivity.
  - intros s Hin. apply in_seq in Hin. apply Hs. lia.
Qed.

End Receiver.

Lemma setup_resize_length (n : nat) (t : list (list Z)) :
  length (resize n t) = n.
Proof.
  unfold resize. rewrite length_app, length_firstn, repeat_length. lia.
Qed.

Lemma resize_empty (n q : nat) : nth q (resize n []) [] = [].
Proof.
  unfold resize. rewrite firstn_nil. simpl.
  destruct (nth_in_or_default q (repeat [] (n - 0)) (@nil Z)) as [H | H];
    [now apply repeat_spec in H | exact H].
Qed.

(** ** What part 5 leaves *)

(** Part 5 of the setup ends on every process and hands out the DOF lists.
    When every subdomain has an owner, every process knows its rank, every
    DOF of an owner's list has a rank among the processes (it indexes
    [ranks_marker]), the table [SubdomainGTrueDofs] has its [nrsubdomains]
    lists and [SubdomainLTrueDofs] is still empty: on process [r] the
    extraction loop ends; [SubdomainLTrueDofs[ip]] holds, for every subdomain, the DOFs of
    the owner's list [SubdomainGTrueDofs[ip]] whose rank is [r], in the
    owner's order; [SubdomainGTrueDofs[ip]] of an owned subdomain is
    untouched, and that of a subdomain owned elsewhere gets the owner's whole
    list appended when one of its DOFs maps to [r] and nothing otherwise. *)
Theorem setup_hands_out_dof_lists
  (num_procs nrsubdomains : nat) (subdomain_rank : list nat)
  (tdof_offsets : list Z) (procs : nat -> process) (junk : imem) (r : nat) :
  (forall ip, ip < nrsubdomains -> owner subdomain_rank ip < num_procs) ->
  (forall s, s < num_procs -> myid (procs s) = s) ->
  (forall ip i, ip < nrsubdomains ->
     i < length (owned_dofs subdomain_rank procs ip) ->
     (0 <= Rank.get_rank (nth i (owned_dofs subdomain_rank procs ip) 0%Z)
                         tdof_offsets < Z.of_nat num_procs)%Z) ->
  length (SubdomainGTrueDofs (procs r)) = nrsubdomains ->
  SubdomainLTrueDofs (procs r) = [] ->
  r < num_procs ->
  exists p',
    SubdomainToGlobalMapsSetup_5 num_procs nrsubdomains subdomain_rank
                                 tdof_offsets procs junk r = Some p' /\
    myid p' = r /\ mytoffset p' = mytoffset (procs r) /\
    length (SubdomainGTrueDofs p') = nrsubdomains /\
    length (SubdomainLTrueDofs p') = nrsubdomains /\
    forall ip, ip < nrsubdomains ->
      let dofs := owned_dofs subdomain_rank procs ip in
      nth ip (SubdomainLTrueDofs p') []
      = filter (fun tdof =>
                  Z.eqb (Rank.get_rank tdof tdof_offsets) (Z.of_nat r)) dofs /\
      nth ip (SubdomainGTrueDofs p') []
      = if Nat.eqb r (owner subdomain_rank ip) then dofs
        else nth ip (SubdomainGTrueDofs (procs r)) []
             ++ (if holds_rank tdof_offsets dofs r then dofs else []).
Proof.
  intros Hown Hid _ HG HL Hr.
  unfold SubdomainToGlobalMapsSetup_5. cbv zeta.
  rewrite (Hid r Hr).
  pose proof (exchange_read num_procs
                (msgs num_procs nrsubdomains subdomain_rank tdof_offsets procs)
                (fun s => compute_send_count num_procs nrsubdomains
                            subdomain_rank tdof_offsets (procs s))
                (fun s => fill_sendbuf num_procs nrsubdomains subdomain_rank
                            tdof_offsets (procs s)
                            (displacements num_procs
                               (compute_send_count num_procs nrsubdomains
                                  subdomain_rank tdof_offsets (procs s))))
                junk r
                (fun s m _ => msgs_keys _ _ _ _ _ m)
                (fun s => setup_count_frames _ _ _ _ _)
                (fun s => setup_fill_frames _ _ _ _ _ _)
                (absorb_dof subdomain_rank tdof_offsets r)
                (SubdomainGTrueDofs (procs r),
                 resize nrsubdomains (SubdomainLTrueDofs (procs r)))) as HP.
  unfold exchanged in HP. rewrite HP.
  fold (absorb_all subdomain_rank tdof_offsets r
          (arrived num_procs
             (msgs num_procs nrsubdomains subdomain_rank tdof_offsets procs) r)
          (SubdomainGTrueDofs (procs r),
           resize nrsubdomains (SubdomainLTrueDofs (procs r)))).
  destruct (absorb_all_spec subdomain_rank tdof_offsets r
              (arrived num_procs
                 (msgs num_procs nrsubdomains subdomain_rank tdof_offsets procs)
                 r)
              (SubdomainGTrueDofs (procs r))
              (resize nrsubdomains (SubdomainLTrueDofs (procs r))))
    as (A1 & A2 & A3 & A4).
  cbv zeta in A1, A2, A3, A4.
  destruct (absorb_all _ _ _ _ _) as [G' L'].
  simpl fst in *; simpl snd in *.
  eexists. split; [reflexivity | ]. simpl.
  split; [reflexivity | ]. split; [reflexivity | ].
  split; [now rewrite A1 | ].
  split; [now rewrite A2, setup_resize_length | ].
  intros ip Hip. split.
  - rewrite A4, HL, resize_empty. simpl app.
    rewrite (frames_pick num_procs nrsubdomains subdomain_rank tdof_offsets
               procs r Hown Hid Hr ip _ Hip).
    unfold kept. rewrite setup_resize_length.
    replace (ip <? nrsubdomains) with true
      by (symmetry; apply Nat.ltb_lt; exact Hip).
    unfold mine.
    destruct (holds_rank tdof_offsets (owned_dofs subdomain_rank procs ip) r)
      eqn:E; [reflexivity | ].
    symmetry. now apply holds_rank_false.
  - rewrite A3.
    rewrite (frames_pick num_procs nrsubdomains subdomain_rank tdof_offsets
               procs r Hown Hid Hr ip _ Hip).
    unfold copied. rewrite HG.
    replace (ip <? nrsubdomains) with true
      by (symmetry; apply Nat.ltb_lt; exact Hip).
    simpl andb.
    destruct (Nat.eqb_spec r (owner subdomain_rank ip)) as [E | E].
    + simpl negb. cbv iota.
      replace (if holds_rank tdof_offsets (owned_dofs subdomain_rank procs ip) r
               then [] else []) with (@nil Z) by now destruct (holds_rank _ _ _).
      rewrite app_nil_r. unfold owned_dofs. now rewrite <- E.
    + reflexivity.
Qed.

(** Two processes, two subdomains of three DOFs each, when part 4 is done:
    process 0 owns subdomain 0 and the DOFs 0 and 1, process 1 owns
    subdomain 1 and the DOFs 2 and 3; each knows the list of its own
    subdomain only. *)
Definition before_setup (s : nat) : process :=
  match s with
  | O => mkProcess 0 0%Z [[0; 1; 2]; []]%Z []
  | _ => mkProcess 1 2%Z [[]; [1; 2; 3]]%Z []
  end.

Lemma before_setup_owner (ip : nat) : ip < 2 -> owner [0; 1] ip < 2.
Proof. intros H. destruct ip as [| [| ip]]; unfold owner; simpl; lia. Qed.

Lemma before_setup_myid (s : nat) : s < 2 -> myid (before_setup s) = s.
Proof. intros H. destruct s as [| [| s]]; simpl; lia. Qed.

Lemma before_setup_ranks (ip i : nat) :
  ip < 2 -> i < length (owned_dofs [0; 1] before_setup ip) ->
  (0 <= Rank.get_rank (nth i (owned_dofs [0; 1]%nat before_setup ip) 0)
                      [0; 2] < Z.of_nat 2)%Z.
Proof.
  intros Hip Hi. destruct ip as [| [| ip]]; try lia;
    (destruct i as [| [| [| i]]]; simpl in Hi; try lia);
    match goal with
    | |- (0 <= ?g < _)%Z => let v := eval vm_compute in g in change g with v
    end; lia.
Qed.

Lemma setup_hands_out_dof_lists_witness :
  (exists p',
     SubdomainToGlobalMapsSetup_5 2 2 [0; 1] [0; 2]%Z before_setup
                                  (fun _ => 5%Z) 0 = Some p' /\
     myid p' = 0 /\ mytoffset p' = mytoffset (before_setup 0) /\
     length (SubdomainGTrueDofs p') = 2 /\
     length (SubdomainLTrueDofs p') = 2 /\
     forall ip, ip < 2 ->
       let dofs := owned_dofs [0; 1] before_setup ip in
       nth ip (SubdomainLTrueDofs p') []
       = filter (fun tdof =>
                   Z.eqb (Rank.get_rank tdof [0; 2]%Z) (Z.of_nat 0)) dofs /\
       nth ip (SubdomainGTrueDofs p') []
       = if Nat.eqb 0 (owner [0; 1] ip) then dofs
         else nth ip (SubdomainGTrueDofs (before_setup 0)) []
              ++ (if holds_rank [0; 2]%Z dofs 0 then dofs else [])) /\
  SubdomainToGlobalMapsSetup_5 2 2 [0; 1] [0; 2]%Z before_setup
                               (fun _ => 5%Z) 0
  = Some (example_procs 0).
Proof.
  split; [ | vm_compute; reflexivity].
  apply (setup_hands_out_dof_lists 2 2 [0; 1] [0; 2]%Z before_setup
           (fun _ => 5%Z) 0 before_setup_owner before_setup_myid
           before_setup_ranks).
  - reflexivity.
  - reflexivity.
  - lia.
Defined.

(** Part 5 of the setup establishes the bridge between the subdomain and the
    global numbering that [SubdomainsToGlobal] and [GlobalToSubdomains] rely
    on.  When, after part 4, every subdomain has an owner, every process
    knows its rank and holds [nrsubdomains] lists in [SubdomainGTrueDofs]
    and none yet in [SubdomainLTrueDofs], and every DOF of an owner's list
    has a rank among the processes and is not below the offset of that
    rank: part 5 ends on every process, and the processes it leaves satisfy
    [bridge]. *)
Theorem setup_establishes_bridge
  (num_procs nrsubdomains : nat) (subdomain_rank : list nat)
  (tdof_offsets : list Z) (procs : nat -> process) (junk : nat -> imem) :
  (forall ip, ip < nrsubdomains -> owner subdomain_rank ip < num_procs) ->
  (forall s, s < num_procs -> myid (procs s) = s) ->
  (forall s, s < num_procs ->
     length (SubdomainGTrueDofs (procs s)) = nrsubdomains) ->
  (forall s, s < num_procs -> SubdomainLTrueDofs (procs s) = []) ->
  (forall ip i, ip < nrsubdomains ->
     i < length (owned_dofs subdomain_rank procs ip) ->
     (0 <= Rank.get_rank (nth i (owned_dofs subdomain_rank procs ip) 0%Z)
                         tdof_offsets < Z.of_nat num_procs)%Z) ->
  (forall ip i, ip < nrsubdomains ->
     i < length (owned_dofs subdomain_rank procs ip) ->
     let tdof := nth i (owned_dofs subdomain_rank procs ip) 0%Z in
     (mytoffset (procs (tdof_rank tdof_offsets tdof)) <= tdof)%Z) ->
  exists procs',
    (forall s, s < num_procs ->
       SubdomainToGlobalMapsSetup_5 num_procs nrsubdomains subdomain_rank
                                    tdof_offsets procs (junk s) s
       = Some (procs' s)) /\
    bridge num_procs nrsubdomains subdomain_rank tdof_offsets procs'.
Proof.
  intros Hown Hid HG HL Hranks Hoffs.
  set (procs' := fun s =>
         match SubdomainToGlobalMapsSetup_5 num_procs nrsubdomains
                 subdomain_rank tdof_offsets procs (junk s) s with
         | Some p => p
         | None => procs s
         end).
  assert (Hres : forall s, s < num_procs ->
    SubdomainToGlobalMapsSetup_5 num_procs nrsubdomains subdomain_rank
                                 tdof_offsets procs (junk s) s
    = Some (procs' s) /\
    myid (procs' s) = s /\ mytoffset (procs' s) = mytoffset (procs s) /\
    forall ip, ip < nrsubdomains ->
      nth ip (SubdomainLTrueDofs (procs' s)) []
      = filter (fun tdof =>
                  Z.eqb (Rank.get_rank tdof tdof_offsets) (Z.of_nat s))
               (owned_dofs subdomain_rank procs ip) /\
      (s = owner subdomain_rank ip ->
       nth ip (SubdomainGTrueDofs (procs' s)) []
       = owned_dofs subdomain_rank procs ip)).
  { intros s Hs.
    destruct (setup_hands_out_dof_lists num_procs nrsubdomains subdomain_rank
                tdof_offsets procs (junk s) s Hown Hid Hranks (HG s Hs)
                (HL s Hs) Hs)
      as (p' & E & E1 & E2 & _ & _ & E3).
    unfold procs'. rewrite E.
    split; [reflexivity | ]. split; [exact E1 | ]. split; [exact E2 | ].
    intros ip Hip. destruct (E3 ip Hip) as [E4 E5]. cbv zeta in E4, E5.
    split; [exact E4 | ]. intros ->. now rewrite Nat.eqb_refl in E5. }
  assert (Hdofs : forall ip, ip < nrsubdomains ->
            owned_dofs subdomain_rank procs' ip
            = owned_dofs subdomain_rank procs ip).
  { intros ip Hip. unfold owned_dofs at 1.
    destruct (Hres _ (Hown ip Hip)) as (_ & _ & _ & H).
    apply (H ip Hip). reflexivity. }
  exists procs'. split; [intros s Hs; apply (Hres s Hs) | ].
  constructor.
  - exact Hown.
  - intros s Hs. apply (Hres s Hs).
  - intros ip i Hip Hi. rewrite (Hdofs ip Hip) in Hi |- *. now apply Hranks.
  - intros ip i Hip Hi. rewrite (Hdofs ip Hip) in Hi |- *. cbv zeta.
    pose proof (Hranks ip i Hip Hi) as Hrk.
    destruct (Hres (tdof_rank tdof_offsets
                      (nth i (owned_dofs subdomain_rank procs ip) 0%Z)))
      as (_ & _ & E & _).
    { unfold tdof_rank. lia. }
    rewrite E. now apply Hoffs.
  - intros r ip Hr Hip. rewrite (Hdofs ip Hip).
    destruct (Hres r Hr) as (_ & _ & _ & H). apply (H ip Hip).
Qed.

Lemma setup_establishes_bridge_witness :
  exists procs',
    (forall s, s < 2 ->
       SubdomainToGlobalMapsSetup_5 2 2 [0; 1] [0; 2]%Z before_setup
                                    (fun _ => 5%Z) s
       = Some (procs' s)) /\
    bridge 2 2 [0; 1] [0; 2]%Z procs'.
Proof.
  apply (setup_establishes_bridge 2 2 [0; 1] [0; 2]%Z before_setup
           (fun _ _ => 5%Z) before_setup_owner before_setup_myid).
  - intros [| [| s]] H; simpl; lia.
  - intros [| [| s]] H; simpl; try reflexivity; lia.
  - exact before_setup_ranks.
  - intros [| [| ip]] i Hip Hi; try lia;
      (destruct i as [| [| [| i]]]; simpl in Hi; try lia);
      cbv zeta;
      match goal with
      | |- (?g <= ?h)%Z =>
          let v := eval vm_compute in g in
          let w := eval vm_compute in h in change (v <= w)%Z
      end; lia.
Defined.

(** ** Parts 1 to 3: the DOF lists travel to the owners *)

(** The true DOFs that process data [m] lists for subdomain [ip]: element
    by element, each DOF decoded and numbered globally. *)
Definition element_tdofs (m : mesh_part) (ip : nat) : list Z :=
  flat_map
    (fun e =>
       map (fun edof_ => GetGlobalTDofNumber m (Bridge.decode edof_))
           (GetElementDofs m (e - myelemoffset m)%Z))
    (nth ip (local_element_map m) []).

Lemma append_many_spec (ip : nat) (l : list Z) :
  forall t : list (list Z),
    let t' := fold_left (fun t v => append_to t ip v) l t in
    length t' = length t /\
    forall q, nth q t' []
              = nth q t []
                ++ (if Nat.eqb q ip && Nat.ltb q (length t) then l else []).
Proof.
  induction l as [| v l IH]; intros t; cbv zeta.
  - simpl. split; [reflexivity | ]. intros q.
    destruct (_ && _); now rewrite app_nil_r.
  - simpl fold_left. destruct (IH (append_to t ip v)) as [A1 A2].
    cbv zeta in A1, A2. rewrite append_to_length in A1, A2.
    split; [exact A1 | ]. intros q. rewrite A2, append_to_nth.
    destruct (Nat.eqb q ip && Nat.ltb q (length t)).
    + now rewrite <- app_assoc.
    + now rewrite !app_nil_r.
Qed.

Lemma nth_repeat_empty (n q : nat) : nth q (repeat (@nil Z) n) [] = [].
Proof.
  destruct (nth_in_or_default q (repeat [] n) (@nil Z)) as [H | H];
    [now apply repeat_spec in H | exact H].
Qed.

Section Gather.

Variable num_procs : nat.
Variable nrsubdomains : nat.
Variable subdomain_rank : list nat.

Local Abbreviation own := (owner subdomain_rank).

Lemma collect_local_tdofs_spec (m : mesh_part) :
  length (collect_local_tdofs nrsubdomains m) = nrsubdomains /\
  forall ip, ip < nrsubdomains ->
    nth ip (collect_local_tdofs nrsubdomains m) [] = element_tdofs m ip.
Proof.
  unfold collect_local_tdofs.
  assert (Inv :
    let t := forloop nrsubdomains
      (fun ip local_tdofs =>
         let elems := nth ip (local_element_map m) [] in
         forloop (length elems)
           (fun iel local_tdofs =>
              let elem_idx := (nth iel elems 0 - myelemoffset m)%Z in
              let element_dofs := GetElementDofs m elem_idx in
              forloop (length element_dofs)
                (fun i local_tdofs =>
                   let edof_ := nth i element_dofs 0%Z in
                   let edof := Bridge.decode edof_ in
                   let tdof := GetGlobalTDofNumber m edof in
                   append_to local_tdofs ip tdof)
                local_tdofs)
           local_tdofs)
      (repeat [] nrsubdomains) in
    length t = nrsubdomains /\
    forall q, q < nrsubdomains ->
      nth q t [] = if Nat.ltb q nrsubdomains then element_tdofs m q else []).
  { apply (Upwind.forloop_ind
             (fun ip (t : list (list Z)) =>
                length t = nrsubdomains /\
                forall q, q < nrsubdomains ->
                  nth q t [] = if Nat.ltb q ip then element_tdofs m q else [])).
    - split; [apply repeat_length | ]. intros q _. apply nth_repeat_empty.
    - intros ip t Hip [H1 H2]. cbv zeta.
      assert (E : forloop (length (nth ip (local_element_map m) []))
                    (fun iel local_tdofs =>
                       forloop
                         (length (GetElementDofs m
                                    (nth iel (nth ip (local_element_map m) []) 0
                                     - myelemoffset m)%Z))
                         (fun i local_tdofs =>
                            append_to local_tdofs ip
                              (GetGlobalTDofNumber m
                                 (Bridge.decode
                                    (nth i
                                       (GetElementDofs m
                                          (nth iel
                                             (nth ip (local_element_map m) [])
                                             0 - myelemoffset m)%Z) 0%Z))))
                         local_tdofs)
                    t
                  = fold_left (fun t v => append_to t ip v)
                              (element_tdofs m ip) t).
      { unfold element_tdofs. rewrite fold_left_flat_map.
        rewrite forloop_fold.
        rewrite (Restrict.fold_left_by_index 0%Z _
                   (nth ip (local_element_map m) [])).
        apply fold_left_ext. intros t' iel.
        rewrite fold_left_map, forloop_fold.
        symmetry.
        apply (Restrict.fold_left_by_index 0%Z
                 (fun t0 a =>
                    append_to t0 ip
                      (GetGlobalTDofNumber m (Bridge.decode a)))). }
      rewrite E.
      destruct (append_many_spec ip (element_tdofs m ip) t) as [A1 A2].
      cbv zeta in A1, A2. split; [now rewrite A1 | ].
      intros q Hq. rewrite A2, H1, (H2 q Hq).
      replace (q <? nrsubdomains) with true
        by (symmetry; apply Nat.ltb_lt; exact Hq).
      rewrite andb_true_r.
      destruct (Nat.eqb_spec q ip) as [-> | Hne].
      + rewrite Nat.ltb_irrefl.
        replace (ip <? S ip) with true by (symmetry; apply Nat.ltb_lt; lia).
        reflexivity.
      + rewrite app_nil_r.
        destruct (Nat.ltb_spec q ip), (Nat.ltb_spec q (S ip)); try lia;
          reflexivity. }
  destruct Inv as [I1 I2]. split; [exact I1 | ].
  intros ip Hip. pose proof (I2 ip Hip) as H.
  replace (ip <? nrsubdomains) with true in H
    by (symmetry; apply Nat.ltb_lt; exact Hip).
  exact H.
Qed.

(** The messages of one process, in the order of the loops. *)
Definition gathered (local_tdofs : list (list Z)) : list message :=
  flat_map
    (fun ip =>
       let dofs := nth ip local_tdofs [] in
       if negb (Nat.eqb (length dofs) 0) then [(own ip, (ip, dofs))] else [])
    (seq 0 nrsubdomains).

Lemma over_nonempty_msgs {St : Type} (local_tdofs : list (list Z))
  (h : message -> St -> St) (st : St) :
  over_nonempty nrsubdomains local_tdofs
    (fun ip dofs => h (own ip, (ip, dofs))) st
  = fold_left (fun st m => h m st) (gathered local_tdofs) st.
Proof.
  unfold over_nonempty, gathered. rewrite forloop_fold, fold_left_flat_map.
  apply fold_left_ext. intros s ip. cbv zeta.
  now destruct (negb (length (nth ip local_tdofs []) =? 0)).
Qed.

Lemma gather_count_frames (local_tdofs : list (list Z)) :
  gather_send_count nrsubdomains subdomain_rank local_tdofs
  = count_frames (gathered local_tdofs) (fun _ => 0).
Proof.
  unfold count_frames.
  rewrite <- (over_nonempty_msgs local_tdofs
                (fun m c => updn c (fst m) (c (fst m) + (2 + length (snd (snd m)))))
                (fun _ => 0)).
  reflexivity.
Qed.

Lemma gather_fill_frames (local_tdofs : list (list Z)) (displ : counts) :
  gather_sendbuf nrsubdomains subdomain_rank local_tdofs displ
  = fst (fill_frames displ (gathered local_tdofs) (fun _ => 0%Z, fun _ => 0)).
Proof.
  unfold fill_frames.
  rewrite <- (over_nonempty_msgs local_tdofs
                (fun m st =>
                   write_frame displ (fst (snd m)) (fst m) (snd (snd m)) st)
                (fun _ => 0%Z, fun _ => 0)).
  reflexivity.
Qed.

Hypothesis Hown : forall ip, ip < nrsubdomains -> own ip < num_procs.

Lemma gathered_keys (local_tdofs : list (list Z)) (m : message) :
  In m (gathered local_tdofs) -> fst m < num_procs.
Proof.
  intros Hm. unfold gathered in Hm.
  apply in_flat_map in Hm as [ip [Hin Hm]]. apply in_seq in Hin.
  cbv zeta in Hm.
  destruct (negb (length (nth ip local_tdofs []) =? 0)); [ | easy].
  destruct Hm as [<- | []]. simpl. apply Hown. lia.
Qed.

(** Of the messages of one process, the one for subdomain [ip] reaches its
    owner and carries the whole list. *)
Lemma gathered_pick (local_tdofs : list (list Z)) (r ip : nat)
  (h : list Z -> list Z) :
  ip < nrsubdomains -> h [] = [] ->
  flat_map (pick ip h) (received r (gathered local_tdofs))
  = if Nat.eqb (own ip) r then h (nth ip local_tdofs []) else [].
Proof.
  intros Hip Hh. unfold gathered, received. cbv zeta.
  assert (E : forall l,
    map snd
      (filter (fun m : message => fst m =? r)
         (flat_map
            (fun ip =>
               if negb (length (nth ip local_tdofs []) =? 0)
               then [(own ip, (ip, nth ip local_tdofs []))] else [])
            l))
    = flat_map
        (fun ip =>
           if Nat.eqb (own ip) r && negb (length (nth ip local_tdofs []) =? 0)
           then [(ip, nth ip local_tdofs [])] else [])
        l).
  { induction l as [| a l IH]; [reflexivity | ].
    cbn [flat_map]. rewrite filter_app, map_app, IH. f_equal.
    destruct (negb (length (nth a local_tdofs []) =? 0)).
    - simpl. now destruct (own a =? r).
    - now rewrite andb_false_r. }
  rewrite E, flat_map_flat_map.
  rewrite (flat_map_single _ nrsubdomains ip Hip).
  - cbv zeta. destruct (own ip =? r); simpl andb; [ | reflexivity].
    destruct (nth ip local_tdofs []) as [| d dofs] eqn:El.
    + simpl. now rewrite Hh.
    + simpl. unfold pick. simpl. now rewrite Nat.eqb_refl, app_nil_r.
  - intros b Hb Hne. cbv zeta.
    destruct (_ && _); [ | reflexivity].
    simpl. unfold pick. simpl.
    replace (ip =? b) with false by (symmetry; apply Nat.eqb_neq; congruence).
    reflexivity.
Qed.

Lemma gather_all_spec (frames : list (nat * list Z)) :
  forall gt : list (list Z),
    let gt' := take_all
                 (fun ip tdof global_tdofs =>
                    append_to global_tdofs (Z.to_nat ip) tdof)
                 frames gt in
    length gt' = length gt /\
    forall q, nth q gt' []
              = nth q gt []
                ++ flat_map
                     (pick q (fun dofs =>
                                if Nat.ltb q (length gt) then dofs else []))
                     frames.
Proof.
  induction frames as [| [ip dofs] frames IH]; intros gt; cbv zeta.
  - simpl. split; [reflexivity | ]. intros q. now rewrite app_nil_r.
  - unfold take_all in *. cbn [fold_left].
    assert (E : take (fun ip tdof global_tdofs =>
                        append_to global_tdofs (Z.to_nat ip) tdof)
                     (ip, dofs) gt
                = fold_left (fun t v => append_to t ip v) dofs gt).
    { unfold take. simpl fst; simpl snd. now rewrite Nat2Z.id. }
    rewrite E.
    destruct (append_many_spec ip dofs gt) as [B1 B2]. cbv zeta in B1, B2.
    destruct (IH (fold_left (fun t v => append_to t ip v) dofs gt))
      as [A1 A2].
    cbv zeta in A1, A2. rewrite B1 in A1, A2.
    split; [exact A1 | ]. intros q. rewrite A2, B2, <- app_assoc.
    f_equal. simpl flat_map. f_equal. unfold pick. simpl fst; simpl snd.
    destruct (q =? ip), (q <? length gt); reflexivity.
Qed.

End Gather.

(** Parts 1 to 3 of the setup end on every process and gather the DOF
    lists at the owners.  When every subdomain has an owner: on process [r]
    the extraction loop ends; [global_tdofs] has [nrsubdomains] lists; the
    list of a subdomain that [r] owns is made of the lists that the
    processes built for it in part 1, one process after the other by
    ascending rank, each list element by element in the order of
    [local_element_map] with every DOF decoded and numbered globally; the
    list of a subdomain owned elsewhere stays empty. *)
Theorem setup_gathers_local_dofs
  (num_procs nrsubdomains : nat) (subdomain_rank : list nat)
  (parts : nat -> mesh_part) (junk : imem) (r : nat) :
  (forall ip, ip < nrsubdomains -> owner subdomain_rank ip < num_procs) ->
  r < num_procs ->
  exists global_tdofs,
    SubdomainToGlobalMapsSetup_3 num_procs nrsubdomains subdomain_rank
                                 parts junk r = Some global_tdofs /\
    length global_tdofs = nrsubdomains /\
    forall ip, ip < nrsubdomains ->
      nth ip global_tdofs []
      = if Nat.eqb (owner subdomain_rank ip) r
        then flat_map (fun s => element_tdofs (parts s) ip) (seq 0 num_procs)
        else [].
Proof.
  intros Hown Hr. unfold SubdomainToGlobalMapsSetup_3. cbv zeta.
  set (lt := fun s => collect_local_tdofs nrsubdomains (parts s)).
  pose proof (exchange_read num_procs
                (fun s => gathered nrsubdomains subdomain_rank (lt s))
                (fun s => gather_send_count nrsubdomains subdomain_rank (lt s))
                (fun s => gather_sendbuf nrsubdomains subdomain_rank (lt s)
                            (displacements num_procs
                               (gather_send_count nrsubdomains subdomain_rank
                                                  (lt s))))
                junk r
                (fun s m _ => gathered_keys _ _ _ Hown (lt s) m)
                (fun s => gather_count_frames _ _ (lt s))
                (fun s => gather_fill_frames _ _ (lt s) _)
                (fun ip tdof global_tdofs =>
                   append_to global_tdofs (Z.to_nat ip) tdof)
                (repeat [] nrsubdomains)) as HP.
  eexists. split; [exact HP | ].
  destruct (gather_all_spec
              (arrived num_procs
                 (fun s => gathered nrsubdomains subdomain_rank (lt s)) r)
              (repeat [] nrsubdomains)) as [A1 A2].
  cbv zeta in A1, A2. rewrite repeat_length in A1, A2.
  split; [exact A1 | ].
  intros ip Hip. rewrite A2, nth_repeat_empty. simpl app.
  unfold arrived. rewrite flat_map_flat_map.
  replace (ip <? nrsubdomains) with true
    by (symmetry; apply Nat.ltb_lt; exact Hip).
  rewrite (flat_map_ext_in _
             (fun s => if Nat.eqb (owner subdomain_rank ip) r
                       then element_tdofs (parts s) ip else [])).
  - destruct (owner subdomain_rank ip =? r); [reflexivity | ].
    apply flat_map_nil. reflexivity.
  - intros s _.
    rewrite (gathered_pick nrsubdomains subdomain_rank (lt s) r ip _ Hip eq_refl).
    destruct (owner subdomain_rank ip =? r); [ | reflexivity].
    unfold lt. apply (proj2 (collect_local_tdofs_spec nrsubdomains (parts s))).
    exact Hip.
Qed.

(** Two processes, two subdomains: process 0 holds element 0 of subdomain
    0, process 1 holds element 1 of both subdomains; the second DOF of
    element 1 comes with its sign flipped. *)
Definition example_parts (s : nat) : mesh_part :=
  match s with
  | O => mkMeshPart [[0]; []]%Z 0%Z (fun _ => [0; 1]%Z) (fun d => d)
  | _ => mkMeshPart [[1]; [1]]%Z 1%Z (fun _ => [0; -2]%Z) (fun d => (d + 2)%Z)
  end.

Lemma setup_gathers_local_dofs_witness :
  (exists global_tdofs,
     SubdomainToGlobalMapsSetup_3 2 2 [0; 1] example_parts (fun _ => 5%Z) 0
     = Some global_tdofs /\
     length global_tdofs = 2 /\
     forall ip, ip < 2 ->
       nth ip global_tdofs []
       = if Nat.eqb (owner [0; 1] ip) 0
         then flat_map (fun s => element_tdofs (example_parts s) ip) (seq 0 2)
         else []) /\
  SubdomainToGlobalMapsSetup_3 2 2 [0; 1] example_parts (fun _ => 5%Z) 0
  = Some [[0; 1; 2; 3]; []]%Z.
Proof.
  split; [ | vm_compute; reflexivity].
  apply (setup_gathers_local_dofs 2 2 [0; 1] example_parts (fun _ => 5%Z) 0
           before_setup_owner).
  lia.
Defined.

End Setup.

(* ================================================================== *)
(** * The limited antidiffusion (ex9.cpp:1967-2017,
      [FE_Evolution::ComputeLimitedSolution]) *)

Module Limiter.

Import Arrays.
Import Bounds.

Local Open Scope R_scope.

(** [double ... beta = 0.5, eps = 1.E-15;] *)
Definition beta : R := 0.5.
Definition eps : R := 1e-15.

(** [max(zMax, v)] and [min(zMin, v)] for a finite [v] and a running
    extremum that starts at an infinity. *)
Definition max_ext (zMax : ext) (v : R) : ext :=
  match zMax with
  | NegInf => Fin v
  | Fin m => Fin (Rmax m v)
  | PosInf => PosInf
  end.

Definition min_ext (zMin : ext) (v : R) : ext :=
  match zMin with
  | NegInf => NegInf
  | Fin m => Fin (Rmin m v)
  | PosInf => Fin v
  end.

(** The running extremum as a [double] of the arithmetic that follows.  The
    loop that uses it runs as many times as the loop that computed it, so it
    never meets an infinity. *)
Definition value (b : ext) : R :=
  match b with
  | Fin r => r
  | _ => 0
  end.

Section ComputeLimitedSolution.

(** [dt], [fct.bnds.x_min], [fct.bnds.x_max], [fct.lumpedM] are members;
    [NE] is [fes->GetMesh()->GetNE()] and [nd] is [el.GetDof()]; [Mij] is
    [M.GetData()]; [x] is the argument, and [z] is the member that
    [M_solver.Mult(y, z)] has filled from the incoming [y]. *)
Variable dt : R.
Variables x_min x_max lumpedM : mem.
Variables NE nd : nat.
Variable Mij : mem.
Variables x z : mem.

(** The first [for (i = 0; i < nd; i++)] of element [k]; the state is
    [(zMin, zMax)]. *)
Definition extrema (k : nat) : ext * ext :=
  forloop nd
    (fun i (st : ext * ext) =>
       let '(zMin, zMax) := st in
       let dofInd := (k * nd + i)%nat in
       let zMax := max_ext zMax (z dofInd) in
       let zMin := min_ext zMin (z dofInd) in
       (zMin, zMax))
    (PosInf, NegInf).

(** The second loop: [alpha(i) = min( 1., beta / dt * min(x_max(dofInd) -
    x(dofInd), x(dofInd) - x_min(dofInd)) / (max(zMax - z(dofInd), z(dofInd)
    - zMin) + eps) );] on [alpha = 1.]. *)
Definition limiters (k : nat) (zMin zMax : R) : mem :=
  forloop nd
    (fun i alpha =>
       let dofInd := (k * nd + i)%nat in
       upd alpha i
         (Rmin 1
            (beta / dt
             * Rmin (x_max dofInd - x dofInd) (x dofInd - x_min dofInd)
             / (Rmax (zMax - z dofInd) (z dofInd - zMin) + eps))))
    (fun _ => 1).

(** One turn of [for (j = nd-1; j >= 0; j--)], the [t]-th, for row [i] of
    element [k]: [if (i==j) { ctr++; continue; } y(dofInd) += alpha(i) *
    Mij[ctr] * alpha(j) * (z(dofInd) - z(k*nd+j)); ctr++;].  The state is
    [(y, ctr)]. *)
Definition column_step (k i : nat) (alpha : mem) (t : nat) (st : mem * nat)
  : mem * nat :=
  let '(y, ctr) := st in
  let j := (nd - 1 - t)%nat in
  let dofInd := (k * nd + i)%nat in
  if Nat.eqb i j then (y, (ctr + 1)%nat)
  else
    (upd y dofInd
       (y dofInd
        + alpha i * Mij ctr * alpha j * (z dofInd - z (k * nd + j)%nat)),
     (ctr + 1)%nat).

(** One turn of the third [for (i = 0; i < nd; i++)]: the columns, then
    [y(dofInd) /= fct.lumpedM(dofInd);]. *)
Definition row_step (k : nat) (alpha : mem) (i : nat) (st : mem * nat)
  : mem * nat :=
  let dofInd := (k * nd + i)%nat in
  let '(y, ctr) := forloop nd (column_step k i alpha) st in
  (upd y dofInd (y dofInd / lumpedM dofInd), ctr).

(** One pass of [for (k = 0; k < NE; k++)]. *)
Definition element (k : nat) (st : mem * nat) : mem * nat :=
  let '(zMin, zMax) := extrema k in
  let alpha := limiters k (value zMin) (value zMax) in
  forloop nd (row_step k alpha) st.

(** [void FE_Evolution::ComputeLimitedSolution(const Vector &x, Vector &y)];
    the result is the vector [y].  [ctr] starts at 0 and runs through all
    the elements. *)
Definition ComputeLimitedSolution (y : mem) : mem :=
  fst (forloop NE element (y, 0%nat)).

(** ** What the loops compute, node by node *)

(** The limiting coefficients of element [k], and the entry of [Mij] that
    row [i] reads for column [j]. *)
Definition alpha_of (k : nat) : mem :=
  limiters k (value (fst (extrema k))) (value (snd (extrema k))).

Definition M_at (k i j : nat) : R :=
  Mij (k * (nd * nd) + i * nd + (nd - 1 - j))%nat.

(** The correction that row [i] adds for column [j]. *)
Definition term (k i j : nat) : R :=
  if Nat.eqb i j then 0
  else alpha_of k i * M_at k i j * alpha_of k j
       * (z (k * nd + i)%nat - z (k * nd + j)%nat).

Definition correction (k i : nat) : R := sum_n nd (fun j => term k i j).

Lemma sum_n_shift (n : nat) (f : nat -> R) :
  sum_n (S n) f = f 0%nat + sum_n n (fun t => f (S t)).
Proof.
  induction n as [| n IH]; [unfold sum_n; simpl; lra | ].
  rewrite sum_n_S, IH, sum_n_S. lra.
Qed.

Lemma sum_n_rev (n : nat) (f : nat -> R) :
  sum_n n (fun t => f (n - 1 - t)%nat) = sum_n n f.
Proof.
  revert f. induction n as [| n IH]; intros f; [reflexivity | ].
  rewrite sum_n_S, sum_n_shift.
  replace (S n - 1 - n)%nat with 0%nat by lia.
  rewrite <- (IH (fun t => f (S t))).
  rewrite Rplus_comm. f_equal.
  apply sum_n_ext. intros t Ht. f_equal. lia.
Qed.

(** The columns of one row. *)
Lemma columns_spec (k i : nat) (alpha : mem) (y : mem) (ctr : nat) (n : nat) :
  let st := forloop n (column_step k i alpha) (y, ctr) in
  snd st = (ctr + n)%nat /\
  fst st (k * nd + i)%nat
  = y (k * nd + i)%nat
    + sum_n n
        (fun t =>
           let j := (nd - 1 - t)%nat in
           if Nat.eqb i j then 0
           else alpha i * Mij (ctr + t)%nat * alpha j
                * (z (k * nd + i)%nat - z (k * nd + j)%nat)) /\
  forall a, a <> (k * nd + i)%nat -> fst st a = y a.
Proof.
  induction n as [| n IH]; cbv zeta.
  - simpl. repeat split; [lia | unfold sum_n; simpl; lra].
  - simpl forloop. cbv zeta in IH.
    destruct (forloop n (column_step k i alpha) (y, ctr)) as [y1 c1].
    simpl fst in IH; simpl snd in IH. destruct IH as (H1 & H2 & H3).
    unfold column_step. rewrite sum_n_S. subst c1.
    destruct (Nat.eqb i (nd - 1 - n)); simpl fst; simpl snd.
    + repeat split; [lia | rewrite H2; lra | exact H3].
    + repeat split.
      * lia.
      * rewrite upd_same, H2. lra.
      * intros a Ha. rewrite upd_other by exact Ha. now apply H3.
Qed.

(** The rows of one element. *)
Lemma rows_spec (k : nat) (alpha : mem) (y : mem) (ctr : nat) (n : nat) :
  (n <= nd)%nat ->
  let st := forloop n (row_step k alpha) (y, ctr) in
  snd st = (ctr + n * nd)%nat /\
  (forall i, (i < n)%nat ->
     fst st (k * nd + i)%nat
     = (y (k * nd + i)%nat
        + sum_n nd
            (fun t =>
               let j := (nd - 1 - t)%nat in
               if Nat.eqb i j then 0
               else alpha i * Mij (ctr + i * nd + t)%nat * alpha j
                    * (z (k * nd + i)%nat - z (k * nd + j)%nat)))
       / lumpedM (k * nd + i)%nat) /\
  forall a, (forall i, (i < n)%nat -> a <> (k * nd + i)%nat) -> fst st a = y a.
Proof.
  induction n as [| n IH]; intros Hn; cbv zeta.
  - simpl. repeat split; [lia | intros; lia].
  - simpl forloop. specialize (IH ltac:(lia)). cbv zeta in IH.
    destruct (forloop n (row_step k alpha) (y, ctr)) as [y1 c1].
    simpl fst in IH; simpl snd in IH. destruct IH as (H1 & H2 & H3).
    unfold row_step.
    destruct (columns_spec k n alpha y1 c1 nd) as (C1 & C2 & C3).
    cbv zeta in C1, C2, C3.
    destruct (forloop nd (column_step k n alpha) (y1, c1)) as [y2 c2].
    simpl fst in *; simpl snd in *. subst c1 c2.
    repeat split.
    + lia.
    + intros i Hi. destruct (Nat.eq_dec i n) as [-> | Hne].
      * rewrite upd_same, C2, H3; [reflexivity | ].
        intros i Hi'. nia.
      * rewrite upd_other by lia. rewrite C3 by lia. apply H2. lia.
    + intros a Ha. rewrite upd_other by (apply Ha; lia).
      rewrite C3 by (apply Ha; lia). apply H3. intros i Hi. apply Ha. lia.
Qed.

Lemma element_spec (k : nat) (y : mem) :
  let st := element k (y, (k * (nd * nd))%nat) in
  snd st = (S k * (nd * nd))%nat /\
  (forall i, (i < nd)%nat ->
     fst st (k * nd + i)%nat
     = (y (k * nd + i)%nat + correction k i) / lumpedM (k * nd + i)%nat) /\
  forall a, (forall i, (i < nd)%nat -> a <> (k * nd + i)%nat) -> fst st a = y a.
Proof.
  cbv zeta. unfold element.
  assert (EA : limiters k (value (fst (extrema k))) (value (snd (extrema k)))
               = alpha_of k) by reflexivity.
  destruct (extrema k) as [zMin zMax]. simpl fst in EA; simpl snd in EA.
  rewrite EA.
  destruct (rows_spec k (alpha_of k) y (k * (nd * nd))%nat nd (Nat.le_refl _))
    as (R1 & R2 & R3).
  cbv zeta in R1, R2, R3.
  split; [rewrite R1; simpl; lia | ]. split; [ | exact R3].
  intros i Hi. rewrite (R2 i Hi). f_equal. f_equal.
  unfold correction.
  rewrite <- (sum_n_rev nd (fun j => term k i j)).
  apply sum_n_ext. intros t Ht. cbv zeta. unfold term, M_at.
  destruct (Nat.eqb i (nd - 1 - t)); [reflexivity | ].
  replace (nd - 1 - (nd - 1 - t))%nat with t by lia. reflexivity.
Qed.

(** Node by node: the correction is added and the sum divided by the
    lumped mass; no other entry of [y] changes. *)
Lemma ComputeLimitedSolution_spec (y : mem) :
  (forall k i, (k < NE)%nat -> (i < nd)%nat ->
     ComputeLimitedSolution y (k * nd + i)%nat
     = (y (k * nd + i)%nat + correction k i) / lumpedM (k * nd + i)%nat) /\
  forall a, (forall k i, (k < NE)%nat -> (i < nd)%nat -> a <> (k * nd + i)%nat) ->
    ComputeLimitedSolution y a = y a.
Proof.
  unfold ComputeLimitedSolution.
  assert (Inv : forall n, (n <= NE)%nat ->
    let st := forloop n element (y, 0%nat) in
    snd st = (n * (nd * nd))%nat /\
    (forall k i, (k < n)%nat -> (i < nd)%nat ->
       fst st (k * nd + i)%nat
       = (y (k * nd + i)%nat + correction k i) / lumpedM (k * nd + i)%nat) /\
    forall a, (forall k i, (k < n)%nat -> (i < nd)%nat -> a <> (k * nd + i)%nat) ->
      fst st a = y a).
  { induction n as [| n IH]; intros Hn; cbv zeta.
    - simpl. repeat split; intros; lia.
    - simpl forloop. specialize (IH ltac:(lia)). cbv zeta in IH.
      destruct (forloop n element (y, 0%nat)) as [y1 c1].
      simpl fst in IH; simpl snd in IH. destruct IH as (H1 & H2 & H3). subst c1.
      destruct (element_spec n y1) as (E1 & E2 & E3). cbv zeta in E1, E2, E3.
      split; [exact E1 | ]. split.
      + intros k i Hk Hi. destruct (Nat.eq_dec k n) as [-> | Hne].
        * rewrite (E2 i Hi), H3; [reflexivity | ].
          intros k' i' Hk' Hi' E.
          apply (FCT.dofInd_inj nd) in E; [lia | assumption | assumption].
        * rewrite E3.
          -- apply H2; [lia | exact Hi].
          -- intros i' Hi' E.
             apply (FCT.dofInd_inj nd) in E; [lia | assumption | assumption].
      + intros a Ha. rewrite E3 by (intros i Hi; apply Ha; [lia | exact Hi]).
        apply H3. intros k i Hk Hi. apply Ha; [lia | exact Hi]. }
  destruct (Inv NE (Nat.le_refl _)) as (_ & I2 & I3). cbv zeta in I2, I3.
  split; [exact I2 | exact I3].
Qed.

Lemma limiters_spec (k : nat) (zMin zMax : R) (i : nat) :
  (i < nd)%nat ->
  limiters k zMin zMax i
  = Rmin 1
      (beta / dt
       * Rmin (x_max (k * nd + i)%nat - x (k * nd + i)%nat)
              (x (k * nd + i)%nat - x_min (k * nd + i)%nat)
       / (Rmax (zMax - z (k * nd + i)%nat) (z (k * nd + i)%nat - zMin) + eps)).
Proof.
  unfold limiters.
  set (body := fun (i : nat) (alpha : mem) => upd alpha i _).
  assert (H : forall n, (i < n)%nat ->
            forloop n body (fun _ => 1) i = body i (fun _ => 1) i).
  { induction n as [| n IH]; intros Hi; [lia | ].
    simpl forloop. destruct (Nat.eq_dec i n) as [-> | Hne].
    - unfold body. now rewrite !upd_same.
    - unfold body at 1. rewrite upd_other by exact Hne. apply IH. lia. }
  intros Hi. rewrite (H nd Hi). unfold body. apply upd_same.
Qed.

(** The corrections of an element cancel when the entries read for [(i,j)]
    and for [(j,i)] agree. *)
Lemma corrections_cancel (k : nat) :
  (forall i j, (i < nd)%nat -> (j < nd)%nat -> M_at k i j = M_at k j i) ->
  sum_n nd (fun i => correction k i) = 0.
Proof.
  intros Hsym. unfold correction.
  assert (E : sum_n nd (fun i => sum_n nd (fun j => term k i j))
              = sum_n nd (fun i => sum_n nd (fun j => - term k j i))).
  { apply sum_n_ext. intros i Hi. apply sum_n_ext. intros j Hj.
    unfold term. rewrite (Nat.eqb_sym j i).
    destruct (Nat.eqb i j); [lra | ].
    rewrite (Hsym i j Hi Hj). ring. }
  assert (N : forall n (f : nat -> R),
            sum_n n (fun i => - f i) = - sum_n n f).
  { clear. intros n f. induction n as [| n IH]; [unfold sum_n; simpl; lra | ].
    rewrite !sum_n_S, IH. lra. }
  assert (E2 : sum_n nd (fun i => sum_n nd (fun j => - term k j i))
               = - sum_n nd (fun i => sum_n nd (fun j => term k i j))).
  { rewrite (sum_n_swap nd nd (fun i j => term k i j)).
    rewrite <- N. apply sum_n_ext. intros i Hi. apply N. }
  rewrite E2 in E. lra.
Qed.

(** The running maximum is above every value it has met. *)
Lemma extrema_max (k i : nat) :
  (i < nd)%nat -> z (k * nd + i)%nat <= value (snd (extrema k)).
Proof.
  unfold extrema.
  assert (H : forall n,
    let st := forloop n
      (fun i (st : ext * ext) =>
         let '(zMin, zMax) := st in
         let dofInd := (k * nd + i)%nat in
         let zMax := max_ext zMax (z dofInd) in
         let zMin := min_ext zMin (z dofInd) in
         (zMin, zMax))
      (PosInf, NegInf) in
    (n = 0%nat -> snd st = NegInf) /\
    ((0 < n)%nat ->
     exists m, snd st = Fin m /\
               forall i, (i < n)%nat -> z (k * nd + i)%nat <= m)).
  { induction n as [| n IH]; cbv zeta.
    - split; [reflexivity | lia].
    - simpl forloop. cbv zeta in IH.
      destruct (forloop n _ (PosInf, NegInf)) as [zMin zMax].
      simpl snd in *. destruct IH as [IH0 IH1].
      split; [lia | ]. intros _.
      destruct n as [| n'].
      + rewrite (IH0 eq_refl). simpl. eexists. split; [reflexivity | ].
        intros i' Hi'. replace i' with 0%nat by lia. lra.
      + destruct (IH1 ltac:(lia)) as (m & -> & Hm). simpl.
        eexists. split; [reflexivity | ].
        intros i' Hi'. destruct (Nat.eq_dec i' (S n')) as [-> | Hne].
        * apply Rmax_r.
        * apply Rle_trans with m; [apply Hm; lia | apply Rmax_l]. }
  intros Hi. destruct (H nd) as [_ H1]. cbv zeta in H1.
  destruct (H1 ltac:(lia)) as (m & E & Hm). rewrite E. simpl. now apply Hm.
Qed.

End ComputeLimitedSolution.

(** [ComputeLimitedSolution] moves mass inside the elements only.  When the
    entries of [Mij] that the loops read for [(i,j)] and for [(j,i)] agree
    on element [k] (a symmetric element mass matrix) and the lumped masses
    of its nodes are not zero, the outgoing values weighted with the lumped
    masses add up to the incoming values:
    [sum_i lumpedM(k*nd+i) * y'(k*nd+i) = sum_i y(k*nd+i)]; and no entry of
    [y] outside the nodes [k*nd+i] of the [NE] elements is written,
    whatever the solver left in [z]. *)
Theorem limited_solution_conserves
  (dt : R) (x_min x_max lumpedM : mem) (NE nd : nat) (Mij x z y : mem)
  (k : nat) :
  (k < NE)%nat ->
  (forall i j, (i < nd)%nat -> (j < nd)%nat ->
     M_at nd Mij k i j = M_at nd Mij k j i) ->
  (forall i, (i < nd)%nat -> lumpedM (k * nd + i)%nat <> 0) ->
  let y' := ComputeLimitedSolution dt x_min x_max lumpedM NE nd Mij x z y in
  sum_n nd (fun i => lumpedM (k * nd + i)%nat * y' (k * nd + i)%nat)
  = sum_n nd (fun i => y (k * nd + i)%nat) /\
  (forall a,
     (forall k i, (k < NE)%nat -> (i < nd)%nat -> a <> (k * nd + i)%nat) ->
     y' a = y a).
Proof.
  intros Hk Hsym HM y'.
  destruct (ComputeLimitedSolution_spec dt x_min x_max lumpedM NE nd Mij x z y)
    as [S1 S2].
  split; [ | exact S2].
  transitivity (sum_n nd (fun i => y (k * nd + i)%nat
                                   + correction dt x_min x_max nd Mij x z k i)).
  - apply sum_n_ext. intros i Hi. unfold y'. rewrite (S1 k i Hk Hi).
    field. apply HM. exact Hi.
  - pose proof (corrections_cancel dt x_min x_max nd Mij x z k Hsym) as Hc.
    rewrite (sum_n_plus nd (fun i => y (k * nd + i)%nat)
                        (fun i => correction dt x_min x_max nd Mij x z k i)).
    rewrite Hc. lra.
Qed.

Lemma limited_solution_conserves_witness :
  let y' := ComputeLimitedSolution 1 (fun _ => 0) (fun _ => 2) (fun _ => 2)
                                   1 2 (fun _ => 1) (fun _ => 1)
                                   (fun a => INR a) (fun _ => 3) in
  sum_n 2 (fun i => 2 * y' (0 * 2 + i)%nat)
  = sum_n 2 (fun i => 3) /\
  (forall a,
     (forall k i, (k < 1)%nat -> (i < 2)%nat -> a <> (k * 2 + i)%nat) ->
     y' a = 3).
Proof.
  apply (limited_solution_conserves 1 (fun _ => 0) (fun _ => 2) (fun _ => 2)
           1 2 (fun _ => 1) (fun _ => 1) (fun a => INR a) (fun _ => 3) 0%nat).
  - lia.
  - intros i j Hi Hj. reflexivity.
  - intros i Hi. lra.
Defined.

(** The limiting coefficients are fractions: when [dt] is positive and
    [x_min(d) <= x(d) <= x_max(d)] at a node [d = k*nd+i], the coefficient
    [alpha(i)] of element [k] lies between 0 and 1. *)
Theorem limiter_is_a_fraction
  (dt : R) (x_min x_max : mem) (nd : nat) (x z : mem) (k i : nat) :
  (i < nd)%nat -> 0 < dt ->
  let d := (k * nd + i)%nat in
  x_min d <= x d <= x_max d ->
  0 <= alpha_of dt x_min x_max nd x z k i <= 1.
Proof.
  intros Hi Hdt d Hb. unfold alpha_of. rewrite limiters_spec by exact Hi.
  fold d.
  set (N := Rmin (x_max d - x d) (x d - x_min d)).
  set (D := Rmax (value (snd (extrema nd z k)) - z d)
                 (z d - value (fst (extrema nd z k))) + eps).
  assert (HN : 0 <= N) by (unfold N; apply Rmin_glb; lra).
  assert (HD : 0 < D).
  { unfold D. pose proof (extrema_max nd z k i Hi) as Hm. fold d in Hm.
    pose proof (Rmax_l (value (snd (extrema nd z k)) - z d)
                       (z d - value (fst (extrema nd z k)))) as Hl.
    unfold eps. lra. }
  split; [ | apply Rmin_l].
  apply Rmin_glb; [lra | ].
  apply Rmult_le_pos; [ | left; now apply Rinv_0_lt_compat].
  apply Rmult_le_pos; [ | exact HN].
  unfold beta. apply Rmult_le_pos; [lra | left; now apply Rinv_0_lt_compat].
Qed.

Lemma limiter_is_a_fraction_witness :
  0 <= alpha_of 1 (fun _ => 0) (fun _ => 2) 2 (fun _ => 1) (fun a => INR a)
                0%nat 1%nat
    <= 1.
Proof.
  apply (limiter_is_a_fraction 1 (fun _ => 0) (fun _ => 2) 2 (fun _ => 1)
           (fun a => INR a) 0%nat 1%nat).
  - lia.
  - lra.
  - simpl. lra.
Defined.

(** A node that sits on one of its bounds gets no correction: when [dt] is
    not zero and [x_min(d) <= x(d) <= x_max(d)] with one of the two an
    equality at a node [d = k*nd+i], its limiting coefficient is zero and
    [ComputeLimitedSolution] leaves [y(d) / lumpedM(d)] there. *)
Theorem limited_solution_at_bound
  (dt : R) (x_min x_max lumpedM : mem) (NE nd : nat) (Mij x z y : mem)
  (k i : nat) :
  (k < NE)%nat -> (i < nd)%nat -> dt <> 0 ->
  let d := (k * nd + i)%nat in
  x_min d <= x d <= x_max d ->
  x d = x_min d \/ x d = x_max d ->
  alpha_of dt x_min x_max nd x z k i = 0 /\
  ComputeLimitedSolution dt x_min x_max lumpedM NE nd Mij x z y d
  = y d / lumpedM d.
Proof.
  intros Hk Hi Hdt d Hb Heq.
  assert (HA : alpha_of dt x_min x_max nd x z k i = 0).
  { unfold alpha_of. rewrite limiters_spec by exact Hi. fold d.
    assert (E : Rmin (x_max d - x d) (x d - x_min d) = 0).
    { destruct Heq as [E | E]; rewrite E in *.
      - rewrite Rminus_diag. apply Rmin_right. lra.
      - rewrite Rminus_diag. apply Rmin_left. lra. }
    rewrite E. unfold Rdiv. rewrite Rmult_0_r, Rmult_0_l.
    apply Rmin_right. lra. }
  split; [exact HA | ].
  destruct (ComputeLimitedSolution_spec dt x_min x_max lumpedM NE nd Mij x z y)
    as [S1 _].
  unfold d. rewrite (S1 k i Hk Hi). f_equal.
  replace (correction dt x_min x_max nd Mij x z k i) with 0; [lra | ].
  symmetry. unfold correction. apply Accumulate.sum_n_none. intros j Hj.
  unfold term. destruct (Nat.eqb i j); [reflexivity | ].
  rewrite HA. ring.
Qed.

Lemma limited_solution_at_bound_witness :
  alpha_of 1 (fun _ => 0) (fun _ => 1) 2 (fun _ => 1) (fun a => INR a)
           0%nat 1%nat = 0 /\
  ComputeLimitedSolution 1 (fun _ => 0) (fun _ => 1) (fun _ => 2) 1 2
                         (fun _ => 1) (fun _ => 1) (fun a => INR a)
                         (fun _ => 3) (0 * 2 + 1)%nat
  = 3 / 2.
Proof.
  apply (limited_solution_at_bound 1 (fun _ => 0) (fun _ => 1) (fun _ => 2)
           1 2 (fun _ => 1) (fun _ => 1) (fun a => INR a) (fun _ => 3)
           0%nat 1%nat).
  - lia.
  - lia.
  - lra.
  - simpl. lra.
  - right. reflexivity.
Defined.

End Limiter.
